(** * A B-tree with top-down insertion and deletion (bTree.h, bTree.cpp)

    The C++ class [BTree<T>] keeps its nodes on the heap and updates them in
    place through raw pointers.  The embedding below keeps that shape: a
    store of [BNode] records indexed by addresses, a [root] pointer, and the
    member functions as computations in a small state-and-error monad.
    Array accesses are bounds-checked by the model so that an access the
    C++ program would perform outside an allocation shows up as a [Fault]. *)

From stdpp Require Import gmap list sorting.
From Stdlib Require Import ZArith Ascii.
From Stdlib Require String.

Set Warnings "-register-all,-clear-no-such-hyp".

(** ** Memory model *)

(** Addresses; [NULL] is [#define NULL 0]. *)
Abbreviation addr := nat (only parsing).
Definition NULL : addr := 0.

(** [typedef char BTREE_EXCEPTION] and the two values thrown. *)
Definition BTREE_EXCEPTION := ascii.
Definition SEARCH_KEY_NOT_FOUND : BTREE_EXCEPTION := "s"%char.
Definition REMOVE_KEY_NOT_FOUND : BTREE_EXCEPTION := "r"%char.

(** Return codes of [mergeChildren] and [fixChildSize]. *)
Definition NEW_ROOT : nat := 2.
Definition MODIFIED_NOT_ROOT : nat := 1.
Definition NOT_MODIFIED : nat := 0.

(** Ways in which the C++ program leaves defined behaviour. *)
Inductive fault :=
  | OutOfBounds     (* array index outside the malloc'ed block *)
  | BadPointer      (* dereference of NULL, of garbage or of a freed node *)
  | Uninitialised.  (* read of a key slot that was never written *)

Section Memory.

Context {T : Type}.

(** [struct BNode].  The arrays have the capacity they were allocated with
    ([2t-1] keys, [2t] children); slots at or after [size] keep whatever
    was last written there.  A key slot never written is [None]; a child
    slot never written holds garbage, modelled as [NULL]. *)
Record BNode := mkBNode {
  child : list addr;
  key : list (option T);
  size : nat;
  leaf : bool
}.

(** The object state: the [root] field together with the heap it points
    into.  [brk] is the next address [malloc] hands out; addresses are
    never reused. *)
Record BTree := mkBTree {
  root : addr;
  heap : gmap addr BNode;
  brk : addr
}.

Inductive result (A : Type) :=
  | Ok (a : A) (s : BTree)
  | Throw (e : BTREE_EXCEPTION) (s : BTree)
  | Fault (f : fault)
  | OutOfFuel.
Global Arguments Ok {A} a s.
Global Arguments Throw {A} e s.
Global Arguments Fault {A} f.
Global Arguments OutOfFuel {A}.

Definition M (A : Type) := BTree → result A.

Definition ret {A} (a : A) : M A := λ s, Ok a s.
Definition bind {A B} (m : M A) (f : A → M B) : M B := λ s,
  match m s with
  | Ok a s' => f a s'
  | Throw e s' => Throw e s'
  | Fault x => Fault x
  | OutOfFuel => OutOfFuel
  end.
Definition throw {A} (e : BTREE_EXCEPTION) : M A := λ s, Throw e s.
Definition crash {A} (f : fault) : M A := λ _, Fault f.
Definition out_of_fuel {A} : M A := λ _, OutOfFuel.

End Memory.

Notation "'let!' x ':=' m 'in' k" := (bind m (λ x, k))
  (at level 10, x name, m at level 100, k at level 200).
Notation "m ';;;' k" := (bind m (λ _, k))
  (at level 100, k at level 200, right associativity).

Section BTree.

Context {T : Type}.
Local Abbreviation BNode := (@BNode T).
Local Abbreviation BTree := (@BTree T).
Local Abbreviation M := (@M T).

Definition upd (p : addr) (nd : BNode) (s : BTree) : BTree :=
  mkBTree (root s) (<[p := nd]> (heap s)) (brk s).

Definition load (p : addr) : M BNode := λ s,
  match heap s !! p with
  | Some nd => Ok nd s
  | None => Fault BadPointer
  end.
Definition store (p : addr) (nd : BNode) : M unit := λ s, Ok tt (upd p nd s).

Definition reroot (p : addr) (s : BTree) : BTree :=
  mkBTree p (heap s) (brk s).

Definition del (p : addr) (s : BTree) : BTree :=
  mkBTree (root s) (delete p (heap s)) (brk s).

Definition get_root : M addr := λ s, Ok (root s) s.
Definition set_root (p : addr) : M unit := λ s, Ok tt (reroot p s).

Definition get_size (p : addr) : M nat := let! nd := load p in ret (size nd).
Definition set_size (p : addr) (n : nat) : M unit :=
  let! nd := load p in store p (mkBNode (child nd) (key nd) n (leaf nd)).
Definition get_leaf (p : addr) : M bool := let! nd := load p in ret (leaf nd).
Definition set_leaf (p : addr) (b : bool) : M unit :=
  let! nd := load p in store p (mkBNode (child nd) (key nd) (size nd) b).

Definition get_key (p : addr) (i : nat) : M T :=
  let! nd := load p in
  match key nd !! i with
  | Some (Some v) => ret v
  | Some None => crash Uninitialised
  | None => crash OutOfBounds
  end.
Definition set_key (p : addr) (i : nat) (v : T) : M unit :=
  let! nd := load p in
  if decide (i < length (key nd))
  then store p (mkBNode (child nd) (<[i := Some v]> (key nd)) (size nd) (leaf nd))
  else crash OutOfBounds.

Definition get_child (p : addr) (i : nat) : M addr :=
  let! nd := load p in
  match child nd !! i with
  | Some c => ret c
  | None => crash OutOfBounds
  end.
Definition set_child (p : addr) (i : nat) (c : addr) : M unit :=
  let! nd := load p in
  if decide (i < length (child nd))
  then store p (mkBNode (<[i := c]> (child nd)) (key nd) (size nd) (leaf nd))
  else crash OutOfBounds.

(** [malloc(sizeof(BNode<T>))]: a fresh node whose fields are garbage. *)
Definition malloc : M addr := λ s,
  Ok (brk s) (mkBTree (root s) (<[brk s := mkBNode [] [] 0 false]> (heap s)) (S (brk s))).

(** [free(x->child); free(x->key); free(x)]. *)
Definition free (p : addr) : M unit := λ s,
  match heap s !! p with
  | Some _ => Ok tt (del p s)
  | None => Fault BadPointer
  end.

(** [for (unsigned j = from; j < from + count; j++) body(j)] for a bound that
    the body does not change. *)
Fixpoint for_range (from count : nat) (body : nat → M unit) : M unit :=
  match count with
  | 0 => ret tt
  | S c => body from;;; for_range (S from) c body
  end.

(** ** The member functions *)

Variable lessThan : T → T → bool.
Variable minDegree : nat.

(** [BTree<T>::initializeNode] *)
Definition initializeNode (x : addr) : M unit :=
  let! nd := load x in
  store x (mkBNode (replicate (2 * minDegree) NULL)
                   (replicate (2 * minDegree - 1) None) 0 (leaf nd)).

(** [BTree<T>::BTree]; the state before it has nothing allocated. *)
Definition BTree_new : M unit :=
  let! r := malloc in
  set_root r;;;
  initializeNode r;;;
  set_leaf r true.

Definition empty_heap : BTree := mkBTree NULL ∅ 1.

(** [BTree<T>::findIndex]: [rem] counts the iterations left, [size - i]. *)
Fixpoint findIndex_from (rem : nat) (x : addr) (k : T) (i : nat) : M nat :=
  match rem with
  | 0 => ret i
  | S r =>
      let! kv := get_key x i in
      if lessThan kv k then findIndex_from r x k (S i) else ret i
  end.

Definition findIndex (x : addr) (k : T) : M nat :=
  let! sz := get_size x in findIndex_from sz x k 0.

(** [BTree<T>::nodeInsert]: the shifting loop, by recursion on [index]. *)
Fixpoint nodeInsert_shift (index : nat) (x : addr) (k : T) : M nat :=
  match index with
  | 0 => ret 0
  | S i =>
      let! kv := get_key x i in
      if lessThan k kv then
        set_key x (S i) kv;;;
        (let! c := get_child x (S i) in set_child x (S (S i)) c);;;
        nodeInsert_shift i x k
      else ret (S i)
  end.

Definition nodeInsert (x : addr) (k : T) : M nat :=
  let! sz := get_size x in
  let! index := nodeInsert_shift sz x k in
  (let! c := get_child x index in set_child x (index + 1) c);;;
  set_key x index k;;;
  (let! sz' := get_size x in set_size x (sz' + 1));;;
  ret index.

(** [BTree<T>::nodeDelete].  [size] is unsigned: decrementing it at zero
    wraps around and the loop that follows runs off the end of the arrays,
    which is the [OutOfBounds] branch. *)
Fixpoint nodeDelete_shift (rem : nat) (x : addr) (index : nat) : M unit :=
  match rem with
  | 0 => ret tt
  | S r =>
      (let! kv := get_key x (index + 1) in set_key x index kv);;;
      (let! c := get_child x (index + 2) in set_child x (index + 1) c);;;
      nodeDelete_shift r x (S index)
  end.

Definition nodeDelete (x : addr) (index : nat) : M T :=
  let! toReturn := get_key x index in
  let! sz := get_size x in
  match sz with
  | 0 => crash OutOfBounds
  | S sz' =>
      set_size x sz';;;
      nodeDelete_shift (sz' - index) x index;;;
      ret toReturn
  end.

(** [BTree<T>::splitChild] *)
Definition splitChild (x : addr) (i : nat) : M unit :=
  let! toSplit := get_child x i in
  let! newNode := malloc in
  initializeNode newNode;;;
  (let! lf := get_leaf toSplit in set_leaf newNode lf);;;
  set_size newNode (minDegree - 1);;;
  for_range 0 (minDegree - 1) (λ j,
    let! kv := get_key toSplit (j + minDegree) in set_key newNode j kv);;;
  let! lf := get_leaf toSplit in
  (if negb lf then
     for_range 0 minDegree (λ j,
       let! c := get_child toSplit (j + minDegree) in set_child newNode j c)
   else ret tt);;;
  set_size toSplit (minDegree - 1);;;
  (let! kv := get_key toSplit (minDegree - 1) in nodeInsert x kv);;;
  set_child x (i + 1) newNode.

(** [BTree<T>::mergeChildren] *)
Definition mergeChildren (parent : addr) (i : nat) : M nat :=
  let! leftKid := get_child parent i in
  let! rightKid := get_child parent (i + 1) in
  let! kv := nodeDelete parent i in
  (let! lsz := get_size leftKid in set_key leftKid lsz kv);;;
  let! lsz := get_size leftKid in
  set_size leftKid (lsz + 1);;;
  let j := lsz + 1 in
  let! rsz := get_size rightKid in
  for_range 0 rsz (λ k,
    (let! kv := get_key rightKid k in set_key leftKid (j + k) kv);;;
    (let! c := get_child rightKid k in set_child leftKid (j + k) c));;;
  (let! lsz := get_size leftKid in
   let! rsz := get_size rightKid in
   set_size leftKid (lsz + rsz));;;
  (let! rsz := get_size rightKid in
   let! c := get_child rightKid rsz in
   let! lsz := get_size leftKid in
   set_child leftKid lsz c);;;
  free rightKid;;;
  let! psz := get_size parent in
  if decide (psz = 0) then
    set_root leftKid;;;
    free parent;;;
    ret NEW_ROOT
  else ret MODIFIED_NOT_ROOT.

(** The loop in the left-borrow branch of [fixChildSize]:
    [for (i = ...; i != 0; i--) kid->child[i] = kid->child[i - 1]]. *)
Fixpoint shift_children (i : nat) (kid : addr) : M unit :=
  match i with
  | 0 => ret tt
  | S i' =>
      (let! c := get_child kid i' in set_child kid (S i') c);;;
      shift_children i' kid
  end.

(** [BTree<T>::fixChildSize] *)
Definition fixChildSize (parent : addr) (index : nat) : M nat :=
  let! kid := get_child parent index in
  let! ksz := get_size kid in
  if decide (ksz < minDegree) then
    let! borrowLeft :=
      (if decide (index ≠ 0) then
         let! l := get_child parent (index - 1) in
         let! lsz := get_size l in
         ret (bool_decide (minDegree ≤ lsz))
       else ret false) in
    if borrowLeft then
      let! leftKid := get_child parent (index - 1) in
      (let! kv := get_key parent (index - 1) in
       let! i := nodeInsert kid kv in
       shift_children i kid);;;
      (let! lsz := get_size leftKid in
       let! c := get_child leftKid lsz in
       set_child kid 0 c);;;
      (let! lsz := get_size leftKid in
       let! kv := nodeDelete leftKid (lsz - 1) in
       set_key parent (index - 1) kv);;;
      ret MODIFIED_NOT_ROOT
    else
      let! psz := get_size parent in
      let! borrowRight :=
        (if decide (index ≠ psz) then
           let! r := get_child parent (index + 1) in
           let! rsz := get_size r in
           ret (bool_decide (minDegree ≤ rsz))
         else ret false) in
      if borrowRight then
        let! rightKid := get_child parent (index + 1) in
        (let! kv := get_key parent index in nodeInsert kid kv);;;
        (let! c := get_child rightKid 0 in
         let! ksz' := get_size kid in
         set_child kid ksz' c);;;
        (let! c := get_child rightKid 1 in set_child rightKid 0 c);;;
        (let! kv := nodeDelete rightKid 0 in set_key parent index kv);;;
        ret MODIFIED_NOT_ROOT
      else if decide (index ≠ 0) then mergeChildren parent (index - 1)
      else mergeChildren parent index
  else ret NOT_MODIFIED.

(** [BTree<T>::insert].  The scan for the child index runs an [int] from
    [size - 1] down to [-1] and adds one; [insert_scan] carries [index + 1]. *)
Fixpoint insert_scan (j : nat) (curr : addr) (k : T) : M nat :=
  match j with
  | 0 => ret 0
  | S i =>
      let! kv := get_key curr i in
      if lessThan k kv then insert_scan i curr k else ret (S i)
  end.

(** One turn of the descent loop of [insert]: find the child to go to and
    split it first when it is full.  Returns the final [index]. *)
Definition insert_pick_child (curr : addr) (k : T) : M nat :=
  let! sz := get_size curr in
  let! index := insert_scan sz curr k in
  let! c := get_child curr index in
  let! csz := get_size c in
  if decide (csz = 2 * minDegree - 1) then
    splitChild curr index;;;
    let! kv := get_key curr index in
    if lessThan kv k then ret (S index) else ret index
  else ret index.

Fixpoint insert_descend (fuel : nat) (curr : addr) (k : T) : M unit :=
  let! lf := get_leaf curr in
  if lf then nodeInsert curr k;;; ret tt
  else
    match fuel with
    | 0 => out_of_fuel
    | S fuel' =>
        let! index := insert_pick_child curr k in
        let! c := get_child curr index in
        insert_descend fuel' c k
    end.

Definition insert (fuel : nat) (k : T) : M unit :=
  let! r := get_root in
  let! rsz := get_size r in
  (if decide (rsz = 2 * minDegree - 1) then
     let! newRoot := malloc in
     initializeNode newRoot;;;
     set_leaf newRoot false;;;
     set_child newRoot 0 r;;;
     set_root newRoot;;;
     splitChild newRoot 0
   else ret tt);;;
  let! curr := get_root in
  insert_descend fuel curr k.

(** The test [i < x->size && !(lessThan(a, b) || lessThan(b, a))] of [remove]
    and [search], with the key read only when the index is in range. *)
Definition key_matches (x : addr) (i : nat) (k : T) : M bool :=
  let! sz := get_size x in
  if decide (i < sz) then
    let! kv := get_key x i in
    ret (negb (lessThan kv k || lessThan k kv))
  else ret false.

(** [BTree<T>::remove]: the two inner loops that walk to the predecessor
    and to the successor leaf. *)
Fixpoint descend_rightmost (fuel : nat) (leftKid : addr) : M addr :=
  let! lf := get_leaf leftKid in
  if lf then ret leftKid
  else
    match fuel with
    | 0 => out_of_fuel
    | S fuel' =>
        (let! sz := get_size leftKid in fixChildSize leftKid sz);;;
        let! sz := get_size leftKid in
        let! c := get_child leftKid sz in
        descend_rightmost fuel' c
    end.

Fixpoint descend_leftmost (fuel : nat) (rightKid : addr) : M addr :=
  let! lf := get_leaf rightKid in
  if lf then ret rightKid
  else
    match fuel with
    | 0 => out_of_fuel
    | S fuel' =>
        fixChildSize rightKid 0;;;
        let! c := get_child rightKid 0 in
        descend_leftmost fuel' c
    end.

Fixpoint remove_loop (fuel : nat) (curr : addr) (k : T) : M T :=
  match fuel with
  | 0 => out_of_fuel
  | S fuel' =>
      let! i := findIndex curr k in
      let! found := key_matches curr i k in
      if found then
        let! toReturn := get_key curr i in
        let! lf := get_leaf curr in
        if lf then nodeDelete curr i;;; ret toReturn
        else
          let! leftKid := get_child curr i in
          let! rightKid := get_child curr (i + 1) in
          let! lsz := get_size leftKid in
          if decide (minDegree ≤ lsz) then
            let! leftKid := descend_rightmost fuel' leftKid in
            (let! lsz := get_size leftKid in
             let! kv := nodeDelete leftKid (lsz - 1) in
             set_key curr i kv);;;
            ret toReturn
          else
            let! rsz := get_size rightKid in
            if decide (minDegree ≤ rsz) then
              let! rightKid := descend_leftmost fuel' rightKid in
              (let! kv := nodeDelete rightKid 0 in set_key curr i kv);;;
              ret toReturn
            else
              mergeChildren curr i;;;
              remove_loop fuel' leftKid k
      else
        let! lf := get_leaf curr in
        if lf then throw REMOVE_KEY_NOT_FOUND
        else
          let! res := fixChildSize curr i in
          if decide (res = NEW_ROOT) then
            let! r := get_root in remove_loop fuel' r k
          else
            let! j := findIndex curr k in
            let! c := get_child curr j in
            remove_loop fuel' c k
  end.

Definition remove (fuel : nat) (k : T) : M T :=
  let! r := get_root in remove_loop fuel r k.

(** [BTree<T>::search]; the pair [(NULL, 0)] reports absence. *)
Fixpoint search_loop (fuel : nat) (x : addr) (k : T) : M (addr * nat) :=
  match fuel with
  | 0 => out_of_fuel
  | S fuel' =>
      let! i := findIndex x k in
      let! sz := get_size x in
      let! found :=
        (if decide (i < sz) then
           let! kv := get_key x i in
           ret (negb (lessThan k kv || lessThan kv k))
         else ret false) in
      if found then ret (x, i)
      else
        let! lf := get_leaf x in
        if lf then ret (NULL, 0)
        else
          let! c := get_child x i in
          search_loop fuel' c k
  end.

Definition search (fuel : nat) (k : T) : M (addr * nat) :=
  let! r := get_root in search_loop fuel r k.

(** [BTree<T>::searchKey] *)
Definition searchKey (fuel : nat) (k : T) : M T :=
  let! node := search fuel k in
  if decide (node.1 = NULL) then throw SEARCH_KEY_NOT_FOUND
  else get_key node.1 node.2.

(** [BTree<T>::freeNode] and the destructor [~BTree].  The three [free]s
    of a node's arrays and of the node itself are the one [free] of the
    model.  The loop bound [x->size] is read from a node that the loop body
    does not write. *)
Fixpoint freeNode (fuel : nat) (x : addr) : M unit :=
  let! lf := get_leaf x in
  (if negb lf then
     match fuel with
     | 0 => out_of_fuel
     | S fuel' =>
         let! sz := get_size x in
         for_range 0 (S sz) (λ i,
           let! c := get_child x i in freeNode fuel' c)
     end
   else ret tt);;;
  free x.

Definition BTree_delete (fuel : nat) : M unit :=
  let! r := get_root in freeNode fuel r.

(** [BTree<T>::print] and [printNode].  What goes to the standard output
    is returned as the list of the [printf] texts and of the keys handed to
    [printKey], in the order of the calls. *)
Inductive out := Printf (text : String.string) | PrintKey (k : T).

Definition TAB : String.string := String.String "009" String.EmptyString.
Definition SPACE : String.string := String.String " " String.EmptyString.
Definition NEWLINE : String.string := String.String "010" String.EmptyString.

(** [for (unsigned i = from; i < from + count; i++) body(i)] with the
    output of the iterations in sequence. *)
Fixpoint for_out (from count : nat) (body : nat → M (list out)) : M (list out) :=
  match count with
  | 0 => ret []
  | S c =>
      let! o := body from in
      let! os := for_out (S from) c body in
      ret (o ++ os)
  end.

Fixpoint printNode (fuel : nat) (node : addr) (tab : nat) : M (list out) :=
  let indent := replicate tab (Printf TAB) in
  let! sz := get_size node in
  let! line := for_out 0 sz (λ i,
    let! kv := get_key node i in ret [PrintKey kv; Printf SPACE]) in
  let! lf := get_leaf node in
  let! below :=
    (if negb lf then
       match fuel with
       | 0 => out_of_fuel
       | S fuel' =>
           let! sz' := get_size node in
           for_out 0 (S sz') (λ i,
             let! c := get_child node i in printNode fuel' c (S tab))
       end
     else ret []) in
  ret (indent ++ line ++ Printf NEWLINE :: below).

(** [printKey] is a function pointer; [has_printKey] tells whether it is
    not [NULL]. *)
Definition print (has_printKey : bool) (fuel : nat) : M (list out) :=
  let! r := get_root in
  if has_printKey && negb (bool_decide (r = NULL)) then
    let! o := printNode fuel r 0 in
    ret (Printf NEWLINE :: o ++ [Printf NEWLINE])
  else ret [].

(** ** Callers and observations *)

(** A call of the public interface.  [run_calls] is a caller that catches
    the [BTREE_EXCEPTION] of a failed [remove] and carries on with the tree
    as the call left it. *)
Inductive call := Insert (k : T) | Remove (k : T).

Definition do_call (fuel : nat) (c : call) : M unit :=
  match c with
  | Insert k => insert fuel k
  | Remove k => remove fuel k;;; ret tt
  end.

Fixpoint run_calls (fuel : nat) (cs : list call) (s : BTree) : result unit :=
  match cs with
  | [] => Ok tt s
  | c :: cs' =>
      match do_call fuel c s with
      | Ok _ s' | Throw _ s' => run_calls fuel cs' s'
      | Fault f => Fault f
      | OutOfFuel => OutOfFuel
      end
  end.

(** A caller that catches nothing: [insert_all] inserts the keys of a list
    one after the other, [remove_all] removes them one after the other and
    collects what the calls of [remove] return.  An exception of a call
    ends the run. *)
Fixpoint insert_all (fuel : nat) (l : list T) : M unit :=
  match l with
  | [] => ret tt
  | k :: l' => insert fuel k;;; insert_all fuel l'
  end.

Fixpoint remove_all (fuel : nat) (l : list T) : M (list T) :=
  match l with
  | [] => ret []
  | k :: l' =>
      let! v := remove fuel k in
      let! vs := remove_all fuel l' in
      ret (v :: vs)
  end.

(** The tree a pointer denotes: the node's address, the keys below [size]
    and, for an internal node, the subtrees behind its first [size + 1]
    child pointers.  A node reachable along two paths is unfolded once per
    path, as [printNode] would print it. *)
Inductive tree := Node (p : addr) (ks : list T) (cs : list tree).

Fixpoint tree_of (fuel : nat) (h : gmap addr BNode) (p : addr) : option tree :=
  match fuel with
  | 0 => None
  | S fuel' =>
      nd ← h !! p;
      ks ← mapM id (take (size nd) (key nd));
      if decide (length ks = size nd) then
        if leaf nd then Some (Node p ks [])
        else
          cs ← mapM (tree_of fuel' h) (take (S (size nd)) (child nd));
          if decide (length cs = S (size nd)) then Some (Node p ks cs) else None
      else None
  end.

Definition addr_of (tr : tree) : addr := match tr with Node p _ _ => p end.
Definition keys_of (tr : tree) : list T := match tr with Node _ ks _ => ks end.
Definition kids_of (tr : tree) : list tree := match tr with Node _ _ cs => cs end.

(** The addresses of all nodes of a tree, with multiplicity. *)
Fixpoint addrs (tr : tree) : list addr :=
  match tr with Node p _ cs => p :: (cs ≫= addrs) end.

(** In-order traversal: the first subtree, then each key followed by the
    subtree to its right.  A leaf has no subtrees and yields its keys. *)
Definition join (cs : list (list T)) (ks : list T) : list T :=
  match cs with
  | [] => ks
  | c0 :: cs' => c0 ++ mjoin (zip_with cons ks cs')
  end.

(** The in-order keys before a child (each earlier subtree followed by its
    key) and after it (each later key followed by its subtree). *)
Definition lpart (cs : list (list T)) (ks : list T) : list T :=
  mjoin (zip_with (λ c k, c ++ [k]) cs ks).
Definition rpart (ks : list T) (cs : list (list T)) : list T :=
  mjoin (zip_with cons ks cs).

Fixpoint inorder (tr : tree) : list T :=
  match tr with Node _ ks cs => join (inorder <$> cs) ks end.

(** The keys among what was printed, and the lines [printNode] prints for
    a tree: one per node, parents before children, indented by depth. *)
Definition out_keys (o : list out) : list T :=
  omap (λ e, match e with PrintKey k => Some k | Printf _ => None end) o.

Fixpoint layout (tab : nat) (tr : tree) : list out :=
  match tr with
  | Node _ ks cs =>
      replicate tab (Printf TAB) ++
      (ks ≫= λ k, [PrintKey k; Printf SPACE]) ++
      Printf NEWLINE :: (cs ≫= layout (S tab))
  end.

(** Number of levels. *)
Fixpoint height (tr : tree) : nat :=
  match tr with Node _ _ cs => S (foldr max 0 (height <$> cs)) end.

(** [shape n lo tr]: all leaves of [tr] are [n] levels below its top, the
    top node has between [lo] and [2t-1] keys, every node below it between
    [t-1] and [2t-1], and every internal node one more child than keys. *)
Fixpoint shape (n lo : nat) (tr : tree) : Prop :=
  match tr with
  | Node _ ks cs =>
      lo ≤ length ks ≤ 2 * minDegree - 1 ∧
      match n with
      | 0 => cs = []
      | S n' => length cs = S (length ks) ∧ Forall (shape n' (minDegree - 1)) cs
      end
  end.

(** What a node's arrays hold below [size]. *)
Definition keys_are (nd : BNode) (ks : list T) : Prop :=
  size nd = length ks ∧ ∀ i v, ks !! i = Some v → key nd !! i = Some (Some v).
Definition kids_are (nd : BNode) (ps : list addr) : Prop :=
  length ps = S (size nd) ∧ ∀ i c, ps !! i = Some c → child nd !! i = Some c.
Definition caps_ok (nd : BNode) : Prop :=
  length (key nd) = 2 * minDegree - 1 ∧ length (child nd) = 2 * minDegree.

(** [rep n h tr]: the heap [h] holds the tree [tr], of [n] levels below
    its top node, at the addresses [tr] names. *)
Fixpoint rep (n : nat) (h : gmap addr BNode) (tr : tree) : Prop :=
  match tr with
  | Node p ks cs =>
      ∃ nd, h !! p = Some nd ∧ keys_are nd ks ∧ caps_ok nd ∧
        match n with
        | 0 => leaf nd = true ∧ cs = []
        | S n' =>
            leaf nd = false ∧ kids_are nd (addr_of <$> cs) ∧ Forall (rep n' h) cs
        end
  end.

(** [shape] and [rep] as tests, for states given in full. *)
Fixpoint shape_check (n lo : nat) (tr : tree) : bool :=
  match tr with
  | Node _ ks cs =>
      bool_decide (lo ≤ length ks ≤ 2 * minDegree - 1) &&
      match n with
      | 0 => match cs with [] => true | _ => false end
      | S n' =>
          bool_decide (length cs = S (length ks)) &&
          forallb (shape_check n' (minDegree - 1)) cs
      end
  end.

Fixpoint rep_check `{EqDecision T} (n : nat) (h : gmap addr BNode) (tr : tree)
    {struct n} : bool :=
  match tr with
  | Node p ks cs =>
      match h !! p with
      | None => false
      | Some nd =>
          bool_decide (size nd = length ks) &&
          bool_decide (take (length ks) (key nd) = Some <$> ks) &&
          bool_decide (length (key nd) = 2 * minDegree - 1) &&
          bool_decide (length (child nd) = 2 * minDegree) &&
          match n with
          | 0 => leaf nd && match cs with [] => true | _ => false end
          | S n' =>
              negb (leaf nd) &&
              bool_decide (length cs = S (length ks)) &&
              bool_decide (take (length cs) (child nd) = addr_of <$> cs) &&
              forallb (rep_check n' h) cs
          end
      end
  end.

(** The index loops of [findIndex], [insert] and [nodeInsert] on a list of
    keys. *)
Fixpoint find_pos (k : T) (ks : list T) : nat :=
  match ks with
  | [] => 0
  | v :: ks' => if lessThan v k then S (find_pos k ks') else 0
  end.

Fixpoint ins_pos (k : T) (ks : list T) (index : nat) : nat :=
  match index with
  | 0 => 0
  | S i =>
      match ks !! i with
      | Some v => if lessThan k v then ins_pos k ks i else S i
      | None => S i
      end
  end.

(** *** Trees after the restructuring steps *)

Definition nkeys (tr : tree) : nat := length (keys_of tr).

(** Child [i] of [tr], full, gives its upper half to a new node at [z] and
    its median key to [tr]. *)
Definition split_at (i : nat) (z : addr) (tr : tree) : tree :=
  match tr with
  | Node p ks cs =>
      match cs !! i with
      | Some (Node y ksy csy) =>
          match ksy !! (minDegree - 1) with
          | Some m =>
              Node p (take i ks ++ m :: drop i ks)
                (take i cs ++
                 Node y (take (minDegree - 1) ksy) (take minDegree csy) ::
                 Node z (drop minDegree ksy) (drop minDegree csy) ::
                 drop (S i) cs)
          | None => tr
          end
      | None => tr
      end
  end.

(** One turn of [insert]'s descent on the tree at [curr]: the index of the
    child to go to, shifted past the key that a split brought up when that
    key is less than [k], and the tree the turn leaves, with the new node
    at [z]. *)
Definition pick_index (k : T) (tr : tree) : nat :=
  match tr with
  | Node _ ks cs =>
      let index := ins_pos k ks (length ks) in
      match cs !! index with
      | Some c =>
          if decide (nkeys c = 2 * minDegree - 1) then
            match keys_of c !! (minDegree - 1) with
            | Some m => if lessThan m k then S index else index
            | None => index
            end
          else index
      | None => index
      end
  end.

Definition pick_split (k : T) (z : addr) (tr : tree) : tree :=
  match tr with
  | Node _ ks cs =>
      let index := ins_pos k ks (length ks) in
      match cs !! index with
      | Some c => if decide (nkeys c = 2 * minDegree - 1) then split_at index z tr else tr
      | None => tr
      end
  end.

(** The index as the specification words it: shifted when [k] is not less
    than the key the split brought up. *)
Definition pick_index_spec (k : T) (tr : tree) : nat :=
  match tr with
  | Node _ ks cs =>
      let index := ins_pos k ks (length ks) in
      match cs !! index with
      | Some c =>
          if decide (nkeys c = 2 * minDegree - 1) then
            match keys_of c !! (minDegree - 1) with
            | Some m => if lessThan k m then index else S index
            | None => index
            end
          else index
      | None => index
      end
  end.

(** Children [i] and [i + 1] of [tr] and the key between them become one
    node; when that was the only key of [tr] the merged node replaces it. *)
Definition merge_at (i : nat) (tr : tree) : tree :=
  match tr with
  | Node p ks cs =>
      match cs !! i, cs !! S i, ks !! i with
      | Some (Node l ksl csl), Some (Node r ksr csr), Some sep =>
          let merged := Node l (ksl ++ sep :: ksr) (csl ++ csr) in
          if decide (length ks = 1) then merged
          else Node p (take i ks ++ drop (S i) ks)
                 (take i cs ++ merged :: drop (S (S i)) cs)
      | _, _, _ => tr
      end
  end.

(** Child [i] takes the key to its left from [tr], placed where
    [nodeInsert] puts it, and the last subtree of its left sibling; the
    left sibling's last key moves up. *)
Definition borrow_left (i : nat) (tr : tree) : tree :=
  match tr with
  | Node p ks cs =>
      match cs !! (i - 1), cs !! i, ks !! (i - 1) with
      | Some (Node l ksl csl), Some (Node c ksc csc), Some sep =>
          match last ksl with
          | Some up =>
              let j := ins_pos sep ksc (length ksc) in
              Node p (take (i - 1) ks ++ up :: drop i ks)
                (take (i - 1) cs ++
                 Node l (take (length ksl - 1) ksl) (take (length csl - 1) csl) ::
                 Node c (take j ksc ++ sep :: drop j ksc)
                        (option_list (last csl) ++ csc) ::
                 drop (S i) cs)
          | None => tr
          end
      | _, _, _ => tr
      end
  end.

(** The same with the separating key put at the front of child [i]
    whatever its keys are. *)
Definition borrow_left_front (i : nat) (tr : tree) : tree :=
  match tr with
  | Node p ks cs =>
      match cs !! (i - 1), cs !! i, ks !! (i - 1) with
      | Some (Node l ksl csl), Some (Node c ksc csc), Some sep =>
          match last ksl with
          | Some up =>
              Node p (take (i - 1) ks ++ up :: drop i ks)
                (take (i - 1) cs ++
                 Node l (take (length ksl - 1) ksl) (take (length csl - 1) csl) ::
                 Node c (sep :: ksc) (option_list (last csl) ++ csc) ::
                 drop (S i) cs)
          | None => tr
          end
      | _, _, _ => tr
      end
  end.

(** Child [i] takes the key to its right from [tr], at its end, and the
    first subtree of its right sibling; the right sibling's first key
    moves up. *)
Definition borrow_right (i : nat) (tr : tree) : tree :=
  match tr with
  | Node p ks cs =>
      match cs !! i, cs !! S i, ks !! i with
      | Some (Node c ksc csc), Some (Node r ksr csr), Some sep =>
          match head ksr with
          | Some up =>
              Node p (take i ks ++ up :: drop (S i) ks)
                (take i cs ++
                 Node c (ksc ++ [sep]) (csc ++ option_list (head csr)) ::
                 Node r (drop 1 ksr) (drop 1 csr) ::
                 drop (S (S i)) cs)
          | None => tr
          end
      | _, _, _ => tr
      end
  end.

(** Whether child [j] has a key to spare. *)
Definition lends (cs : list tree) (j : nat) : bool :=
  bool_decide (minDegree ≤ from_option nkeys 0 (cs !! j)).

(** What [fixChildSize] does to the tree at [parent] for child [i], with
    the left borrow given as a parameter. *)
Definition fix_child_with (borrow_l : nat → tree → tree) (i : nat) (tr : tree) : tree :=
  match tr with
  | Node p ks cs =>
      match cs !! i with
      | Some kid =>
          if decide (nkeys kid < minDegree) then
            if bool_decide (i ≠ 0) && lends cs (i - 1)
            then borrow_l i tr
            else if bool_decide (i ≠ length ks) && lends cs (S i)
            then borrow_right i tr
            else if decide (i ≠ 0) then merge_at (i - 1) tr
            else merge_at i tr
          else tr
      | None => tr
      end
  end.

Definition fix_child : nat → tree → tree := fix_child_with borrow_left.

(** The fix-up as the specification words it: a left borrow puts the
    separating key at the front of the deficient child. *)
Definition fix_child_spec : nat → tree → tree := fix_child_with borrow_left_front.

(** Keys that the comparator tells apart from [k], and a list without the
    keys it does not tell apart from [k]. *)
Definition differs (k e : T) : bool := lessThan e k || lessThan k e.
Definition without (k : T) (l : list T) : list T := List.filter (differs k) l.

(** The keys a sequence of calls leaves behind, as a list: an [Insert]
    adds its key, a [Remove] takes away what its key matches.  The
    sequence is fresh when no [Insert] brings a key that is already there. *)
Definition call_key (c : call) : T :=
  match c with Insert k | Remove k => k end.

Definition keys_after (model : list T) (c : call) : list T :=
  match c with
  | Insert k => k :: model
  | Remove k => without k model
  end.

Fixpoint fresh_inserts (model : list T) (cs : list call) : Prop :=
  match cs with
  | [] => True
  | c :: cs' =>
      match c with Insert k => k ∉ model | Remove _ => True end ∧
      fresh_inserts (keys_after model c) cs'
  end.

(** The claimed shape invariant of a state: its root denotes a tree whose
    leaves are all on one level and whose nodes other than the root hold
    between [t-1] and [2t-1] keys. *)
Definition btree_shape (s : BTree) : Prop :=
  ∃ fuel tr n, tree_of fuel (heap s) (root s) = Some tr ∧ shape n 0 tr.

(** A well-formed state: the root denotes a proper tree (no node shared),
    of the right shape, with strictly increasing in-order keys. *)
Definition klt (a b : T) : Prop := lessThan a b = true.
Definition kle (a b : T) : Prop := lessThan b a = false.

(** A subtree owns its nodes: no address occurs twice and all were handed
    out by [malloc] already. *)
Definition owns (s : BTree) (tr : tree) : Prop :=
  NoDup (addrs tr) ∧ Forall (λ a, a < brk s) (addrs tr).

(** [grows s s' tr tr']: going from [s] to [s'] the subtree [tr] became
    [tr'], made of nodes of [tr] and of nodes allocated in between, and
    nothing outside [tr] was touched. *)
Definition grows (s s' : BTree) (tr tr' : tree) : Prop :=
  brk s ≤ brk s' ∧
  addrs tr' ⊆+ addrs tr ++ seq (brk s) (brk s' - brk s) ∧
  ∀ q, q ∉ addrs tr → q < brk s → heap s' !! q = heap s !! q.

(** [removed k n lo s tr s']: going from [s] to [s'] the subtree [tr], of
    [n] levels below its top, lost the keys that [k] matches and is a
    subtree again (of top-node bound [lo - 1]); either it kept its top node
    or, having had a single key, it lost a level and became the root. *)
Definition removed (k : T) (n lo : nat) (s : BTree) (tr : tree) (s' : BTree) : Prop :=
  ∃ n' tr', rep n' (heap s') tr' ∧ shape n' (lo - 1) tr' ∧
    (n' = 0 ∨ 1 ≤ nkeys tr') ∧ grows s s' tr tr' ∧
    inorder tr' = without k (inorder tr) ∧
    ((n' = n ∧ addr_of tr' = addr_of tr ∧ root s' = root s) ∨
     (n = S n' ∧ nkeys tr = 1 ∧ root s' = addr_of tr')).

Record wf_state (n : nat) (tr : tree) (s : BTree) : Prop := {
  wf_root : addr_of tr = root s;
  wf_rep : rep n (heap s) tr;
  wf_owns : owns s tr;
  wf_shape : shape n (if n is 0 then 0 else 1) tr;
  wf_sorted : StronglySorted klt (inorder tr)
}.

(** Outcome predicates: [wp m s Q E] holds when [m] run from [s] returns a
    value and state satisfying [Q], or throws with [E]; it does not hold
    when [m] faults or exhausts its fuel. *)
Definition wp {A} (m : M A) (s : BTree) (Q : A → BTree → Prop)
    (E : BTREE_EXCEPTION → BTree → Prop) : Prop :=
  match m s with
  | Ok a s' => Q a s'
  | Throw e s' => E e s'
  | Fault _ => False
  | OutOfFuel => False
  end.

(** [returns_only P m]: whatever [m] returns satisfies [P]. *)
Definition returns_only {A} (P : A → Prop) (m : M A) : Prop :=
  ∀ s a s', m s = Ok a s' → P a.

(** [keeps R m]: whenever [m] returns or throws, the states before and
    after are related by [R]. *)
Definition keeps {A} (R : BTree → BTree → Prop) (m : M A) : Prop :=
  ∀ s, match m s with
       | Ok _ s' | Throw _ s' => R s s'
       | Fault _ | OutOfFuel => True
       end.

(** Relations between the states before and after: nothing was allocated;
    nothing was freed; whatever is allocated afterwards was allocated
    before or handed out by [malloc] in between. *)
Definition no_malloc (s s' : BTree) : Prop :=
  brk s' = brk s ∧ ∀ q, heap s !! q = None → heap s' !! q = None.
Definition no_free (s s' : BTree) : Prop :=
  brk s ≤ brk s' ∧ ∀ q, is_Some (heap s !! q) → is_Some (heap s' !! q).
Definition fresh_only (s s' : BTree) : Prop :=
  brk s ≤ brk s' ∧
  ∀ q, is_Some (heap s' !! q) → is_Some (heap s !! q) ∨ brk s ≤ q < brk s'.

(** No node lives at the null address, and [malloc] will not hand it out. *)
Definition null_free (s : BTree) : Prop :=
  0 < brk s ∧ heap s !! NULL = None.

(** Two keys match when neither is less than the other. *)
Definition matches (k w : T) : bool := negb (lessThan w k || lessThan k w).

(** What [search] may answer for [k] on the tree [tr] in the state [s]:
    the null location when no key of [tr] matches [k], or else the node
    and index of a key of [tr] that matches. *)
Definition search_result (k : T) (s : BTree) (tr : tree) (res : addr * nat) : Prop :=
  (res = (NULL, 0) ∧ Forall (λ w, matches k w = false) (inorder tr)) ∨
  (∃ nd w, res.1 ∈ addrs tr ∧ heap s !! res.1 = Some nd ∧ res.2 < size nd ∧
     key nd !! res.2 = Some (Some w) ∧ w ∈ inorder tr ∧ matches k w = true).

(** [throws_only e m]: the only exception [m] can throw is [e]. *)
Definition throws_only {A} (e : BTREE_EXCEPTION) (m : M A) : Prop :=
  ∀ s e' s', m s = Throw e' s' → e' = e.

(** [remove]'s loop meets its specification on subtrees of [n] levels
    below their top: started at the top of a strictly ordered subtree in
    which [k] is comparable with every key other than itself, it returns
    [k] when [k] is in the subtree and throws otherwise, and leaves the
    subtree without [k]. *)
Definition remove_loop_ok (n : nat) : Prop :=
  ∀ fuel s tr k lo,
    S n ≤ fuel → rep n (heap s) tr → owns s tr → shape n lo tr →
    (n = 0 ∨ 1 ≤ nkeys tr) →
    StronglySorted klt (inorder tr) →
    Forall (λ e, e = k ∨ klt e k ∨ klt k e) (inorder tr) →
    wp (remove_loop fuel (addr_of tr) k) s
      (λ v s', v = k ∧ k ∈ inorder tr ∧ removed k n lo s tr s')
      (λ e s', e = REMOVE_KEY_NOT_FOUND ∧ (k ∉ inorder tr) ∧ removed k n lo s tr s').

End BTree.

(** ** Instances used in the scenarios: integer keys under the natural order,
    minimum degree 2 *)

Definition new_tree {T} (t : nat) : @BTree T :=
  match BTree_new t empty_heap with
  | Ok _ s => s
  | _ => empty_heap
  end.

Definition root_tree {T} (r : @result T unit) : option (@tree T) :=
  match r with
  | Ok _ s | Throw _ s => tree_of 64 (heap s) (root s)
  | _ => None
  end.

(** Integer keys under the natural order. *)
Definition int_calls (ins : list Z) : list (@call Z) := Insert <$> ins.

Definition run_int (t : nat) (cs : list (@call Z)) : @result Z unit :=
  run_calls Z.ltb t 64 cs (new_tree t).

(** A sequence of calls with equal keys after which one node is referenced
    from two child slots of the root and another is no longer referenced. *)
Definition dup_calls : list (@call Z) :=
  [Insert 1; Insert 2; Insert 2; Insert 2; Insert 2; Insert 2; Insert 2;
   Insert 2; Insert 2; Remove 2; Remove 0; Insert 0]%Z.

(** Records ordered by their first component only. *)
Definition by_fst (a b : Z * Z) : bool := (a.1 <? b.1)%Z.

(** The state a run ends in. *)
Definition state_of {T} (r : @result T unit) : @BTree T :=
  match r with
  | Ok _ s | Throw _ s => s
  | _ => empty_heap
  end.

(** The trees after inserting 1 to 4 and 1 to 5 with minimum degree 2. *)
Definition st_1234 : @BTree Z := state_of (run_int 2 (int_calls [1; 2; 3; 4]%Z)).
Definition tr_1234 : @tree Z :=
  Node 2 [2%Z] [Node 1 [1%Z] []; Node 3 [3%Z; 4%Z] []].
Definition st_12345 : @BTree Z := state_of (run_int 2 (int_calls [1; 2; 3; 4; 5]%Z)).
Definition tr_12345 : @tree Z :=
  Node 2 [2%Z] [Node 1 [1%Z] []; Node 3 [3%Z; 4%Z; 5%Z] []].

(** A tree of records in which the key above the root's right child is
    equivalent to the key in that child. *)
Definition pair_calls : list (@call (Z * Z)) :=
  [Insert (2, 0); Insert (2, 1); Insert (2, 2); Insert (0, 0)]%Z.
Definition st_pairs : @BTree (Z * Z) :=
  state_of (run_calls by_fst 2 64 pair_calls (new_tree 2)).
Definition tr_pairs : @tree (Z * Z) :=
  Node 2 [(2%Z, 1%Z)] [Node 1 [(0%Z, 0%Z); (2%Z, 0%Z)] []; Node 3 [(2%Z, 2%Z)] []].

(** The tree left by inserting 1 to 4 and removing 4: two leaves with one
    key each under a root with one key. *)
Definition st_small : @BTree Z :=
  state_of (run_int 2 (int_calls [1; 2; 3; 4]%Z ++ [Remove 4%Z])).
Definition tr_small : @tree Z :=
  Node 2 [2%Z] [Node 1 [1%Z] []; Node 3 [3%Z] []].

(** The state before the last call of [dup_calls]: a root with the keys
    2 and 2 over the leaves [1, 2, 2], [2, 2] and [2]. *)
Definition st_equal_keys : @BTree Z := state_of (run_int 2 (take 11 dup_calls)).

(** ** Reasoning rules for the monad and the memory primitives *)

Local Arguments Nat.mul : simpl never.

Section Rules.

Context {T : Type}.
Local Abbreviation BNode := (@BNode T).
Local Abbreviation BTree := (@BTree T).
Local Abbreviation M := (@M T).
Implicit Types (s : BTree) (nd : BNode) (x y p q : addr).
Implicit Types (E : BTREE_EXCEPTION → BTree → Prop).

Lemma heap_upd_eq p nd s : heap (upd p nd s) !! p = Some nd.
Proof. apply lookup_insert_eq. Qed.

Lemma heap_upd_ne p q nd s : p ≠ q → heap (upd p nd s) !! q = heap s !! q.
Proof. apply lookup_insert_ne. Qed.

Lemma heap_upd p q nd s :
  heap (upd p nd s) !! q = if decide (p = q) then Some nd else heap s !! q.
Proof. apply lookup_insert. Qed.

Lemma heap_del_ne p q s : p ≠ q → heap (del p s) !! q = heap s !! q.
Proof. apply lookup_delete_ne. Qed.

Lemma heap_del_eq p s : heap (del p s) !! p = None.
Proof. apply lookup_delete_eq. Qed.

Lemma heap_reroot p s : heap (reroot p s) = heap s.
Proof. done. Qed.

Lemma upd_upd p nd1 nd2 s : upd p nd2 (upd p nd1 s) = upd p nd2 s.
Proof. unfold upd; simpl. by rewrite insert_insert_eq. Qed.

Lemma wp_ret {A} (a : A) s (Q : A → BTree → Prop) E : Q a s → wp (ret a) s Q E.
Proof. done. Qed.

Lemma wp_throw {A} e s (Q : A → BTree → Prop) E : E e s → wp (throw e) s Q E.
Proof. done. Qed.

Lemma wp_bind {A B} (m : M A) (f : A → M B) s (Q : B → BTree → Prop) E :
  wp m s (λ a s', wp (f a) s' Q E) E → wp (bind m f) s Q E.
Proof. unfold wp, bind. by destruct (m s). Qed.

Lemma wp_bind_inv {A B} (m : M A) (f : A → M B) s (Q : B → BTree → Prop) E :
  wp (bind m f) s Q E → wp m s (λ a s', wp (f a) s' Q E) E.
Proof. unfold wp, bind. by destruct (m s). Qed.

Lemma wp_mono {A} (m : M A) s (Q Q' : A → BTree → Prop) E E' :
  wp m s Q E → (∀ a s', Q a s' → Q' a s') → (∀ e s', E e s' → E' e s') →
  wp m s Q' E'.
Proof. unfold wp. destruct (m s); auto. Qed.

Lemma wp_post {A} (m : M A) s (Q Q' : A → BTree → Prop) E :
  wp m s Q E → (∀ a s', Q a s' → Q' a s') → wp m s Q' E.
Proof. intros H HQ. eapply wp_mono; eauto. Qed.

(** A computation that cannot throw satisfies any exceptional postcondition. *)
Lemma wp_nothrow {A} (m : M A) s (Q : A → BTree → Prop) E :
  wp m s Q (λ _ _, False) → wp m s Q E.
Proof. intros H. eapply wp_mono; eauto. done. Qed.

Lemma wp_get_root s (Q : addr → BTree → Prop) E : Q (root s) s → wp get_root s Q E.
Proof. done. Qed.

Lemma wp_set_root p s (Q : unit → BTree → Prop) E :
  Q tt (reroot p s) → wp (set_root p) s Q E.
Proof. done. Qed.

Lemma wp_load x nd s (Q : BNode → BTree → Prop) E :
  heap s !! x = Some nd → Q nd s → wp (load x) s Q E.
Proof. unfold wp, load. by intros ->. Qed.

Lemma wp_get_size x nd s (Q : nat → BTree → Prop) E :
  heap s !! x = Some nd → Q (size nd) s → wp (get_size x) s Q E.
Proof. unfold wp, get_size, bind, load. by intros ->. Qed.

Lemma wp_set_size x n nd s (Q : unit → BTree → Prop) E :
  heap s !! x = Some nd →
  Q tt (upd x (mkBNode (child nd) (key nd) n (leaf nd)) s) →
  wp (set_size x n) s Q E.
Proof. unfold wp, set_size, bind, load. by intros ->. Qed.

Lemma wp_get_leaf x nd s (Q : bool → BTree → Prop) E :
  heap s !! x = Some nd → Q (leaf nd) s → wp (get_leaf x) s Q E.
Proof. unfold wp, get_leaf, bind, load. by intros ->. Qed.

Lemma wp_set_leaf x b nd s (Q : unit → BTree → Prop) E :
  heap s !! x = Some nd →
  Q tt (upd x (mkBNode (child nd) (key nd) (size nd) b) s) →
  wp (set_leaf x b) s Q E.
Proof. unfold wp, set_leaf, bind, load. by intros ->. Qed.

Lemma wp_get_key x i v nd s (Q : T → BTree → Prop) E :
  heap s !! x = Some nd → key nd !! i = Some (Some v) → Q v s →
  wp (get_key x i) s Q E.
Proof. unfold wp, get_key, bind, load. by intros -> ->. Qed.

Lemma wp_set_key x i v nd s (Q : unit → BTree → Prop) E :
  heap s !! x = Some nd → i < length (key nd) →
  Q tt (upd x (mkBNode (child nd) (<[i := Some v]> (key nd)) (size nd) (leaf nd)) s) →
  wp (set_key x i v) s Q E.
Proof.
  unfold wp, set_key, bind, load. intros -> ?. by rewrite decide_True.
Qed.

Lemma wp_get_child x i c nd s (Q : addr → BTree → Prop) E :
  heap s !! x = Some nd → child nd !! i = Some c → Q c s →
  wp (get_child x i) s Q E.
Proof. unfold wp, get_child, bind, load. by intros -> ->. Qed.

Lemma wp_set_child x i c nd s (Q : unit → BTree → Prop) E :
  heap s !! x = Some nd → i < length (child nd) →
  Q tt (upd x (mkBNode (<[i := c]> (child nd)) (key nd) (size nd) (leaf nd)) s) →
  wp (set_child x i c) s Q E.
Proof.
  unfold wp, set_child, bind, load. intros -> ?. by rewrite decide_True.
Qed.

Lemma wp_malloc s (Q : addr → BTree → Prop) E :
  Q (brk s) (mkBTree (root s) (<[brk s := mkBNode [] [] 0 false]> (heap s)) (S (brk s))) →
  wp malloc s Q E.
Proof. done. Qed.

Lemma wp_malloc_upd s (Q : addr → BTree → Prop) E :
  (∀ s0, s0 = mkBTree (root s) (heap s) (S (brk s)) →
         Q (brk s) (upd (brk s) (mkBNode [] [] 0 false) s0)) →
  wp malloc s Q E.
Proof. intros H. apply wp_malloc. by apply (H _ eq_refl). Qed.

Lemma wp_free x nd s (Q : unit → BTree → Prop) E :
  heap s !! x = Some nd → Q tt (del x s) → wp (free x) s Q E.
Proof. unfold wp, free. by intros ->. Qed.

(** Lookup in lists built by inserting, duplicating or deleting one slot. *)
Lemma lookup_insert_at {A} (l : list A) (a : A) idx i :
  idx ≤ length l →
  (take idx l ++ a :: drop idx l) !! i =
    if decide (i < idx) then l !! i
    else if decide (i = idx) then Some a else l !! (i - 1).
Proof.
  intros Hle. rewrite lookup_app, lookup_take, length_take_le by done.
  case_decide.
  - destruct (l !! i) eqn:Hi; [done|].
    apply lookup_ge_None in Hi. lia.
  - rewrite lookup_cons. case_decide.
    + subst. by rewrite Nat.sub_diag.
    + destruct (i - idx) as [|m] eqn:Hm; [lia|].
      rewrite lookup_drop. f_equal. lia.
Qed.

Lemma lookup_dup_at {A} (l : list A) idx i :
  idx < length l →
  (take (S idx) l ++ drop idx l) !! i =
    if decide (i ≤ idx) then l !! i else l !! (i - 1).
Proof.
  intros Hlt. rewrite lookup_app, lookup_take, length_take_le by lia.
  case_decide.
  - rewrite decide_True by lia.
    destruct (l !! i) eqn:Hi; [done|].
    apply lookup_ge_None in Hi. lia.
  - rewrite decide_False by lia. rewrite lookup_drop. f_equal. lia.
Qed.

Lemma insert_dup_middle {A} (l1 l2 : list A) (a z : A) i :
  i = length l1 →
  <[S i := z]> (take (S i) (l1 ++ a :: l2) ++ drop i (l1 ++ a :: l2)) =
    l1 ++ a :: z :: l2.
Proof.
  intros ->. rewrite drop_app_length.
  rewrite (cons_middle a l1 l2), app_assoc.
  rewrite take_app_length' by (rewrite length_app; simpl; lia).
  rewrite insert_app_r_alt by (rewrite length_app; simpl; lia).
  rewrite length_app. simpl.
  replace (S (length l1) - (length l1 + 1)) with 0 by lia.
  simpl. by rewrite <-app_assoc.
Qed.

Lemma length_insert_at {A} (l : list A) (a : A) idx :
  length (take idx l ++ a :: drop idx l) = S (length l).
Proof. rewrite length_app, length_take; simpl; rewrite length_drop. lia. Qed.

Lemma length_dup_at {A} (l : list A) idx :
  idx < length l → length (take (S idx) l ++ drop idx l) = S (length l).
Proof. intros. rewrite length_app, length_take, length_drop. lia. Qed.

Lemma wp_for_range (I : nat → BTree → Prop) count (body : nat → M unit) E :
  ∀ from s,
  I from s →
  (∀ j s1, from ≤ j < from + count → I j s1 →
     wp (body j) s1 (λ _ s2, I (S j) s2) E) →
  wp (for_range from count body) s (λ _ s', I (from + count) s') E.
Proof.
  induction count as [|c IH]; intros from s HI Hbody; simpl.
  - by rewrite Nat.add_0_r.
  - apply wp_bind. eapply wp_post; [apply Hbody; [lia|done]|].
    simpl. intros _ s1 HI1. eapply wp_post.
    + apply (IH (S from)); [done|]. intros j s2 Hj. apply Hbody. lia.
    + simpl. intros _ s2. by rewrite Nat.add_succ_r.
Qed.

Lemma upd_id p nd s : heap s !! p = Some nd → upd p nd s = s.
Proof. intros H. destruct s; unfold upd; simpl in *. f_equal. by apply insert_id. Qed.

End Rules.

Ltac lookup_heap :=
  lazymatch goal with
  | |- heap (upd ?p _ _) !! ?p = Some _ => apply heap_upd_eq
  | |- heap (upd ?p _ _) !! ?q = Some _ =>
      rewrite (heap_upd_ne p q) by (done || congruence || lia); lookup_heap
  | |- heap (del ?p _) !! ?q = Some _ =>
      rewrite (heap_del_ne p q) by (done || congruence || lia); lookup_heap
  | |- heap (reroot _ _) !! _ = Some _ => rewrite heap_reroot; lookup_heap
  | |- _ => eassumption
  end.

(** Goals about slots of arrays after a few writes: split on the index
    tests and finish by arithmetic. *)
Ltac pw :=
  repeat first [ rewrite list_lookup_insert | case_decide ];
  destruct_and?; subst; simpl; rewrite ?Nat.sub_0_r;
  first [ done | lia | congruence | (f_equal; lia) | (exfalso; lia)
        | match goal with
          | H : ?l !! ?a = Some ?v |- Some ?v = ?l !! ?b =>
              replace b with a by lia; symmetry; exact H
          | H : ?l !! ?a = Some ?v |- ?l !! ?b = Some ?v =>
              replace b with a by lia; exact H
          end
        | idtac ].

(** ** What the node-level functions do to one node *)

Section NodeSpecs.

Context {T : Type} (lessThan : T → T → bool) (minDegree : nat).
Local Abbreviation BNode := (@BNode T).
Local Abbreviation BTree := (@BTree T).
Local Abbreviation M := (@M T).
Implicit Types (s : BTree) (nd : BNode) (x y p q : addr).
Implicit Types (ks : list T) (ps : list addr).
Implicit Types (E : BTREE_EXCEPTION → BTree → Prop).

Lemma keys_are_lookup nd ks i v :
  keys_are nd ks → ks !! i = Some v → key nd !! i = Some (Some v).
Proof. intros [_ H]. apply H. Qed.

Lemma kids_are_lookup nd ps i c :
  kids_are nd ps → ps !! i = Some c → child nd !! i = Some c.
Proof. intros [_ H]. apply H. Qed.

Lemma kids_are_take nd :
  size nd < length (child nd) → kids_are nd (take (S (size nd)) (child nd)).
Proof.
  intros Hlt. split.
  - rewrite length_take_le; lia.
  - intros i c. rewrite lookup_take. case_decide; done.
Qed.

Lemma wp_findIndex_from x k s nd ks (Q : nat → BTree → Prop) E rem i :
  heap s !! x = Some nd → keys_are nd ks → rem + i = length ks →
  Q (i + find_pos lessThan k (drop i ks)) s →
  wp (findIndex_from lessThan rem x k i) s Q E.
Proof.
  intros Hx Hks. revert i. induction rem as [|r IH]; intros i Hlen HQ; simpl.
  - rewrite drop_ge in HQ by lia. simpl in HQ. by rewrite Nat.add_0_r in HQ.
  - destruct (lookup_lt_is_Some_2 ks i) as [v Hv]; [lia|].
    rewrite (drop_S _ _ _ Hv) in HQ. simpl in HQ.
    apply wp_bind. eapply wp_get_key; [done|by eapply keys_are_lookup|].
    destruct (lessThan v k).
    + apply IH; [lia|]. by rewrite Nat.add_succ_r in HQ.
    + by rewrite Nat.add_0_r in HQ.
Qed.

Lemma wp_findIndex x k s nd ks (Q : nat → BTree → Prop) E :
  heap s !! x = Some nd → keys_are nd ks →
  Q (find_pos lessThan k ks) s → wp (findIndex lessThan x k) s Q E.
Proof.
  intros Hx Hks HQ. unfold findIndex.
  apply wp_bind. eapply wp_get_size; [done|].
  eapply wp_findIndex_from; eauto.
  destruct Hks as [-> _]. lia.
Qed.

Lemma wp_insert_scan x k s nd ks (Q : nat → BTree → Prop) E j :
  heap s !! x = Some nd → keys_are nd ks → j ≤ length ks →
  Q (ins_pos lessThan k ks j) s → wp (insert_scan lessThan j x k) s Q E.
Proof.
  intros Hx Hks. induction j as [|i IH]; intros Hlen HQ; simpl in *; [done|].
  destruct (lookup_lt_is_Some_2 ks i) as [v Hv]; [lia|].
  rewrite Hv in HQ.
  apply wp_bind. eapply wp_get_key; [done|by eapply keys_are_lookup|].
  destruct (lessThan k v); [apply IH; [lia|done]|done].
Qed.

(** The shifting loop of [nodeInsert], slot by slot. *)
Lemma wp_nodeInsert_shift x k ks E n : ∀ s nd,
  heap s !! x = Some nd →
  (∀ j v, j < n → ks !! j = Some v → key nd !! j = Some (Some v)) →
  n ≤ length ks → n < length (key nd) → S n < length (child nd) →
  wp (nodeInsert_shift lessThan n x k) s (λ idx s',
    idx = ins_pos lessThan k ks n ∧ idx ≤ n ∧
    ∃ nd', s' = upd x nd' s ∧ size nd' = size nd ∧ leaf nd' = leaf nd ∧
      length (key nd') = length (key nd) ∧
      length (child nd') = length (child nd) ∧
      (∀ q, key nd' !! q =
         if decide (idx < q ≤ n) then key nd !! (q - 1) else key nd !! q) ∧
      (∀ q, child nd' !! q =
         if decide (idx + 1 < q ≤ n + 1) then child nd !! (q - 1)
         else child nd !! q)) E.
Proof.
  induction n as [|i IH]; intros s nd Hx Hks Hlen Hk Hc; simpl.
  - split; [done|]. split; [done|]. exists nd.
    split; [|repeat split; intros; by rewrite decide_False by lia].
    destruct s; unfold upd; simpl in *. f_equal. by rewrite insert_id.
  - destruct (lookup_lt_is_Some_2 ks i) as [v Hv]; [lia|]. rewrite Hv.
    apply wp_bind. eapply wp_get_key; [done|by eapply Hks; [lia|]|].
    destruct (lessThan k v).
    + apply wp_bind. eapply wp_set_key; [done|lia|].
      apply wp_bind. apply wp_bind.
      destruct (lookup_lt_is_Some_2 (child nd) (S i)) as [c Hci]; [lia|].
      eapply wp_get_child; [lookup_heap|done|].
      eapply wp_set_child; [lookup_heap|simpl; lia|]. simpl.
      rewrite upd_upd.
      eapply wp_post.
      { apply IH; [lookup_heap|..]; simpl; rewrite ?length_insert; try lia.
        intros j w Hj Hjw. rewrite list_lookup_insert_ne by lia. by apply Hks; [lia|]. }
      simpl. intros idx s' (-> & Hle & nd' & -> & Hsz & Hlf & Hlk & Hlc & Hkq & Hcq).
      split; [done|]. split; [lia|]. exists nd'. rewrite upd_upd.
      split; [done|]. rewrite Hsz, Hlf, Hlk, Hlc, !length_insert.
      assert (key nd !! i = Some (Some v)) as Hi by (apply Hks; [lia|done]).
      repeat split.
      * intros q. rewrite Hkq. pw.
      * intros q. rewrite Hcq. pw.
    + split; [done|]. split; [done|]. exists nd.
      split; [|repeat split; intros; by rewrite decide_False by lia].
      destruct s; unfold upd; simpl in *. f_equal. by rewrite insert_id.
Qed.

Lemma wp_nodeInsert x k s nd ks ps E :
  heap s !! x = Some nd → keys_are nd ks → kids_are nd ps → caps_ok minDegree nd →
  length ks < 2 * minDegree - 1 →
  wp (nodeInsert lessThan x k) s (λ idx s',
    idx = ins_pos lessThan k ks (length ks) ∧ idx ≤ length ks ∧
    ∃ nd', s' = upd x nd' s ∧ leaf nd' = leaf nd ∧
      keys_are nd' (take idx ks ++ k :: drop idx ks) ∧
      kids_are nd' (take (S idx) ps ++ drop idx ps) ∧
      caps_ok minDegree nd') E.
Proof.
  intros Hx [Hsz Hks] [Hpl Hps] [Hkc Hcc] Hlt. unfold nodeInsert.
  apply wp_bind. eapply wp_get_size; [done|].
  apply wp_bind. eapply wp_post.
  { eapply (wp_nodeInsert_shift _ _ ks); [done|..]; try lia.
    intros j v _. apply Hks. }
  simpl. intros idx s1 (Hidx & Hle & nd1 & -> & Hsz1 & Hlf1 & Hlk1 & Hlc1 & Hk1 & Hc1).
  rewrite Hsz in *.
  destruct (lookup_lt_is_Some_2 (child nd1) idx) as [c Hc]; [lia|].
  apply wp_bind. apply wp_bind.
  eapply wp_get_child; [lookup_heap|done|].
  eapply wp_set_child; [lookup_heap|lia|]. rewrite upd_upd.
  apply wp_bind.
  eapply wp_set_key; [lookup_heap|simpl; lia|]. simpl. rewrite upd_upd.
  apply wp_bind. apply wp_bind.
  eapply wp_get_size; [lookup_heap|]. simpl.
  eapply wp_set_size; [lookup_heap|]. simpl. rewrite upd_upd.
  apply wp_ret. split; [done|]. split; [done|].
  eexists. split; [done|]. simpl. split; [done|].
  rewrite Hc1 in Hc. rewrite decide_False in Hc by lia.
  split; [|split].
  - split; [simpl; rewrite length_insert_at; lia|].
    intros i v. simpl. rewrite lookup_insert_at by done. intros Hi.
    rewrite list_lookup_insert, Hk1.
    repeat case_decide; destruct_and?; simplify_eq; try lia; try done;
      pose proof (lookup_lt_Some _ _ _ Hi); apply Hks in Hi; try done; lia.
  - split; [simpl; rewrite length_dup_at; lia|].
    intros i a. simpl. rewrite lookup_dup_at by lia. intros Hi.
    rewrite list_lookup_insert, Hc1.
    repeat case_decide; destruct_and?; simplify_eq; try lia;
      pose proof (lookup_lt_Some _ _ _ Hi); apply Hps in Hi;
      rewrite ?Nat.add_sub in *; try done; try congruence; lia.
  - split; simpl; rewrite length_insert; lia.
Qed.

(** The shifting loop of [nodeDelete], slot by slot. *)
Lemma wp_nodeDelete_shift x E rem : ∀ index s nd,
  heap s !! x = Some nd →
  (∀ j, index < j ≤ index + rem → ∃ v, key nd !! j = Some (Some v)) →
  index + rem < length (key nd) → index + rem + 1 < length (child nd) →
  wp (nodeDelete_shift rem x index) s (λ _ s',
    ∃ nd', s' = upd x nd' s ∧ size nd' = size nd ∧ leaf nd' = leaf nd ∧
      length (key nd') = length (key nd) ∧
      length (child nd') = length (child nd) ∧
      (∀ q, key nd' !! q =
         if decide (index ≤ q < index + rem) then key nd !! (q + 1)
         else key nd !! q) ∧
      (∀ q, child nd' !! q =
         if decide (index + 1 ≤ q < index + 1 + rem) then child nd !! (q + 1)
         else child nd !! q)) E.
Proof.
  induction rem as [|r IH]; intros index s nd Hx Hks Hk Hc; simpl.
  - exists nd. split; [|repeat split; intros; by rewrite decide_False by lia].
    destruct s; unfold upd; simpl in *. f_equal. by rewrite insert_id.
  - destruct (Hks (index + 1)) as [v Hv]; [lia|].
    destruct (lookup_lt_is_Some_2 (child nd) (index + 2)) as [c Hci]; [lia|].
    apply wp_bind. apply wp_bind.
    eapply wp_get_key; [done|done|].
    eapply wp_set_key; [done|lia|].
    apply wp_bind. apply wp_bind.
    eapply wp_get_child; [lookup_heap|done|].
    eapply wp_set_child; [lookup_heap|simpl; lia|]. simpl. rewrite upd_upd.
    eapply wp_post.
    { apply IH; [lookup_heap|..]; simpl; rewrite ?length_insert; try lia.
      intros j Hj. rewrite list_lookup_insert_ne by lia. apply Hks. lia. }
    simpl. intros _ s' (nd' & -> & Hsz & Hlf & Hlk & Hlc & Hkq & Hcq).
    exists nd'. rewrite upd_upd. split; [done|].
    rewrite Hsz, Hlf, Hlk, Hlc, !length_insert. repeat split.
    + intros q. rewrite Hkq. pw.
    + intros q. rewrite Hcq.
      pw.
Qed.

Lemma wp_nodeDelete x i s nd ks ps v E :
  heap s !! x = Some nd → keys_are nd ks → kids_are nd ps → caps_ok minDegree nd →
  ks !! i = Some v →
  wp (nodeDelete x i) s (λ r s',
    r = v ∧
    ∃ nd', s' = upd x nd' s ∧ leaf nd' = leaf nd ∧
      keys_are nd' (delete i ks) ∧ kids_are nd' (delete (S i) ps) ∧
      caps_ok minDegree nd') E.
Proof.
  intros Hx [Hsz Hks] [Hpl Hps] [Hkc Hcc] Hv. unfold nodeDelete.
  pose proof (lookup_lt_Some _ _ _ Hv) as Hi.
  apply wp_bind. eapply wp_get_key; [done|by apply Hks|].
  apply wp_bind. eapply wp_get_size; [done|].
  destruct (size nd) as [|sz'] eqn:Hsize; [lia|].
  assert (S sz' ≤ length (key nd)).
  { destruct (lookup_lt_is_Some_2 ks sz') as [w Hw]; [lia|].
    apply Hks, lookup_lt_Some in Hw. lia. }
  assert (S sz' < length (child nd)).
  { destruct (lookup_lt_is_Some_2 ps (S sz')) as [w Hw]; [lia|].
    apply Hps, lookup_lt_Some in Hw. lia. }
  apply wp_bind. eapply wp_set_size; [done|].
  apply wp_bind. eapply wp_post.
  { eapply wp_nodeDelete_shift; [lookup_heap|..]; simpl; try lia.
    intros j Hj. destruct (lookup_lt_is_Some_2 ks j) as [w Hw]; [lia|].
    exists w. by apply Hks. }
  simpl. intros _ s1 (nd1 & -> & Hsz1 & Hlf1 & Hlk1 & Hlc1 & Hk1 & Hc1).
  simpl in *. rewrite upd_upd.
  apply wp_ret. split; [done|]. exists nd1. split; [done|]. split; [done|].
  split; [|split].
  - split; [rewrite length_delete by eauto; lia|].
    intros j w. rewrite list_lookup_delete, Hk1. intros Hj.
    pose proof (lookup_lt_Some _ _ _ Hj). apply Hks in Hj.
    repeat case_decide; try lia; rewrite ?Nat.add_1_r; done.
  - split; [rewrite length_delete by (apply lookup_lt_is_Some_2; lia); lia|].
    intros j w. rewrite list_lookup_delete, Hc1. intros Hj.
    pose proof (lookup_lt_Some _ _ _ Hj). apply Hps in Hj.
    repeat case_decide; try lia; rewrite ?Nat.add_1_r; done.
  - split; lia.
Qed.

Lemma wp_initializeNode x nd s (Q : unit → BTree → Prop) E :
  heap s !! x = Some nd →
  Q tt (upd x (mkBNode (replicate (2 * minDegree) NULL)
                       (replicate (2 * minDegree - 1) None) 0 (leaf nd)) s) →
  wp (initializeNode minDegree x) s Q E.
Proof. unfold wp, initializeNode, bind, load. by intros ->. Qed.

Lemma keys_are_length nd ks : keys_are nd ks → length ks ≤ length (key nd).
Proof.
  intros [_ H]. destruct (decide (length ks = 0)) as [|Hne]; [lia|].
  destruct (lookup_lt_is_Some_2 ks (length ks - 1)) as [v Hv]; [lia|].
  apply H, lookup_lt_Some in Hv. lia.
Qed.

Lemma kids_are_length nd ps : kids_are nd ps → length ps ≤ length (child nd).
Proof.
  intros [Hl H].
  destruct (lookup_lt_is_Some_2 ps (length ps - 1)) as [v Hv]; [lia|].
  apply H, lookup_lt_Some in Hv. lia.
Qed.

Lemma kids_are_set_child nd ps i c :
  kids_are nd ps → i < length ps →
  kids_are (mkBNode (<[i := c]> (child nd)) (key nd) (size nd) (leaf nd))
           (<[i := c]> ps).
Proof.
  intros Hps Hi. pose proof (kids_are_length _ _ Hps) as Hlen.
  destruct Hps as [Hl H].
  split; simpl; [by rewrite length_insert|].
  intros j a. rewrite !list_lookup_insert.
  repeat case_decide; try done; try lia. apply H.
Qed.

Lemma keys_are_set_key nd ks i v :
  keys_are nd ks → i < length ks →
  keys_are (mkBNode (child nd) (<[i := Some v]> (key nd)) (size nd) (leaf nd))
           (<[i := v]> ks).
Proof.
  intros Hks Hi. pose proof (keys_are_length _ _ Hks) as Hlen.
  destruct Hks as [Hl H].
  split; simpl; [by rewrite length_insert|].
  intros j a. rewrite !list_lookup_insert.
  repeat case_decide; destruct_and?; simplify_eq; try done; try lia;
    try (intros; simplify_eq; done); try apply H.
Qed.

(** [splitChild] on the three nodes it touches: the parent [x], the full
    child [y] and the node [brk s] it allocates. *)
Lemma wp_splitChild x i y s ndx ksx psx ndy ksy psy m E :
  1 ≤ minDegree →
  heap s !! x = Some ndx → keys_are ndx ksx → kids_are ndx psx →
  caps_ok minDegree ndx → length ksx < 2 * minDegree - 1 →
  psx !! i = Some y →
  heap s !! y = Some ndy → keys_are ndy ksy → kids_are ndy psy →
  caps_ok minDegree ndy → length ksy = 2 * minDegree - 1 →
  ksy !! (minDegree - 1) = Some m →
  x ≠ y → x < brk s → y < brk s →
  wp (splitChild lessThan minDegree x i) s (λ _ s',
    let idx := ins_pos lessThan m ksx (length ksx) in
    ∃ ndx' ndy' ndz,
      s' = upd x ndx' (upd y ndy' (upd (brk s) ndz
             (mkBTree (root s) (heap s) (S (brk s))))) ∧
      leaf ndz = leaf ndy ∧ keys_are ndz (drop minDegree ksy) ∧
      (leaf ndy = false → kids_are ndz (drop minDegree psy)) ∧
      caps_ok minDegree ndz ∧
      leaf ndy' = leaf ndy ∧ keys_are ndy' (take (minDegree - 1) ksy) ∧
      kids_are ndy' (take minDegree psy) ∧ caps_ok minDegree ndy' ∧
      leaf ndx' = leaf ndx ∧
      keys_are ndx' (take idx ksx ++ m :: drop idx ksx) ∧
      kids_are ndx' (<[S i := brk s]> (take (S idx) psx ++ drop idx psx)) ∧
      caps_ok minDegree ndx') E.
Proof.
  intros Ht Hx Hksx Hpsx Hcx Hltx Hi Hy Hksy Hpsy Hcy Hfull Hm Hxy Hxb Hyb.
  unfold splitChild.
  apply wp_bind. eapply wp_get_child; [done|by eapply kids_are_lookup|].
  apply wp_bind. apply wp_malloc_upd. intros s0 Hs0.
  assert (Hx0 : heap s0 !! x = Some ndx) by (by subst s0).
  assert (Hy0 : heap s0 !! y = Some ndy) by (by subst s0).
  set (z := brk s) in *.
  assert (Hzx : z ≠ x) by lia.
  assert (Hzy : z ≠ y) by lia.
  apply wp_bind. eapply wp_initializeNode; [lookup_heap|]. rewrite upd_upd.
  apply wp_bind. apply wp_bind.
  eapply wp_get_leaf; [lookup_heap|].
  eapply wp_set_leaf; [lookup_heap|]. rewrite upd_upd.
  apply wp_bind. eapply wp_set_size; [lookup_heap|]. rewrite upd_upd. simpl.
  (* keys *)
  apply wp_bind. eapply wp_post.
  { apply (wp_for_range (λ j s1, ∃ ndz, s1 = upd z ndz s0 ∧
        size ndz = minDegree - 1 ∧ leaf ndz = leaf ndy ∧
        length (key ndz) = 2 * minDegree - 1 ∧
        child ndz = replicate (2 * minDegree) NULL ∧
        ∀ q v, q < j → ksy !! (q + minDegree) = Some v →
               key ndz !! q = Some (Some v))).
    - eexists. split; [done|]. simpl. rewrite length_replicate.
      repeat split; try done. intros; lia.
    - intros j s1 Hj (ndz & -> & Hsz & Hlf & Hlk & Hch & Hkq).
      destruct (lookup_lt_is_Some_2 ksy (j + minDegree)) as [v Hv]; [lia|].
      apply wp_bind. eapply wp_get_key; [lookup_heap|by eapply keys_are_lookup|].
      eapply wp_set_key; [lookup_heap|lia|]. rewrite upd_upd.
      eexists. split; [done|]. simpl. rewrite length_insert.
      repeat split; try done.
      intros q w Hq Hw. rewrite list_lookup_insert.
      case_decide; destruct_and?; simplify_eq; [done|].
      apply Hkq; [lia|done]. }
  simpl. intros _ s1 (ndz & -> & Hsz & Hlf & Hlk & Hch & Hkq).
  (* children *)
  apply wp_bind. eapply wp_get_leaf; [lookup_heap|].
  apply wp_bind. eapply (wp_post _ _ (λ _ s1, ∃ ndz, s1 = upd z ndz s0 ∧
        size ndz = minDegree - 1 ∧ leaf ndz = leaf ndy ∧
        caps_ok minDegree ndz ∧
        (∀ q v, q < minDegree - 1 → ksy !! (q + minDegree) = Some v →
                key ndz !! q = Some (Some v)) ∧
        (leaf ndy = false →
         ∀ q c, q < minDegree → psy !! (q + minDegree) = Some c →
                child ndz !! q = Some c))).
  { destruct (leaf ndy) eqn:Hleaf; simpl.
    - apply wp_ret. exists ndz. repeat split; try done.
      by rewrite Hch, length_replicate.
    - eapply wp_post.
      { apply (wp_for_range (λ j s1, ∃ ndz', s1 = upd z ndz' s0 ∧
          size ndz' = minDegree - 1 ∧ leaf ndz' = false ∧
          key ndz' = key ndz ∧ length (child ndz') = 2 * minDegree ∧
          ∀ q c, q < j → psy !! (q + minDegree) = Some c →
                 child ndz' !! q = Some c)).
        - exists ndz. rewrite Hch, length_replicate.
          repeat split; try done. intros; lia.
        - intros j s1 Hj (ndz' & -> & Hsz' & Hlf' & Hk' & Hlc' & Hcq).
          destruct Hpsy as [Hpl Hps].
          destruct (lookup_lt_is_Some_2 psy (j + minDegree)) as [c Hc].
          { destruct Hksy as [Hs _]. lia. }
          apply wp_bind. eapply wp_get_child; [lookup_heap|by apply Hps|].
          eapply wp_set_child; [lookup_heap|lia|]. rewrite upd_upd.
          eexists. split; [done|]. simpl. rewrite length_insert.
          repeat split; try done.
          intros q w Hq Hw. rewrite list_lookup_insert.
          case_decide; destruct_and?; simplify_eq; [done|].
          apply Hcq; [lia|done]. }
      simpl. intros _ s1 (ndz' & -> & Hsz' & Hlf' & Hk' & Hlc' & Hcq).
      exists ndz'. repeat split; rewrite ?Hk'; try done; try lia.
      all: intros _ q c; apply Hcq. }
  clear dependent ndz.
  simpl. intros _ s1 (ndz & -> & Hsz & Hlf & Hcz & Hkq & Hcq).
  (* shrink y, promote the median *)
  apply wp_bind. eapply wp_set_size; [lookup_heap|].
  apply wp_bind. apply wp_bind.
  eapply wp_get_key; [lookup_heap|simpl; by eapply keys_are_lookup|].
  eapply wp_post.
  { eapply wp_nodeInsert; [lookup_heap|done..]. }
  simpl. intros idx s1 (Hidx & Hle & ndx1 & -> & Hlfx & Hksx1 & Hpsx1 & Hcx1).
  pose proof (lookup_lt_Some _ _ _ Hi) as Hilt.
  destruct Hpsx as [Hplx Hpsx]. destruct Hksx as [Hszx Hksx].
  pose proof (kids_are_length _ _ Hpsx1) as Hlen1.
  rewrite length_dup_at in Hlen1 by lia.
  eapply wp_set_child; [lookup_heap|lia|]. rewrite upd_upd.
  eexists _, _, ndz. split; [by rewrite Hs0|]. simpl. subst idx.
  destruct Hksy as [Hszy Hksy]. destruct Hpsy as [Hply Hpsy].
  split; [done|]. split.
  { split; [rewrite length_drop; lia|].
    intros q v. rewrite lookup_drop. intros Hq.
    pose proof (lookup_lt_Some _ _ _ Hq).
    apply Hkq; [lia|]. by rewrite Nat.add_comm. }
  split.
  { intros Hleaf. split; [rewrite length_drop; lia|].
    intros q v. rewrite lookup_drop. intros Hq.
    pose proof (lookup_lt_Some _ _ _ Hq).
    apply Hcq; [done|lia|]. by rewrite Nat.add_comm. }
  split; [done|]. split; [done|]. split.
  { split; simpl; [rewrite length_take_le; lia|].
    intros q v. rewrite lookup_take. case_decide; [apply Hksy|done]. }
  split.
  { split; simpl; [rewrite length_take_le; lia|].
    intros q v. rewrite lookup_take. case_decide; [apply Hpsy|done]. }
  split; [exact Hcy|]. split; [done|]. split; [apply Hksx1|].
  rewrite Nat.add_1_r. split.
  - apply (kids_are_set_child _ _ (S i) z) in Hpsx1; [done|].
    rewrite length_dup_at; lia.
  - destruct Hcx1. split; simpl; [done|]. by rewrite length_insert.
Qed.

(** [mergeChildren] on the three nodes it touches. *)
Lemma wp_mergeChildren parent i l r s ndp ks ps sep ndl ksl psl ndr ksr psr E :
  heap s !! parent = Some ndp → keys_are ndp ks → kids_are ndp ps →
  caps_ok minDegree ndp →
  ks !! i = Some sep → ps !! i = Some l → ps !! S i = Some r →
  heap s !! l = Some ndl → keys_are ndl ksl → kids_are ndl psl →
  caps_ok minDegree ndl →
  heap s !! r = Some ndr → keys_are ndr ksr → kids_are ndr psr →
  caps_ok minDegree ndr →
  l ≠ r → l ≠ parent → r ≠ parent →
  length ksl + length ksr + 1 ≤ 2 * minDegree - 1 →
  wp (mergeChildren parent i) s (λ res s',
    ∃ ndp' ndl',
      (if decide (length ks = 1)
       then res = NEW_ROOT ∧
            s' = del parent (reroot l (del r (upd l ndl' (upd parent ndp' s))))
       else res = MODIFIED_NOT_ROOT ∧
            s' = del r (upd l ndl' (upd parent ndp' s))) ∧
      leaf ndl' = leaf ndl ∧ keys_are ndl' (ksl ++ sep :: ksr) ∧
      kids_are ndl' (psl ++ psr) ∧ caps_ok minDegree ndl' ∧
      leaf ndp' = leaf ndp ∧ keys_are ndp' (delete i ks) ∧
      kids_are ndp' (delete (S i) ps) ∧ caps_ok minDegree ndp') E.
Proof.
  intros Hp Hks Hps Hcp Hsep Hl Hr Hhl Hksl Hpsl Hcl Hhr Hksr Hpsr Hcr
    Hlr Hlp Hrp Hfit.
  unfold mergeChildren.
  apply wp_bind. eapply wp_get_child; [done|by eapply kids_are_lookup|].
  apply wp_bind. rewrite Nat.add_1_r.
  eapply wp_get_child; [done|by eapply kids_are_lookup|].
  apply wp_bind. eapply wp_post; [by eapply wp_nodeDelete|].
  simpl. intros ? s1 (-> & ndp' & -> & Hlfp & Hksp' & Hpsp' & Hcp').
  destruct Hksl as [Hszl Hksl]. destruct Hpsl as [Hpll Hpsl].
  destruct Hksr as [Hszr Hksr]. destruct Hpsr as [Hplr Hpsr].
  destruct Hcl as [Hkcl Hccl].
  apply wp_bind. apply wp_bind.
  eapply wp_get_size; [lookup_heap|].
  eapply wp_set_key; [lookup_heap|lia|].
  apply wp_bind. eapply wp_get_size; [lookup_heap|]. simpl.
  apply wp_bind. eapply wp_set_size; [lookup_heap|]. simpl. rewrite upd_upd.
  apply wp_bind. eapply wp_get_size; [lookup_heap|].
  set (s0 := upd parent ndp' s).
  apply wp_bind. eapply wp_post.
  { apply (wp_for_range (λ k s1, ∃ nd1, s1 = upd l nd1 s0 ∧
        size nd1 = size ndl + 1 ∧ leaf nd1 = leaf ndl ∧
        caps_ok minDegree nd1 ∧
        (∀ q v, q < size ndl + 1 + k → (ksl ++ sep :: ksr) !! q = Some v →
                key nd1 !! q = Some (Some v)) ∧
        (∀ q c, q < size ndl + 1 + k → (psl ++ psr) !! q = Some c →
                child nd1 !! q = Some c))).
    - eexists. split; [done|]. simpl. split; [done|]. split; [done|].
      split; [split; simpl; rewrite ?length_insert; done|]. split.
      + intros q v Hq. rewrite lookup_app, list_lookup_insert.
        destruct (ksl !! q) eqn:Hlq.
        * intros; simplify_eq. apply lookup_lt_Some in Hlq as Hlt.
          rewrite decide_False by lia. by apply Hksl.
        * apply lookup_ge_None in Hlq.
          replace (q - length ksl) with 0 by lia. simpl. intros; simplify_eq.
          rewrite decide_True by lia. done.
      + intros q c Hq Hc. apply Hpsl.
        rewrite lookup_app in Hc. destruct (psl !! q) eqn:Hlq; [done|].
        apply lookup_ge_None in Hlq. lia.
    - intros k s1 Hk (nd1 & -> & Hsz1 & Hlf1 & [Hkc1 Hcc1] & Hkq & Hcq).
      destruct (lookup_lt_is_Some_2 ksr k) as [v Hv]; [lia|].
      destruct (lookup_lt_is_Some_2 psr k) as [c Hc]; [lia|].
      apply wp_bind. apply wp_bind.
      eapply wp_get_key; [unfold s0; lookup_heap|by apply Hksr|].
      eapply wp_set_key; [lookup_heap|lia|]. rewrite upd_upd.
      apply wp_bind.
      eapply wp_get_child; [unfold s0; lookup_heap|by apply Hpsr|].
      eapply wp_set_child; [lookup_heap|simpl; lia|]. rewrite upd_upd. simpl.
      eexists. split; [done|]. simpl. split; [done|]. split; [done|].
      split; [split; simpl; rewrite ?length_insert; done|]. split.
      + intros q w Hq Hw. rewrite list_lookup_insert.
        case_decide; destruct_and?; simplify_eq.
        * rewrite lookup_app_r in Hw by lia.
          replace (size ndl + 1 + k - length ksl) with (S k) in Hw by lia.
          simpl in Hw. congruence.
        * apply Hkq; [lia|done].
      + intros q w Hq Hw. rewrite list_lookup_insert.
        case_decide; destruct_and?; simplify_eq.
        * rewrite lookup_app_r in Hw by lia.
          replace (size ndl + 1 + k - length psl) with k in Hw by lia.
          congruence.
        * apply Hcq; [lia|done]. }
  simpl. intros _ s1 (nd1 & -> & Hsz1 & Hlf1 & [Hkc1 Hcc1] & Hkq & Hcq).
  apply wp_bind. apply wp_bind.
  eapply wp_get_size; [lookup_heap|]. apply wp_bind.
  eapply wp_get_size; [unfold s0; lookup_heap|].
  eapply wp_set_size; [lookup_heap|]. rewrite upd_upd.
  destruct (lookup_lt_is_Some_2 psr (size ndr)) as [c Hc]; [lia|].
  apply wp_bind. apply wp_bind.
  eapply wp_get_size; [unfold s0; lookup_heap|]. apply wp_bind.
  eapply wp_get_child; [unfold s0; lookup_heap|by apply Hpsr|]. apply wp_bind.
  eapply wp_get_size; [lookup_heap|].
  eapply wp_set_child; [lookup_heap|simpl; lia|]. rewrite upd_upd. simpl.
  apply wp_bind. eapply wp_free; [unfold s0; lookup_heap|].
  apply wp_bind. eapply wp_get_size; [unfold s0; lookup_heap|].
  match goal with |- context [upd l ?n s0] => set (ndl' := n) end.
  assert (Hrest : leaf ndl' = leaf ndl ∧ keys_are ndl' (ksl ++ sep :: ksr) ∧
      kids_are ndl' (psl ++ psr) ∧ caps_ok minDegree ndl' ∧
      leaf ndp' = leaf ndp ∧ keys_are ndp' (delete i ks) ∧
      kids_are ndp' (delete (S i) ps) ∧ caps_ok minDegree ndp').
  { subst ndl'. split; [done|]. split; [|split].
    - split; simpl; [rewrite length_app; simpl; lia|].
      intros q v Hq. apply Hkq; [|done].
      apply lookup_lt_Some in Hq. rewrite length_app in Hq. simpl in Hq. lia.
    - split; simpl; [rewrite length_app; lia|].
      intros q a Hq. rewrite list_lookup_insert.
      pose proof (lookup_lt_Some _ _ _ Hq) as Hlt. rewrite length_app in Hlt.
      case_decide; destruct_and?; simplify_eq.
      + rewrite lookup_app_r in Hq by lia.
        replace (size nd1 + size ndr - length psl) with (size ndr) in Hq by lia.
        congruence.
      + apply Hcq; [lia|done].
    - split; [split; simpl; rewrite ?length_insert; done|done]. }
  destruct Hksp' as [Hszp' Hksp'].
  rewrite length_delete in Hszp' by eauto.
  pose proof (lookup_lt_Some _ _ _ Hsep) as Hilt.
  case_decide as Hz.
  - apply wp_bind. apply wp_set_root.
    apply wp_bind. eapply wp_free; [unfold s0; lookup_heap|].
    apply wp_ret. exists ndp', ndl'. rewrite decide_True by lia.
    split; [done|]. destruct Hrest as (?&?&?&?&?&[??]&?&?). done.
  - apply wp_ret. exists ndp', ndl'. rewrite decide_False by lia.
    split; [done|]. destruct Hrest as (?&?&?&?&?&[??]&?&?). done.
Qed.

End NodeSpecs.

(** ** Trees: in-order lists, addresses, representation in the heap *)

Section TreeFacts.

Context {T : Type} (lessThan : T → T → bool) (minDegree : nat).
Local Abbreviation BNode := (@BNode T).
Local Abbreviation BTree := (@BTree T).
Local Abbreviation tree := (@tree T).
Implicit Types (s : BTree) (nd : BNode) (x y p q : addr).
Implicit Types (ks : list T) (ps : list addr) (tr : tree) (cs : list tree).
Implicit Types (h : gmap addr BNode).
Implicit Types (E : BTREE_EXCEPTION → BTree → Prop).

Lemma rep_0_inv h p ks cs :
  rep minDegree 0 h (Node p ks cs) →
  ∃ nd, h !! p = Some nd ∧ keys_are nd ks ∧ caps_ok minDegree nd ∧
        leaf nd = true ∧ cs = [].
Proof. done. Qed.

Lemma rep_0_intro h p ks cs :
  (∃ nd, h !! p = Some nd ∧ keys_are nd ks ∧ caps_ok minDegree nd ∧
         leaf nd = true ∧ cs = []) →
  rep minDegree 0 h (Node p ks cs).
Proof. done. Qed.

Lemma rep_S_inv n h p ks cs :
  rep minDegree (S n) h (Node p ks cs) →
  ∃ nd, h !! p = Some nd ∧ keys_are nd ks ∧ caps_ok minDegree nd ∧
        leaf nd = false ∧ kids_are nd (addr_of <$> cs) ∧
        Forall (rep minDegree n h) cs.
Proof. done. Qed.

Lemma rep_S_intro n h p ks cs :
  (∃ nd, h !! p = Some nd ∧ keys_are nd ks ∧ caps_ok minDegree nd ∧
         leaf nd = false ∧ kids_are nd (addr_of <$> cs) ∧
         Forall (rep minDegree n h) cs) →
  rep minDegree (S n) h (Node p ks cs).
Proof. done. Qed.

Lemma shape_0_inv lo p ks cs :
  shape minDegree 0 lo (Node p ks cs) →
  lo ≤ length ks ≤ 2 * minDegree - 1 ∧ cs = [].
Proof. done. Qed.

Lemma shape_0_intro lo p ks cs :
  lo ≤ length ks ≤ 2 * minDegree - 1 → cs = [] →
  shape minDegree 0 lo (Node p ks cs).
Proof. done. Qed.

Lemma shape_S_inv n lo p ks cs :
  shape minDegree (S n) lo (Node p ks cs) →
  lo ≤ length ks ≤ 2 * minDegree - 1 ∧ length cs = S (length ks) ∧
  Forall (shape minDegree n (minDegree - 1)) cs.
Proof. done. Qed.

Lemma shape_S_intro n lo p ks cs :
  lo ≤ length ks ≤ 2 * minDegree - 1 → length cs = S (length ks) →
  Forall (shape minDegree n (minDegree - 1)) cs →
  shape minDegree (S n) lo (Node p ks cs).
Proof. done. Qed.

Local Arguments rep : simpl never.
Local Arguments shape : simpl never.

Local Abbreviation rep := (rep minDegree).
Local Abbreviation shape := (shape minDegree).
Local Abbreviation caps_ok := (caps_ok minDegree).

Lemma rpart_app ks1 ks2 (cs1 cs2 : list (list T)) :
  length ks1 = length cs1 →
  rpart (ks1 ++ ks2) (cs1 ++ cs2) = rpart ks1 cs1 ++ rpart ks2 cs2.
Proof. intros. unfold rpart. by rewrite zip_with_app, join_app. Qed.

Lemma lpart_app ks1 ks2 (cs1 cs2 : list (list T)) :
  length cs1 = length ks1 →
  lpart (cs1 ++ cs2) (ks1 ++ ks2) = lpart cs1 ks1 ++ lpart cs2 ks2.
Proof. intros. unfold lpart. by rewrite zip_with_app, join_app. Qed.

Lemma join_snoc_aux (cs : list (list T)) ks (a : list T) :
  length cs = length ks →
  match cs with
  | [] => a
  | c0 :: tl => c0 ++ rpart ks (tl ++ [a])
  end = lpart cs ks ++ a.
Proof.
  revert ks. induction cs as [|c0 tl IH]; intros [|k ks] Hlen; simplify_eq/=.
  - done.
  - specialize (IH ks Hlen). destruct tl as [|c1 tl].
    + destruct ks; simplify_eq/=. unfold lpart, rpart. simpl.
      by rewrite !app_nil_r, <-app_assoc.
    + change (lpart (c0 :: c1 :: tl) (k :: ks))
        with ((c0 ++ [k]) ++ lpart (c1 :: tl) ks).
      rewrite <-!app_assoc, <-IH. done.
Qed.

Lemma join_window (cs1 cs2 : list (list T)) ks1 ks2 (a : list T) :
  length cs1 = length ks1 →
  join (cs1 ++ a :: cs2) (ks1 ++ ks2) = lpart cs1 ks1 ++ a ++ rpart ks2 cs2.
Proof.
  intros Hlen.
  destruct cs1 as [|c0 tl]; destruct ks1 as [|k0 ks1]; try discriminate.
  - done.
  - change (join ((c0 :: tl) ++ a :: cs2) ((k0 :: ks1) ++ ks2))
      with (c0 ++ rpart ((k0 :: ks1) ++ ks2) (tl ++ a :: cs2)).
    rewrite (cons_middle a tl cs2), app_assoc.
    rewrite rpart_app by (rewrite length_app; simpl in *; lia).
    rewrite !app_assoc. f_equal.
    apply (join_snoc_aux (c0 :: tl) (k0 :: ks1) a Hlen).
Qed.

(** The index loops on a list of keys split at the index found. *)
Lemma find_pos_app k ks1 ks2 :
  Forall (λ v, lessThan v k = true) ks1 →
  (ks2 = [] ∨ ∃ w, head ks2 = Some w ∧ lessThan w k = false) →
  find_pos lessThan k (ks1 ++ ks2) = length ks1.
Proof.
  intros H1 H2. induction H1 as [|v ks1 Hv _ IH]; simpl.
  - destruct H2 as [->|(w & Hx & Hlt)]; [done|].
    destruct ks2; simplify_eq/=. by rewrite Hlt.
  - by rewrite Hv, IH.
Qed.

Lemma find_pos_spec k ks :
  ∃ ks1 ks2, ks = ks1 ++ ks2 ∧ length ks1 = find_pos lessThan k ks ∧
    Forall (λ v, lessThan v k = true) ks1 ∧
    (ks2 = [] ∨ ∃ w, head ks2 = Some w ∧ lessThan w k = false).
Proof.
  induction ks as [|v ks (ks1 & ks2 & -> & Hlen & H1 & H2)]; simpl.
  - exists [], []. eauto.
  - destruct (lessThan v k) eqn:Hv.
    + exists (v :: ks1), ks2. simpl. rewrite Hlen. eauto.
    + exists [], (v :: ks1 ++ ks2). split_and!; eauto.
Qed.

Lemma ins_pos_le k ks n : ins_pos lessThan k ks n ≤ n.
Proof.
  induction n as [|n IH]; simpl; [done|].
  destruct (ks !! n); [|done]. destruct (lessThan k t); lia.
Qed.

Lemma ins_pos_snoc k ks v :
  ins_pos lessThan k (ks ++ [v]) (length (ks ++ [v])) =
    if lessThan k v then ins_pos lessThan k ks (length ks) else S (length ks).
Proof.
  rewrite length_app. simpl. rewrite Nat.add_1_r. simpl.
  rewrite lookup_app_r, Nat.sub_diag by done. simpl.
  destruct (lessThan k v); [|done].
  assert (∀ n, n ≤ length ks →
    ins_pos lessThan k (ks ++ [v]) n = ins_pos lessThan k ks n) as Haux; [|by apply Haux].
  induction n as [|n IH]; intros Hn; simpl; [done|].
  rewrite lookup_app_l by lia. destruct (ks !! n); [|done].
  destruct (lessThan k t); [apply IH; lia|done].
Qed.

Lemma ins_pos_app k ks1 ks2 :
  Forall (λ v, lessThan k v = true) ks2 →
  (ks1 = [] ∨ ∃ w, last ks1 = Some w ∧ lessThan k w = false) →
  ins_pos lessThan k (ks1 ++ ks2) (length (ks1 ++ ks2)) = length ks1.
Proof.
  intros H2 H1. induction ks2 as [|v ks2 IH] using rev_ind.
  - rewrite app_nil_r. destruct H1 as [->|(w & Hx & Hlt)]; [done|].
    destruct ks1 as [|y ks1 _] using rev_ind; [done|].
    rewrite last_snoc in Hx. simplify_eq.
    rewrite ins_pos_snoc, Hlt, length_app. simpl. lia.
  - apply Forall_app in H2 as [H2 Hv%Forall_inv].
    rewrite app_assoc, ins_pos_snoc, Hv. by apply IH.
Qed.

Lemma ins_pos_spec k ks :
  ∃ ks1 ks2, ks = ks1 ++ ks2 ∧
    length ks1 = ins_pos lessThan k ks (length ks) ∧
    Forall (λ v, lessThan k v = true) ks2 ∧
    (ks1 = [] ∨ ∃ w, last ks1 = Some w ∧ lessThan k w = false).
Proof.
  induction ks as [|v ks (ks1 & ks2 & -> & Hlen & H2 & H1)] using rev_ind.
  - exists [], []. eauto.
  - rewrite ins_pos_snoc. destruct (lessThan k v) eqn:Hv.
    + exists ks1, (ks2 ++ [v]). rewrite app_assoc. split_and!; try done.
      apply Forall_app. split; [done|]. by apply Forall_singleton.
    + exists ((ks1 ++ ks2) ++ [v]), []. rewrite app_nil_r.
      split_and!; try done.
      * rewrite length_app. simpl. lia.
      * right. exists v. by rewrite last_snoc.
Qed.

Lemma join_merge (csl csr : list (list T)) ksl ksr sep :
  (csl = [] ∧ csr = []) ∨ (length csl = S (length ksl) ∧ csr ≠ []) →
  join (csl ++ csr) (ksl ++ sep :: ksr) = join csl ksl ++ sep :: join csr ksr.
Proof.
  intros [[-> ->]|[Hlen Hne]]; [done|].
  destruct csl as [|a C _] using rev_ind; [done|].
  destruct csr as [|b C2]; [done|].
  rewrite length_app in Hlen. simpl in Hlen.
  rewrite <-app_assoc. simpl.
  rewrite join_window by lia.
  rewrite <-(app_nil_r ksl) at 2. rewrite join_window by lia.
  simpl. unfold rpart at 2. simpl. rewrite app_nil_r, <-!app_assoc. done.
Qed.

Lemma join_split (cs : list (list T)) ks j m :
  cs = [] ∨ length cs = S (length ks) → ks !! j = Some m →
  join cs ks =
    join (take (S j) cs) (take j ks) ++ m :: join (drop (S j) cs) (drop (S j) ks).
Proof.
  intros Hcs Hm. pose proof (lookup_lt_Some _ _ _ Hm) as Hj.
  rewrite <-(take_drop (S j) cs) at 1.
  rewrite <-(take_drop_middle ks j m Hm) at 1.
  apply join_merge. destruct Hcs as [->|Hlen].
  - left. by rewrite take_nil, drop_nil.
  - right. rewrite !length_take. split; [lia|].
    intros Hnil. apply (f_equal length) in Hnil.
    rewrite length_drop in Hnil. simpl in Hnil. lia.
Qed.

Lemma elem_of_lpart (cs : list (list T)) ks v :
  length cs = length ks → v ∈ ks → v ∈ lpart cs ks.
Proof.
  revert ks. induction cs as [|c cs IH]; intros [|w ks] Hlen Hin;
    simplify_eq/=; [by apply elem_of_nil in Hin|].
  unfold lpart. simpl. change (mjoin (zip_with (λ c k, c ++ [k]) cs ks))
    with (lpart cs ks).
  apply elem_of_cons in Hin as [->|Hin]; [set_solver|].
  apply elem_of_app. right. by apply IH.
Qed.

Lemma elem_of_rpart ks (cs : list (list T)) v :
  length cs = length ks → v ∈ ks → v ∈ rpart ks cs.
Proof.
  revert ks. induction cs as [|c cs IH]; intros [|w ks] Hlen Hin;
    simplify_eq/=; [by apply elem_of_nil in Hin|].
  unfold rpart. simpl. change (mjoin (zip_with cons ks cs)) with (rpart ks cs).
  apply elem_of_cons in Hin as [->|Hin]; [set_solver|].
  right. apply elem_of_app. right. by apply IH.
Qed.

Lemma elem_of_join_key (cs : list (list T)) ks v :
  cs = [] ∨ length cs = S (length ks) → v ∈ ks → v ∈ join cs ks.
Proof.
  intros Hcs (j & Hj)%list_elem_of_lookup.
  rewrite (join_split cs ks j v) by done. apply elem_of_app. right. left.
Qed.

Lemma shape_kids n lo p ks cs :
  shape n lo (Node p ks cs) → cs = [] ∨ length cs = S (length ks).
Proof.
  destruct n.
  - intros [_ H]%shape_0_inv. by left.
  - intros (_ & H & _)%shape_S_inv. by right.
Qed.

Lemma shape_nkeys n lo tr : shape n lo tr → lo ≤ nkeys tr ≤ 2 * minDegree - 1.
Proof.
  destruct tr, n.
  - by intros [H _]%shape_0_inv.
  - by intros [H _]%shape_S_inv.
Qed.

Lemma shape_weaken n lo lo' tr : lo' ≤ lo → shape n lo tr → shape n lo' tr.
Proof.
  destruct tr, n; intros Hle.
  - intros [Hb ?]%shape_0_inv. apply shape_0_intro; [lia|done].
  - intros (Hb & ? & ?)%shape_S_inv. apply shape_S_intro; [lia|done..].
Qed.

Lemma inorder_window p ks1 ks2 cs1 cs2 a :
  length cs1 = length ks1 →
  inorder (Node p (ks1 ++ ks2) (cs1 ++ a :: cs2)) =
    lpart (inorder <$> cs1) ks1 ++ inorder a ++ rpart ks2 (inorder <$> cs2).
Proof.
  intros. simpl. rewrite fmap_app, fmap_cons. apply join_window.
  by rewrite length_fmap.
Qed.

Lemma addrs_window p ks cs1 cs2 a :
  addrs (Node p ks (cs1 ++ a :: cs2)) =
    p :: (cs1 ≫= addrs) ++ addrs a ++ (cs2 ≫= addrs).
Proof. simpl. by rewrite bind_app, bind_cons. Qed.

Lemma submseteq_NoDup {A} (l k : list A) : l ⊆+ k → NoDup k → NoDup l.
Proof.
  intros (k' & Hk)%submseteq_Permutation. rewrite Hk.
  by intros (? & _ & _)%NoDup_app.
Qed.

Lemma rep_frame n : ∀ h h' tr,
  (∀ q, q ∈ addrs tr → h' !! q = h !! q) → rep n h tr → rep n h' tr.
Proof.
  induction n as [|n IH]; intros h h' [p ks cs] Hfr.
  - intros (nd & Hp & ?)%rep_0_inv. apply rep_0_intro. exists nd.
    rewrite Hfr by left. done.
  - intros (nd & Hp & Hks & Hc & Hlf & Hps & Hcs)%rep_S_inv.
    apply rep_S_intro. exists nd.
    rewrite Hfr by left. split_and!; try done.
    apply Forall_forall. intros c Hin.
    apply (IH h h'); [|by eapply Forall_forall in Hcs].
    intros q Hq. apply Hfr. simpl. right.
    apply list_elem_of_bind. eauto.
Qed.

Hypothesis Ht : 2 ≤ minDegree.

Lemma rep_node n h p ks cs :
  rep n h (Node p ks cs) →
  ∃ nd ps, h !! p = Some nd ∧ keys_are nd ks ∧ kids_are nd ps ∧ caps_ok nd ∧
    leaf nd = bool_decide (n = 0) ∧ length ks ≤ 2 * minDegree - 1 ∧
    match n with
    | 0 => cs = []
    | S n' => ps = addr_of <$> cs ∧ Forall (rep n' h) cs
    end.
Proof.
  destruct n as [|n].
  - intros (nd & Hp & Hks & Hc & Hlf & ->)%rep_0_inv.
    pose proof (keys_are_length _ _ Hks) as Hlen. destruct Hc as [Hkc Hcc].
    exists nd, (take (S (size nd)) (child nd)).
    split_and!; try done; try lia.
    apply kids_are_take. destruct Hks as [-> _]. lia.
  - intros (nd & Hp & Hks & Hc & Hlf & Hps & Hcs)%rep_S_inv.
    pose proof (keys_are_length _ _ Hks) as Hlen. destruct Hc as [Hkc Hcc].
    exists nd, (addr_of <$> cs). split_and!; try done; lia.
Qed.

Lemma rep_leaf_intro h p ks nd :
  h !! p = Some nd → keys_are nd ks → caps_ok nd → leaf nd = true →
  rep 0 h (Node p ks []).
Proof. intros. apply rep_0_intro. eauto 10. Qed.

Lemma rep_node_intro n h p ks cs nd :
  h !! p = Some nd → keys_are nd ks → caps_ok nd → leaf nd = false →
  kids_are nd (addr_of <$> cs) → Forall (rep n h) cs →
  rep (S n) h (Node p ks cs).
Proof. intros. apply rep_S_intro. eauto 10. Qed.

Lemma rep_frame_Forall n h h' cs :
  (∀ q, q ∈ cs ≫= addrs → h' !! q = h !! q) →
  Forall (rep n h) cs → Forall (rep n h') cs.
Proof.
  intros Hfr Hcs. apply Forall_forall. intros c Hin.
  apply (rep_frame n h h'); [|by eapply Forall_forall in Hcs].
  intros q Hq. apply Hfr. apply list_elem_of_bind. eauto.
Qed.

(** Ownership and frames. *)
Lemma NoDup_fresh (A : list addr) b d :
  NoDup A → Forall (λ a, a < b) A → NoDup (A ++ seq b d).
Proof.
  intros HA Hb. apply NoDup_app. split_and!; [done| |apply NoDup_seq].
  intros a Ha Hin. apply elem_of_seq in Hin.
  eapply Forall_forall in Hb; [|done]. lia.
Qed.

Lemma grows_owns s s' tr tr' : owns s tr → grows s s' tr tr' → owns s' tr'.
Proof.
  intros [Hnd Hb] (Hle & Hsub & _). split.
  - eapply submseteq_NoDup; [done|]. by apply NoDup_fresh.
  - apply Forall_forall. intros a Ha.
    eapply elem_of_submseteq in Ha; [|done].
    apply elem_of_app in Ha as [Ha|Ha].
    + eapply Forall_forall in Hb; [|done]. lia.
    + apply elem_of_seq in Ha. lia.
Qed.

Lemma grows_refl s tr : grows s s tr tr.
Proof.
  split; [done|]. split; [|done].
  rewrite Nat.sub_diag. simpl. by rewrite app_nil_r.
Qed.

Lemma grows_elem s s' tr tr' a :
  grows s s' tr tr' → a ∈ addrs tr' → a ∈ addrs tr ∨ brk s ≤ a < brk s'.
Proof.
  intros (Hle & Hsub & _) Ha.
  eapply elem_of_submseteq in Ha; [|done].
  apply elem_of_app in Ha as [Ha|Ha]; [by left|].
  apply elem_of_seq in Ha. right. lia.
Qed.

Lemma grows_trans s s1 s2 tr tr1 tr2 :
  grows s s1 tr tr1 → grows s1 s2 tr1 tr2 → grows s s2 tr tr2.
Proof.
  intros H1 H2. pose proof H1 as (Hle1 & Hsub1 & Hfr1).
  destruct H2 as (Hle2 & Hsub2 & Hfr2).
  split; [lia|]. split.
  - etrans; [exact Hsub2|]. etrans; [by apply submseteq_skips_r|].
    rewrite <-app_assoc. apply submseteq_skips_l.
    replace (brk s2 - brk s) with ((brk s1 - brk s) + (brk s2 - brk s1)) by lia.
    rewrite seq_app.
    replace (brk s + (brk s1 - brk s)) with (brk s1) by lia. done.
  - intros q Hq Hlt. rewrite Hfr2; [by apply Hfr1| |lia].
    intros Hin. apply (grows_elem _ _ _ _ _ H1) in Hin as [?|?]; [done|lia].
Qed.

Lemma grows_child s s' p ks ks' cs1 cs2 c c' :
  grows s s' c c' →
  grows s s' (Node p ks (cs1 ++ c :: cs2)) (Node p ks' (cs1 ++ c' :: cs2)).
Proof.
  intros (Hle & Hsub & Hfr). split; [done|]. split.
  - rewrite !addrs_window. simpl. apply submseteq_skip.
    etrans; [by apply submseteq_skips_l, submseteq_skips_r|].
    solve_submseteq.
  - intros q Hq. apply Hfr. intros Hin. apply Hq.
    rewrite addrs_window. set_solver.
Qed.

Lemma owns_child s p ks cs1 cs2 c :
  owns s (Node p ks (cs1 ++ c :: cs2)) → owns s c.
Proof.
  intros [Hnd Hb]. rewrite addrs_window in Hnd, Hb. split.
  - apply NoDup_cons in Hnd as [_ Hnd].
    apply NoDup_app in Hnd as (_ & _ & Hnd).
    by apply NoDup_app in Hnd as (? & _ & _).
  - apply Forall_cons in Hb as [_ Hb]. apply Forall_app in Hb as [_ Hb].
    by apply Forall_app in Hb as [? _].
Qed.

Lemma rep_child_update n s s' p ks cs1 cs2 c c' :
  rep (S n) (heap s) (Node p ks (cs1 ++ c :: cs2)) →
  owns s (Node p ks (cs1 ++ c :: cs2)) →
  grows s s' c c' → rep n (heap s') c' → addr_of c' = addr_of c →
  rep (S n) (heap s') (Node p ks (cs1 ++ c' :: cs2)).
Proof.
  intros Hrep [Hnd Hb] (Hle & Hsub & Hfr) Hc' Haddr.
  rewrite addrs_window in Hnd, Hb.
  apply NoDup_cons in Hnd as [Hp Hnd].
  apply NoDup_app in Hnd as (_ & Hd1 & Hnd).
  apply NoDup_app in Hnd as (_ & Hd2 & _).
  apply Forall_cons in Hb as [Hpb Hb]. apply Forall_app in Hb as [Hb1 Hb].
  apply Forall_app in Hb as [_ Hb2].
  apply rep_S_inv in Hrep as (nd & Hlk & Hks & Hc & Hlf & Hps & Hcs).
  apply Forall_app in Hcs as [Hcs1 Hcs]. apply Forall_cons in Hcs as [_ Hcs2].
  eapply rep_node_intro; [|done|done|done|..].
  - rewrite Hfr; [done| |done]. set_solver.
  - by rewrite fmap_app, fmap_cons, Haddr, <-fmap_cons, <-fmap_app.
  - apply Forall_app. split; [|apply Forall_cons; split; [done|]].
    + eapply rep_frame_Forall; [|done]. intros q Hq. apply Hfr.
      * intros Hin. by eapply Hd1; [|apply elem_of_app; left].
      * by eapply Forall_forall in Hb1.
    + eapply rep_frame_Forall; [|done]. intros q Hq. apply Hfr.
      * intros Hin. by eapply Hd2.
      * by eapply Forall_forall in Hb2.
Qed.

(** [splitChild] on a tree. *)
Lemma split_tree n s x ks1 ks2 cs1 cs2 y ksy csy m E :
  let tr := Node x (ks1 ++ ks2) (cs1 ++ Node y ksy csy :: cs2) in
  rep (S n) (heap s) tr → length cs1 = length ks1 →
  NoDup (addrs tr) → Forall (λ a, a < brk s) (addrs tr) →
  length (ks1 ++ ks2) < 2 * minDegree - 1 →
  length ksy = 2 * minDegree - 1 → ksy !! (minDegree - 1) = Some m →
  ins_pos lessThan m (ks1 ++ ks2) (length (ks1 ++ ks2)) = length ks1 →
  wp (splitChild lessThan minDegree x (length ks1)) s (λ _ s',
    root s' = root s ∧ brk s' = S (brk s) ∧
    rep (S n) (heap s')
      (Node x (ks1 ++ m :: ks2)
         (cs1 ++ Node y (take (minDegree - 1) ksy) (take minDegree csy) ::
                 Node (brk s) (drop minDegree ksy) (drop minDegree csy) :: cs2)) ∧
    (∀ q, q ≠ x → q ≠ y → q ≠ brk s → heap s' !! q = heap s !! q)) E.
Proof.
  intros tr Hrep Hlen Hnd Hbrk Hsz Hfull Hm Hpos.
  apply rep_node in Hrep as (ndx & psx & Hx & Hksx & Hpsx & Hcx & Hlfx & _ & -> & Hcs).
  apply Forall_app in Hcs as [Hcs1 Hcs]. apply Forall_cons in Hcs as [Hy Hcs2].
  apply rep_node in Hy as (ndy & psy & Hy & Hksy & Hpsy & Hcy & Hlfy & _ & Hkidsy).
  unfold tr in Hnd, Hbrk. rewrite addrs_window in Hnd, Hbrk. simpl in Hnd, Hbrk.
  apply NoDup_cons in Hnd as [Hxn Hnd].
  apply NoDup_app in Hnd as (Hnd1 & Hd1 & Hnd).
  apply NoDup_cons in Hnd as [Hyn Hnd].
  apply NoDup_app in Hnd as (Hndy & Hdy & Hnd2).
  apply Forall_cons in Hbrk as [Hxb Hbrk].
  apply Forall_app in Hbrk as [Hb1 Hbrk]. apply Forall_cons in Hbrk as [Hyb Hbrk].
  apply Forall_app in Hbrk as [Hby Hb2].
  assert (x ≠ y) as Hxy.
  { intros ->. apply Hxn. apply elem_of_app. right. left. }
  eapply wp_post.
  { eapply (wp_splitChild _ _ x (length ks1) y); try done; try lia.
    rewrite fmap_app, fmap_cons. apply list_lookup_middle.
    by rewrite length_fmap. }
  simpl. intros _ s' (ndx' & ndy' & ndz & -> & Hlfz & Hksz & Hpsz & Hcz &
    Hlfy' & Hksy' & Hpsy' & Hcy' & Hlfx' & Hksx' & Hpsx' & Hcx').
  rewrite Hpos in Hksx', Hpsx'.
  rewrite take_app_length, drop_app_length in Hksx'.
  split; [done|]. split; [done|].
  assert (Hfr : ∀ q, q ≠ x → q ≠ y → q ≠ brk s →
    heap (upd x ndx' (upd y ndy' (upd (brk s) ndz
      (mkBTree (root s) (heap s) (S (brk s)))))) !! q = heap s !! q).
  { intros q ???. by rewrite !heap_upd_ne by done. }
  split; [|done].
  assert (Hfrc : ∀ n' cs, Forall (λ a, a < brk s) (cs ≫= addrs) →
    x ∉ cs ≫= addrs → y ∉ cs ≫= addrs → Forall (rep n' (heap s)) cs →
    Forall (rep n' (heap (upd x ndx' (upd y ndy' (upd (brk s) ndz
      (mkBTree (root s) (heap s) (S (brk s)))))))) cs).
  { intros n' cs Hb Hxc Hyc. apply rep_frame_Forall. intros q Hq.
    apply Hfr; try (intros ->; done).
    eapply Forall_forall in Hb; [|done]. lia. }
  eapply rep_node_intro; [lookup_heap|done|done|by rewrite Hlfx', Hlfx|..].
  - rewrite fmap_app, !fmap_cons in Hpsx'. rewrite fmap_app, !fmap_cons.
    rewrite insert_dup_middle in Hpsx' by (by rewrite length_fmap). done.
  - apply Forall_app. split.
    { apply Hfrc; try done.
      - intros Hin. apply Hxn. apply elem_of_app. by left.
      - intros Hin. eapply Hd1; [done|]. left. }
    apply Forall_cons. split; [|apply Forall_cons; split].
    + destruct n as [|n].
      * subst csy. rewrite take_nil.
        eapply rep_leaf_intro; [lookup_heap|done|done|by rewrite Hlfy', Hlfy].
      * destruct Hkidsy as [-> Hcsy].
        eapply rep_node_intro; [lookup_heap|done|done|by rewrite Hlfy', Hlfy|..].
        -- by rewrite fmap_take.
        -- apply Forall_take. apply Hfrc; try done.
           ++ intros Hin. apply Hxn. apply elem_of_app. right. right.
              apply elem_of_app. by left.
           ++ intros Hin. apply Hyn. apply elem_of_app. by left.
    + destruct n as [|n].
      * subst csy. rewrite drop_nil.
        eapply rep_leaf_intro; [lookup_heap|done|done|by rewrite Hlfz, Hlfy].
      * destruct Hkidsy as [-> Hcsy].
        eapply rep_node_intro; [lookup_heap|done|done|by rewrite Hlfz, Hlfy|..].
        -- rewrite fmap_drop. apply Hpsz. by rewrite Hlfy.
        -- apply Forall_drop. apply Hfrc; try done.
           ++ intros Hin. apply Hxn. apply elem_of_app. right. right.
              apply elem_of_app. by left.
           ++ intros Hin. apply Hyn. apply elem_of_app. by left.
    + apply Hfrc; try done.
      * intros Hin. apply Hxn. apply elem_of_app. right. right.
        apply elem_of_app. by right.
      * intros Hin. apply Hyn. apply elem_of_app. by right.
Qed.

Lemma split_grows s s' x ks ks' cs1 cs2 y ksy ksy1 ksy2 csy t :
  brk s' = S (brk s) →
  (∀ q, q ≠ x → q ≠ y → q ≠ brk s → heap s' !! q = heap s !! q) →
  grows s s' (Node x ks (cs1 ++ Node y ksy csy :: cs2))
    (Node x ks' (cs1 ++ Node y ksy1 (take t csy) ::
                        Node (brk s) ksy2 (drop t csy) :: cs2)).
Proof.
  intros Hbrk Hfr. split; [lia|]. split.
  - rewrite Hbrk. replace (S (brk s) - brk s) with 1 by lia.
    rewrite !addrs_window. csimpl.
    rewrite <-(take_drop t csy) at 3. rewrite bind_app.
    apply submseteq_skip. solve_submseteq.
  - intros q Hq Hlt. rewrite addrs_window in Hq. simpl in Hq.
    apply Hfr; [set_solver..|lia].
Qed.

(** *** Restructuring steps of deletion *)

(** The node at the top of a tree, for leaves and internal nodes alike. *)
Lemma rep_view n h p ks cs :
  rep n h (Node p ks cs) →
  ∃ nd ps, h !! p = Some nd ∧ keys_are nd ks ∧ kids_are nd ps ∧ caps_ok nd ∧
    leaf nd = bool_decide (n = 0) ∧
    (n = 0 → cs = []) ∧ (n ≠ 0 → ps = addr_of <$> cs) ∧
    Forall (rep (n - 1) h) cs.
Proof.
  intros (nd & ps & ? & ? & ? & ? & ? & _ & Hn)%rep_node.
  exists nd, ps. split_and!; try done.
  - intros ->. done.
  - intros ?. destruct n; [done|]. by destruct Hn.
  - destruct n as [|n]; [by subst|]. rewrite Nat.sub_succ, Nat.sub_0_r.
    by destruct Hn.
Qed.

Lemma rep_build n h h' p ks cs nd :
  h' !! p = Some nd → keys_are nd ks → caps_ok nd →
  leaf nd = bool_decide (n = 0) →
  (n = 0 → cs = []) → (n ≠ 0 → kids_are nd (addr_of <$> cs)) →
  (∀ q, q ∈ cs ≫= addrs → h' !! q = h !! q) →
  Forall (rep (n - 1) h) cs →
  rep n h' (Node p ks cs).
Proof.
  intros Hp Hks Hc Hlf H0 Hn Hfr Hcs. destruct n as [|n].
  - rewrite H0 by done. by eapply rep_leaf_intro.
  - rewrite Nat.sub_succ, Nat.sub_0_r in Hcs.
    eapply rep_node_intro; [done|done|done|done|by apply Hn|].
    by eapply rep_frame_Forall.
Qed.

Lemma NoDup_window p (A B C D : list addr) l r :
  NoDup (p :: A ++ (l :: B) ++ (r :: C) ++ D) →
  p ≠ l ∧ p ≠ r ∧ l ≠ r ∧
  (∀ q, q ∈ A ++ B ++ C ++ D → q ≠ p ∧ q ≠ l ∧ q ≠ r).
Proof.
  intros Hnd. apply NoDup_cons in Hnd as [Hp Hnd].
  apply NoDup_app in Hnd as (_ & HA & Hnd).
  apply NoDup_app in Hnd as (HlB & HB & Hnd).
  apply NoDup_cons in HlB as [Hl _].
  apply NoDup_app in Hnd as (HrC & HC & _).
  apply NoDup_cons in HrC as [Hr _].
  split_and!.
  - intros ->. set_solver.
  - intros ->. set_solver.
  - intros ->. apply (HB r); set_solver.
  - intros q Hq. split_and!; intros ->.
    + set_solver.
    + rewrite !elem_of_app in Hq. destruct Hq as [Hq|[Hq|[Hq|Hq]]].
      * apply (HA l); set_solver.
      * done.
      * apply (HB l); set_solver.
      * apply (HB l); set_solver.
    + rewrite !elem_of_app in Hq. destruct Hq as [Hq|[Hq|[Hq|Hq]]].
      * apply (HA r); set_solver.
      * apply (HB r); set_solver.
      * done.
      * apply (HC r); set_solver.
Qed.

Lemma addrs_window2 p ks cs1 cs2 a b :
  addrs (Node p ks (cs1 ++ a :: b :: cs2)) =
    p :: (cs1 ≫= addrs) ++ addrs a ++ addrs b ++ (cs2 ≫= addrs).
Proof. simpl. rewrite bind_app. csimpl. by rewrite <-?app_assoc. Qed.

(** [mergeChildren] on a tree. *)
Lemma merge_tree n s p ks1 sep ks2 cs1 l ksl csl r ksr csr cs2 E :
  let tr := Node p (ks1 ++ sep :: ks2)
              (cs1 ++ Node l ksl csl :: Node r ksr csr :: cs2) in
  let merged := Node l (ksl ++ sep :: ksr) (csl ++ csr) in
  rep (S n) (heap s) tr → length cs1 = length ks1 → NoDup (addrs tr) →
  length ksl + length ksr + 1 ≤ 2 * minDegree - 1 →
  wp (mergeChildren p (length ks1)) s (λ res s',
    brk s' = brk s ∧
    (∀ q, q ≠ p → q ≠ l → q ≠ r → heap s' !! q = heap s !! q) ∧
    if decide (length (ks1 ++ sep :: ks2) = 1) then
      res = NEW_ROOT ∧ l ≠ p ∧ root s' = l ∧ rep n (heap s') merged
    else
      res = MODIFIED_NOT_ROOT ∧ root s' = root s ∧
      rep (S n) (heap s') (Node p (ks1 ++ ks2) (cs1 ++ merged :: cs2))) E.
Proof.
  intros tr merged Hrep Hlen Hnd Hsz.
  apply rep_view in Hrep as (ndp & ps & Hp & Hks & Hps & Hcp & Hlfp & _ & Hpsp & Hcs).
  rewrite Nat.sub_succ, Nat.sub_0_r in Hcs. rewrite Hpsp in Hps by done. clear Hpsp.
  apply Forall_app in Hcs as [Hcs1 Hcs]. apply Forall_cons in Hcs as [Hl Hcs].
  apply Forall_cons in Hcs as [Hr Hcs2].
  pose proof Hl as (ndl & psl & Hhl & Hksl & Hpsl & Hcl & Hlfl & Hl0 & Hln & Hcsl)%rep_view.
  pose proof Hr as (ndr & psr & Hhr & Hksr & Hpsr & Hcr & Hlfr & Hr0 & Hrn & Hcsr)%rep_view.
  unfold tr in Hnd. rewrite addrs_window2 in Hnd. simpl in Hnd.
  apply NoDup_window in Hnd as (Hpl & Hpr & Hlr & Hothers).
  rewrite fmap_app, !fmap_cons in Hps. simpl in Hps.
  eapply wp_post.
  { eapply (wp_mergeChildren minDegree p (length ks1) l r); try done.
    - by apply list_lookup_middle.
    - apply list_lookup_middle. by rewrite length_fmap.
    - rewrite (cons_middle l), app_assoc.
      apply list_lookup_middle. rewrite length_app, length_fmap. simpl. lia. }
  simpl. intros res s' (ndp' & ndl' & Hres & Hlfl' & Hksl' & Hpsl' & Hcl' & Hlfp' &
    Hksp' & Hpsp' & Hcp').
  rewrite delete_middle in Hksp'.
  assert (delete (S (length ks1))
    ((addr_of <$> cs1) ++ l :: r :: (addr_of <$> cs2)) =
    addr_of <$> (cs1 ++ merged :: cs2)) as Hdel.
  { rewrite fmap_app, fmap_cons. simpl.
    rewrite (cons_middle l), app_assoc.
    replace (S (length ks1)) with (length ((addr_of <$> cs1) ++ [l]))
      by (rewrite length_app, length_fmap; simpl; lia).
    by rewrite delete_middle, <-app_assoc. }
  rewrite Hdel in Hpsp'. clear Hdel.
  assert (Hfrc : ∀ h', (∀ q, q ≠ p → q ≠ l → q ≠ r → h' !! q = heap s !! q) →
    ∀ cs, (∀ q, q ∈ cs ≫= addrs → q ≠ p ∧ q ≠ l ∧ q ≠ r) →
    ∀ q, q ∈ cs ≫= addrs → h' !! q = heap s !! q).
  { intros h' Hfr cs Hq q Hin. destruct (Hq q Hin) as (? & ? & ?). by apply Hfr. }
  assert (Hmerged : ∀ h', h' !! l = Some ndl' →
    (∀ q, q ≠ p → q ≠ l → q ≠ r → h' !! q = heap s !! q) → rep n h' merged).
  { intros h' Hh' Hfr. eapply rep_build; [done|done|done|by rewrite Hlfl'| | | |].
    - intros H0. by rewrite Hl0, Hr0.
    - intros H0. by rewrite fmap_app, <-Hln, <-Hrn.
    - apply (Hfrc _ Hfr). intros q Hq. apply Hothers.
      rewrite bind_app in Hq. clear -Hq. set_solver.
    - apply Forall_app. by split. }
  case_decide as Hone.
  - destruct Hres as [-> ->]. split; [done|].
    assert (Hfr : ∀ q, q ≠ p → q ≠ l → q ≠ r →
      heap (del p (reroot l (del r (upd l ndl' (upd p ndp' s))))) !! q = heap s !! q).
    { intros q ???. rewrite heap_del_ne, heap_reroot, heap_del_ne, !heap_upd_ne; done. }
    split; [done|]. split; [done|]. split; [done|]. split; [done|].
    apply Hmerged; [|done].
    rewrite heap_del_ne, heap_reroot, heap_del_ne by done. apply heap_upd_eq.
  - destruct Hres as [-> ->]. split; [done|].
    assert (Hfr : ∀ q, q ≠ p → q ≠ l → q ≠ r →
      heap (del r (upd l ndl' (upd p ndp' s))) !! q = heap s !! q).
    { intros q ???. rewrite heap_del_ne, !heap_upd_ne; done. }
    split; [done|]. split; [done|]. split; [done|].
    eapply rep_node_intro; [|done|done|by rewrite Hlfp'|done|].
    { rewrite heap_del_ne, heap_upd_ne by done. apply heap_upd_eq. }
    apply Forall_app. split; [|apply Forall_cons; split].
    + eapply rep_frame_Forall; [|done]. apply (Hfrc _ Hfr).
      intros q Hq. apply Hothers. clear -Hq. set_solver.
    + apply Hmerged; [|done]. rewrite heap_del_ne by done. apply heap_upd_eq.
    + eapply rep_frame_Forall; [|done]. apply (Hfrc _ Hfr).
      intros q Hq. apply Hothers. clear -Hq. set_solver.
Qed.

(** The pointer-fixing loop of the left borrow. *)
(** [mergeChildren] frees the right child, and the parent when the
    merged node takes its place. *)
Lemma merge_frees n s p ks1 sep ks2 cs1 l ksl csl r ksr csr cs2 E :
  let tr := Node p (ks1 ++ sep :: ks2)
              (cs1 ++ Node l ksl csl :: Node r ksr csr :: cs2) in
  rep (S n) (heap s) tr → length cs1 = length ks1 → NoDup (addrs tr) →
  length ksl + length ksr + 1 ≤ 2 * minDegree - 1 →
  wp (mergeChildren p (length ks1)) s (λ res s',
    heap s' !! r = None ∧ (res = NEW_ROOT → heap s' !! p = None)) E.
Proof.
  intros tr Hrep Hlen Hnd Hsz.
  apply rep_view in Hrep as (ndp & ps & Hp & Hks & Hps & Hcp & Hlfp & _ & Hpsp & Hcs).
  rewrite Nat.sub_succ, Nat.sub_0_r in Hcs. rewrite Hpsp in Hps by done. clear Hpsp.
  apply Forall_app in Hcs as [Hcs1 Hcs]. apply Forall_cons in Hcs as [Hl Hcs].
  apply Forall_cons in Hcs as [Hr Hcs2].
  pose proof Hl as (ndl & psl & Hhl & Hksl & Hpsl & Hcl & _)%rep_view.
  pose proof Hr as (ndr & psr & Hhr & Hksr & Hpsr & Hcr & _)%rep_view.
  unfold tr in Hnd. rewrite addrs_window2 in Hnd. simpl in Hnd.
  apply NoDup_window in Hnd as (Hpl & Hpr & Hlr & _).
  rewrite fmap_app, !fmap_cons in Hps. simpl in Hps.
  eapply wp_post.
  { eapply (wp_mergeChildren minDegree p (length ks1) l r); try done.
    - by apply list_lookup_middle.
    - apply list_lookup_middle. by rewrite length_fmap.
    - rewrite (cons_middle l), app_assoc.
      apply list_lookup_middle. rewrite length_app, length_fmap. simpl. lia. }
  simpl. intros res s' (ndp' & ndl' & Hres & _).
  case_decide.
  - destruct Hres as [-> ->]. split; [|intros _; apply heap_del_eq].
    rewrite heap_del_ne, heap_reroot by done. apply heap_del_eq.
  - destruct Hres as [-> ->]. split; [apply heap_del_eq|done].
Qed.

Lemma wp_shift_children x E j : ∀ s nd,
  heap s !! x = Some nd → j < length (child nd) →
  wp (shift_children j x) s (λ _ s',
    ∃ nd', s' = upd x nd' s ∧ key nd' = key nd ∧ size nd' = size nd ∧
      leaf nd' = leaf nd ∧ length (child nd') = length (child nd) ∧
      (∀ q, child nd' !! q =
         if decide (1 ≤ q ≤ j) then child nd !! (q - 1) else child nd !! q)) E.
Proof.
  induction j as [|j IH]; intros s nd Hx Hj; simpl.
  - apply wp_ret. exists nd. rewrite upd_id by done. split_and!; try done.
    intros q. case_decide; [lia|done].
  - destruct (lookup_lt_is_Some_2 (child nd) j) as [c Hc]; [lia|].
    apply wp_bind. apply wp_bind. eapply wp_get_child; [done|done|].
    eapply wp_set_child; [done|lia|].
    eapply wp_post.
    { eapply IH; [apply heap_upd_eq|]. simpl. rewrite length_insert. lia. }
    simpl. intros _ s' (nd' & -> & Hk & Hsz & Hlf & Hlen & Hch).
    exists nd'. rewrite upd_upd. rewrite length_insert in Hlen.
    split_and!; try done.
    intros q. rewrite Hch.
    destruct (decide (q = S j)) as [->|Hq].
    + rewrite decide_False by lia. rewrite decide_True by lia.
      rewrite list_lookup_insert_eq by lia. simpl. by rewrite Nat.sub_0_r.
    + case_decide.
      * rewrite decide_True by lia. rewrite list_lookup_insert_ne by lia. done.
      * rewrite decide_False by lia. rewrite list_lookup_insert_ne by lia. done.
Qed.

Lemma kids_are_same nd nd' ps :
  kids_are nd ps → child nd' = child nd → size nd' = size nd → kids_are nd' ps.
Proof. intros [? ?] Hc Hs. split; by rewrite ?Hc, ?Hs. Qed.

Lemma frame3 s s' p l c :
  (∀ q, q ≠ p → q ≠ l → q ≠ c → heap s' !! q = heap s !! q) →
  ∀ cs, (∀ q, q ∈ cs ≫= addrs → q ≠ p ∧ q ≠ l ∧ q ≠ c) →
  ∀ q, q ∈ cs ≫= addrs → heap s' !! q = heap s !! q.
Proof. intros Hfr cs Hq q Hin. destruct (Hq q Hin) as (? & ? & ?). by apply Hfr. Qed.

(** The left borrow of [fixChildSize] on a tree: [clast] is the last
    subtree of the left sibling (none for leaves). *)
Lemma borrow_left_tree n s p ks1 sep ks2 cs1 l ksl up csl clast c ksc csc cs2 E :
  let tr := Node p (ks1 ++ sep :: ks2)
              (cs1 ++ Node l (ksl ++ [up]) (csl ++ clast) :: Node c ksc csc :: cs2) in
  let j := ins_pos lessThan sep ksc (length ksc) in
  let tr' := Node p (ks1 ++ up :: ks2)
               (cs1 ++ Node l ksl csl ::
                  Node c (take j ksc ++ sep :: drop j ksc) (clast ++ csc) :: cs2) in
  rep (S n) (heap s) tr → length cs1 = length ks1 → NoDup (addrs tr) →
  length ksc < 2 * minDegree - 1 →
  (n ≠ 0 → length clast = 1 ∧ length csl = S (length ksl)) →
  wp ((let! kv := get_key p (length ks1) in
       let! i := nodeInsert lessThan c kv in
       shift_children i c);;;
      (let! lsz := get_size l in
       let! c0 := get_child l lsz in
       set_child c 0 c0);;;
      (let! lsz := get_size l in
       let! kv := nodeDelete l (lsz - 1) in
       set_key p (length ks1) kv);;;
      ret MODIFIED_NOT_ROOT) s (λ res s',
    res = MODIFIED_NOT_ROOT ∧ brk s' = brk s ∧ root s' = root s ∧
    (∀ q, q ≠ p → q ≠ l → q ≠ c → heap s' !! q = heap s !! q) ∧
    rep (S n) (heap s') tr') E.
Proof.
  intros tr j tr' Hrep Hlen Hnd Hroom Hshape.
  apply rep_view in Hrep as (ndp & ps & Hp & Hks & Hps & Hcp & Hlfp & _ & Hpsp & Hcs).
  rewrite Nat.sub_succ, Nat.sub_0_r in Hcs. rewrite Hpsp in Hps by done. clear Hpsp.
  apply Forall_app in Hcs as [Hcs1 Hcs]. apply Forall_cons in Hcs as [Hl Hcs].
  apply Forall_cons in Hcs as [Hc Hcs2].
  pose proof Hl as (ndl & psl & Hhl & Hksl & Hpsl & Hcl & Hlfl & Hl0 & Hln & Hcsl)%rep_view.
  pose proof Hc as (ndc & psc & Hhc & Hksc & Hpsc & Hcc & Hlfc & Hc0 & Hcn & Hcsc)%rep_view.
  unfold tr in Hnd. rewrite addrs_window2 in Hnd. simpl in Hnd.
  apply NoDup_window in Hnd as (Hpl & Hpc & Hlc & Hothers).
  (* the separator goes into the deficient child *)
  apply wp_bind. apply wp_bind. eapply wp_get_key; [done| |].
  { apply Hks. by apply list_lookup_middle. }
  apply wp_bind. eapply wp_post; [by eapply wp_nodeInsert|].
  intros idx s1 (Hidx & Hle & ndc1 & -> & Hlfc1 & Hksc1 & Hpsc1 & Hcc1).
  fold j in Hidx. subst idx.
  eapply wp_post.
  { eapply wp_shift_children; [apply heap_upd_eq|]. destruct Hcc1 as [_ ->]. lia. }
  simpl. intros _ s2 (ndc2 & -> & Hkey2 & Hsz2 & Hlf2 & Hlen2 & Hch2).
  rewrite upd_upd.
  (* the left sibling's last child pointer goes across *)
  destruct Hksl as [Hszl Hksl']. pose proof (conj Hszl Hksl') as Hksl.
  destruct (lookup_lt_is_Some_2 psl (size ndl)) as [c0 Hc0l];
    [destruct Hpsl as [-> _]; lia|].
  apply wp_bind. apply wp_bind. eapply wp_get_size; [lookup_heap|].
  apply wp_bind. eapply wp_get_child; [lookup_heap|by apply Hpsl|].
  eapply wp_set_child; [lookup_heap|rewrite Hlen2; destruct Hcc1 as [_ ->]; lia|].
  rewrite upd_upd. set (ndc3 := mkBNode _ _ _ _).
  (* the left sibling's last key goes up *)
  apply wp_bind. apply wp_bind. eapply wp_get_size; [lookup_heap|].
  apply wp_bind. eapply wp_post.
  { eapply (wp_nodeDelete _ l (size ndl - 1) _ ndl (ksl ++ [up]) psl up);
      [lookup_heap|done|done|done|].
    rewrite Hszl, length_app. simpl.
    replace (length ksl + 1 - 1) with (length ksl) by lia.
    by apply list_lookup_middle. }
  intros ? s4 (-> & ndl' & -> & Hlfl' & Hksl1 & Hpsl1 & Hcl').
  assert (length ks1 < length (key ndp)) as Hin.
  { apply keys_are_length in Hks. rewrite length_app in Hks. simpl in Hks. lia. }
  eapply wp_set_key; [lookup_heap|done|].
  set (ndp' := mkBNode _ _ _ _).
  apply wp_ret.
  split; [done|]. split; [done|]. split; [done|].
  assert (Hfr : ∀ q, q ≠ p → q ≠ l → q ≠ c →
    heap (upd p ndp' (upd l ndl' (upd c ndc3 s))) !! q = heap s !! q).
  { intros q ???. by rewrite !heap_upd_ne. }
  split; [done|].
  assert (size ndl - 1 = length ksl) as Hszl1.
  { rewrite Hszl, length_app. simpl. lia. }
  rewrite Hszl1 in Hksl1, Hpsl1.
  replace (delete (length ksl) (ksl ++ [up])) with ksl in Hksl1
    by (by rewrite delete_middle, app_nil_r).
  eapply (rep_node_intro _ _ _ _ _ ndp'); [lookup_heap| | |done| |].
  - eapply (keys_are_set_key _ _ (length ks1) up) in Hks;
      [|rewrite length_app; simpl; lia].
    rewrite insert_app_r_alt, Nat.sub_diag in Hks by lia. exact Hks.
  - destruct Hcp as [? ?]. split; simpl; by rewrite ?length_insert.
  - rewrite fmap_app, !fmap_cons in Hps. rewrite fmap_app, !fmap_cons.
    by eapply kids_are_same.
  - apply Forall_app. split; [|apply Forall_cons; split; [|apply Forall_cons; split]].
    + eapply rep_frame_Forall; [|done]. apply (frame3 _ _ _ _ _ Hfr).
      intros q Hq. apply Hothers. clear -Hq. set_solver.
    + eapply (rep_build _ (heap s)); [lookup_heap|done|done|by rewrite Hlfl'| | | |].
      * intros H0. specialize (Hl0 H0). by apply app_eq_nil in Hl0 as [-> _].
      * intros H0. destruct (Hshape H0) as [Hcl1 Hcsl1].
        rewrite (Hln H0), fmap_app in Hpsl1.
        destruct clast as [|C0 [|??]]; simplify_eq/=.
        replace (S (length ksl)) with (length (addr_of <$> csl)) in Hpsl1
          by (by rewrite length_fmap).
        by rewrite delete_middle, app_nil_r in Hpsl1.
      * apply (frame3 _ _ _ _ _ Hfr). intros q Hq. apply Hothers.
        rewrite bind_app. clear -Hq. set_solver.
      * by apply Forall_app in Hcsl as [? _].
    + assert (keys_are ndc3 (take j ksc ++ sep :: drop j ksc)) as Hksc3.
      { destruct Hksc1 as [Hs1 Hk1]. split; simpl; [by rewrite Hsz2|].
        intros i v Hi. rewrite Hkey2. by apply Hk1. }
      assert (caps_ok ndc3) as Hcc3.
      { destruct Hcc1 as [Hck Hcch]. split; simpl.
        - by rewrite Hkey2.
        - by rewrite length_insert, Hlen2. }
      eapply (rep_build _ (heap s)); [lookup_heap|done|done| | | | |].
      * simpl. by rewrite Hlf2, Hlfc1.
      * intros H0. specialize (Hl0 H0). apply app_eq_nil in Hl0 as [_ ->].
        by rewrite (Hc0 H0).
      * intros H0. destruct (Hshape H0) as [Hcl1 Hcsl1].
        destruct clast as [|C0 [|??]]; simplify_eq/=.
        rewrite (Hln H0), fmap_app in Hc0l. simpl in Hc0l.
        destruct Hpsl as [Hpsl _]. rewrite (Hln H0), length_fmap, length_app in Hpsl.
        simpl in Hpsl.
        rewrite lookup_app_r in Hc0l by (rewrite length_fmap; lia).
        replace (size ndl - length (addr_of <$> csl)) with 0 in Hc0l
          by (rewrite length_fmap; lia).
        simpl in Hc0l. simplify_eq.
        destruct Hpsc1 as [Hl1 Hk1]. destruct Hpsc as [Hlpsc Hpsc].
        destruct Hksc as [Hszc Hksc].
        rewrite length_dup_at in Hl1 by lia.
        split; simpl; [rewrite Hsz2, <-Hl1, (Hcn H0), length_fmap; lia|].
        intros [|i] v Hi; simpl in Hi.
        -- simplify_eq. rewrite list_lookup_insert_eq; [done|].
           rewrite Hlen2. destruct Hcc1 as [_ ->]. lia.
        -- rewrite list_lookup_insert_ne by lia. rewrite Hch2.
           rewrite <-(Hcn H0) in Hi.
           assert (i < length psc) by (by eapply lookup_lt_Some).
           destruct (decide (1 ≤ S i ≤ j)).
           ++ apply Hk1. rewrite lookup_dup_at by lia.
              simpl. rewrite Nat.sub_0_r. by rewrite decide_True by lia.
           ++ apply Hk1. rewrite lookup_dup_at by lia.
              rewrite decide_False by lia. simpl. by rewrite Nat.sub_0_r.
      * apply (frame3 _ _ _ _ _ Hfr). intros q Hq. apply Hothers.
        rewrite bind_app in Hq. rewrite bind_app. clear -Hq. set_solver.
      * apply Forall_app in Hcsl as [_ ?]. apply Forall_app. by split.
    + eapply rep_frame_Forall; [|done]. apply (frame3 _ _ _ _ _ Hfr).
      intros q Hq. apply Hothers. clear -Hq. set_solver.
Qed.

(** The right borrow of [fixChildSize] on a tree: [chead] is the first
    subtree of the right sibling (none for leaves). *)
Lemma borrow_right_tree n s p ks1 sep ks2 cs1 c ksc csc r up ksr chead csr cs2 E :
  let tr := Node p (ks1 ++ sep :: ks2)
              (cs1 ++ Node c ksc csc :: Node r (up :: ksr) (chead ++ csr) :: cs2) in
  let tr' := Node p (ks1 ++ up :: ks2)
               (cs1 ++ Node c (ksc ++ [sep]) (csc ++ chead) :: Node r ksr csr :: cs2) in
  rep (S n) (heap s) tr → length cs1 = length ks1 → NoDup (addrs tr) →
  length ksc < 2 * minDegree - 1 →
  ins_pos lessThan sep ksc (length ksc) = length ksc →
  (n ≠ 0 → length chead = 1 ∧ length csc = S (length ksc)) →
  wp ((let! kv := get_key p (length ks1) in nodeInsert lessThan c kv);;;
      (let! c0 := get_child r 0 in
       let! ksz' := get_size c in
       set_child c ksz' c0);;;
      (let! c1 := get_child r 1 in set_child r 0 c1);;;
      (let! kv := nodeDelete r 0 in set_key p (length ks1) kv);;;
      ret MODIFIED_NOT_ROOT) s (λ res s',
    res = MODIFIED_NOT_ROOT ∧ brk s' = brk s ∧ root s' = root s ∧
    (∀ q, q ≠ p → q ≠ c → q ≠ r → heap s' !! q = heap s !! q) ∧
    rep (S n) (heap s') tr') E.
Proof.
  intros tr tr' Hrep Hlen Hnd Hroom Hpos Hshape.
  apply rep_view in Hrep as (ndp & ps & Hp & Hks & Hps & Hcp & Hlfp & _ & Hpsp & Hcs).
  rewrite Nat.sub_succ, Nat.sub_0_r in Hcs. rewrite Hpsp in Hps by done. clear Hpsp.
  apply Forall_app in Hcs as [Hcs1 Hcs]. apply Forall_cons in Hcs as [Hc Hcs].
  apply Forall_cons in Hcs as [Hr Hcs2].
  pose proof Hc as (ndc & psc & Hhc & Hksc & Hpsc & Hcc & Hlfc & Hc0 & Hcn & Hcsc)%rep_view.
  pose proof Hr as (ndr & psr & Hhr & Hksr & Hpsr & Hcr & Hlfr & Hr0 & Hrn & Hcsr)%rep_view.
  unfold tr in Hnd. rewrite addrs_window2 in Hnd. simpl in Hnd.
  apply NoDup_window in Hnd as (Hpc & Hpr & Hcr' & Hothers).
  (* the separator goes to the end of the deficient child *)
  apply wp_bind. apply wp_bind. eapply wp_get_key; [done| |].
  { apply Hks. by apply list_lookup_middle. }
  eapply wp_post; [by eapply wp_nodeInsert|].
  intros idx s1 (Hidx & Hle & ndc1 & -> & Hlfc1 & Hksc1 & Hpsc1 & Hcc1).
  rewrite Hpos in Hidx. subst idx.
  rewrite take_ge, drop_ge in Hksc1 by lia.
  (* the right sibling's first child pointer goes across *)
  destruct Hksr as [Hszr Hksr']. pose proof (conj Hszr Hksr') as Hksr.
  simpl in Hszr.
  destruct (lookup_lt_is_Some_2 psr 0) as [r0 Hr0l];
    [destruct Hpsr as [-> _]; lia|].
  destruct (lookup_lt_is_Some_2 psr 1) as [r1 Hr1l];
    [destruct Hpsr as [-> _]; lia|].
  apply wp_bind. apply wp_bind. eapply wp_get_child; [lookup_heap|by apply Hpsr|].
  apply wp_bind. eapply wp_get_size; [lookup_heap|].
  destruct Hksc1 as [Hszc1 Hksc1']. pose proof (conj Hszc1 Hksc1') as Hksc1.
  rewrite length_app in Hszc1. simpl in Hszc1.
  eapply wp_set_child; [lookup_heap|destruct Hcc1 as [_ ->]; lia|].
  rewrite upd_upd. set (ndc2 := mkBNode _ _ _ _).
  apply wp_bind. apply wp_bind. eapply wp_get_child; [lookup_heap|by apply Hpsr|].
  eapply wp_set_child; [lookup_heap|destruct Hcr as [_ ->]; lia|].
  set (ndr1 := mkBNode _ _ _ _).
  (* the right sibling's first key goes up *)
  apply wp_bind. apply wp_bind. eapply wp_post.
  { eapply (wp_nodeDelete _ r 0 _ ndr1 (up :: ksr) (<[0 := r1]> psr) up);
      [lookup_heap|done| | |done].
    - apply kids_are_set_child; [done|]. destruct Hpsr as [-> _]. lia.
    - destruct Hcr as [? ?]. split; simpl; by rewrite ?length_insert. }
  intros ? s4 (-> & ndr' & -> & Hlfr' & Hksr1 & Hpsr1 & Hcr1).
  rewrite upd_upd.
  assert (length ks1 < length (key ndp)) as Hin.
  { apply keys_are_length in Hks. rewrite length_app in Hks. simpl in Hks. lia. }
  eapply wp_set_key; [lookup_heap|done|].
  set (ndp' := mkBNode _ _ _ _).
  apply wp_ret.
  split; [done|]. split; [done|]. split; [done|].
  assert (Hfr : ∀ q, q ≠ p → q ≠ c → q ≠ r →
    heap (upd p ndp' (upd r ndr' (upd c ndc2 s))) !! q = heap s !! q).
  { intros q ???. by rewrite !heap_upd_ne. }
  split; [done|].
  eapply (rep_node_intro _ _ _ _ _ ndp'); [lookup_heap| | |done| |].
  - eapply (keys_are_set_key _ _ (length ks1) up) in Hks;
      [|rewrite length_app; simpl; lia].
    rewrite insert_app_r_alt, Nat.sub_diag in Hks by lia. exact Hks.
  - destruct Hcp as [? ?]. split; simpl; by rewrite ?length_insert.
  - rewrite fmap_app, !fmap_cons in Hps. rewrite fmap_app, !fmap_cons.
    by eapply kids_are_same.
  - apply Forall_app. split; [|apply Forall_cons; split; [|apply Forall_cons; split]].
    + eapply rep_frame_Forall; [|done]. apply (frame3 _ _ _ _ _ Hfr).
      intros q Hq. apply Hothers. clear -Hq. set_solver.
    + assert (caps_ok ndc2) as Hcc2.
      { destruct Hcc1 as [Hck Hcch]. split; simpl; [done|].
        by rewrite length_insert. }
      eapply (rep_build _ (heap s)); [lookup_heap|done|done| | | | |].
      * simpl. by rewrite Hlfc1.
      * intros H0. specialize (Hr0 H0). apply app_eq_nil in Hr0 as [-> _].
        by rewrite (Hc0 H0).
      * intros H0. destruct (Hshape H0) as [Hch1 Hcsc1].
        destruct chead as [|C0 [|??]]; simplify_eq/=.
        rewrite (Hrn H0) in Hr0l. simpl in Hr0l. simplify_eq.
        destruct Hpsc1 as [Hl1 Hk1]. destruct Hpsc as [Hlpsc Hpsc].
        destruct Hksc as [Hszc Hksc].
        rewrite length_dup_at in Hl1 by lia.
        rewrite fmap_app. simpl.
        split; simpl; [rewrite length_app, length_fmap; simpl; lia|].
        intros i v Hi.
        assert (length (addr_of <$> csc) = S (length ksc)) as Hlc
          by (by rewrite length_fmap).
        destruct (decide (i = S (length ksc))) as [->|Hne].
        -- rewrite lookup_app_r, Hlc, Nat.sub_diag in Hi by lia. simpl in Hi.
           simplify_eq. rewrite Hszc1.
           replace (length ksc + 1) with (S (length ksc)) by lia.
           rewrite list_lookup_insert_eq; [done|]. destruct Hcc1 as [_ ->]. lia.
        -- assert (i < S (length ksc)).
           { apply lookup_lt_Some in Hi. rewrite length_app, Hlc in Hi.
             simpl in Hi. lia. }
           rewrite lookup_app_l in Hi by lia.
           rewrite list_lookup_insert_ne by lia.
           apply Hk1. rewrite lookup_dup_at by lia.
           rewrite decide_True by lia. by rewrite (Hcn H0).
      * apply (frame3 _ _ _ _ _ Hfr). intros q Hq. apply Hothers.
        rewrite bind_app in Hq. rewrite bind_app. clear -Hq. set_solver.
      * apply Forall_app in Hcsr as [? _]. apply Forall_app. by split.
    + eapply (rep_build _ (heap s)); [lookup_heap|done|done|by rewrite Hlfr'| | | |].
      * intros H0. specialize (Hr0 H0). by apply app_eq_nil in Hr0 as [_ ->].
      * intros H0. destruct (Hshape H0) as [Hch1 Hcsc1].
        destruct chead as [|C0 [|??]]; simplify_eq/=.
        rewrite (Hrn H0) in Hpsr1, Hr1l. simpl in Hpsr1, Hr1l.
        destruct csr as [|C1 csr]; [done|]. simpl in *. by simplify_eq.
      * apply (frame3 _ _ _ _ _ Hfr). intros q Hq. apply Hothers.
        rewrite bind_app. clear -Hq. set_solver.
      * by apply Forall_app in Hcsr as [_ ?].
    + eapply rep_frame_Forall; [|done]. apply (frame3 _ _ _ _ _ Hfr).
      intros q Hq. apply Hothers. clear -Hq. set_solver.
Qed.

(** The restructuring steps on trees given by their parts. *)
Lemma drop_S_middle {A} (l1 l2 : list A) a n :
  n = length l1 → drop (S n) (l1 ++ a :: l2) = l2.
Proof.
  intros ->. rewrite (cons_middle a), app_assoc.
  apply drop_app_length'. rewrite length_app. simpl. lia.
Qed.

Lemma drop_SS_middle {A} (l1 l2 : list A) a b n :
  n = length l1 → drop (S (S n)) (l1 ++ a :: b :: l2) = l2.
Proof.
  intros ->. rewrite (cons_middle a), (cons_middle b), !app_assoc.
  apply drop_app_length'. rewrite !length_app. simpl. lia.
Qed.

Lemma lookup_S_middle {A} (l1 l2 : list A) a b n :
  n = length l1 → (l1 ++ a :: b :: l2) !! S n = Some b.
Proof.
  intros ->. rewrite (cons_middle a), app_assoc.
  apply list_lookup_middle. rewrite length_app. simpl. lia.
Qed.

Lemma borrow_left_eq p ks1 sep ks2 cs1 l (ksl : list T) up csl clast c ksc csc cs2 :
  length cs1 = length ks1 →
  (clast = [] ∧ csl = []) ∨ length clast = 1 →
  borrow_left lessThan (S (length ks1))
    (Node p (ks1 ++ sep :: ks2)
       (cs1 ++ Node l (ksl ++ [up]) (csl ++ clast) :: Node c ksc csc :: cs2)) =
  let j := ins_pos lessThan sep ksc (length ksc) in
  Node p (ks1 ++ up :: ks2)
    (cs1 ++ Node l ksl csl ::
       Node c (take j ksc ++ sep :: drop j ksc) (clast ++ csc) :: cs2).
Proof.
  intros Hlen Hlast. unfold borrow_left.
  replace (S (length ks1) - 1) with (length ks1) by lia.
  rewrite (list_lookup_middle cs1) by done.
  rewrite (list_lookup_middle ks1) by done.
  rewrite lookup_S_middle by done.
  rewrite last_snoc. simpl.
  rewrite take_app_length, take_app_length' by done.
  rewrite drop_S_middle, drop_SS_middle by done.
  rewrite length_app. simpl.
  replace (length ksl + 1 - 1) with (length ksl) by lia.
  rewrite take_app_length.
  destruct Hlast as [[-> ->]|Hlast].
  - done.
  - destruct clast as [|C0 [|??]]; simplify_eq/=.
    rewrite last_snoc, length_app. simpl.
    replace (length csl + 1 - 1) with (length csl) by lia.
    by rewrite take_app_length.
Qed.

Lemma borrow_right_eq p ks1 sep ks2 cs1 c (ksc : list T) csc r up ksr chead csr cs2 :
  length cs1 = length ks1 →
  (chead = [] ∧ csr = []) ∨ length chead = 1 →
  borrow_right (length ks1)
    (Node p (ks1 ++ sep :: ks2)
       (cs1 ++ Node c ksc csc :: Node r (up :: ksr) (chead ++ csr) :: cs2)) =
  Node p (ks1 ++ up :: ks2)
    (cs1 ++ Node c (ksc ++ [sep]) (csc ++ chead) :: Node r ksr csr :: cs2).
Proof.
  intros Hlen Hhead. unfold borrow_right.
  rewrite (list_lookup_middle cs1) by done.
  rewrite (list_lookup_middle ks1) by done.
  rewrite lookup_S_middle by done.
  simpl.
  rewrite take_app_length, take_app_length' by done.
  rewrite drop_S_middle, drop_SS_middle by done.
  rewrite drop_0.
  destruct Hhead as [[-> ->]|Hhead].
  - done.
  - by destruct chead as [|C0 [|??]]; simplify_eq/=.
Qed.

Lemma merge_at_eq p ks1 sep ks2 cs1 l (ksl : list T) csl r ksr csr cs2 :
  length cs1 = length ks1 →
  merge_at (length ks1)
    (Node p (ks1 ++ sep :: ks2)
       (cs1 ++ Node l ksl csl :: Node r ksr csr :: cs2)) =
  let merged := Node l (ksl ++ sep :: ksr) (csl ++ csr) in
  if decide (length (ks1 ++ sep :: ks2) = 1) then merged
  else Node p (ks1 ++ ks2) (cs1 ++ merged :: cs2).
Proof.
  intros Hlen. unfold merge_at.
  rewrite (list_lookup_middle cs1) by done.
  rewrite (list_lookup_middle ks1) by done.
  rewrite lookup_S_middle by done.
  simpl.
  case_decide; [done|].
  rewrite take_app_length, take_app_length' by done.
  by rewrite drop_S_middle, drop_SS_middle by done.
Qed.

Lemma window2 {A B} (xs : list A) (ys : list B) j :
  length ys = S (length xs) → j < length xs →
  ∃ xs1 sep xs2 ys1 a b ys2,
    xs = xs1 ++ sep :: xs2 ∧ ys = ys1 ++ a :: b :: ys2 ∧
    length ys1 = length xs1 ∧ length xs1 = j.
Proof.
  intros Hlen Hj.
  destruct (lookup_lt_is_Some_2 xs j) as [sep Hsep]; [done|].
  apply list_elem_of_split_length in Hsep as (xs1 & xs2 & -> & Hl1).
  destruct (lookup_lt_is_Some_2 ys j) as [a Ha]; [lia|].
  apply list_elem_of_split_length in Ha as (ys1 & ys2' & -> & Hl2).
  rewrite !length_app in Hlen. simpl in Hlen.
  destruct ys2' as [|b ys2]; [simpl in Hlen; lia|].
  exists xs1, sep, xs2, ys1, a, b, ys2. split_and!; try done; lia.
Qed.

(** The ways [fix_child] can go, as a case principle: nothing to do, a
    borrow from the left, a borrow from the right, or a merge. *)
Lemma fix_child_cases (P : tree → Prop) n lo p ks cs i :
  shape (S n) lo (Node p ks cs) → i ≤ length ks → 1 ≤ length ks →
  (∀ kid, cs !! i = Some kid → ¬ nkeys kid < minDegree → P (Node p ks cs)) →
  (∀ ks1 sep ks2 cs1 l ksl up csl clast c ksc csc cs2,
     ks = ks1 ++ sep :: ks2 →
     cs = cs1 ++ Node l (ksl ++ [up]) (csl ++ clast) :: Node c ksc csc :: cs2 →
     length cs1 = length ks1 → i = S (length ks1) →
     length ksc < minDegree → minDegree ≤ S (length ksl) →
     (n = 0 → clast = [] ∧ csl = []) →
     (n ≠ 0 → length clast = 1 ∧ length csl = S (length ksl)) →
     bool_decide (i ≠ 0) && lends minDegree cs (i - 1) = true →
     P (let j := ins_pos lessThan sep ksc (length ksc) in
        Node p (ks1 ++ up :: ks2)
          (cs1 ++ Node l ksl csl ::
             Node c (take j ksc ++ sep :: drop j ksc) (clast ++ csc) :: cs2))) →
  (∀ ks1 sep ks2 cs1 c ksc csc r up ksr chead csr cs2,
     ks = ks1 ++ sep :: ks2 →
     cs = cs1 ++ Node c ksc csc :: Node r (up :: ksr) (chead ++ csr) :: cs2 →
     length cs1 = length ks1 → i = length ks1 →
     length ksc < minDegree → minDegree ≤ S (length ksr) →
     (n = 0 → chead = [] ∧ csr = []) →
     (n ≠ 0 → length chead = 1 ∧ length csr = S (length ksr)) →
     bool_decide (i ≠ 0) && lends minDegree cs (i - 1) = false →
     bool_decide (i ≠ length ks) && lends minDegree cs (S i) = true →
     P (Node p (ks1 ++ up :: ks2)
          (cs1 ++ Node c (ksc ++ [sep]) (csc ++ chead) :: Node r ksr csr :: cs2))) →
  (∀ ks1 sep ks2 cs1 l ksl csl r ksr csr cs2,
     ks = ks1 ++ sep :: ks2 →
     cs = cs1 ++ Node l ksl csl :: Node r ksr csr :: cs2 →
     length cs1 = length ks1 →
     i = S (length ks1) ∨ (i = 0 ∧ ks1 = []) →
     length ksl < minDegree → length ksr < minDegree →
     bool_decide (i ≠ 0) && lends minDegree cs (i - 1) = false →
     bool_decide (i ≠ length ks) && lends minDegree cs (S i) = false →
     P (let merged := Node l (ksl ++ sep :: ksr) (csl ++ csr) in
        if decide (length ks = 1) then merged
        else Node p (ks1 ++ ks2) (cs1 ++ merged :: cs2))) →
  P (fix_child lessThan minDegree i (Node p ks cs)).
Proof.
  intros Hsh Hi H1 Hnone HBL HBR HM.
  apply shape_S_inv in Hsh as (Hlo & Hlen & Hshc).
  destruct (lookup_lt_is_Some_2 cs i) as [kid Hkid]; [lia|].
  unfold fix_child, fix_child_with. rewrite Hkid.
  destruct (decide (nkeys kid < minDegree)) as [Hsmall|Hbig]; [|by eapply Hnone].
  destruct (bool_decide (i ≠ 0) && lends minDegree cs (i - 1)) eqn:Hb1.
  { (* a key from the left *)
    pose proof Hb1 as [Hi0%bool_decide_eq_true Hl%bool_decide_eq_true]%andb_true_iff.
    destruct (window2 ks cs (i - 1)) as
      (ks1 & sep & ks2 & cs1 & [l ksl0 csl0] & [c ksc csc] & cs2 & Hks & Hcs & Hl1 & Hj);
      [done|lia|].
    assert (i = S (length ks1)) as Hieq by lia.
    rewrite Hcs in Hshc.
    apply Forall_app in Hshc as [_ Hshc]. apply Forall_cons in Hshc as [HshL _].
    rewrite Hcs, Hieq in Hkid, Hl.
    rewrite lookup_S_middle in Hkid by done. simplify_eq.
    replace (S (length ks1) - 1) with (length ks1) in Hl by lia.
    rewrite (list_lookup_middle cs1) in Hl by done. unfold nkeys in Hl. simpl in Hl.
    destruct ksl0 as [|up ksl _] using rev_ind; [simpl in Hl; lia|].
    rewrite length_app in Hl. simpl in Hl.
    unfold nkeys in Hsmall. simpl in Hsmall.
    destruct n as [|n].
    - apply shape_0_inv in HshL as [_ ->].
      rewrite (borrow_left_eq _ _ _ _ _ _ _ _ [] []) by (done || by left).
      eapply (HBL _ _ _ _ _ _ _ [] []); try done; lia.
    - apply shape_S_inv in HshL as (_ & HlenL & _).
      rewrite length_app in HlenL. simpl in HlenL.
      destruct csl0 as [|C0 csl _] using rev_ind; [simpl in HlenL; lia|].
      rewrite length_app in HlenL. simpl in HlenL.
      rewrite borrow_left_eq by (done || by right).
      eapply HBL; try done; try lia. intros _. simpl. lia. }
  destruct (bool_decide (i ≠ length ks) && lends minDegree cs (S i)) eqn:Hb2.
  { (* a key from the right *)
    pose proof Hb2 as [HiN%bool_decide_eq_true Hr%bool_decide_eq_true]%andb_true_iff.
    destruct (window2 ks cs i) as
      (ks1 & sep & ks2 & cs1 & [c ksc csc] & [r ksr0 csr0] & cs2 & Hks & Hcs & Hl1 & Hj);
      [done|lia|].
    assert (i = length ks1) as Hieq by lia.
    rewrite Hcs in Hshc.
    apply Forall_app in Hshc as [_ Hshc]. apply Forall_cons in Hshc as [_ Hshc].
    apply Forall_cons in Hshc as [HshR _].
    rewrite Hcs, Hieq in Hkid, Hr.
    rewrite (list_lookup_middle cs1) in Hkid by done. simplify_eq.
    rewrite lookup_S_middle in Hr by done. unfold nkeys in Hr. simpl in Hr.
    destruct ksr0 as [|up ksr]; [simpl in Hr; lia|]. simpl in Hr.
    unfold nkeys in Hsmall. simpl in Hsmall.
    destruct n as [|n].
    - apply shape_0_inv in HshR as [_ ->].
      rewrite (borrow_right_eq _ _ _ _ _ _ _ _ _ _ _ [] []) by (done || by left).
      eapply (HBR _ _ _ _ _ _ _ _ _ _ [] []); try done; lia.
    - apply shape_S_inv in HshR as (_ & HlenR & _). simpl in HlenR.
      destruct csr0 as [|C0 csr]; [simpl in HlenR; lia|]. simpl in HlenR.
      rewrite (borrow_right_eq _ _ _ _ _ _ _ _ _ _ _ [C0] csr) by (done || by right).
      eapply (HBR _ _ _ _ _ _ _ _ _ _ [C0] csr); try done; try lia.
      intros _. simpl. lia. }
  (* no sibling has a key to spare *)
  destruct (decide (i ≠ 0)) as [Hi0|Hi0].
  - destruct (window2 ks cs (i - 1)) as
      (ks1 & sep & ks2 & cs1 & [l ksl csl] & [c ksc csc] & cs2 & Hks & Hcs & Hl1 & Hj);
      [done|lia|].
    assert (i = S (length ks1)) as Hieq by lia.
    pose proof Hb1 as Hb1'.
    rewrite bool_decide_eq_true_2 in Hb1' by done. simpl in Hb1'.
    apply bool_decide_eq_false in Hb1'.
    rewrite Hcs, Hieq in Hkid, Hb1'.
    rewrite lookup_S_middle in Hkid by done. simplify_eq.
    replace (S (length ks1) - 1) with (length ks1) in Hb1' by lia.
    rewrite (list_lookup_middle cs1) in Hb1' by done.
    unfold nkeys in Hb1', Hsmall. simpl in Hb1', Hsmall.
    replace (S (length ks1) - 1) with (length ks1) by lia.
    rewrite merge_at_eq by done.
    eapply HM; try done; [by left|lia].
  - assert (i = 0) as -> by lia.
    destruct (window2 ks cs 0) as
      (ks1 & sep & ks2 & cs1 & [c ksc csc] & [r ksr csr] & cs2 & Hks & Hcs & Hl1 & Hj);
      [done|lia|].
    destruct ks1; [|done]. destruct cs1; [|done]. simpl in Hks, Hcs.
    pose proof Hb2 as Hb2'.
    rewrite bool_decide_eq_true_2 in Hb2' by lia. simpl in Hb2'.
    apply bool_decide_eq_false in Hb2'.
    rewrite Hcs in Hkid, Hb2'. simpl in Hkid, Hb2'. simplify_eq.
    unfold nkeys in Hb2', Hsmall. simpl in Hb2', Hsmall.
    change (P (merge_at (length (@nil T))
      (Node p ([] ++ sep :: ks2) ([] ++ Node c ksc csc :: Node r ksr csr :: cs2)))).
    rewrite merge_at_eq by done.
    eapply (HM [] sep ks2 [] c ksc csc r ksr csr cs2); try done; [by right|lia].
Qed.

Lemma rep_child n h p ks cs j c :
  rep (S n) h (Node p ks cs) → cs !! j = Some c →
  ∃ nd ndc, h !! p = Some nd ∧ size nd = length ks ∧
    child nd !! j = Some (addr_of c) ∧
    h !! addr_of c = Some ndc ∧ size ndc = nkeys c.
Proof.
  intros (nd & Hp & [Hsz _] & _ & _ & Hps & Hcs)%rep_S_inv Hc.
  eapply Forall_lookup in Hcs; [|done]. destruct c as [c ksc csc].
  apply rep_view in Hcs as (ndc & ? & Hhc & [Hszc _] & _).
  exists nd, ndc. split_and!; try done.
  apply Hps. by rewrite list_lookup_fmap, Hc.
Qed.

(** The test whether a sibling can give a key. *)
Lemma wp_lends n s p ks cs (P : Prop) `{!Decision P} j (Q : bool → BTree → Prop) E :
  rep (S n) (heap s) (Node p ks cs) → (P → j < length cs) →
  Q (bool_decide P && lends minDegree cs j) s →
  wp (if decide P then
        let! l := get_child p j in
        let! lsz := get_size l in
        ret (bool_decide (minDegree ≤ lsz))
      else ret false) s Q E.
Proof.
  intros Hrep Hj HQ. destruct (decide P) as [HP|HP].
  - rewrite bool_decide_eq_true_2 in HQ by done.
    destruct (lookup_lt_is_Some_2 cs j) as [c Hc]; [by apply Hj|].
    destruct (rep_child _ _ _ _ _ _ _ Hrep Hc) as (nd & ndc & Hp & _ & Hch & Hhc & Hsz).
    apply wp_bind. eapply wp_get_child; [done|done|].
    apply wp_bind. eapply wp_get_size; [done|]. apply wp_ret.
    unfold lends in HQ. rewrite Hc in HQ. simpl in HQ. by rewrite Hsz.
  - rewrite bool_decide_eq_false_2 in HQ by done. by apply wp_ret.
Qed.

(** [fixChildSize] on a tree whose keys are in non-decreasing order. *)
Lemma fix_tree n s p ks cs i lo E :
  let tr := Node p ks cs in
  rep (S n) (heap s) tr → NoDup (addrs tr) → shape (S n) lo tr →
  i ≤ length ks → 1 ≤ length ks →
  StronglySorted (kle lessThan) (inorder tr) →
  wp (fixChildSize lessThan minDegree p i) s (λ res s',
    let tr' := fix_child lessThan minDegree i tr in
    brk s' = brk s ∧ (∀ q, q ∉ addrs tr → heap s' !! q = heap s !! q) ∧
    if decide (res = NEW_ROOT) then
      length ks = 1 ∧ addr_of tr' ≠ p ∧ root s' = addr_of tr' ∧ rep n (heap s') tr'
    else root s' = root s ∧ addr_of tr' = p ∧ rep (S n) (heap s') tr') E.
Proof.
  intros tr Hrep Hnd Hsh Hi H1 Hsorted.
  pose proof Hsh as (Hlo & Hlen & Hshc)%shape_S_inv.
  destruct (lookup_lt_is_Some_2 cs i) as [kid Hkid]; [lia|].
  destruct (rep_child _ _ _ _ _ _ _ Hrep Hkid) as (ndp & ndk & Hp & Hszp & Hch & Hhk & Hszk).
  unfold fixChildSize.
  apply wp_bind. eapply wp_get_child; [done|done|].
  apply wp_bind. eapply wp_get_size; [done|]. rewrite Hszk.
  unfold tr in *. clear tr. cbv zeta.
  pattern (fix_child lessThan minDegree i (Node p ks cs)).
  eapply (fix_child_cases _ n lo); [exact Hsh|done|done|..].
  - (* nothing to fix *)
    intros kid' Hkid' Hbig. simplify_eq. rewrite decide_False by done.
    apply wp_ret. split; [done|]. split; [done|].
    rewrite decide_False by done. done.
  - (* a key from the left sibling *)
    intros ks1 sep ks2 cs1 l ksl up csl clast c ksc csc cs2 Hks Hcs Hl1 Hieq
      Hsmall Hrich H0 Hn Hb1.
    subst ks cs i.
    rewrite lookup_S_middle in Hkid by done. simplify_eq.
    unfold nkeys. cbn [keys_of addr_of].
    rewrite decide_True by done.
    replace (S (length ks1) - 1) with (length ks1) by lia.
    apply wp_bind. eapply wp_lends; [done|intros _; rewrite length_app; simpl; lia|].
    replace (S (length ks1) - 1) with (length ks1) in Hb1 by lia.
    rewrite Hb1.
    destruct (rep_child _ _ _ _ _ (length ks1) (Node l (ksl ++ [up]) (csl ++ clast))
      Hrep) as (ndp' & ndl & Hp' & _ & Hchl & _); [by apply list_lookup_middle|].
    apply wp_bind. eapply wp_get_child; [done|done|]. cbn [addr_of].
    eapply wp_post.
    { eapply borrow_left_tree; try done. lia. }
    cbv beta zeta. intros res s' (-> & Hbrk & Hroot & Hfr & Hrep').
    split; [done|]. split.
    { intros q Hq. rewrite addrs_window2 in Hq. simpl in Hq.
      apply Hfr; intros ->; apply Hq; clear; set_solver. }
    rewrite decide_False by done. done.
  - (* a key from the right sibling *)
    intros ks1 sep ks2 cs1 c ksc csc r up ksr chead csr cs2 Hks Hcs Hl1 Hieq
      Hsmall Hrich H0 Hn Hb1 Hb2.
    subst ks cs i.
    rewrite (list_lookup_middle cs1) in Hkid by done. simplify_eq.
    unfold nkeys. cbn [keys_of addr_of].
    rewrite decide_True by done.
    apply wp_bind. eapply wp_lends; [done|intros _; rewrite length_app; simpl; lia|].
    rewrite Hb1.
    apply wp_bind. eapply wp_get_size; [done|]. rewrite Hszp.
    apply wp_bind. eapply wp_lends; [done|intros _; rewrite length_app; simpl; lia|].
    replace (length ks1 + 1) with (S (length ks1)) by lia.
    rewrite Hb2.
    destruct (rep_child _ _ _ _ _ (S (length ks1)) (Node r (up :: ksr) (chead ++ csr))
      Hrep) as (ndp' & ndr & Hp' & _ & Hchr & _); [by apply lookup_S_middle|].
    apply wp_bind. eapply wp_get_child; [done|done|]. cbn [addr_of].
    assert (ins_pos lessThan sep ksc (length ksc) = length ksc) as Hpos.
    { rewrite <-(app_nil_r ksc) at 1 2. apply ins_pos_app; [done|].
      destruct ksc as [|w ksc _] using rev_ind; [by left|right].
      exists w. rewrite last_snoc. split; [done|].
      rewrite inorder_window in Hsorted by done.
      apply StronglySorted_app_1_r in Hsorted.
      eapply (StronglySorted_app_1_elem_of _ _ _ w sep) in Hsorted; [done| |].
      - apply (elem_of_join_key (inorder <$> csc)).
        + apply Forall_app in Hshc as [_ Hshc].
          apply Forall_cons in Hshc as [Hshc _].
          apply shape_kids in Hshc as [->|Hshc]; [by left|right].
          by rewrite length_fmap.
        + apply elem_of_app. right. left.
      - unfold rpart. csimpl. left. }
    eapply wp_post.
    { eapply borrow_right_tree; try done; [lia|].
      intros Hn0. destruct (Hn Hn0) as [? _]. split; [done|].
      apply Forall_app in Hshc as [_ Hshc]. apply Forall_cons in Hshc as [Hshc _].
      destruct n; [done|]. by apply shape_S_inv in Hshc as (_ & ? & _). }
    cbv beta zeta. intros res s' (-> & Hbrk & Hroot & Hfr & Hrep').
    split; [done|]. split.
    { intros q Hq. rewrite addrs_window2 in Hq. simpl in Hq.
      apply Hfr; intros ->; apply Hq; clear; set_solver. }
    rewrite decide_False by done. done.
  - (* merge with a sibling *)
    intros ks1 sep ks2 cs1 l ksl csl r ksr csr cs2 Hks Hcs Hl1 Hcase
      Hsl Hsr Hb1 Hb2.
    assert (nkeys kid < minDegree) as Hsmall.
    { rewrite Hcs in Hkid. destruct Hcase as [->|[-> ->]].
      - rewrite lookup_S_middle in Hkid by done. by simplify_eq.
      - destruct cs1; [|done]. simpl in Hkid. by simplify_eq. }
    rewrite decide_True by done.
    apply wp_bind. eapply wp_lends; [done|intros ?; lia|].
    rewrite Hb1.
    apply wp_bind. eapply wp_get_size; [done|]. rewrite Hszp.
    apply wp_bind. eapply wp_lends; [done|intros ?; lia|].
    replace (i + 1) with (S i) by lia.
    rewrite Hb2. subst ks cs.
    assert (wp (mergeChildren p (length ks1)) s (λ res s',
      brk s' = brk s ∧
      (∀ q, q ∉ addrs (Node p (ks1 ++ sep :: ks2)
                  (cs1 ++ Node l ksl csl :: Node r ksr csr :: cs2)) →
            heap s' !! q = heap s !! q) ∧
      (if decide (res = NEW_ROOT)
       then length (ks1 ++ sep :: ks2) = 1 ∧
            addr_of
              (if decide (length (ks1 ++ sep :: ks2) = 1)
               then Node l (ksl ++ sep :: ksr) (csl ++ csr)
               else Node p (ks1 ++ ks2)
                      (cs1 ++ Node l (ksl ++ sep :: ksr) (csl ++ csr) :: cs2)) ≠ p ∧
            root s' = addr_of
              (if decide (length (ks1 ++ sep :: ks2) = 1)
               then Node l (ksl ++ sep :: ksr) (csl ++ csr)
               else Node p (ks1 ++ ks2)
                      (cs1 ++ Node l (ksl ++ sep :: ksr) (csl ++ csr) :: cs2)) ∧
            rep n (heap s')
              (if decide (length (ks1 ++ sep :: ks2) = 1)
               then Node l (ksl ++ sep :: ksr) (csl ++ csr)
               else Node p (ks1 ++ ks2)
                      (cs1 ++ Node l (ksl ++ sep :: ksr) (csl ++ csr) :: cs2))
       else root s' = root s ∧
            addr_of
              (if decide (length (ks1 ++ sep :: ks2) = 1)
               then Node l (ksl ++ sep :: ksr) (csl ++ csr)
               else Node p (ks1 ++ ks2)
                      (cs1 ++ Node l (ksl ++ sep :: ksr) (csl ++ csr) :: cs2)) = p ∧
            rep (S n) (heap s')
              (if decide (length (ks1 ++ sep :: ks2) = 1)
               then Node l (ksl ++ sep :: ksr) (csl ++ csr)
               else Node p (ks1 ++ ks2)
                      (cs1 ++ Node l (ksl ++ sep :: ksr) (csl ++ csr) :: cs2)))) E)
      as Hmerge.
    { eapply wp_post.
      { eapply merge_tree; try done. lia. }
      cbv beta zeta. intros res s' (Hbrk & Hfr & Hres).
      split; [done|]. split.
      { intros q Hq. rewrite addrs_window2 in Hq. simpl in Hq.
        apply Hfr; intros ->; apply Hq; clear; set_solver. }
      destruct (decide (length (ks1 ++ sep :: ks2) = 1)) as [Hone|Hmany].
      - destruct Hres as (-> & Hlp & Hroot & Hrep'). by rewrite decide_True by done.
      - destruct Hres as (-> & Hroot & Hrep'). by rewrite decide_False by done. }
    destruct Hcase as [->|[-> ->]].
    + rewrite decide_True by done.
      replace (S (length ks1) - 1) with (length ks1) by lia. exact Hmerge.
    + rewrite decide_False by lia. exact Hmerge.
Qed.

(** *** Ordered trees *)

Implicit Types (z : addr) (ksy ksl ksr ksc : list T).
Implicit Types (csy csl csr csc : list tree) (k m sep : T).

Hypothesis lessThan_irrefl : ∀ a, lessThan a a = false.
Hypothesis lessThan_trans :
  ∀ a b c, lessThan a b = true → lessThan b c = true → lessThan a c = true.

Local Abbreviation klt := (klt lessThan).
Local Abbreviation without := (without lessThan).

Lemma klt_asym a b : klt a b → lessThan b a = false.
Proof.
  unfold klt. intros Hab. destruct (lessThan b a) eqn:Hba; [|done].
  by rewrite <-(lessThan_irrefl a), (lessThan_trans a b a).
Qed.

Lemma sorted_last_bound (l r : list T) k :
  StronglySorted klt (l ++ r) →
  (l = [] ∨ ∃ w, last l = Some w ∧ klt w k) →
  Forall (λ e, klt e k) l.
Proof.
  intros Hs [->|(w & Hw & Hwk)]; [done|].
  destruct l as [|y l _] using rev_ind; [done|].
  rewrite last_snoc in Hw. simplify_eq.
  apply StronglySorted_app_1_l, StronglySorted_app in Hs as (Hlt & _ & _).
  apply Forall_app. split; [|by apply Forall_singleton].
  apply Forall_forall. intros e He.
  eapply lessThan_trans; [|exact Hwk]. apply Hlt; [done|]. left.
Qed.

Lemma sorted_head_bound (l r : list T) k :
  StronglySorted klt (l ++ r) →
  (r = [] ∨ ∃ w, head r = Some w ∧ klt k w) →
  Forall (klt k) r.
Proof.
  intros Hs [->|(w & Hw & Hwk)]; [done|].
  destruct r as [|y r]; simplify_eq/=.
  apply StronglySorted_app_1_r, StronglySorted_cons in Hs as [Hlt _].
  apply Forall_cons. split; [done|].
  eapply Forall_impl; [done|]. intros e He. by eapply lessThan_trans.
Qed.

Lemma lpart_nil_or_last (cs : list (list T)) ks :
  length cs = length ks →
  (ks = [] ∧ lpart cs ks = []) ∨
  (∃ w, last ks = Some w ∧ last (lpart cs ks) = Some w).
Proof.
  intros Hlen. destruct ks as [|w ks _] using rev_ind.
  - left. destruct cs; done.
  - right. exists w. rewrite last_snoc. split; [done|].
    destruct cs as [|c cs _] using rev_ind.
    { rewrite length_app in Hlen. simpl in Hlen. lia. }
    rewrite !length_app in Hlen. simpl in Hlen.
    rewrite lpart_app by lia. unfold lpart at 2. simpl.
    rewrite app_nil_r, !app_assoc. apply last_snoc.
Qed.

Lemma rpart_nil_or_head ks (cs : list (list T)) :
  length cs = length ks →
  (ks = [] ∧ rpart ks cs = []) ∨
  (∃ w, head ks = Some w ∧ head (rpart ks cs) = Some w).
Proof.
  intros Hlen. destruct ks as [|w ks]; [by left|].
  right. exists w. destruct cs; simplify_eq/=. done.
Qed.

Lemma window_bounds (cs1 cs2 : list (list T)) ks1 ks2 (A : list T) k :
  length cs1 = length ks1 → length cs2 = length ks2 →
  StronglySorted klt (lpart cs1 ks1 ++ A ++ rpart ks2 cs2) →
  (ks1 = [] ∨ ∃ w, last ks1 = Some w ∧ klt w k) →
  (ks2 = [] ∨ ∃ w, head ks2 = Some w ∧ klt k w) →
  Forall (λ e, klt e k) (lpart cs1 ks1) ∧ Forall (klt k) (rpart ks2 cs2).
Proof.
  intros Hl1 Hl2 Hs H1 H2. split.
  - eapply sorted_last_bound; [done|].
    destruct (lpart_nil_or_last cs1 ks1 Hl1) as [[_ ->]|(w & Hw & Hw')]; [by left|].
    right. exists w. split; [done|].
    destruct H1 as [->|(w' & ? & ?)]; simplify_eq/=. done.
  - rewrite app_assoc in Hs. eapply sorted_head_bound; [done|].
    destruct (rpart_nil_or_head ks2 cs2 Hl2) as [[_ ->]|(w & Hw & Hw')]; [by left|].
    right. exists w. split; [done|].
    destruct H2 as [->|(w' & ? & ?)]; simplify_eq/=. done.
Qed.

Lemma without_keep k (l : list T) :
  Forall (λ e, klt e k ∨ klt k e) l → without k l = l.
Proof.
  induction 1 as [|e l He _ IH]; [done|].
  unfold without, differs in *. simpl.
  rewrite IH. destruct He as [He|He]; red in He; by rewrite He, ?orb_true_r.
Qed.

Lemma without_app k (l1 l2 : list T) :
  without k (l1 ++ l2) = without k l1 ++ without k l2.
Proof. apply List.filter_app. Qed.

Lemma without_window k (L A R : list T) :
  Forall (λ e, klt e k) L → Forall (klt k) R →
  without k (L ++ A ++ R) = L ++ without k A ++ R.
Proof.
  intros HL HR. rewrite !without_app. f_equal; [|f_equal].
  - apply without_keep. eapply Forall_impl; [done|]. by left.
  - apply without_keep. eapply Forall_impl; [done|]. by right.
Qed.

(** *** Insertion *)


Lemma shape_split n y ksy csy z :
  shape n (minDegree - 1) (Node y ksy csy) → length ksy = 2 * minDegree - 1 →
  shape n (minDegree - 1) (Node y (take (minDegree - 1) ksy) (take minDegree csy)) ∧
  shape n (minDegree - 1) (Node z (drop minDegree ksy) (drop minDegree csy)).
Proof.
  intros Hsh Hfull. destruct n as [|n].
  - apply shape_0_inv in Hsh as [_ ->]. rewrite take_nil, drop_nil.
    split; (apply shape_0_intro; [|done]);
      rewrite ?length_take, ?length_drop; lia.
  - apply shape_S_inv in Hsh as (_ & Hlen & Hcs).
    split; apply shape_S_intro; rewrite ?length_take, ?length_drop; try lia.
    + by apply Forall_take.
    + by apply Forall_drop.
Qed.

Lemma inorder_split_node n y ksy csy z m :
  shape n (minDegree - 1) (Node y ksy csy) →
  ksy !! (minDegree - 1) = Some m →
  inorder (Node y ksy csy) =
    inorder (Node y (take (minDegree - 1) ksy) (take minDegree csy)) ++
    m :: inorder (Node z (drop minDegree ksy) (drop minDegree csy)).
Proof.
  intros Hsh Hm. simpl.
  rewrite (join_split (inorder <$> csy) ksy (minDegree - 1) m); [|..|done].
  - replace (S (minDegree - 1)) with minDegree by lia.
    by rewrite fmap_take, fmap_drop.
  - apply shape_kids in Hsh as [->|Hlen]; [by left|right].
    by rewrite length_fmap.
Qed.

Lemma pick_child_spec n s p ks cs k lo E :
  let tr := Node p ks cs in
  rep (S n) (heap s) tr → owns s tr → shape (S n) lo tr →
  length ks < 2 * minDegree - 1 →
  StronglySorted klt (inorder tr) →
  Forall (λ e, klt e k ∨ klt k e) (inorder tr) →
  wp (insert_pick_child lessThan minDegree p k) s (λ j s',
    root s' = root s ∧
    ∃ ks1 ks2 cs1 (a : tree) cs2,
      let tr' := Node p (ks1 ++ ks2) (cs1 ++ a :: cs2) in
      j = length ks1 ∧ length cs1 = length ks1 ∧ length cs2 = length ks2 ∧
      rep (S n) (heap s') tr' ∧ grows s s' tr tr' ∧
      shape (S n) lo tr' ∧ nkeys a < 2 * minDegree - 1 ∧
      inorder tr' = inorder tr ∧
      (ks1 = [] ∨ ∃ w, last ks1 = Some w ∧ klt w k) ∧
      (ks2 = [] ∨ ∃ w, head ks2 = Some w ∧ klt k w)) E.
Proof.
  intros tr Hrep Hown Hsh Hlt Hsorted Htri.
  pose proof Hrep as (ndx & psx & Hx & Hksx & Hpsx & Hcx & Hlfx & _ & -> & Hcs)%rep_node.
  apply shape_S_inv in Hsh as (Hlo & Hlen & Hshc).
  destruct (ins_pos_spec k ks) as (ks1 & ks2 & -> & Hlen1 & H2 & H1).
  destruct (lookup_lt_is_Some_2 cs (length ks1)) as [a Ha].
  { rewrite Hlen, length_app. lia. }
  apply list_elem_of_split_length in Ha as (cs1 & cs2 & -> & Hl1). symmetry in Hl1.
  assert (length cs2 = length ks2) as Hl2.
  { rewrite !length_app in Hlen. simpl in Hlen. lia. }
  subst tr.
  rewrite inorder_window in Hsorted, Htri by done.
  assert (Hk1 : ks1 = [] ∨ ∃ w, last ks1 = Some w ∧ klt w k).
  { destruct H1 as [->|(w & Hw & Hkw)]; [by left|right].
    exists w. split; [done|].
    assert (w ∈ lpart (inorder <$> cs1) ks1) as Hin.
    { apply elem_of_lpart; [by rewrite length_fmap|].
      destruct ks1 as [|? ? _] using rev_ind; [done|].
      rewrite last_snoc in Hw. simplify_eq. apply elem_of_app. right. left. }
    apply Forall_app in Htri as [Htri _].
    eapply Forall_forall in Htri as [?|Hc]; [done| |done].
    red in Hc. congruence. }
  assert (Hk2 : ks2 = [] ∨ ∃ w, head ks2 = Some w ∧ klt k w).
  { destruct ks2 as [|w ks2]; [by left|right]. exists w. split; [done|].
    by apply Forall_inv in H2. }
  unfold insert_pick_child.
  apply wp_bind. eapply wp_get_size; [done|].
  apply wp_bind. eapply wp_insert_scan; [done|done|by destruct Hksx as [-> _]|].
  destruct Hksx as [Hszx Hksx]. rewrite Hszx, <-Hlen1.
  apply wp_bind. eapply wp_get_child; [done| |].
  { apply Hpsx. rewrite fmap_app, fmap_cons.
    apply list_lookup_middle. by rewrite length_fmap. }
  apply Forall_app in Hcs as [Hcs1 Hcs]. apply Forall_cons in Hcs as [Hrepa Hcs2].
  apply Forall_app in Hshc as [Hsh1 Hshc]. apply Forall_cons in Hshc as [Hsha Hsh2].
  destruct a as [y ksy csy].
  pose proof Hrepa as (ndy & psy & Hy & Hksy & Hpsy & Hcy & Hlfy & _ & Hkidsy)%rep_node.
  apply wp_bind. eapply wp_get_size; [done|]. destruct Hksy as [Hszy Hksy].
  rewrite Hszy. simpl addr_of.
  assert (Hshtr : shape (S n) lo (Node p (ks1 ++ ks2) (cs1 ++ Node y ksy csy :: cs2))).
  { apply shape_S_intro; [done|done|].
    apply Forall_app. split; [done|]. by apply Forall_cons. }
  destruct (decide (length ksy = 2 * minDegree - 1)) as [Hfull|Hfull].
  - (* the child is full: split it first *)
    destruct (lookup_lt_is_Some_2 ksy (minDegree - 1)) as [m Hm]; [lia|].
    pose proof (inorder_split_node n y ksy csy (brk s) m Hsha Hm) as Hiny.
    assert (m ∈ inorder (Node y ksy csy)) as Hmin.
    { rewrite Hiny. apply elem_of_app. right. left. }
    pose proof Hsorted as Hs.
    apply StronglySorted_app in Hs as (HLA & _ & Hs).
    apply StronglySorted_app in Hs as (HAR & _ & _).
    assert (ins_pos lessThan m (ks1 ++ ks2) (length (ks1 ++ ks2)) = length ks1)
      as Hpos.
    { apply ins_pos_app.
      - apply Forall_forall. intros v Hv. apply HAR; [done|].
        apply elem_of_rpart; [by rewrite length_fmap|done].
      - destruct Hk1 as [->|(w & Hw & _)]; [by left|right].
        exists w. split; [done|]. apply klt_asym. apply HLA.
        + apply elem_of_lpart; [by rewrite length_fmap|].
          destruct ks1 as [|? ? _] using rev_ind; [done|].
          rewrite last_snoc in Hw. simplify_eq. apply elem_of_app. right. left.
        + apply elem_of_app. by left. }
    apply wp_bind. eapply wp_post.
    { eapply split_tree; try done; [apply Hown|apply Hown]. }
    intros _ s' (Hroot & Hbrk & Hrep' & Hfr).
    pose proof (split_grows s s' p (ks1 ++ ks2) (ks1 ++ m :: ks2) cs1 cs2 y ksy
      (take (minDegree - 1) ksy) (drop minDegree ksy) csy minDegree Hbrk Hfr)
      as Hgrows.
    destruct (shape_split n y ksy csy (brk s) Hsha Hfull) as [Hshy1 Hshy2].
    pose proof Hrep' as (ndx' & ? & Hx' & Hksx' & _)%rep_node.
    apply wp_bind. eapply wp_get_key; [done| |].
    { apply Hksx'. by apply list_lookup_middle. }
    assert (Hin' : inorder (Node p (ks1 ++ m :: ks2)
        (cs1 ++ Node y (take (minDegree - 1) ksy) (take minDegree csy) ::
                Node (brk s) (drop minDegree ksy) (drop minDegree csy) :: cs2)) =
        inorder (Node p (ks1 ++ ks2) (cs1 ++ Node y ksy csy :: cs2))).
    { rewrite !inorder_window by done. rewrite Hiny, fmap_cons.
      unfold rpart at 1. simpl. rewrite <-!app_assoc. done. }
    assert (Hsh' : shape (S n) lo (Node p (ks1 ++ m :: ks2)
        (cs1 ++ Node y (take (minDegree - 1) ksy) (take minDegree csy) ::
                Node (brk s) (drop minDegree ksy) (drop minDegree csy) :: cs2))).
    { rewrite !length_app in Hlen, Hlo, Hlt. simpl in Hlen.
      apply shape_S_intro;
        [rewrite length_app; simpl; lia|rewrite !length_app; simpl; lia|].
      apply Forall_app. split; [done|].
      apply Forall_cons. split; [done|]. by apply Forall_cons. }
    destruct (lessThan m k) eqn:Hmk.
    + apply wp_ret. split; [done|].
      exists (ks1 ++ [m]), ks2, (cs1 ++ [Node y (take (minDegree - 1) ksy) (take minDegree csy)]),
        (Node (brk s) (drop minDegree ksy) (drop minDegree csy)), cs2.
      simpl. rewrite <-!app_assoc. simpl.
      split_and!; try done.
      * rewrite length_app. simpl. lia.
      * rewrite !length_app. simpl. lia.
      * unfold nkeys. simpl. rewrite length_drop. lia.
      * right. exists m. by rewrite last_snoc.
    + apply wp_ret. split; [done|].
      exists ks1, (m :: ks2), cs1,
        (Node y (take (minDegree - 1) ksy) (take minDegree csy)),
        (Node (brk s) (drop minDegree ksy) (drop minDegree csy) :: cs2).
      simpl. split_and!; try done.
      * lia.
      * unfold nkeys. simpl. rewrite length_take. lia.
      * right. exists m. split; [done|].
        apply Forall_app in Htri as [_ Htri]. apply Forall_app in Htri as [Htri _].
        eapply Forall_forall in Htri as [Hc|?]; [|done|done].
        red in Hc. congruence.
  - (* room in the child *)
    apply wp_ret. split; [done|].
    exists ks1, ks2, cs1, (Node y ksy csy), cs2. simpl.
    split_and!; try done.
    + apply grows_refl.
    + apply shape_nkeys in Hsha. unfold nkeys in *. simpl in *. lia.
Qed.

Lemma insert_descend_unfold fuel curr k :
  insert_descend lessThan minDegree fuel curr k =
  (let! lf := get_leaf curr in
   if lf then nodeInsert lessThan curr k;;; ret tt
   else
     match fuel with
     | 0 => out_of_fuel
     | S fuel' =>
         let! index := insert_pick_child lessThan minDegree curr k in
         let! c := get_child curr index in
         insert_descend lessThan minDegree fuel' c k
     end).
Proof. by destruct fuel. Qed.

Lemma insert_descend_spec n : ∀ fuel s tr k lo E,
  n ≤ fuel →
  rep n (heap s) tr → owns s tr → shape n lo tr →
  nkeys tr < 2 * minDegree - 1 →
  StronglySorted klt (inorder tr) →
  Forall (λ e, klt e k ∨ klt k e) (inorder tr) →
  wp (insert_descend lessThan minDegree fuel (addr_of tr) k) s (λ _ s',
    root s' = root s ∧
    ∃ tr', addr_of tr' = addr_of tr ∧ rep n (heap s') tr' ∧
      grows s s' tr tr' ∧ shape n lo tr' ∧
      ∃ l1 l2, inorder tr = l1 ++ l2 ∧ inorder tr' = l1 ++ k :: l2 ∧
               Forall (λ e, klt e k) l1 ∧ Forall (klt k) l2) E.
Proof.
  induction n as [|n IH]; intros fuel s [p ks cs] k lo E Hfuel Hrep Hown Hsh
    Hlt Hsorted Htri; rewrite insert_descend_unfold; simpl addr_of;
    unfold nkeys in Hlt; simpl in Hlt.
  - pose proof Hrep as (nd & ps & Hp & Hks & Hps & Hc & Hlf & _ & ->)%rep_node.
    apply shape_0_inv in Hsh as [Hlo _].
    apply wp_bind. eapply wp_get_leaf; [done|]. rewrite Hlf. simpl.
    apply wp_bind. eapply wp_post; [by eapply wp_nodeInsert|].
    intros idx s' (Hidx & Hle & nd' & -> & Hlf' & Hks' & Hps' & Hc').
    apply wp_ret. split; [done|].
    destruct (ins_pos_spec k ks) as (ks1 & ks2 & -> & Hlen1 & H2 & H1).
    rewrite <-Hlen1 in Hidx. subst idx.
    rewrite take_app_length, drop_app_length in Hks'.
    exists (Node p (ks1 ++ k :: ks2) []). split; [done|]. split.
    { eapply rep_leaf_intro; [lookup_heap|done|done|by rewrite Hlf', Hlf]. }
    split.
    { split; [done|]. split.
      - simpl. rewrite Nat.sub_diag. simpl. done.
      - intros q Hq _. simpl in Hq. rewrite heap_upd_ne; [done|set_solver]. }
    split.
    { apply shape_0_intro; [|done]. rewrite length_app in *. simpl. lia. }
    exists ks1, ks2. simpl in *. split_and!; try done.
    eapply sorted_last_bound; [done|].
    destruct H1 as [->|(w & Hw & Hkw)]; [by left|right].
    exists w. split; [done|].
    assert (w ∈ ks1 ++ ks2) as Hin.
    { destruct ks1 as [|? ? _] using rev_ind; [done|].
      rewrite last_snoc in Hw. simplify_eq. set_solver. }
    eapply Forall_forall in Htri as [?|Hc'']; [done| |done].
    red in Hc''. congruence.
  - destruct fuel as [|fuel]; [lia|].
    pose proof Hrep as (nd & ps & Hp & Hks & Hps & Hc & Hlf & _ & -> & Hcs)%rep_node.
    apply wp_bind. eapply wp_get_leaf; [done|]. rewrite Hlf. simpl.
    apply wp_bind. eapply wp_post; [by eapply pick_child_spec|].
    intros j s1 (Hroot1 & ks1 & ks2 & cs1 & a & cs2 & -> & Hl1 & Hl2 & Hrep1 &
      Hgrows1 & Hsh1 & Hnk & Hin1 & Hk1 & Hk2).
    pose proof (grows_owns _ _ _ _ Hown Hgrows1) as Hown1.
    pose proof Hrep1 as (nd1 & ps1 & Hp1 & Hks1 & Hps1 & Hc1 & Hlf1 & _ & -> & Hcs1)%rep_node.
    apply wp_bind. eapply wp_get_child; [done| |].
    { apply Hps1. rewrite fmap_app, fmap_cons.
      apply list_lookup_middle. by rewrite length_fmap. }
    rewrite <-Hin1 in Hsorted, Htri. rewrite inorder_window in Hsorted, Htri by done.
    destruct (window_bounds (inorder <$> cs1) (inorder <$> cs2) ks1 ks2
      (inorder a) k) as [HL HR]; try done; rewrite ?length_fmap; try done.
    apply shape_S_inv in Hsh1 as Hsh1'. destruct Hsh1' as (Hlo1 & Hlen1 & Hshc).
    eapply wp_post.
    { eapply (IH fuel s1 a k); [lia| |by eapply owns_child| |done| |].
      - apply Forall_app in Hcs1 as [_ Hcs1]. by apply Forall_cons in Hcs1 as [? _].
      - apply Forall_app in Hshc as [_ Hshc]. by apply Forall_cons in Hshc as [? _].
      - by apply StronglySorted_app_1_r, StronglySorted_app_1_l in Hsorted.
      - apply Forall_app in Htri as [_ Htri]. by apply Forall_app in Htri as [? _]. }
    intros _ s2 (Hroot2 & a' & Haddr & Hrep2 & Hgrows2 & Hsh2 & l1 & l2 & Hina &
      Hina' & Hl1k & Hl2k).
    split; [congruence|].
    exists (Node p (ks1 ++ ks2) (cs1 ++ a' :: cs2)). split; [done|]. split.
    { by eapply rep_child_update. }
    split.
    { eapply grows_trans; [done|]. by apply grows_child. }
    split.
    { apply shape_S_intro; [done|by rewrite length_app in *|].
      apply Forall_app in Hshc as [Hshc1 Hshc]. apply Forall_cons in Hshc as [_ Hshc2].
      apply Forall_app. split; [done|]. by apply Forall_cons. }
    exists (lpart (inorder <$> cs1) ks1 ++ l1), (l2 ++ rpart ks2 (inorder <$> cs2)).
    change (join (inorder <$> cs) ks) with (inorder (Node p ks cs)).
    rewrite <-Hin1, !inorder_window, Hina, Hina' by done.
    rewrite <-!app_assoc. simpl. split_and!; try done.
    + apply Forall_app. by split.
    + apply Forall_app. by split.
Qed.

Lemma sorted_insert (l1 l2 : list T) k :
  StronglySorted klt (l1 ++ l2) →
  Forall (λ e, klt e k) l1 → Forall (klt k) l2 →
  StronglySorted klt (l1 ++ k :: l2).
Proof.
  intros (Hx & Hs1 & Hs2)%StronglySorted_app H1 H2.
  apply StronglySorted_app_2; [|done|by apply SSorted_cons].
  intros x1 x2 Hx1 [->|Hx2]%elem_of_cons; [|by apply Hx].
  by eapply Forall_forall in H1.
Qed.

Lemma shape_raise n lo lo' p ks cs :
  shape n lo (Node p ks cs) → lo' ≤ length ks → shape n lo' (Node p ks cs).
Proof.
  destruct n.
  - intros [? ?]%shape_0_inv ?. apply shape_0_intro; [lia|done].
  - intros (? & ? & ?)%shape_S_inv ?. apply shape_S_intro; [lia|done|done].
Qed.

(** [insert] keeps a well-formed state well-formed and puts [k] at its
    place in the in-order sequence of keys. *)
Lemma insert_spec n s tr k fuel E :
  wf_state lessThan minDegree n tr s → S n ≤ fuel →
  Forall (λ e, klt e k ∨ klt k e) (inorder tr) →
  wp (insert lessThan minDegree fuel k) s (λ _ s',
    ∃ n' tr', wf_state lessThan minDegree n' tr' s' ∧ (n' = n ∨ n' = S n) ∧
      ∃ l1 l2, inorder tr = l1 ++ l2 ∧ inorder tr' = l1 ++ k :: l2 ∧
               Forall (λ e, klt e k) l1 ∧ Forall (klt k) l2) E.
Proof.
  intros [Hroot Hrep Hown Hsh Hsorted] Hfuel Htri.
  destruct tr as [r ks cs]. simpl in Hroot.
  pose proof Hrep as (nd & ps & Hr & Hks & Hps & Hc & Hlf & Hle & Hkids)%rep_node.
  unfold insert.
  apply wp_bind, wp_get_root. rewrite <-Hroot.
  apply wp_bind. eapply wp_get_size; [done|].
  destruct Hks as [Hsz Hks]. rewrite Hsz.
  destruct (decide (length ks = 2 * minDegree - 1)) as [Hfull|Hfull].
  - (* the root is full: a new root above it, then split *)
    apply wp_bind. apply wp_bind. apply wp_malloc_upd. intros s0 Hs0.
    assert (Hh0 : heap s0 = heap s) by by subst s0.
    assert (Hb0 : brk s0 = S (brk s)) by by subst s0.
    assert (Hr0 : root s0 = root s) by by subst s0.
    clear Hs0.
    apply wp_bind. eapply wp_initializeNode; [lookup_heap|].
    apply wp_bind. eapply wp_set_leaf; [lookup_heap|].
    apply wp_bind. eapply wp_set_child; [lookup_heap|simpl; rewrite length_replicate; lia|].
    apply wp_bind. apply wp_set_root. simpl.
    rewrite !upd_upd.
    set (ndz := mkBNode _ _ _ _).
    set (se := reroot (brk s) (upd (brk s) ndz s0)).
    assert (Hfr : ∀ q, q ≠ brk s → heap se !! q = heap s !! q).
    { intros q Hq. unfold se. rewrite heap_reroot, heap_upd_ne, Hh0; done. }
    assert (Hbe : brk se = S (brk s)) by done.
    assert (Hlt : Forall (λ a, a < brk s) (addrs (Node r ks cs))) by apply Hown.
    assert (Hrepe : rep (S n) (heap se) (Node (brk s) [] [Node r ks cs])).
    { eapply (rep_node_intro _ _ _ _ _ ndz).
      - unfold se. rewrite heap_reroot. apply heap_upd_eq.
      - done.
      - split; simpl; by rewrite ?length_insert, length_replicate.
      - done.
      - split; [done|]. intros [|i] c Hi; simplify_eq/=.
        destruct minDegree as [|[|?]]; [lia|lia|done].
      - apply Forall_singleton. eapply rep_frame; [|done].
        intros q Hq. apply Hfr. eapply Forall_forall in Hlt; [|done]. lia. }
    assert (Howne : owns se (Node (brk s) [] [Node r ks cs])).
    { destruct Hown as [Hnd Hall]. split.
      - simpl. rewrite app_nil_r. apply NoDup_cons. split; [|done].
        intros Hin. eapply Forall_forall in Hlt; [|done]. lia.
      - rewrite Hbe. simpl. rewrite app_nil_r. apply Forall_cons. split; [lia|].
        eapply Forall_impl; [done|]. intros; simpl in *. lia. }
    destruct (lookup_lt_is_Some_2 ks (minDegree - 1)) as [m Hm]; [lia|].
    assert (Hshr : shape n (minDegree - 1) (Node r ks cs)).
    { eapply shape_raise; [done|lia]. }
    eapply wp_post.
    { eapply (split_tree n se (brk s) [] [] [] [] r ks cs m); try done.
      - apply Howne.
      - apply Howne.
      - simpl. lia. }
    intros _ s1 (Hroot1 & Hbrk1 & Hrep1 & Hfr1).
    pose proof (split_grows se s1 (brk s) [] [m] [] [] r ks
      (take (minDegree - 1) ks) (drop minDegree ks) cs minDegree Hbrk1 Hfr1)
      as Hgrows.
    destruct (shape_split n r ks cs (brk se) Hshr Hfull) as [Hshy1 Hshy2].
    pose proof (inorder_split_node n r ks cs (brk se) m Hshr Hm) as Hin.
    simpl app in *.
    set (tr1 := Node (brk s) [m] _) in *.
    assert (Hin1 : inorder tr1 = inorder (Node r ks cs)).
    { rewrite Hin. unfold tr1. simpl. by rewrite !app_nil_r. }
    apply wp_bind, wp_get_root. rewrite Hroot1.
    eapply wp_post.
    { eapply (insert_descend_spec (S n) fuel s1 tr1 k 1); [done|done| | | | |].
      - by eapply grows_owns.
      - apply shape_S_intro; [simpl; lia|done|].
        apply Forall_cons. split; [done|]. by apply Forall_singleton.
      - unfold nkeys. simpl. lia.
      - by rewrite Hin1.
      - by rewrite Hin1. }
    intros _ s2 (Hroot2 & tr' & Haddr & Hrep2 & Hgrows2 & Hsh2 & l1 & l2 & Hl &
      Hl' & H1 & H2).
    exists (S n), tr'. split.
    { split; [| | | |]; try done.
      - rewrite Haddr, Hroot2, Hroot1. done.
      - eapply grows_owns; [|done]. by eapply grows_owns.
      - rewrite Hl'. apply sorted_insert; [|done|done]. by rewrite <-Hl, Hin1. }
    split; [by right|]. exists l1, l2. rewrite Hin1 in Hl. done.
  - apply wp_bind, wp_ret. apply wp_bind, wp_get_root. rewrite <-Hroot.
    eapply wp_post.
    { eapply (insert_descend_spec n fuel s (Node r ks cs) k); try done; [lia|].
      unfold nkeys. simpl. lia. }
    intros _ s2 (Hroot2 & tr' & Haddr & Hrep2 & Hgrows2 & Hsh2 & l1 & l2 & Hl &
      Hl' & H1 & H2).
    exists n, tr'. split.
    { split; try done.
      - by rewrite Haddr, Hroot2.
      - by eapply grows_owns.
      - rewrite Hl'. apply sorted_insert; [|done|done]. by rewrite <-Hl. }
    split; [by left|]. by exists l1, l2.
Qed.

(** *** Deletion *)

Lemma fix_child_addrs n lo p ks cs i :
  shape (S n) lo (Node p ks cs) → i ≤ length ks → 1 ≤ length ks →
  addrs (fix_child lessThan minDegree i (Node p ks cs)) ⊆+ addrs (Node p ks cs).
Proof.
  intros Hsh Hi H1.
  pattern (fix_child lessThan minDegree i (Node p ks cs)).
  eapply (fix_child_cases _ n lo); [exact Hsh|done|done|..].
  - done.
  - intros ks1 sep ks2 cs1 l ksl up csl clast c ksc csc cs2 -> -> _ _ _ _ _ _ _.
    cbv zeta. rewrite !addrs_window2. csimpl. rewrite !bind_app.
    apply submseteq_skip. solve_submseteq.
  - intros ks1 sep ks2 cs1 c ksc csc r up ksr chead csr cs2 -> -> _ _ _ _ _ _ _ _.
    rewrite !addrs_window2. csimpl. rewrite !bind_app.
    apply submseteq_skip. solve_submseteq.
  - intros ks1 sep ks2 cs1 l ksl csl r ksr csr cs2 -> -> _ _ _ _ _ _.
    cbv zeta. rewrite addrs_window2. case_decide.
    + csimpl. rewrite !bind_app. solve_submseteq.
    + rewrite addrs_window. csimpl. rewrite !bind_app.
      apply submseteq_skip. solve_submseteq.
Qed.

Lemma inorder_window2 p ks1 sep ks2 cs1 cs2 a b :
  length cs1 = length ks1 →
  inorder (Node p (ks1 ++ sep :: ks2) (cs1 ++ a :: b :: cs2)) =
    lpart (inorder <$> cs1) ks1 ++ inorder a ++
    sep :: inorder b ++ rpart ks2 (inorder <$> cs2).
Proof. intros Hlen. rewrite inorder_window by done. by rewrite fmap_cons. Qed.

Lemma inorder_merge x y z ksl csl sep ksr csr :
  (csl = [] ∧ csr = []) ∨ (length csl = S (length ksl) ∧ csr ≠ []) →
  inorder (Node x (ksl ++ sep :: ksr) (csl ++ csr)) =
    inorder (Node y ksl csl) ++ sep :: inorder (Node z ksr csr).
Proof.
  intros Hc. simpl. rewrite fmap_app. apply join_merge.
  destruct Hc as [[-> ->]|[? ?]]; [by left|right].
  rewrite length_fmap. split; [done|]. by destruct csr.
Qed.

Lemma kids_nil_or n lo p ks cs :
  shape n lo (Node p ks cs) →
  (n = 0 ∧ cs = []) ∨ (n ≠ 0 ∧ length cs = S (length ks)).
Proof.
  destruct n.
  - intros [_ ->]%shape_0_inv. by left.
  - intros (_ & ? & _)%shape_S_inv. by right.
Qed.

Lemma fix_child_inorder n lo p ks cs i :
  shape (S n) lo (Node p ks cs) → i ≤ length ks → 1 ≤ length ks →
  StronglySorted klt (inorder (Node p ks cs)) →
  inorder (fix_child lessThan minDegree i (Node p ks cs)) = inorder (Node p ks cs).
Proof.
  intros Hsh Hi H1 Hsorted.
  pose proof Hsh as (_ & _ & Hshc)%shape_S_inv. revert Hsorted Hshc.
  pattern (fix_child lessThan minDegree i (Node p ks cs)).
  eapply (fix_child_cases _ n lo); [exact Hsh|done|done|..].
  - done.
  - intros ks1 sep ks2 cs1 l ksl up csl clast c ksc csc cs2 -> -> Hl1 _ _ _ H0 Hn _
      Hsorted Hshc.
    apply Forall_app in Hshc as [_ Hshc]. apply Forall_cons in Hshc as [_ Hshc].
    apply Forall_cons in Hshc as [HshC _].
    rewrite inorder_window2 in Hsorted by done.
    assert (ins_pos lessThan sep ksc (length ksc) = 0) as ->.
    { apply (ins_pos_app sep [] ksc); [|by left].
      apply Forall_forall. intros v Hv.
      apply StronglySorted_app_1_r, StronglySorted_app_1_r in Hsorted.
      apply StronglySorted_cons in Hsorted as [Hsorted _].
      eapply Forall_forall in Hsorted; [done|].
      apply elem_of_app. left. apply (elem_of_join_key (inorder <$> csc)); [|done].
      apply shape_kids in HshC as [->|?]; [by left|right]. by rewrite length_fmap. }
    cbv zeta. rewrite take_0, drop_0. rewrite !inorder_window2 by done.
    rewrite (inorder_merge l l l ksl csl up [] clast).
    2:{ destruct n; [left; by destruct (H0 eq_refl)|right].
        destruct (Hn ltac:(done)) as [? ?]. split; [done|]. by destruct clast. }
    rewrite (inorder_merge c c c [] clast sep ksc csc).
    2:{ apply kids_nil_or in HshC as [[-> ->]|[? ?]].
        - left. by destruct (H0 eq_refl).
        - right. destruct (Hn ltac:(done)) as [? ?]. split; [done|]. by destruct csc. }
    by rewrite <-!app_assoc.
  - intros ks1 sep ks2 cs1 c ksc csc r up ksr chead csr cs2 -> -> Hl1 _ _ _ H0 Hn _ _
      Hsorted Hshc.
    apply Forall_app in Hshc as [_ Hshc]. apply Forall_cons in Hshc as [HshC _].
    rewrite !inorder_window2 by done.
    rewrite (inorder_merge c c c ksc csc sep [] chead).
    2:{ apply kids_nil_or in HshC as [[-> ->]|[? ?]].
        - left. by destruct (H0 eq_refl).
        - right. destruct (Hn ltac:(done)) as [? ?]. split; [done|]. by destruct chead. }
    change (up :: ksr) with ([] ++ up :: ksr).
    rewrite (inorder_merge r r r [] chead up ksr csr).
    2:{ destruct n; [left; by destruct (H0 eq_refl)|right].
        destruct (Hn ltac:(done)) as [? ?]. split; [done|]. by destruct csr. }
    by rewrite <-!app_assoc.
  - intros ks1 sep ks2 cs1 l ksl csl r ksr csr cs2 -> -> Hl1 _ _ _ _ _ Hsorted Hshc.
    apply Forall_app in Hshc as [_ Hshc]. apply Forall_cons in Hshc as [HshL Hshc].
    apply Forall_cons in Hshc as [HshR _].
    cbv zeta. rewrite inorder_window2 by done.
    assert (inorder (Node l (ksl ++ sep :: ksr) (csl ++ csr)) =
            inorder (Node l ksl csl) ++ sep :: inorder (Node r ksr csr)) as Hm.
    { apply inorder_merge.
      apply kids_nil_or in HshL as [[-> ->]|[? ?]].
      - apply shape_0_inv in HshR as [_ ->]. by left.
      - right. split; [done|]. destruct n; [done|].
        apply shape_S_inv in HshR as (_ & ? & _). by destruct csr. }
    case_decide as Hone.
    + rewrite length_app in Hone. simpl in Hone.
      destruct ks1; [|simpl in Hone; lia]. destruct ks2; [|simpl in Hone; lia].
      destruct cs1; [|done].
      rewrite Hm. unfold lpart, rpart. simpl. by rewrite app_nil_r.
    + rewrite inorder_window by done. rewrite Hm. by rewrite <-!app_assoc.
Qed.

(** In a strictly ordered tree the left borrow puts the separating key at
    the front of the child, as the specification words it. *)
Lemma fix_child_front n lo p ks cs i :
  shape (S n) lo (Node p ks cs) →
  StronglySorted klt (inorder (Node p ks cs)) →
  fix_child lessThan minDegree i (Node p ks cs) =
  fix_child_spec minDegree i (Node p ks cs).
Proof.
  intros (_ & Hlen & Hshc)%shape_S_inv Hsorted.
  unfold fix_child, fix_child_spec, fix_child_with.
  destruct (cs !! i) as [kid|] eqn:Hkid; [|done].
  destruct (decide (nkeys kid < minDegree)) as [_|]; [|done].
  destruct (bool_decide (i ≠ 0) && lends minDegree cs (i - 1)) eqn:Hb; [|done].
  apply andb_true_iff in Hb as [Hi%bool_decide_eq_true _].
  destruct i as [|j]; [done|]. clear Hi. unfold borrow_left, borrow_left_front.
  rewrite Nat.sub_succ, Nat.sub_0_r, Hkid.
  destruct (cs !! j) as [[l ksl csl]|] eqn:Hl; [|done].
  destruct kid as [c ksc csc].
  destruct (ks !! j) as [sep|] eqn:Hsep; [|done].
  destruct (last ksl) as [up|]; [|done].
  apply list_elem_of_split_length in Hsep as (ks1 & ks2 & -> & Hj).
  apply list_elem_of_split_length in Hl as (cs1 & cs' & -> & Hj').
  assert (cs' = Node c ksc csc :: drop 1 cs') as Hcs'.
  { rewrite lookup_app_r in Hkid by lia.
    replace (S j - length cs1) with 1 in Hkid by lia.
    destruct cs' as [|b cs']; [done|]. simpl in Hkid |- *. rewrite drop_0. congruence. }
  rewrite Hcs' in Hsorted, Hshc.
  apply Forall_app in Hshc as [_ Hshc]. apply Forall_cons in Hshc as [_ Hshc].
  apply Forall_cons in Hshc as [HshC _].
  rewrite inorder_window2 in Hsorted by congruence.
  assert (ins_pos lessThan sep ksc (length ksc) = 0) as ->.
  { apply (ins_pos_app sep [] ksc); [|by left].
    apply Forall_forall. intros v Hv.
    apply StronglySorted_app_1_r, StronglySorted_app_1_r in Hsorted.
    apply StronglySorted_cons in Hsorted as [Hsorted _].
    eapply Forall_forall in Hsorted; [done|].
    apply elem_of_app. left. apply (elem_of_join_key (inorder <$> csc)); [|done].
    apply shape_kids in HshC as [->|?]; [by left|right]. by rewrite length_fmap. }
  by rewrite take_0, drop_0.
Qed.

Lemma shape_view n lo p ks cs :
  shape n lo (Node p ks cs) →
  lo ≤ length ks ≤ 2 * minDegree - 1 ∧ (n = 0 → cs = []) ∧
  (n ≠ 0 → length cs = S (length ks)) ∧
  Forall (shape (n - 1) (minDegree - 1)) cs.
Proof.
  destruct n.
  - intros [? ->]%shape_0_inv. split; [done|]. split; [done|]. split; [done|].
    apply Forall_nil_2.
  - intros (? & ? & ?)%shape_S_inv. rewrite Nat.sub_succ, Nat.sub_0_r.
    split; [done|]. split; [done|]. by split.
Qed.

Lemma shape_build n lo p ks cs :
  lo ≤ length ks ≤ 2 * minDegree - 1 → (n = 0 → cs = []) →
  (n ≠ 0 → length cs = S (length ks)) →
  Forall (shape (n - 1) (minDegree - 1)) cs →
  shape n lo (Node p ks cs).
Proof.
  intros Hlo H0 Hn Hcs. destruct n.
  - apply shape_0_intro; [done|by apply H0].
  - rewrite Nat.sub_succ, Nat.sub_0_r in Hcs. apply shape_S_intro; [done| |done].
    by apply Hn.
Qed.

(** After the fix-up the child to descend into has a key to spare, and a
    key that belonged under child [i] belongs under it. *)
Lemma fix_child_target n lo p ks cs i :
  let tr' := fix_child lessThan minDegree i (Node p ks cs) in
  shape (S n) lo (Node p ks cs) → i ≤ length ks → 1 ≤ length ks →
  NoDup (addrs (Node p ks cs)) →
  StronglySorted klt (inorder (Node p ks cs)) →
  (length ks = 1 ∧ addr_of tr' ≠ p ∧ shape n minDegree tr') ∨
  (∃ ks1 ks2 cs1 a cs2,
     tr' = Node p (ks1 ++ ks2) (cs1 ++ a :: cs2) ∧ length cs1 = length ks1 ∧
     minDegree ≤ nkeys a ∧ shape (S n) (lo - 1) tr' ∧ 1 ≤ length (ks1 ++ ks2) ∧
     (i = length ks → ks2 = [] ∧ cs2 = []) ∧ (i = 0 → ks1 = [] ∧ cs1 = []) ∧
     (∀ k, Forall (λ e, klt e k) (take i ks) →
           (drop i ks = [] ∨ ∃ w, head (drop i ks) = Some w ∧ klt k w) →
           Forall (λ e, klt e k) ks1 ∧
           (ks2 = [] ∨ ∃ w, head ks2 = Some w ∧ klt k w))).
Proof.
  intros tr' Hsh Hi H1 Hnd Hsorted. unfold tr'. clear tr'.
  pose proof Hsh as (Hlo & Hlen & Hshc)%shape_S_inv.
  pattern (fix_child lessThan minDegree i (Node p ks cs)).
  eapply (fix_child_cases _ n lo); [exact Hsh|done|done|..].
  - (* nothing to fix *)
    intros kid Hkid Hbig. right.
    apply list_elem_of_split_length in Hkid as (cs1 & cs2 & Hcs & Hl1).
    exists (take i ks), (drop i ks), cs1, kid, cs2.
    rewrite take_drop. rewrite <-Hcs.
    assert (length cs2 = length ks - i) as Hl2.
    { rewrite Hcs, length_app in Hlen. simpl in Hlen. lia. }
    split_and!; try done.
    + rewrite length_take. lia.
    + lia.
    + eapply shape_weaken; [|done]. lia.
    + intros ->. rewrite drop_all. split; [done|].
      destruct cs2; [done|simpl in Hl2; lia].
    + intros ->. split; [done|]. destruct cs1; [done|simpl in Hl1; lia].
  - (* a key from the left sibling *)
    intros ks1 sep ks2 cs1 l ksl up csl clast c ksc csc cs2 -> -> Hl1 -> Hsmall Hrich
      H0 Hn _. right. cbv zeta.
    set (j := ins_pos lessThan sep ksc (length ksc)).
    apply Forall_app in Hshc as [Hsh1 Hshc]. apply Forall_cons in Hshc as [HshL Hshc].
    apply Forall_cons in Hshc as [HshC Hsh2].
    apply shape_view in HshL as (HloL & HL0 & HLn & HLc).
    apply shape_view in HshC as (HloC & HC0 & HCn & HCc).
    rewrite length_app in HloL. simpl in HloL.
    exists (ks1 ++ [up]), ks2, (cs1 ++ [Node l ksl csl]),
      (Node c (take j ksc ++ sep :: drop j ksc) (clast ++ csc)), cs2.
    rewrite <-!app_assoc. simpl.
    repeat rewrite length_app in Hlo. repeat rewrite length_app in Hlen.
    repeat rewrite length_app in Hi. simpl in Hlo, Hlen, Hi.
    assert (length (take j ksc ++ sep :: drop j ksc) = S (length ksc)) as HlenC
      by apply length_insert_at.
    apply Forall_app in HLc as [HLc1 HLc2].
    split; [done|]. split; [rewrite !length_app; simpl; lia|].
    split; [unfold nkeys; cbn [keys_of]; rewrite HlenC; lia|].
    split; [|split; [rewrite length_app; simpl; lia|split; [|split; [done|]]]].
    + apply shape_S_intro; [rewrite length_app; simpl; lia|
        rewrite !length_app; simpl; lia|].
      apply Forall_app. split; [done|].
      apply Forall_cons. split; [|apply Forall_cons; split; [|done]].
      * apply shape_build; [lia| | |done].
        -- intros Hn0. by destruct (H0 Hn0).
        -- intros Hn0. by destruct (Hn Hn0).
      * apply shape_build; [rewrite HlenC; lia| | |].
        -- intros Hn0. destruct (H0 Hn0) as [-> _]. by rewrite (HC0 Hn0).
        -- intros Hn0. destruct (Hn Hn0) as [Hc1 _].
           rewrite length_app, Hc1, (HCn Hn0). lia.
        -- apply Forall_app. by split.
    + intros Heq. rewrite length_app in Heq. simpl in Heq.
      split; [destruct ks2; [done|simpl in Heq; lia]|].
      destruct cs2; [done|simpl in Hlen, Heq; lia].
    + intros k Hk1 Hk2.
      rewrite (cons_middle sep), app_assoc in Hk1, Hk2.
      rewrite take_app_length' in Hk1 by (rewrite length_app; simpl; lia).
      rewrite drop_app_length' in Hk2 by (rewrite length_app; simpl; lia).
      split; [|done].
      apply Forall_app in Hk1 as [Hk1 Hsep]. apply Forall_inv in Hsep.
      apply Forall_app. split; [done|]. apply Forall_singleton.
      eapply lessThan_trans; [|exact Hsep].
      rewrite inorder_window2 in Hsorted by done.
      apply StronglySorted_app_1_r in Hsorted.
      eapply (StronglySorted_app_1_elem_of _ _ _ up sep) in Hsorted; [done| |left].
      apply (elem_of_join_key (inorder <$> (csl ++ clast))).
      * destruct n as [|n'].
        -- left. destruct (H0 eq_refl) as [-> ->]. done.
        -- right. rewrite length_fmap. by apply HLn.
      * apply elem_of_app. right. left.
  - (* a key from the right sibling *)
    intros ks1 sep ks2 cs1 c ksc csc r up ksr chead csr cs2 -> -> Hl1 -> Hsmall Hrich
      H0 Hn _ _. right.
    apply Forall_app in Hshc as [Hsh1 Hshc]. apply Forall_cons in Hshc as [HshC Hshc].
    apply Forall_cons in Hshc as [HshR Hsh2].
    apply shape_view in HshR as (HloR & HR0 & HRn & HRc).
    apply shape_view in HshC as (HloC & HC0 & HCn & HCc).
    simpl in HloR.
    exists ks1, (up :: ks2), cs1, (Node c (ksc ++ [sep]) (csc ++ chead)),
      (Node r ksr csr :: cs2).
    repeat rewrite length_app in Hlo. repeat rewrite length_app in Hlen.
    repeat rewrite length_app in Hi. simpl in Hlo, Hlen, Hi.
    apply Forall_app in HRc as [HRc1 HRc2].
    split; [done|]. split; [done|].
    split; [unfold nkeys; cbn [keys_of]; rewrite length_app; simpl; lia|].
    split; [|split; [rewrite length_app; simpl; lia|split; [|split]]].
    + apply shape_S_intro; [rewrite length_app; simpl; lia|
        rewrite !length_app; simpl; lia|].
      apply Forall_app. split; [done|].
      apply Forall_cons. split; [|apply Forall_cons; split; [|done]].
      * apply shape_build; [rewrite length_app; simpl; lia| | |].
        -- intros Hn0. destruct (H0 Hn0) as [-> _]. by rewrite (HC0 Hn0).
        -- intros Hn0. destruct (Hn Hn0) as [Hc1 _].
           rewrite !length_app, Hc1, (HCn Hn0). simpl. lia.
        -- apply Forall_app. by split.
      * apply shape_build; [lia| | |done].
        -- intros Hn0. by destruct (H0 Hn0).
        -- intros Hn0. by destruct (Hn Hn0).
    + intros Heq. rewrite length_app in Heq. simpl in Heq. lia.
    + intros Heq. split; [by destruct ks1|].
      destruct cs1; [done|simpl in Hl1; lia].
    + intros k Hk1 Hk2.
      rewrite take_app_length in Hk1. rewrite drop_app_length in Hk2.
      split; [done|]. right. exists up. split; [done|].
      destruct Hk2 as [?|(w & Hw & Hkw)]; [done|]. simpl in Hw. simplify_eq.
      eapply lessThan_trans; [exact Hkw|].
      rewrite inorder_window2 in Hsorted by done.
      apply StronglySorted_app_1_r, StronglySorted_app_1_r in Hsorted.
      apply StronglySorted_cons in Hsorted as [Hsorted _].
      eapply Forall_forall in Hsorted; [done|].
      apply elem_of_app. left.
      apply (elem_of_join_key (inorder <$> (chead ++ csr))); [|left].
      destruct n as [|n'].
      * left. destruct (H0 eq_refl) as [-> ->]. done.
      * right. rewrite length_fmap. by rewrite HRn by done.
  - (* merge with a sibling *)
    intros ks1 sep ks2 cs1 l ksl csl r ksr csr cs2 -> -> Hl1 Hcase Hsl Hsr _ _.
    cbv zeta.
    apply Forall_app in Hshc as [Hsh1 Hshc]. apply Forall_cons in Hshc as [HshL Hshc].
    apply Forall_cons in Hshc as [HshR Hsh2].
    apply shape_view in HshL as (HloL & HL0 & HLn & HLc).
    apply shape_view in HshR as (HloR & HR0 & HRn & HRc).
    assert (shape n minDegree (Node l (ksl ++ sep :: ksr) (csl ++ csr))) as Hshm.
    { apply shape_build; [rewrite length_app; simpl; lia| | |].
      - intros Hn0. by rewrite (HL0 Hn0), (HR0 Hn0).
      - intros Hn0. rewrite !length_app, (HLn Hn0), (HRn Hn0). simpl. lia.
      - apply Forall_app. by split. }
    rewrite addrs_window2 in Hnd. simpl in Hnd.
    apply NoDup_window in Hnd as (Hpl & _).
    repeat rewrite length_app in Hlo. repeat rewrite length_app in Hlen.
    repeat rewrite length_app in Hi. simpl in Hlo, Hlen, Hi.
    case_decide as Hone.
    { left. split; [done|]. split; [simpl; congruence|done]. }
    right. exists ks1, ks2, cs1, (Node l (ksl ++ sep :: ksr) (csl ++ csr)), cs2.
    rewrite !length_app in Hone. simpl in Hone.
    split; [done|]. split; [done|].
    split; [unfold nkeys; cbn [keys_of]; rewrite length_app; simpl; lia|].
    split; [|split; [rewrite length_app; lia|split; [|split]]].
    + apply shape_S_intro; [rewrite length_app; lia|rewrite !length_app; simpl; lia|].
      apply Forall_app. split; [done|]. apply Forall_cons. split; [|done].
      eapply shape_weaken; [|done]. lia.
    + intros Heq. destruct Hcase as [->|[-> ->]]; [|simpl in Heq; lia].
      rewrite length_app in Heq. simpl in Heq.
      split; [destruct ks2; [done|simpl in Heq; lia]|].
      destruct cs2; [done|simpl in Hlen; lia].
    + intros ->. destruct Hcase as [?|[_ ->]]; [done|]. split; [done|].
      destruct cs1; [done|simpl in Hl1; lia].
    + intros k Hk1 Hk2. destruct Hcase as [->|[-> ->]].
      * rewrite (cons_middle sep), app_assoc in Hk1, Hk2.
        rewrite take_app_length' in Hk1 by (rewrite length_app; simpl; lia).
        rewrite drop_app_length' in Hk2 by (rewrite length_app; simpl; lia).
        split; [|done]. by apply Forall_app in Hk1 as [Hk1 _].
      * simpl in Hk2. split; [done|].
        destruct Hk2 as [?|(w & Hw & Hkw)]; [done|]. simplify_eq.
        destruct ks2 as [|w2 ks2]; [by left|right]. exists w2. split; [done|].
        eapply lessThan_trans; [exact Hkw|].
        destruct cs1; [|done].
        rewrite (inorder_window2 _ []) in Hsorted by done.
        apply StronglySorted_app_1_r, StronglySorted_app_1_r in Hsorted.
        apply StronglySorted_cons in Hsorted as [Hsorted _].
        eapply Forall_forall in Hsorted; [done|].
        apply elem_of_app. right.
        apply elem_of_rpart; [|left]. rewrite length_fmap. simpl in *. lia.
Qed.

Lemma sorted_klt_kle (l : list T) :
  StronglySorted klt l → StronglySorted (kle lessThan) l.
Proof.
  induction 1 as [|a l Hs IH Ha]; constructor; [done|].
  eapply Forall_impl; [done|]. intros b Hab. by apply klt_asym.
Qed.

(** [fixChildSize] in a strictly ordered tree: the tree keeps its keys and
    the child to descend into gets a key to spare. *)
Lemma fix_step n s p ks cs i lo E :
  let tr := Node p ks cs in
  rep (S n) (heap s) tr → owns s tr → shape (S n) lo tr →
  i ≤ length ks → 1 ≤ length ks →
  StronglySorted klt (inorder tr) →
  wp (fixChildSize lessThan minDegree p i) s (λ res s',
    ∃ tr', grows s s' tr tr' ∧ inorder tr' = inorder tr ∧
      ((res = NEW_ROOT ∧ length ks = 1 ∧ root s' = addr_of tr' ∧
        rep n (heap s') tr' ∧ shape n minDegree tr') ∨
       (res ≠ NEW_ROOT ∧ root s' = root s ∧ rep (S n) (heap s') tr' ∧
        ∃ ks1 ks2 cs1 a cs2,
          tr' = Node p (ks1 ++ ks2) (cs1 ++ a :: cs2) ∧ length cs1 = length ks1 ∧
          minDegree ≤ nkeys a ∧ shape (S n) (lo - 1) tr' ∧
          1 ≤ length (ks1 ++ ks2) ∧
          (i = length ks → ks2 = [] ∧ cs2 = []) ∧ (i = 0 → ks1 = [] ∧ cs1 = []) ∧
          (∀ k, Forall (λ e, klt e k) (take i ks) →
                (drop i ks = [] ∨ ∃ w, head (drop i ks) = Some w ∧ klt k w) →
                Forall (λ e, klt e k) ks1 ∧
                (ks2 = [] ∨ ∃ w, head ks2 = Some w ∧ klt k w))))) E.
Proof.
  intros tr Hrep [Hnd Hb] Hsh Hi H1 Hsorted.
  eapply wp_post.
  { eapply fix_tree; try done. by apply sorted_klt_kle. }
  cbv beta zeta. intros res s' (Hbrk & Hfr & Hres).
  exists (fix_child lessThan minDegree i (Node p ks cs)). split.
  { split; [lia|]. split.
    - rewrite Hbrk, Nat.sub_diag. simpl. rewrite app_nil_r.
      by eapply fix_child_addrs.
    - intros q Hq _. by apply Hfr. }
  split; [by eapply fix_child_inorder|].
  destruct (fix_child_target n lo p ks cs i Hsh Hi H1 Hnd Hsorted)
    as [(Hone & Hne & Hshm)|(ks1 & ks2 & cs1 & a & cs2 & Heq & Hrest)].
  - left. case_decide as Hr.
    + destruct Hres as (_ & _ & ? & ?). done.
    + destruct Hres as (_ & ? & _). done.
  - right. case_decide as Hr.
    + destruct Hres as (_ & Hne & _). rewrite Heq in Hne. done.
    + destruct Hres as (? & _ & ?). split; [done|]. split; [done|]. split; [done|].
      by exists ks1, ks2, cs1, a, cs2.
Qed.

Lemma grows_upd s s' tr tr' p nd :
  grows s s' tr tr' → p ∈ addrs tr → grows s (upd p nd s') tr tr'.
Proof.
  intros (Hle & Hsub & Hfr) Hp. split; [done|]. split; [done|].
  intros q Hq Hlt. rewrite heap_upd_ne; [by apply Hfr|]. by intros ->.
Qed.

Lemma grows_same s tr tr' : addrs tr' = addrs tr → grows s s tr tr'.
Proof.
  intros Heq. split; [done|]. split; [|done].
  rewrite Heq, Nat.sub_diag. simpl. by rewrite app_nil_r.
Qed.

Lemma descend_rightmost_unfold fuel leftKid :
  descend_rightmost lessThan minDegree fuel leftKid =
  (let! lf := get_leaf leftKid in
   if lf then ret leftKid
   else
     match fuel with
     | 0 => out_of_fuel
     | S fuel' =>
         (let! sz := get_size leftKid in
          fixChildSize lessThan minDegree leftKid sz);;;
         let! sz := get_size leftKid in
         let! c := get_child leftKid sz in
         descend_rightmost lessThan minDegree fuel' c
     end).
Proof. by destruct fuel. Qed.

Lemma descend_leftmost_unfold fuel rightKid :
  descend_leftmost lessThan minDegree fuel rightKid =
  (let! lf := get_leaf rightKid in
   if lf then ret rightKid
   else
     match fuel with
     | 0 => out_of_fuel
     | S fuel' =>
         fixChildSize lessThan minDegree rightKid 0;;;
         let! c := get_child rightKid 0 in
         descend_leftmost lessThan minDegree fuel' c
     end).
Proof. by destruct fuel. Qed.

(** Taking the largest key out of a subtree whose top node has a key to
    spare: the walk to the rightmost leaf and the deletion there. *)
Lemma take_max_spec n : ∀ fuel s tr E,
  n ≤ fuel → rep n (heap s) tr → owns s tr → shape n minDegree tr →
  StronglySorted klt (inorder tr) →
  wp (let! lf := descend_rightmost lessThan minDegree fuel (addr_of tr) in
      let! lsz := get_size lf in
      nodeDelete lf (lsz - 1)) s (λ v s',
    root s' = root s ∧
    ∃ tr', addr_of tr' = addr_of tr ∧ rep n (heap s') tr' ∧
      shape n (minDegree - 1) tr' ∧ grows s s' tr tr' ∧
      inorder tr = inorder tr' ++ [v]) E.
Proof.
  induction n as [|n IH]; intros fuel s [p ks cs] E Hfuel Hrep Hown Hsh Hsorted;
    rewrite descend_rightmost_unfold; cbn [addr_of].
  - pose proof Hrep as (nd & ps & Hp & Hks & Hps & Hc & Hlf & Hcs & _)%rep_view.
    rewrite (Hcs eq_refl) in *.
    apply shape_0_inv in Hsh as [Hlo _].
    apply wp_bind. apply wp_bind. eapply wp_get_leaf; [done|]. rewrite Hlf. simpl.
    apply wp_ret. apply wp_bind. eapply wp_get_size; [done|].
    destruct ks as [|v ks _] using rev_ind; [simpl in Hlo; lia|].
    rewrite length_app in Hlo. simpl in Hlo.
    eapply wp_post.
    { eapply (wp_nodeDelete _ p _ _ nd (ks ++ [v]) ps v); [done|done|done|done|].
      destruct Hks as [-> _]. rewrite length_app. simpl.
      replace (length ks + 1 - 1) with (length ks) by lia.
      by apply list_lookup_middle. }
    intros ? s' (-> & nd' & -> & Hlf' & Hks' & _ & Hc').
    destruct Hks as [Hsz _]. rewrite Hsz, length_app in Hks'. simpl in Hks'.
    replace (length ks + 1 - 1) with (length ks) in Hks' by lia.
    rewrite delete_middle, app_nil_r in Hks'.
    split; [done|]. exists (Node p ks []). split; [done|]. split.
    { eapply rep_leaf_intro; [apply heap_upd_eq|done|done|by rewrite Hlf'; rewrite Hlf]. }
    split; [apply shape_0_intro; [lia|done]|]. split; [|done].
    apply grows_upd; [by apply grows_same|left].
  - destruct fuel as [|fuel]; [lia|].
    pose proof Hrep as (nd & ps & Hp & Hks & Hps & Hc & Hlf & _ & _ & Hcs)%rep_view.
    pose proof Hsh as (Hlo & Hlen & Hshc)%shape_S_inv.
    apply wp_bind. apply wp_bind. eapply wp_get_leaf; [done|]. rewrite Hlf. simpl.
    apply wp_bind. apply wp_bind. eapply wp_get_size; [done|].
    destruct Hks as [Hsz Hks]. rewrite Hsz.
    eapply wp_post.
    { eapply (fix_step n s p ks cs (length ks) minDegree); try done. lia. }
    intros res s1 (tr1 & Hgrows1 & Hin1 & [(_ & Hone & _)|(_ & Hroot1 & Hrep1 & Hwin)]);
      [lia|].
    destruct Hwin as (ks1 & ks2 & cs1 & a & cs2 & -> & Hl1 & Hrich & Hsh1 & _ & Hlast
      & _ & _).
    destruct (Hlast eq_refl) as [-> ->]. rewrite app_nil_r in *.
    pose proof (grows_owns _ _ _ _ Hown Hgrows1) as Hown1.
    pose proof Hrep1 as (nd1 & Hp1 & [Hsz1 _] & _ & _ & Hps1 & Hcs1)%rep_S_inv.
    apply wp_bind. eapply wp_get_size; [done|]. rewrite Hsz1.
    apply wp_bind. eapply wp_get_child; [done| |].
    { apply Hps1. rewrite fmap_app. apply list_lookup_middle. by rewrite length_fmap. }
    apply shape_S_inv in Hsh1 as (Hlo1 & Hlen1 & Hshc1).
    rewrite <-Hin1 in Hsorted.
    rewrite <-(app_nil_r ks1) in Hsorted.
    rewrite inorder_window in Hsorted by done.
    assert (wp (let! lf := descend_rightmost lessThan minDegree fuel (addr_of a) in
                let! lsz := get_size lf in nodeDelete lf (lsz - 1)) s1 (λ v s',
      root s' = root s1 ∧
      ∃ a', addr_of a' = addr_of a ∧ rep n (heap s') a' ∧
        shape n (minDegree - 1) a' ∧ grows s1 s' a a' ∧
        inorder a = inorder a' ++ [v]) E) as Hrec.
    { apply IH; [lia| |by eapply owns_child| |].
      - apply Forall_app in Hcs1 as [_ Hcs1]. by apply Forall_cons in Hcs1 as [? _].
      - apply Forall_app in Hshc1 as [_ Hshc1]. apply Forall_cons in Hshc1 as [Ha _].
        destruct a. eapply shape_raise; [done|]. done.
      - by apply StronglySorted_app_1_r, StronglySorted_app_1_l in Hsorted. }
    apply wp_bind_inv in Hrec. eapply wp_post; [exact Hrec|].
    intros lf s2 Hrec2. eapply wp_post; [exact Hrec2|].
    intros v s3 (Hroot3 & a' & Haddr & Hrep3 & Hsh3 & Hgrows3 & Hina).
    split; [congruence|].
    exists (Node p ks1 (cs1 ++ [a'])). split; [done|]. split.
    { by eapply rep_child_update. }
    split.
    { apply shape_S_intro; [lia|by rewrite length_app in *|].
      apply Forall_app in Hshc1 as [? _]. apply Forall_app. split; [done|].
      by apply Forall_singleton. }
    split.
    { eapply grows_trans; [done|]. by apply grows_child. }
    change (join (inorder <$> cs) ks) with (inorder (Node p ks cs)).
    rewrite <-Hin1. rewrite <-(app_nil_r ks1) at 1 2.
    rewrite !inorder_window by done.
    rewrite Hina. unfold rpart. simpl. by rewrite !app_nil_r, <-app_assoc.
Qed.

(** Taking the smallest key out of a subtree whose top node has a key to
    spare. *)
Lemma take_min_spec n : ∀ fuel s tr E,
  n ≤ fuel → rep n (heap s) tr → owns s tr → shape n minDegree tr →
  StronglySorted klt (inorder tr) →
  wp (let! rk := descend_leftmost lessThan minDegree fuel (addr_of tr) in
      nodeDelete rk 0) s (λ v s',
    root s' = root s ∧
    ∃ tr', addr_of tr' = addr_of tr ∧ rep n (heap s') tr' ∧
      shape n (minDegree - 1) tr' ∧ grows s s' tr tr' ∧
      inorder tr = v :: inorder tr') E.
Proof.
  induction n as [|n IH]; intros fuel s [p ks cs] E Hfuel Hrep Hown Hsh Hsorted;
    rewrite descend_leftmost_unfold; cbn [addr_of].
  - pose proof Hrep as (nd & ps & Hp & Hks & Hps & Hc & Hlf & Hcs & _)%rep_view.
    rewrite (Hcs eq_refl) in *.
    apply shape_0_inv in Hsh as [Hlo _].
    apply wp_bind. apply wp_bind. eapply wp_get_leaf; [done|]. rewrite Hlf. simpl.
    apply wp_ret.
    destruct ks as [|v ks]; [simpl in Hlo; lia|]. simpl in Hlo.
    eapply wp_post.
    { by eapply (wp_nodeDelete _ p _ _ nd (v :: ks) ps v). }
    intros ? s' (-> & nd' & -> & Hlf' & Hks' & _ & Hc'). simpl in Hks'.
    split; [done|]. exists (Node p ks []). split; [done|]. split.
    { eapply rep_leaf_intro; [apply heap_upd_eq|done|done|by rewrite Hlf'; rewrite Hlf]. }
    split; [apply shape_0_intro; [lia|done]|]. split; [|done].
    apply grows_upd; [by apply grows_same|left].
  - destruct fuel as [|fuel]; [lia|].
    pose proof Hrep as (nd & ps & Hp & Hks & Hps & Hc & Hlf & _ & _ & Hcs)%rep_view.
    pose proof Hsh as (Hlo & Hlen & Hshc)%shape_S_inv.
    apply wp_bind. apply wp_bind. eapply wp_get_leaf; [done|]. rewrite Hlf. simpl.
    apply wp_bind.
    eapply wp_post.
    { eapply (fix_step n s p ks cs 0 minDegree); try done; lia. }
    intros res s1 (tr1 & Hgrows1 & Hin1 & [(_ & Hone & _)|(_ & Hroot1 & Hrep1 & Hwin)]);
      [lia|].
    destruct Hwin as (ks1 & ks2 & cs1 & a & cs2 & -> & Hl1 & Hrich & Hsh1 & _ & _
      & Hfirst & _).
    destruct (Hfirst eq_refl) as [-> ->].
    pose proof (grows_owns _ _ _ _ Hown Hgrows1) as Hown1.
    pose proof Hrep1 as (nd1 & Hp1 & [Hsz1 _] & _ & _ & Hps1 & Hcs1)%rep_S_inv.
    apply wp_bind. eapply wp_get_child; [done|by apply Hps1|].
    apply shape_S_inv in Hsh1 as (Hlo1 & Hlen1 & Hshc1).
    rewrite <-Hin1 in Hsorted.
    rewrite inorder_window in Hsorted by done.
    assert (wp (let! rk := descend_leftmost lessThan minDegree fuel (addr_of a) in
                nodeDelete rk 0) s1 (λ v s',
      root s' = root s1 ∧
      ∃ a', addr_of a' = addr_of a ∧ rep n (heap s') a' ∧
        shape n (minDegree - 1) a' ∧ grows s1 s' a a' ∧
        inorder a = v :: inorder a') E) as Hrec.
    { apply IH; [lia| |by eapply (owns_child _ _ _ [])| |].
      - by apply Forall_cons in Hcs1 as [? _].
      - apply Forall_cons in Hshc1 as [Ha _].
        destruct a. eapply shape_raise; [done|]. done.
      - by apply StronglySorted_app_1_r, StronglySorted_app_1_l in Hsorted. }
    apply wp_bind_inv in Hrec. eapply wp_post; [exact Hrec|].
    intros lf s2 Hrec2. eapply wp_post; [exact Hrec2|].
    intros v s3 (Hroot3 & a' & Haddr & Hrep3 & Hsh3 & Hgrows3 & Hina).
    split; [congruence|].
    exists (Node p ks2 (a' :: cs2)). split; [done|]. split.
    { by eapply (rep_child_update _ _ _ _ _ []). }
    split.
    { apply shape_S_intro; [done|done|].
      apply Forall_cons in Hshc1 as [_ ?]. by apply Forall_cons. }
    split.
    { eapply grows_trans; [done|]. by apply (grows_child _ _ _ _ _ []). }
    change (join (inorder <$> cs) ks) with (inorder (Node p ks cs)).
    rewrite <-Hin1.
    rewrite !(inorder_window _ [] _ []) by done.
    rewrite Hina. done.
Qed.

Lemma wp_key_matches x i k s nd ks (Q : bool → BTree → Prop) E :
  heap s !! x = Some nd → keys_are nd ks →
  Q (match ks !! i with
     | Some w => negb (lessThan w k || lessThan k w)
     | None => false
     end) s →
  wp (key_matches lessThan x i k) s Q E.
Proof.
  intros Hx [Hsz Hks] HQ. unfold key_matches.
  apply wp_bind. eapply wp_get_size; [done|]. rewrite Hsz.
  case_decide as Hi.
  - destruct (lookup_lt_is_Some_2 ks i) as [w Hw]; [done|]. rewrite Hw in HQ.
    apply wp_bind. eapply wp_get_key; [done|by apply Hks|]. by apply wp_ret.
  - rewrite lookup_ge_None_2 in HQ by lia. by apply wp_ret.
Qed.

Lemma remove_loop_unfold fuel curr k :
  remove_loop lessThan minDegree (S fuel) curr k =
  (let! i := findIndex lessThan curr k in
   let! found := key_matches lessThan curr i k in
   if found then
     let! toReturn := get_key curr i in
     let! lf := get_leaf curr in
     if lf then nodeDelete curr i;;; ret toReturn
     else
       let! leftKid := get_child curr i in
       let! rightKid := get_child curr (i + 1) in
       let! lsz := get_size leftKid in
       if decide (minDegree ≤ lsz) then
         let! leftKid := descend_rightmost lessThan minDegree fuel leftKid in
         (let! lsz := get_size leftKid in
          let! kv := nodeDelete leftKid (lsz - 1) in
          set_key curr i kv);;;
         ret toReturn
       else
         let! rsz := get_size rightKid in
         if decide (minDegree ≤ rsz) then
           let! rightKid := descend_leftmost lessThan minDegree fuel rightKid in
           (let! kv := nodeDelete rightKid 0 in set_key curr i kv);;;
           ret toReturn
         else
           mergeChildren curr i;;;
           remove_loop lessThan minDegree fuel leftKid k
   else
     let! lf := get_leaf curr in
     if lf then throw REMOVE_KEY_NOT_FOUND
     else
       let! res := fixChildSize lessThan minDegree curr i in
       if decide (res = NEW_ROOT) then
         let! r := get_root in remove_loop lessThan minDegree fuel r k
       else
         let! j := findIndex lessThan curr k in
         let! c := get_child curr j in
         remove_loop lessThan minDegree fuel c k).
Proof. done. Qed.

Lemma rep_set_key n s p ks cs i v nd :
  rep n (heap s) (Node p ks cs) → heap s !! p = Some nd →
  NoDup (addrs (Node p ks cs)) → i < length ks →
  rep n (heap (upd p (mkBNode (child nd) (<[i := Some v]> (key nd))
                         (size nd) (leaf nd)) s))
    (Node p (<[i := v]> ks) cs).
Proof.
  intros (nd' & ps & Hp & Hks & Hps & Hc & Hlf & H0 & Hn & Hcs)%rep_view Hp' Hnd Hi.
  simplify_eq. simpl in Hnd. apply NoDup_cons in Hnd as [Hnp _].
  eapply (rep_build _ (heap s)); [apply heap_upd_eq| | |done|done| | |done].
  - by apply keys_are_set_key.
  - destruct Hc as [? ?]. split; simpl; by rewrite ?length_insert.
  - intros Hn0. rewrite <-(Hn Hn0). by eapply kids_are_same.
  - intros q Hq. apply heap_upd_ne. by intros ->.
Qed.

Lemma sorted_split_at (l1 l2 : list T) k :
  StronglySorted klt (l1 ++ k :: l2) →
  Forall (λ e, klt e k) l1 ∧ Forall (klt k) l2.
Proof.
  intros (Hx & _ & Hs)%StronglySorted_app. split.
  - apply Forall_forall. intros e He. apply Hx; [done|left].
  - by apply StronglySorted_cons in Hs as [? _].
Qed.

Lemma without_at k (l1 l2 : list T) :
  Forall (λ e, klt e k) l1 → Forall (klt k) l2 →
  without k (l1 ++ k :: l2) = l1 ++ l2.
Proof.
  intros H1 H2. change (k :: l2) with ([k] ++ l2).
  rewrite (without_window k l1 [k] l2) by done.
  unfold without, differs. simpl. by rewrite lessThan_irrefl.
Qed.

Local Abbreviation removed := (removed lessThan minDegree).

Lemma insert_middle {A} (l1 l2 : list A) a b n :
  n = length l1 → <[n := b]> (l1 ++ a :: l2) = l1 ++ b :: l2.
Proof. intros ->. by rewrite insert_app_r_alt, Nat.sub_diag by lia. Qed.

(** A key found in an internal node is replaced by its predecessor when
    the child to its left has a key to spare. *)
Lemma replace_pred n s p ks1 k ks2 cs1 L R cs2 fuel lo E :
  let tr := Node p (ks1 ++ k :: ks2) (cs1 ++ L :: R :: cs2) in
  n ≤ fuel → rep (S n) (heap s) tr → owns s tr → shape (S n) lo tr →
  length cs1 = length ks1 → minDegree ≤ nkeys L →
  StronglySorted klt (inorder tr) →
  wp (let! leftKid := descend_rightmost lessThan minDegree fuel (addr_of L) in
      (let! lsz := get_size leftKid in
       let! kv := nodeDelete leftKid (lsz - 1) in
       set_key p (length ks1) kv);;;
      ret k) s (λ v s', v = k ∧ removed k (S n) lo s tr s') E.
Proof.
  intros tr Hfuel Hrep Hown Hsh Hl1 Hrich Hsorted.
  pose proof Hrep as (nd & Hp & Hks & Hc & Hlf & Hps & Hcs)%rep_S_inv.
  pose proof Hsh as (Hlo & Hlen & Hshc)%shape_S_inv.
  apply Forall_app in Hcs as [Hcs1 Hcs]. apply Forall_cons in Hcs as [HrepL Hcs2].
  apply Forall_app in Hshc as [Hsh1 Hshc]. apply Forall_cons in Hshc as [HshL Hsh2].
  unfold tr in Hsorted. rewrite inorder_window2 in Hsorted by done.
  assert (wp (let! lf := descend_rightmost lessThan minDegree fuel (addr_of L) in
              let! lsz := get_size lf in nodeDelete lf (lsz - 1)) s (λ v s',
    root s' = root s ∧
    ∃ L', addr_of L' = addr_of L ∧ rep n (heap s') L' ∧
      shape n (minDegree - 1) L' ∧ grows s s' L L' ∧
      inorder L = inorder L' ++ [v]) E) as Hmax.
  { apply take_max_spec; [done|done|by eapply owns_child| |].
    - destruct L. by eapply shape_raise.
    - by apply StronglySorted_app_1_r, StronglySorted_app_1_l in Hsorted. }
  apply wp_bind. apply wp_bind_inv in Hmax. eapply wp_post; [exact Hmax|].
  intros lf s1 Hmax1. apply wp_bind. apply wp_bind.
  apply wp_bind_inv in Hmax1. eapply wp_post; [exact Hmax1|].
  intros lsz s1' Hmax2. apply wp_bind. eapply wp_post; [exact Hmax2|].
  intros v s2 (Hroot2 & L' & Haddr & HrepL' & HshL' & Hgrows & HinL).
  pose proof (grows_child s s2 p (ks1 ++ k :: ks2) (ks1 ++ k :: ks2) cs1
    (R :: cs2) L L' Hgrows) as Hgrows'.
  pose proof (grows_owns _ _ _ _ Hown Hgrows') as Hown2.
  assert (rep (S n) (heap s2) (Node p (ks1 ++ k :: ks2) (cs1 ++ L' :: R :: cs2)))
    as Hrep2 by by eapply rep_child_update.
  pose proof Hrep2 as (nd2 & Hp2 & Hks2 & _)%rep_S_inv.
  eapply wp_set_key; [done| |].
  { apply keys_are_length in Hks2. rewrite length_app in Hks2. simpl in Hks2. lia. }
  apply wp_ret. split; [done|].
  assert (Node p (ks1 ++ v :: ks2) (cs1 ++ L' :: R :: cs2) =
          Node p (<[length ks1 := v]> (ks1 ++ k :: ks2)) (cs1 ++ L' :: R :: cs2))
    as Heq by by rewrite insert_middle.
  exists (S n), (Node p (ks1 ++ v :: ks2) (cs1 ++ L' :: R :: cs2)).
  repeat rewrite length_app in Hlo. repeat rewrite length_app in Hlen.
  simpl in Hlo, Hlen.
  split.
  { rewrite Heq. apply rep_set_key; [done|done|apply Hown2|].
    rewrite length_app. simpl. lia. }
  split.
  { apply shape_S_intro; [rewrite length_app; simpl; lia|
      rewrite !length_app; simpl; lia|].
    apply Forall_app. split; [done|]. apply Forall_cons. by split. }
  split; [right; unfold nkeys; simpl; rewrite length_app; simpl; lia|].
  split.
  { apply grows_upd; [|left].
    apply (grows_child s s2 p (ks1 ++ k :: ks2) (ks1 ++ v :: ks2) cs1
      (R :: cs2) L L' Hgrows). }
  split.
  { unfold tr. rewrite !inorder_window2 by done. rewrite HinL in Hsorted |- *.
    set (X := lpart (inorder <$> cs1) ks1) in *.
    set (Y := rpart ks2 (inorder <$> cs2)) in *.
    assert (X ++ (inorder L' ++ [v]) ++ k :: inorder R ++ Y =
            (X ++ inorder L' ++ [v]) ++ k :: (inorder R ++ Y)) as Hre
      by (by rewrite <-!app_assoc).
    rewrite Hre in Hsorted |- *. apply sorted_split_at in Hsorted as [HA HB].
    rewrite without_at by done. by rewrite <-!app_assoc. }
  left. done.
Qed.

(** Or by its successor when the child to its right has one. *)
Lemma replace_succ n s p ks1 k ks2 cs1 L R cs2 fuel lo E :
  let tr := Node p (ks1 ++ k :: ks2) (cs1 ++ L :: R :: cs2) in
  n ≤ fuel → rep (S n) (heap s) tr → owns s tr → shape (S n) lo tr →
  length cs1 = length ks1 → minDegree ≤ nkeys R →
  StronglySorted klt (inorder tr) →
  wp (let! rightKid := descend_leftmost lessThan minDegree fuel (addr_of R) in
      (let! kv := nodeDelete rightKid 0 in set_key p (length ks1) kv);;;
      ret k) s (λ v s', v = k ∧ removed k (S n) lo s tr s') E.
Proof.
  intros tr Hfuel Hrep Hown Hsh Hl1 Hrich Hsorted.
  assert (cs1 ++ L :: R :: cs2 = (cs1 ++ [L]) ++ R :: cs2) as Hcs_eq
    by (by rewrite <-app_assoc).
  pose proof Hrep as Hrep0. pose proof Hown as Hown0.
  unfold tr in Hrep0, Hown0. rewrite Hcs_eq in Hrep0, Hown0.
  pose proof Hrep as (nd & Hp & Hks & Hc & Hlf & Hps & Hcs)%rep_S_inv.
  pose proof Hsh as (Hlo & Hlen & Hshc)%shape_S_inv.
  apply Forall_app in Hcs as [Hcs1 Hcs]. apply Forall_cons in Hcs as [HrepL Hcs].
  apply Forall_cons in Hcs as [HrepR Hcs2].
  apply Forall_app in Hshc as [Hsh1 Hshc]. apply Forall_cons in Hshc as [HshL Hshc].
  apply Forall_cons in Hshc as [HshR Hsh2].
  unfold tr in Hsorted. rewrite inorder_window2 in Hsorted by done.
  assert (wp (let! rk := descend_leftmost lessThan minDegree fuel (addr_of R) in
              nodeDelete rk 0) s (λ v s',
    root s' = root s ∧
    ∃ R', addr_of R' = addr_of R ∧ rep n (heap s') R' ∧
      shape n (minDegree - 1) R' ∧ grows s s' R R' ∧
      inorder R = v :: inorder R') E) as Hmin.
  { apply take_min_spec; [done|done|by eapply owns_child| |].
    - destruct R. by eapply shape_raise.
    - apply StronglySorted_app_1_r, StronglySorted_app_1_r in Hsorted.
      apply StronglySorted_cons in Hsorted as [_ Hsorted].
      by apply StronglySorted_app_1_l in Hsorted. }
  apply wp_bind. apply wp_bind_inv in Hmin. eapply wp_post; [exact Hmin|].
  intros lf s1 Hmin1. apply wp_bind. apply wp_bind.
  eapply wp_post; [exact Hmin1|].
  intros v s2 (Hroot2 & R' & Haddr & HrepR' & HshR' & Hgrows & HinR).
  pose proof (grows_child s s2 p (ks1 ++ k :: ks2) (ks1 ++ k :: ks2) (cs1 ++ [L])
    cs2 R R' Hgrows) as Hgrows'.
  pose proof (grows_owns _ _ _ _ Hown0 Hgrows') as Hown2.
  assert (rep (S n) (heap s2) (Node p (ks1 ++ k :: ks2) ((cs1 ++ [L]) ++ R' :: cs2)))
    as Hrep2 by by eapply rep_child_update.
  pose proof Hrep2 as (nd2 & Hp2 & Hks2 & _)%rep_S_inv.
  eapply wp_set_key; [done| |].
  { apply keys_are_length in Hks2. rewrite length_app in Hks2. simpl in Hks2. lia. }
  apply wp_ret. split; [done|].
  assert (Node p (ks1 ++ v :: ks2) (cs1 ++ L :: R' :: cs2) =
          Node p (<[length ks1 := v]> (ks1 ++ k :: ks2)) ((cs1 ++ [L]) ++ R' :: cs2))
    as Heq by (by rewrite insert_middle, <-app_assoc).
  exists (S n), (Node p (ks1 ++ v :: ks2) (cs1 ++ L :: R' :: cs2)).
  repeat rewrite length_app in Hlo. repeat rewrite length_app in Hlen.
  simpl in Hlo, Hlen.
  split.
  { rewrite Heq. apply rep_set_key; [done|done|apply Hown2|].
    rewrite length_app. simpl. lia. }
  split.
  { apply shape_S_intro; [rewrite length_app; simpl; lia|
      rewrite !length_app; simpl; lia|].
    apply Forall_app. split; [done|]. apply Forall_cons. split; [done|].
    apply Forall_cons. by split. }
  split; [right; unfold nkeys; simpl; rewrite length_app; simpl; lia|].
  split.
  { apply grows_upd; [|left]. unfold tr. rewrite Hcs_eq.
    replace (cs1 ++ L :: R' :: cs2) with ((cs1 ++ [L]) ++ R' :: cs2)
      by (by rewrite <-app_assoc).
    apply (grows_child s s2 p (ks1 ++ k :: ks2) (ks1 ++ v :: ks2) (cs1 ++ [L])
      cs2 R R' Hgrows). }
  split.
  { unfold tr. rewrite !inorder_window2 by done. rewrite HinR in Hsorted |- *.
    set (X := lpart (inorder <$> cs1) ks1) in *.
    set (Y := rpart ks2 (inorder <$> cs2)) in *.
    assert (X ++ inorder L ++ k :: (v :: inorder R') ++ Y =
            (X ++ inorder L) ++ k :: (v :: inorder R' ++ Y)) as Hre
      by (by rewrite <-!app_assoc).
    rewrite Hre in Hsorted |- *. apply sorted_split_at in Hsorted as [HA HB].
    rewrite without_at by done. by rewrite <-!app_assoc. }
  left. done.
Qed.

(** [mergeChildren] in a tree whose two children have no key to spare. *)
Lemma merge_step n s p ks1 sep ks2 cs1 l ksl csl r ksr csr cs2 lo E :
  let tr := Node p (ks1 ++ sep :: ks2)
              (cs1 ++ Node l ksl csl :: Node r ksr csr :: cs2) in
  let merged := Node l (ksl ++ sep :: ksr) (csl ++ csr) in
  rep (S n) (heap s) tr → owns s tr → shape (S n) lo tr →
  length cs1 = length ks1 →
  length ksl < minDegree → length ksr < minDegree →
  wp (mergeChildren p (length ks1)) s (λ _ s',
    shape n minDegree merged ∧
    inorder merged = inorder (Node l ksl csl) ++ sep :: inorder (Node r ksr csr) ∧
    if decide (length (ks1 ++ sep :: ks2) = 1) then
      root s' = l ∧ rep n (heap s') merged ∧ grows s s' tr merged
    else
      root s' = root s ∧
      rep (S n) (heap s') (Node p (ks1 ++ ks2) (cs1 ++ merged :: cs2)) ∧
      grows s s' tr (Node p (ks1 ++ ks2) (cs1 ++ merged :: cs2)) ∧
      shape (S n) (lo - 1) (Node p (ks1 ++ ks2) (cs1 ++ merged :: cs2))) E.
Proof.
  intros tr merged Hrep [Hnd Hb] Hsh Hl1 Hsl Hsr.
  pose proof Hsh as (Hlo & Hlen & Hshc)%shape_S_inv.
  apply Forall_app in Hshc as [Hsh1 Hshc]. apply Forall_cons in Hshc as [HshL Hshc].
  apply Forall_cons in Hshc as [HshR Hsh2].
  pose proof HshL as (HloL & HL0 & HLn & HLc)%shape_view.
  pose proof HshR as (HloR & HR0 & HRn & HRc)%shape_view.
  repeat rewrite length_app in Hlo. repeat rewrite length_app in Hlen.
  simpl in Hlo, Hlen.
  assert (shape n minDegree merged) as Hshm.
  { apply shape_build; [rewrite length_app; simpl; lia| | |].
    - intros Hn0. by rewrite (HL0 Hn0), (HR0 Hn0).
    - intros Hn0. rewrite !length_app, (HLn Hn0), (HRn Hn0). simpl. lia.
    - apply Forall_app. by split. }
  assert (inorder merged =
          inorder (Node l ksl csl) ++ sep :: inorder (Node r ksr csr)) as Hinm.
  { apply inorder_merge.
    apply kids_nil_or in HshL as [[-> ->]|[? ?]].
    - apply shape_0_inv in HshR as [_ ->]. by left.
    - right. split; [done|]. destruct n; [done|].
      apply shape_S_inv in HshR as (_ & ? & _). by destruct csr. }
  eapply wp_post.
  { eapply merge_tree; try done. lia. }
  cbv beta zeta. intros res s' (Hbrk & Hfr & Hres).
  split; [done|]. split; [done|].
  assert (∀ q, q ∉ addrs tr → q < brk s → heap s' !! q = heap s !! q) as Hfr'.
  { intros q Hq _. unfold tr in Hq. rewrite addrs_window2 in Hq. simpl in Hq.
    apply Hfr; intros ->; apply Hq; clear; set_solver. }
  case_decide as Hone.
  - destruct Hres as (_ & _ & Hroot & Hrepm). split; [done|]. split; [done|].
    split; [lia|]. split; [|done].
    rewrite Hbrk, Nat.sub_diag. rewrite app_nil_r.
    unfold tr. rewrite addrs_window2. csimpl. rewrite !bind_app. solve_submseteq.
  - destruct Hres as (_ & Hroot & Hrepp). split; [done|]. split; [done|]. split.
    + split; [lia|]. split; [|done].
      rewrite Hbrk, Nat.sub_diag. rewrite app_nil_r.
      unfold tr. rewrite addrs_window2, addrs_window. csimpl. rewrite !bind_app.
      apply submseteq_skip. solve_submseteq.
    + rewrite length_app in Hone. simpl in Hone.
      apply shape_S_intro; [rewrite length_app; lia|rewrite !length_app; simpl; lia|].
      apply Forall_app. split; [done|]. apply Forall_cons. split; [|done].
      eapply shape_weaken; [|done]. lia.
Qed.

Local Abbreviation remove_loop_ok := (remove_loop_ok lessThan minDegree).

Lemma Forall_last_bound (l : list T) k :
  Forall (λ e, klt e k) l → l = [] ∨ ∃ w, last l = Some w ∧ klt w k.
Proof.
  intros Hl. destruct l as [|w l _] using rev_ind; [by left|right].
  exists w. rewrite last_snoc. split; [done|].
  apply Forall_app in Hl as [_ Hl]. by apply Forall_inv in Hl.
Qed.

Lemma not_elem_of_bounds (L A R : list T) k :
  Forall (λ e, klt e k) L → Forall (klt k) R →
  k ∈ L ++ A ++ R → k ∈ A.
Proof.
  intros HL HR [Hk|[Hk|Hk]%elem_of_app]%elem_of_app; [|done|].
  - eapply Forall_forall in HL; [|done]. red in HL. by rewrite lessThan_irrefl in HL.
  - eapply Forall_forall in HR; [|done]. red in HR. by rewrite lessThan_irrefl in HR.
Qed.

(** The miss branch of [remove]'s loop. *)
Lemma remove_notfound n s p ks cs k lo fuel :
  let tr := Node p ks cs in
  let i := find_pos lessThan k ks in
  (∀ d, d < n → remove_loop_ok d) → n ≤ fuel →
  rep n (heap s) tr → owns s tr → shape n lo tr →
  (n = 0 ∨ 1 ≤ nkeys tr) →
  StronglySorted klt (inorder tr) →
  Forall (λ e, e = k ∨ klt e k ∨ klt k e) (inorder tr) →
  Forall (λ e, klt e k) (take i ks) →
  (drop i ks = [] ∨ ∃ w, head (drop i ks) = Some w ∧ klt k w) →
  wp (let! lf := get_leaf p in
      if lf then throw REMOVE_KEY_NOT_FOUND
      else
        let! res := fixChildSize lessThan minDegree p i in
        if decide (res = NEW_ROOT) then
          let! r := get_root in remove_loop lessThan minDegree fuel r k
        else
          let! j := findIndex lessThan p k in
          let! c := get_child p j in
          remove_loop lessThan minDegree fuel c k) s
    (λ v s', v = k ∧ k ∈ inorder tr ∧ removed k n lo s tr s')
    (λ e s', e = REMOVE_KEY_NOT_FOUND ∧ (k ∉ inorder tr) ∧ removed k n lo s tr s').
Proof.
  intros tr i IH Hfuel Hrep Hown Hsh Hkeys Hsorted Htri Hbefore Hafter. subst tr.
  pose proof Hrep as (nd & ps & Hp & Hks & Hps & Hc & Hlf & H0 & Hn & Hcs)%rep_view.
  apply wp_bind. eapply wp_get_leaf; [done|]. rewrite Hlf.
  destruct n as [|n].
  - (* at a leaf: the key is not there *)
    rewrite bool_decide_eq_true_2 by done. apply wp_throw. rewrite (H0 eq_refl) in *. clear H0 Hn.
    assert (Forall (λ e, klt e k ∨ klt k e) ks) as Hdiff.
    { rewrite <-(take_drop i ks). apply Forall_app. split.
      - eapply Forall_impl; [done|]. by left.
      - eapply Forall_impl; [eapply (sorted_head_bound (take i ks) _ k)|].
        + by rewrite take_drop.
        + done.
        + by right. }
    split; [done|]. split.
    { simpl. intros Hk. eapply Forall_forall in Hdiff; [|done].
      destruct Hdiff as [Hd|Hd]; red in Hd; by rewrite lessThan_irrefl in Hd. }
    exists 0, (Node p ks []). split; [done|].
    split; [eapply shape_weaken; [|done]; lia|]. split; [by left|].
    split; [apply grows_refl|]. split; [|by left].
    simpl. by rewrite without_keep.
  - (* at an internal node: fix the child and go down *)
    rewrite bool_decide_eq_false_2 by done.
    assert (1 ≤ length ks) as H1 by (by destruct Hkeys).
    pose proof (shape_nkeys _ _ _ Hsh) as [Hlo _]. unfold nkeys in Hlo. simpl in Hlo.
    assert (i ≤ length ks) as Hi.
    { unfold i. destruct (find_pos_spec k ks) as (ka & kb & -> & <- & _).
      rewrite length_app. lia. }
    apply wp_bind. eapply wp_nothrow, wp_post.
    { eapply (fix_step n s p ks cs i lo); done. }
    intros res s1 (tr1 & Hgrows1 & Hin1 & Hcases).
    pose proof (grows_owns _ _ _ _ Hown Hgrows1) as Hown1.
    destruct Hcases as [(-> & Hone & Hroot1 & Hrep1 & Hsh1)|
      (Hres & Hroot1 & Hrep1 & ks1 & ks2 & cs1 & a & cs2 & -> & Hl1 & Hrich & Hsh1 &
       Hk1 & _ & _ & Hpos)].
    + (* the root lost its only key: carry on from the new root *)
      rewrite decide_True by done.
      apply wp_bind, wp_get_root. rewrite Hroot1.
      pose proof (shape_nkeys _ _ _ Hsh1) as [Hnk _].
      eapply wp_mono.
      { eapply (IH n ltac:(lia) fuel s1 tr1 k minDegree); try done.
        - right. lia.
        - by rewrite Hin1.
        - by rewrite Hin1. }
      * intros v s2 (-> & Hk & n' & tr' & Hrep' & Hsh' & Hk' & Hgrows' & Hin' & Hd).
        split; [done|]. split; [by rewrite <-Hin1|].
        destruct Hd as [(-> & Haddr & Hroot2)|(_ & ? & _)]; [|lia].
        exists n, tr'. split; [done|].
        split; [eapply shape_weaken; [|done]; lia|]. split; [done|].
        split; [by eapply grows_trans|]. split; [by rewrite Hin', Hin1|].
        right. split; [done|]. split; [done|]. congruence.
      * intros e s2 (-> & Hk & n' & tr' & Hrep' & Hsh' & Hk' & Hgrows' & Hin' & Hd).
        split; [done|]. split; [by rewrite <-Hin1|].
        destruct Hd as [(-> & Haddr & Hroot2)|(_ & ? & _)]; [|lia].
        exists n, tr'. split; [done|].
        split; [eapply shape_weaken; [|done]; lia|]. split; [done|].
        split; [by eapply grows_trans|]. split; [by rewrite Hin', Hin1|].
        right. split; [done|]. split; [done|]. congruence.
    + (* go down into the fixed child *)
      rewrite decide_False by done.
      destruct (Hpos k Hbefore Hafter) as [Hb1 Hb2].
      pose proof Hrep1 as (nd1 & Hp1 & Hks1 & _ & _ & Hps1 & Hcs1)%rep_S_inv.
      apply wp_bind. eapply wp_findIndex; [done|done|].
      rewrite find_pos_app; [|done|].
      2:{ destruct Hb2 as [->|(w & Hw & Hkw)]; [by left|right].
          exists w. split; [done|]. by apply klt_asym. }
      apply wp_bind. eapply wp_get_child; [done| |].
      { apply Hps1. rewrite fmap_app, fmap_cons. apply list_lookup_middle.
        by rewrite length_fmap. }
      rewrite <-Hin1 in Hsorted, Htri.
      rewrite inorder_window in Hsorted, Htri by done.
      destruct (window_bounds (inorder <$> cs1) (inorder <$> cs2) ks1 ks2
        (inorder a) k) as [HL HR]; try done.
      { by rewrite length_fmap. }
      { rewrite length_fmap. apply shape_S_inv in Hsh1 as (_ & Hlen1 & _).
        rewrite !length_app in Hlen1. simpl in Hlen1. lia. }
      { by apply Forall_last_bound. }
      pose proof Hsh1 as (Hlo1 & Hlen1 & Hshc1)%shape_S_inv.
      assert (rep n (heap s1) a) as Hrepa.
      { apply Forall_app in Hcs1 as [_ Hcs1]. by apply Forall_cons in Hcs1 as [? _]. }
      assert (shape n minDegree a) as Hsha.
      { apply Forall_app in Hshc1 as [_ Hshc1]. apply Forall_cons in Hshc1 as [Ha _].
        destruct a. by eapply shape_raise. }
      assert (∀ s2, removed k n minDegree s1 a s2 →
                    removed k (S n) lo s (Node p ks cs) s2) as Hconv.
      { intros s2 (n' & a' & Hrep' & Hsh' & Hk' & Hgrows' & Hin' & Hd).
        destruct Hd as [(-> & Haddr & Hroot2)|(_ & ? & _)]; [|lia].
        exists (S n), (Node p (ks1 ++ ks2) (cs1 ++ a' :: cs2)). split.
        { by eapply rep_child_update. }
        split.
        { apply shape_S_intro; [done|by rewrite length_app in *|].
          apply Forall_app in Hshc1 as [? Hshc1]. apply Forall_cons in Hshc1 as [_ ?].
          apply Forall_app. split; [done|]. by apply Forall_cons. }
        split; [right; done|]. split.
        { eapply grows_trans; [done|]. by apply grows_child. }
        split; [|left; split; [done|]; split; [done|congruence]].
        rewrite inorder_window by done. rewrite Hin'.
        change (join (inorder <$> cs) ks) with (inorder (Node p ks cs)).
        rewrite <-Hin1, inorder_window by done.
        by rewrite without_window. }
      eapply wp_mono.
      { eapply (IH n ltac:(lia) fuel s1 a k minDegree); try done.
        - by eapply owns_child.
        - right. apply shape_nkeys in Hsha as [? _]. lia.
        - by apply StronglySorted_app_1_r, StronglySorted_app_1_l in Hsorted.
        - apply Forall_app in Htri as [_ Htri]. by apply Forall_app in Htri as [? _]. }
      * intros v s2 (-> & Hk & Hrem). split; [done|]. split; [|by apply Hconv].
        change (join (inorder <$> cs) ks) with (inorder (Node p ks cs)).
        rewrite <-Hin1, inorder_window by done.
        apply elem_of_app. right. apply elem_of_app. by left.
      * intros e s2 (-> & Hk & Hrem). split; [done|]. split; [|by apply Hconv].
        change (join (inorder <$> cs) ks) with (inorder (Node p ks cs)).
        rewrite <-Hin1, inorder_window by done.
        intros Hin. apply Hk. by eapply not_elem_of_bounds.
Qed.

(** The hit branch of [remove]'s loop. *)
Lemma remove_found n s p ka k kb cs lo fuel :
  let tr := Node p (ka ++ k :: kb) cs in
  (∀ d, d < n → remove_loop_ok d) → n ≤ fuel →
  rep n (heap s) tr → owns s tr → shape n lo tr →
  StronglySorted klt (inorder tr) →
  Forall (λ e, e = k ∨ klt e k ∨ klt k e) (inorder tr) →
  wp (let! toReturn := get_key p (length ka) in
      let! lf := get_leaf p in
      if lf then nodeDelete p (length ka);;; ret toReturn
      else
        let! leftKid := get_child p (length ka) in
        let! rightKid := get_child p (length ka + 1) in
        let! lsz := get_size leftKid in
        if decide (minDegree ≤ lsz) then
          let! leftKid := descend_rightmost lessThan minDegree fuel leftKid in
          (let! lsz := get_size leftKid in
           let! kv := nodeDelete leftKid (lsz - 1) in
           set_key p (length ka) kv);;;
          ret toReturn
        else
          let! rsz := get_size rightKid in
          if decide (minDegree ≤ rsz) then
            let! rightKid := descend_leftmost lessThan minDegree fuel rightKid in
            (let! kv := nodeDelete rightKid 0 in set_key p (length ka) kv);;;
            ret toReturn
          else
            mergeChildren p (length ka);;;
            remove_loop lessThan minDegree fuel leftKid k) s
    (λ v s', v = k ∧ k ∈ inorder tr ∧ removed k n lo s tr s')
    (λ e s', e = REMOVE_KEY_NOT_FOUND ∧ (k ∉ inorder tr) ∧ removed k n lo s tr s').
Proof.
  intros tr IH Hfuel Hrep Hown Hsh Hsorted Htri. subst tr.
  pose proof Hrep as (nd & ps & Hp & Hks & Hps & Hc & Hlf & H0 & Hn & Hcs)%rep_view.
  pose proof (shape_nkeys _ _ _ Hsh) as [Hlo Hhi]. unfold nkeys in Hlo, Hhi.
  simpl in Hlo, Hhi. rewrite length_app in Hlo, Hhi. simpl in Hlo, Hhi.
  assert (k ∈ inorder (Node p (ka ++ k :: kb) cs)) as Hkin.
  { apply (elem_of_join_key (inorder <$> cs)).
    - apply shape_kids in Hsh as [->|?]; [by left|right]. by rewrite length_fmap.
    - apply elem_of_app. right. left. }
  apply wp_bind. eapply wp_get_key; [done| |].
  { apply Hks. by apply list_lookup_middle. }
  apply wp_bind. eapply wp_get_leaf; [done|]. rewrite Hlf.
  destruct n as [|n].
  - (* at a leaf: delete the key *)
    rewrite bool_decide_eq_true_2 by done. rewrite (H0 eq_refl) in *. clear H0 Hn.
    apply wp_bind. eapply wp_nothrow, wp_post.
    { eapply (wp_nodeDelete _ p (length ka) _ nd (ka ++ k :: kb) ps k);
        [done|done|done|done|]. by apply list_lookup_middle. }
    intros ? s' (-> & nd' & -> & Hlf' & Hks' & _ & Hc'). apply wp_ret.
    rewrite delete_middle in Hks'.
    split; [done|]. split; [done|].
    exists 0, (Node p (ka ++ kb) []). split.
    { eapply rep_leaf_intro; [apply heap_upd_eq|done|done|].
      rewrite Hlf', Hlf. by rewrite bool_decide_eq_true_2. }
    split; [apply shape_0_intro; [rewrite length_app; lia|done]|].
    split; [by left|]. split; [apply grows_upd; [by apply grows_same|left]|].
    split; [|by left].
    change (inorder (Node p (ka ++ k :: kb) [])) with (ka ++ k :: kb) in *.
    change (inorder (Node p (ka ++ kb) [])) with (ka ++ kb).
    apply sorted_split_at in Hsorted as [HA HB]. by rewrite without_at.
  - (* at an internal node *)
    rewrite bool_decide_eq_false_2 by done.
    pose proof Hsh as (_ & Hlen & Hshc)%shape_S_inv.
    destruct (window2 (ka ++ k :: kb) cs (length ka)) as
      (ks1 & sep & ks2 & cs1 & L & R & cs2 & Heq & -> & Hl1 & Hl1');
      [done|rewrite length_app; simpl; lia|].
    apply app_inj_1 in Heq as [<- Heq]; [|done]. injection Heq as <- <-.
    rewrite Nat.sub_succ, Nat.sub_0_r in Hcs. rewrite Hn in Hps by done.
    destruct (rep_child _ _ _ _ _ (length ka) L Hrep) as (? & ndl & ? & _ & HchL & HhL & HszL);
      [by apply list_lookup_middle|]. simplify_eq.
    destruct (rep_child _ _ _ _ _ (S (length ka)) R Hrep)
      as (? & ndr & ? & _ & HchR & HhR & HszR); [by apply lookup_S_middle|]. simplify_eq.
    apply wp_bind. eapply wp_get_child; [done|done|].
    replace (length ka + 1) with (S (length ka)) by lia.
    apply wp_bind. eapply wp_get_child; [done|done|].
    apply wp_bind. eapply wp_get_size; [done|]. rewrite HszL.
    destruct (decide (minDegree ≤ nkeys L)) as [HrichL|HpoorL].
    { eapply wp_post;
        [eapply (replace_pred n s p ka k kb cs1 L R cs2 fuel lo); try done; lia|].
      intros v s' [-> Hrem]. done. }
    apply wp_bind. eapply wp_get_size; [done|]. rewrite HszR.
    destruct (decide (minDegree ≤ nkeys R)) as [HrichR|HpoorR].
    { eapply wp_post;
        [eapply (replace_succ n s p ka k kb cs1 L R cs2 fuel lo); try done; lia|].
      intros v s' [-> Hrem]. done. }
    (* neither child has a key to spare: merge them around the key *)
    destruct L as [l ksl csl], R as [r ksr csr]. unfold nkeys in HpoorL, HpoorR.
    cbn [keys_of addr_of] in *.
    set (merged := Node l (ksl ++ k :: ksr) (csl ++ csr)).
    pose proof Hsorted as Hsorted'. pose proof Htri as Htri'.
    rewrite inorder_window2 in Hsorted', Htri' by done.
    set (X := lpart (inorder <$> cs1) ka) in *.
    set (Y := rpart kb (inorder <$> cs2)) in *.
    assert (X ++ inorder (Node l ksl csl) ++ k :: inorder (Node r ksr csr) ++ Y =
            (X ++ inorder (Node l ksl csl)) ++ k :: (inorder (Node r ksr csr) ++ Y))
      as Hre1 by (by rewrite <-!app_assoc).
    assert (X ++ inorder (Node l ksl csl) ++ k :: inorder (Node r ksr csr) ++ Y =
            X ++ (inorder (Node l ksl csl) ++ k :: inorder (Node r ksr csr)) ++ Y)
      as Hre2 by (by rewrite <-!app_assoc).
    pose proof Hsorted' as Hsplit. rewrite Hre1 in Hsplit.
    apply sorted_split_at in Hsplit as [HA HB].
    apply Forall_app in HA as [HX _]. apply Forall_app in HB as [_ HY].
    rewrite Hre2 in Hsorted', Htri'.
    apply wp_bind. eapply wp_post.
    { eapply (merge_step n s p ka k kb cs1 l ksl csl r ksr csr cs2 lo); try done; lia. }
    cbv beta zeta. intros _ s1 (Hshm & Hinm & Hcase). fold merged in Hshm, Hinm, Hcase.
    pose proof (shape_nkeys _ _ _ Hshm) as [Hnkm _].
    assert (k ∈ inorder merged) as Hkm.
    { rewrite Hinm. apply elem_of_app. right. left. }
    assert (∀ s1', rep n (heap s1') merged → owns s1' merged →
      wp (remove_loop lessThan minDegree fuel l k) s1'
        (λ v s', v = k ∧ k ∈ inorder merged ∧ removed k n minDegree s1' merged s')
        (λ e s', e = REMOVE_KEY_NOT_FOUND ∧ (k ∉ inorder merged) ∧
                 removed k n minDegree s1' merged s')) as Hrec.
    { intros s1' Hrepm Hownm.
      eapply (IH n ltac:(lia) fuel s1' merged k minDegree); try done.
      - right. lia.
      - rewrite Hinm. by apply StronglySorted_app_1_r, StronglySorted_app_1_l in Hsorted'.
      - rewrite Hinm. apply Forall_app in Htri' as [_ Htri'].
        by apply Forall_app in Htri' as [? _]. }
    case_decide as Hone.
    + (* the root had this key only: the merged node is the new root *)
      destruct Hcase as (Hroot1 & Hrepm & Hgrows1).
      rewrite length_app in Hone. simpl in Hone.
      destruct ka; [|simpl in Hone; lia]. destruct kb; [|simpl in Hone; lia].
      destruct cs1; [|done]. destruct cs2; [|simpl in Hlen; lia].
      eapply wp_mono; [apply Hrec; [done|by eapply grows_owns]| |].
      * intros v s2 (-> & _ & n' & m' & Hrep' & Hsh' & Hk' & Hgrows' & Hin' & Hd).
        split; [done|]. split; [done|].
        destruct Hd as [(-> & Haddr & Hroot2)|(_ & ? & _)]; [|lia].
        exists n, m'. split; [done|].
        split; [eapply shape_weaken; [|done]; simpl in Hlo; lia|]. split; [done|].
        split; [by eapply grows_trans|]. split.
        { rewrite Hin', Hinm. rewrite (inorder_window2 _ [] _ [] [] []) by done.
          unfold lpart, rpart. simpl. by rewrite app_nil_r. }
        right. split; [done|]. split; [done|]. simpl in Haddr. congruence.
      * intros e s2 (_ & Hk & _). done.
    + (* the merged node is a child of this node *)
      destruct Hcase as (Hroot1 & Hrepp & Hgrows1 & Hshp).
      pose proof (grows_owns _ _ _ _ Hown Hgrows1) as Hown1.
      pose proof Hrepp as (_ & _ & _ & _ & _ & _ & Hcsp)%rep_S_inv.
      pose proof Hshp as (Hlop & Hlenp & Hshcp)%shape_S_inv.
      eapply wp_mono; [apply Hrec| |].
      * apply Forall_app in Hcsp as [_ Hcsp]. by apply Forall_cons in Hcsp as [? _].
      * by eapply owns_child.
      * intros v s2 (-> & _ & n' & m' & Hrep' & Hsh' & Hk' & Hgrows' & Hin' & Hd).
        split; [done|]. split; [done|].
        destruct Hd as [(-> & Haddr & Hroot2)|(_ & ? & _)]; [|lia].
        exists (S n), (Node p (ka ++ kb) (cs1 ++ m' :: cs2)). split.
        { by eapply rep_child_update. }
        split.
        { apply shape_S_intro; [done|by rewrite length_app in *|].
          apply Forall_app in Hshcp as [? Hshcp]. apply Forall_cons in Hshcp as [_ ?].
          apply Forall_app. split; [done|]. by apply Forall_cons. }
        split.
        { right. unfold nkeys. simpl. rewrite !length_app in *. simpl in Hone. lia. }
        split.
        { eapply grows_trans; [done|]. by apply grows_child. }
        split; [|left; split; [done|]; split; [done|congruence]].
        rewrite inorder_window by done. rewrite Hin'.
        rewrite inorder_window2 by done. fold X Y. rewrite Hre2, <-Hinm.
        by rewrite without_window.
      * intros e s2 (_ & Hk & _). done.
Qed.

(** [remove]'s loop on a subtree. *)
Lemma remove_loop_spec n : remove_loop_ok n.
Proof.
  induction n as [n IH] using lt_wf_ind.
  intros fuel s [p ks cs] k lo Hfuel Hrep Hown Hsh Hkeys Hsorted Htri.
  destruct fuel as [|fuel]; [lia|]. rewrite remove_loop_unfold. cbn [addr_of].
  pose proof Hrep as (nd & ps & Hp & Hks & _)%rep_view.
  apply wp_bind. eapply wp_findIndex; [done|done|].
  apply wp_bind. eapply wp_key_matches; [done|done|].
  destruct (find_pos_spec k ks) as (ka & kb & Heq & Hlen_a & Hka & Hkb).
  assert (take (find_pos lessThan k ks) ks = ka) as Htake.
  { rewrite <-Hlen_a, Heq. apply take_app_length. }
  assert (drop (find_pos lessThan k ks) ks = kb) as Hdrop.
  { rewrite <-Hlen_a, Heq. apply drop_app_length. }
  destruct kb as [|w kb].
  - rewrite lookup_ge_None_2.
    2:{ rewrite <-Hlen_a, Heq, length_app. simpl. lia. }
    eapply remove_notfound; try done; [lia|by rewrite Htake|by left; rewrite Hdrop].
  - assert (ks !! find_pos lessThan k ks = Some w) as ->.
    { rewrite <-Hlen_a, Heq. by apply list_lookup_middle. }
    destruct Hkb as [?|(w' & Hw' & Hwk)]; [done|]. simpl in Hw'. simplify_eq.
    rewrite Hwk. simpl.
    destruct (lessThan k w') eqn:Hkw; simpl.
    + eapply remove_notfound; try done; [lia|by rewrite Htake|].
      right. exists w'. by rewrite Hdrop.
    + assert (w' = k) as ->.
      { assert (w' ∈ inorder (Node p (ka ++ w' :: kb) cs)) as Hin.
        { apply (elem_of_join_key (inorder <$> cs)).
          - apply shape_kids in Hsh as [->|?]; [by left|right]. by rewrite length_fmap.
          - apply elem_of_app. right. left. }
        eapply Forall_forall in Htri as [?|[Hc|Hc]]; [done| | |done];
          red in Hc; congruence. }
      rewrite <-Hlen_a.
      eapply remove_found; try done. lia.
Qed.

(** *** The public operations on well-formed states *)

Lemma sorted_filter (f : T → bool) (l : list T) :
  StronglySorted klt l → StronglySorted klt (List.filter f l).
Proof.
  induction 1 as [|a l Hs IH Ha]; simpl; [constructor|].
  destruct (f a); [|done]. constructor; [done|].
  apply Forall_forall. intros e He%list_elem_of_In.
  apply List.filter_In in He as [He _].
  eapply Forall_forall in Ha; [done|]. by apply list_elem_of_In.
Qed.

Lemma inorder_nonempty n lo tr : shape n lo tr → 1 ≤ nkeys tr → inorder tr ≠ [].
Proof.
  destruct tr as [p ks cs]. intros Hsh Hk Hnil. unfold nkeys in Hk. simpl in Hk.
  destruct ks as [|w ks]; [simpl in Hk; lia|].
  assert (w ∈ inorder (Node p (w :: ks) cs)) as Hin.
  { apply (elem_of_join_key (inorder <$> cs)); [|left].
    apply shape_kids in Hsh as [->|?]; [by left|right]. by rewrite length_fmap. }
  rewrite Hnil in Hin. by apply elem_of_nil in Hin.
Qed.

(** [remove] keeps a well-formed state well-formed, returns [k] when it is
    there and throws when it is not, and takes [k] out of the in-order
    sequence of keys. *)
Lemma remove_spec n s tr k fuel :
  wf_state lessThan minDegree n tr s → S n ≤ fuel →
  Forall (λ e, e = k ∨ klt e k ∨ klt k e) (inorder tr) →
  wp (remove lessThan minDegree fuel k) s
    (λ v s', v = k ∧ k ∈ inorder tr ∧
       ∃ n' tr', wf_state lessThan minDegree n' tr' s' ∧ n' ≤ n ∧
                 inorder tr' = without k (inorder tr))
    (λ e s', e = REMOVE_KEY_NOT_FOUND ∧ (k ∉ inorder tr) ∧
       ∃ n' tr', wf_state lessThan minDegree n' tr' s' ∧ n' ≤ n ∧
                 inorder tr' = without k (inorder tr)).
Proof.
  intros [Hroot Hrep Hown Hsh Hsorted] Hfuel Htri.
  unfold remove. apply wp_bind, wp_get_root. rewrite <-Hroot.
  assert (∀ s', removed k n (if n is 0 then 0 else 1) s tr s' →
    ∃ n' tr', wf_state lessThan minDegree n' tr' s' ∧ n' ≤ n ∧
              inorder tr' = without k (inorder tr)) as Hconv.
  { intros s' (n' & tr' & Hrep' & Hsh' & Hk' & Hgrows & Hin & Hd).
    exists n', tr'. split; [|split; [destruct Hd as [(-> & _)|(-> & _)]; lia|done]].
    split.
    - destruct Hd as [(_ & -> & ->)|(_ & _ & ->)]; done.
    - done.
    - by eapply grows_owns.
    - destruct tr' as [p' ks' cs']. destruct n' as [|n'].
      + eapply shape_weaken; [|done]. lia.
      + destruct Hk' as [?|Hk']; [done|]. by eapply shape_raise.
    - rewrite Hin. by apply sorted_filter. }
  eapply wp_mono.
  { eapply (remove_loop_spec n fuel s tr k); try done.
    destruct n; [by left|right]. by apply shape_nkeys in Hsh as [? _]. }
  - intros v s' (-> & Hk & Hrem). split; [done|]. split; [done|]. by apply Hconv.
  - intros e s' (-> & Hk & Hrem). split; [done|]. split; [done|]. by apply Hconv.
Qed.

(** The constructor makes a well-formed empty tree. *)
Lemma new_tree_wf : wf_state lessThan minDegree 0 (Node 1 [] []) (new_tree minDegree).
Proof.
  unfold new_tree, BTree_new, empty_heap. cbn.
  unfold bind, initializeNode, load, store, bind, set_leaf, load, store, bind. cbn.
  rewrite !lookup_insert_eq. cbn. rewrite !lookup_insert_eq. cbn.
  split; cbn.
  - done.
  - eapply rep_leaf_intro; [apply lookup_insert_eq|done| |done].
    split; cbn; by rewrite length_replicate.
  - split; cbn; [by apply NoDup_singleton|]. apply Forall_singleton. lia.
  - apply shape_0_intro; [cbn; lia|done].
  - constructor.
Qed.

Lemma filter_Permutation' (f : T → bool) (l l' : list T) :
  l ≡ₚ l' → List.filter f l ≡ₚ List.filter f l'.
Proof.
  induction 1 as [|x l l' _ IH|x y l|l l' l'' _ IH1 _ IH2]; simpl.
  - done.
  - destruct (f x); [by constructor|done].
  - destruct (f x), (f y); try done. apply perm_swap.
  - by etrans.
Qed.

(** A sequence of calls on keys that are pairwise comparable, in which no
    [Insert] brings a key that is already there, runs to its end and keeps
    the state well formed; the tree then holds the keys of the sequence. *)
Lemma run_calls_ok (U : list T) fuel :
  (∀ a b, a ∈ U → b ∈ U → a = b ∨ klt a b ∨ klt b a) →
  ∀ calls model s n tr,
  wf_state lessThan minDegree n tr s → inorder tr ≡ₚ model →
  (∀ e, e ∈ model → e ∈ U) → Forall (λ c, call_key c ∈ U) calls →
  fresh_inserts lessThan model calls → n + length calls < fuel →
  ∃ s' n' tr',
    run_calls lessThan minDegree fuel calls s = Ok tt s' ∧
    wf_state lessThan minDegree n' tr' s' ∧
    inorder tr' ≡ₚ foldl (keys_after lessThan) model calls ∧
    n' ≤ n + length calls.
Proof.
  intros Hcmp calls.
  induction calls as [|c calls IH]; intros model s n tr Hwf Hperm HU Hkeys Hfresh Hfuel.
  { exists s, n, tr. simpl. split_and!; try done. lia. }
  apply Forall_cons in Hkeys as [Hc Hkeys]. destruct Hfresh as [Hnew Hfresh].
  simpl in Hfuel.
  assert (∀ e, e ∈ inorder tr → e ∈ U) as HU'.
  { intros e He. apply HU. by rewrite <-Hperm. }
  destruct c as [k|k]; simpl in Hc, Hnew, Hfresh.
  - (* Insert k *)
    assert (Forall (λ e, klt e k ∨ klt k e) (inorder tr)) as Hdiff.
    { apply Forall_forall. intros e He.
      destruct (Hcmp e k) as [->|?]; [by apply HU'|done| |done].
      exfalso. apply Hnew. by rewrite <-Hperm. }
    pose proof (insert_spec n s tr k fuel (λ _ _, False) Hwf ltac:(lia) Hdiff) as Hins.
    unfold wp in Hins. simpl.
    destruct (insert lessThan minDegree fuel k s) as [[] s1|ex s1|f|] eqn:Hrun;
      [|done|done|done].
    destruct Hins as (n1 & tr1 & Hwf1 & Hn1 & l1 & l2 & Hl & Hl' & _).
    destruct (IH (k :: model) s1 n1 tr1) as (s' & n' & tr' & Hrun' & Hwf' & Hperm' & Hn');
      try done.
    + rewrite Hl', <-Hperm, Hl. by rewrite Permutation_middle.
    + intros e [->|He]%elem_of_cons; [done|by apply HU].
    + lia.
    + exists s', n', tr'. split_and!; try done. lia.
  - (* Remove k *)
    pose proof (remove_spec n s tr k fuel Hwf ltac:(lia)) as Hrem.
    unfold wp in Hrem. simpl. unfold bind at 1.
    assert (Forall (λ e, e = k ∨ klt e k ∨ klt k e) (inorder tr)) as Htri.
    { apply Forall_forall. intros e He. apply Hcmp; [by apply HU'|done]. }
    specialize (Hrem Htri).
    assert (∀ s1, (∃ n1 tr1, wf_state lessThan minDegree n1 tr1 s1 ∧ n1 ≤ n ∧
                     inorder tr1 = without k (inorder tr)) →
      ∃ s' n' tr',
        run_calls lessThan minDegree fuel calls s1 = Ok tt s' ∧
        wf_state lessThan minDegree n' tr' s' ∧
        inorder tr' ≡ₚ foldl (keys_after lessThan) (without k model) calls ∧
        n' ≤ n + S (length calls)) as Hnext.
    { intros s1 (n1 & tr1 & Hwf1 & Hn1 & Hin1).
      destruct (IH (without k model) s1 n1 tr1)
        as (s' & n' & tr' & Hrun' & Hwf' & Hperm' & Hn'); try done.
      - rewrite Hin1. by apply filter_Permutation'.
      - intros e He%list_elem_of_In. apply List.filter_In in He as [He _].
        apply HU. by apply list_elem_of_In.
      - lia.
      - exists s', n', tr'. split_and!; try done. lia. }
    destruct (remove lessThan minDegree fuel k s) as [v s1|e s1|f|] eqn:Hrun;
      [| |done|done].
    + destruct Hrem as (_ & _ & Hrem). simpl. by apply Hnext.
    + destruct Hrem as (_ & _ & Hrem). by apply Hnext.
Qed.

(** One turn of [insert]'s descent, by index: the child is split when it
    is full and the index moves past the key brought up exactly when that
    key is less than [k]. *)
Lemma pick_child_index n s p ks cs k lo E :
  let tr := Node p ks cs in
  rep (S n) (heap s) tr → owns s tr → shape (S n) lo tr →
  length ks < 2 * minDegree - 1 →
  StronglySorted klt (inorder tr) →
  wp (insert_pick_child lessThan minDegree p k) s (λ j s',
    j = pick_index lessThan minDegree k tr ∧ root s' = root s ∧
    rep (S n) (heap s') (pick_split lessThan minDegree k (brk s) tr)) E.
Proof.
  intros tr Hrep Hown Hsh Hlt Hsorted.
  pose proof Hrep as (ndx & psx & Hx & Hksx & Hpsx & Hcx & Hlfx & _ & -> & Hcs)%rep_node.
  apply shape_S_inv in Hsh as (Hlo & Hlen & Hshc).
  destruct (ins_pos_spec k ks) as (ks1 & ks2 & -> & Hlen1 & H2 & H1).
  destruct (lookup_lt_is_Some_2 cs (length ks1)) as [a Ha].
  { rewrite Hlen, length_app. lia. }
  pose proof Ha as Ha'.
  apply list_elem_of_split_length in Ha as (cs1 & cs2 & -> & Hl1). symmetry in Hl1.
  subst tr. unfold pick_index, pick_split. rewrite <-Hlen1, Ha'.
  rewrite inorder_window in Hsorted by done.
  unfold insert_pick_child.
  apply wp_bind. eapply wp_get_size; [done|].
  apply wp_bind. eapply wp_insert_scan; [done|done|by destruct Hksx as [-> _]|].
  destruct Hksx as [Hszx Hksx]. rewrite Hszx, <-Hlen1.
  apply wp_bind. eapply wp_get_child; [done| |].
  { apply Hpsx. rewrite fmap_app, fmap_cons.
    apply list_lookup_middle. by rewrite length_fmap. }
  apply Forall_app in Hcs as [Hcs1 Hcs]. apply Forall_cons in Hcs as [Hrepa Hcs2].
  apply Forall_app in Hshc as [Hsh1 Hshc]. apply Forall_cons in Hshc as [Hsha Hsh2].
  destruct a as [y ksy csy].
  pose proof Hrepa as (ndy & psy & Hy & Hksy & Hpsy & Hcy & Hlfy & _ & Hkidsy)%rep_node.
  apply wp_bind. eapply wp_get_size; [done|]. destruct Hksy as [Hszy Hksy].
  rewrite Hszy. unfold nkeys. cbn [addr_of keys_of].
  destruct (decide (length ksy = 2 * minDegree - 1)) as [Hfull|Hfull].
  - destruct (lookup_lt_is_Some_2 ksy (minDegree - 1)) as [m Hm]; [lia|].
    rewrite Hm.
    pose proof (inorder_split_node n y ksy csy (brk s) m Hsha Hm) as Hiny.
    assert (m ∈ inorder (Node y ksy csy)) as Hmin.
    { rewrite Hiny. apply elem_of_app. right. left. }
    pose proof Hsorted as Hs.
    apply StronglySorted_app in Hs as (HLA & _ & Hs).
    apply StronglySorted_app in Hs as (HAR & _ & _).
    assert (ins_pos lessThan m (ks1 ++ ks2) (length (ks1 ++ ks2)) = length ks1)
      as Hpos.
    { apply ins_pos_app.
      - apply Forall_forall. intros v Hv. apply HAR; [done|].
        apply elem_of_rpart; [|done]. rewrite length_fmap.
        rewrite !length_app in Hlen. simpl in Hlen. lia.
      - destruct ks1 as [|w ks1 _] using rev_ind; [by left|right].
        exists w. rewrite last_snoc. split; [done|]. apply klt_asym. apply HLA.
        + apply elem_of_lpart; [by rewrite length_fmap|].
          apply elem_of_app. right. left.
        + apply elem_of_app. by left. }
    apply wp_bind. eapply wp_post.
    { eapply split_tree; try done; [apply Hown|apply Hown]. }
    intros _ s' (Hroot & Hbrk & Hrep' & Hfr).
    pose proof Hrep' as (ndx' & ? & Hx' & Hksx' & _)%rep_node.
    apply wp_bind. eapply wp_get_key; [done| |].
    { apply Hksx'. by apply list_lookup_middle. }
    assert (split_at minDegree (length ks1) (brk s)
              (Node p (ks1 ++ ks2) (cs1 ++ Node y ksy csy :: cs2)) =
            Node p (ks1 ++ m :: ks2)
              (cs1 ++ Node y (take (minDegree - 1) ksy) (take minDegree csy) ::
                 Node (brk s) (drop minDegree ksy) (drop minDegree csy) :: cs2))
      as ->.
    { unfold split_at. rewrite Ha', Hm.
      rewrite take_app_length, drop_app_length, take_app_length' by done.
      by rewrite drop_S_middle by done. }
    destruct (lessThan m k); by apply wp_ret.
  - by apply wp_ret.
Qed.

(** Sequences that insert a list of keys and then remove keys. *)
Lemma fresh_inserts_removes (model l' : list T) :
  fresh_inserts lessThan model (Remove <$> l').
Proof. revert model. induction l' as [|a l' IH]; intros model; simpl; auto. Qed.

Lemma fresh_inserts_then_removes (l l' model : list T) :
  NoDup l → (∀ e, e ∈ l → e ∉ model) →
  fresh_inserts lessThan model ((Insert <$> l) ++ (Remove <$> l')).
Proof.
  revert model. induction l as [|a l IH]; intros model Hnd Hnew.
  - apply fresh_inserts_removes.
  - apply NoDup_cons in Hnd as [Ha Hnd]. simpl. split.
    + apply Hnew. left.
    + apply IH; [done|]. intros e He [->|Hin]%elem_of_cons; [done|].
      apply (Hnew e); [by right|done].
Qed.

Lemma foldl_inserts (l model : list T) :
  foldl (keys_after lessThan) model (Insert <$> l) = reverse l ++ model.
Proof.
  revert model. induction l as [|a l IH]; intros model; [done|].
  simpl. rewrite IH, reverse_cons, <-app_assoc. done.
Qed.

Lemma foldl_removes_nil (l' model : list T) :
  (∀ e, e ∈ model → e ∈ l') →
  foldl (keys_after lessThan) model (Remove <$> l') = [].
Proof.
  revert model. induction l' as [|a l' IH]; intros model Hin.
  - destruct model as [|e model]; [done|].
    specialize (Hin e). rewrite elem_of_nil in Hin. destruct Hin. left.
  - simpl. apply IH. intros e He.
    apply list_elem_of_In, List.filter_In in He as [He Hd].
    apply list_elem_of_In, Hin, elem_of_cons in He as [->|He]; [|done].
    unfold differs in Hd. by rewrite lessThan_irrefl in Hd.
Qed.

(** *** Searching *)

Lemma rep_kids n h p ks cs :
  rep n h (Node p ks cs) → cs = [] ∨ length cs = S (length ks).
Proof.
  intros (nd & ps & _ & [Hsz _] & [Hlen _] & _ & _ & H0 & Hn & _)%rep_view.
  destruct n as [|n]; [left; by apply H0|right].
  rewrite Hn, length_fmap in Hlen by done. lia.
Qed.

Lemma matches_lt_l k w : klt w k → matches lessThan k w = false.
Proof. unfold matches. by intros ->. Qed.

Lemma matches_lt_r k w : klt k w → matches lessThan k w = false.
Proof. unfold matches. intros ->. by rewrite orb_true_r. Qed.

(** [search]'s loop on a strictly ordered tree: it changes nothing and
    either reports absence, and then no key of the tree matches, or returns
    the place of a key of the tree that matches. *)
Lemma search_loop_spec fuel : ∀ n s tr k E,
  n < fuel → rep n (heap s) tr → StronglySorted klt (inorder tr) →
  wp (search_loop lessThan fuel (addr_of tr) k) s
    (λ res s', s' = s ∧ search_result lessThan k s tr res) E.
Proof.
  induction fuel as [|fuel IH]; intros n s [p ks cs] k E Hfuel Hrep Hsorted; [lia|].
  simpl search_loop. cbn [addr_of].
  pose proof (rep_kids _ _ _ _ _ Hrep) as Hkids.
  pose proof Hrep as (nd & ps & Hp & Hks & Hps & Hc & Hlf & H0 & Hn & Hcs)%rep_view.
  apply wp_bind. eapply wp_findIndex; [done|done|].
  destruct (find_pos_spec k ks) as (ks1 & ks2 & -> & Hlen & H1 & H2).
  rewrite <-Hlen.
  apply wp_bind. eapply wp_get_size; [done|]. destruct Hks as [Hsz Hkeys].
  rewrite Hsz, length_app.
  assert ((ks2 = [] ∨ ∃ w, head ks2 = Some w ∧ klt k w) →
          wp (let! lf := get_leaf p in
              if lf then ret (NULL, 0)
              else let! c := get_child p (length ks1) in
                   search_loop lessThan fuel c k) s
            (λ res s', s' = s ∧
               search_result lessThan k s (Node p (ks1 ++ ks2) cs) res) E) as Hmiss.
  { intros Hafter.
    apply wp_bind. eapply wp_get_leaf; [done|]. rewrite Hlf.
    destruct n as [|n].
    - rewrite bool_decide_eq_true_2 by done. apply wp_ret. split; [done|]. left.
      split; [done|]. rewrite (H0 eq_refl) in *. simpl.
      apply Forall_app. split.
      + eapply Forall_impl; [exact H1|]. intros w Hw. by apply matches_lt_l.
      + eapply Forall_impl; [by eapply (sorted_head_bound ks1 ks2 k)|].
        intros w Hw. by apply matches_lt_r.
    - rewrite bool_decide_eq_false_2 by done.
      destruct Hkids as [->|Hlenc]; [by specialize (Hn ltac:(done)); subst; destruct Hps|].
      rewrite Nat.sub_succ, Nat.sub_0_r in Hcs.
      destruct (lookup_lt_is_Some_2 cs (length ks1)) as [a Ha].
      { rewrite Hlenc, length_app. lia. }
      pose proof Ha as Ha'.
      apply list_elem_of_split_length in Ha as (cs1 & cs2 & -> & Hl1). symmetry in Hl1.
      rewrite Hn in Hps by done.
      apply wp_bind. eapply wp_get_child; [done| |].
      { apply Hps. by rewrite list_lookup_fmap, Ha'. }
      apply Forall_app in Hcs as [_ Hcs]. apply Forall_cons in Hcs as [Hrepa _].
      rewrite inorder_window in Hsorted by done.
      destruct (window_bounds (inorder <$> cs1) (inorder <$> cs2) ks1 ks2
        (inorder a) k) as [HL HR]; try done.
      { by rewrite length_fmap. }
      { rewrite length_fmap. rewrite !length_app in Hlenc. simpl in Hlenc. lia. }
      { by apply Forall_last_bound. }
      eapply wp_post.
      { eapply (IH n s a k E); [lia|done|].
        by apply StronglySorted_app_1_r, StronglySorted_app_1_l in Hsorted. }
      intros res s' [-> Hres]. split; [done|].
      destruct Hres as [[-> Hnone]|(nd' & w & Hin & Hnd' & Hlt & Hw & Hwin & Hm)].
      + left. split; [done|]. rewrite inorder_window by done.
        apply Forall_app. split; [|apply Forall_app; split; [done|]].
        * eapply Forall_impl; [exact HL|]. intros w Hw. by apply matches_lt_l.
        * eapply Forall_impl; [exact HR|]. intros w Hw. by apply matches_lt_r.
      + right. exists nd', w. split_and!; try done.
        * rewrite addrs_window. right. apply elem_of_app. right.
          apply elem_of_app. by left.
        * rewrite inorder_window by done. apply elem_of_app. right.
          apply elem_of_app. by left. }
  destruct ks2 as [|w ks2].
  - rewrite decide_False by (simpl; lia). apply wp_bind, wp_ret.
    apply Hmiss. by left.
  - rewrite decide_True by (simpl; lia).
    apply wp_bind. apply wp_bind. eapply wp_get_key; [done| |].
    { apply Hkeys. by apply list_lookup_middle. }
    apply wp_ret.
    destruct H2 as [?|(w' & [= <-] & Hwk)]; [done|].
    destruct (lessThan k w) eqn:Hkw.
    + simpl. apply Hmiss. right. by exists w.
    + rewrite Hwk. simpl. apply wp_ret. split; [done|]. right. exists nd, w.
      simpl. split; [by left|]. split; [done|].
      split; [rewrite Hsz, length_app; simpl; lia|].
      split; [apply Hkeys; by apply list_lookup_middle|].
      split; [|unfold matches; by rewrite Hkw, Hwk].
      apply (elem_of_join_key (inorder <$> cs)).
      * destruct Hkids as [->|?]; [by left|right]. by rewrite length_fmap.
      * apply elem_of_app. right. left.
Qed.

(** *** Keys in a strictly ordered list *)

Lemma sorted_elem_split (l : list T) k :
  StronglySorted klt l → k ∈ l →
  ∃ l1 l2, l = l1 ++ k :: l2 ∧ Forall (λ e, klt e k) l1 ∧ Forall (klt k) l2.
Proof.
  intros Hs (l1 & l2 & ->)%list_elem_of_split. exists l1, l2. split; [done|].
  apply StronglySorted_app in Hs as (Hlt & _ & Hs). split.
  - apply Forall_forall. intros e He. apply Hlt; [done|left].
  - by apply StronglySorted_cons in Hs as [? _].
Qed.

Lemma without_present (l1 l2 : list T) k :
  Forall (λ e, klt e k) l1 → Forall (klt k) l2 →
  without k (l1 ++ k :: l2) = l1 ++ l2.
Proof.
  intros H1 H2. change (l1 ++ k :: l2) with (l1 ++ [k] ++ l2).
  rewrite (without_window k l1 [k] l2) by done.
  unfold without, differs. simpl. by rewrite lessThan_irrefl.
Qed.

Lemma zip_cons_perm ks : ∀ (cs : list (list T)),
  length cs = length ks → mjoin (zip_with cons ks cs) ≡ₚ ks ++ mjoin cs.
Proof.
  induction ks as [|k ks IH]; intros [|c cs] Hlen; simplify_eq/=; [done|].
  rewrite IH by done. constructor. apply Permutation_app_swap_app.
Qed.

Lemma join_perm (cs : list (list T)) ks :
  cs = [] ∨ length cs = S (length ks) → join cs ks ≡ₚ ks ++ mjoin cs.
Proof.
  intros [->|Hlen]; [by rewrite app_nil_r|].
  destruct cs as [|c cs]; [done|]. simpl.
  rewrite zip_cons_perm by (simpl in Hlen; lia). apply Permutation_app_swap_app.
Qed.

(** The number of keys of a tree grows with its height. *)
Lemma join_length (cs : list (list T)) ks :
  cs = [] ∨ length cs = S (length ks) →
  length (join cs ks) = length ks + length (mjoin cs).
Proof. intros Hcs. by rewrite (join_perm cs ks Hcs), length_app. Qed.

Lemma kids_size (cs : list tree) d :
  Forall (λ c, d ≤ S (length (inorder c))) cs →
  length cs * d ≤ length cs + length (mjoin (inorder <$> cs)).
Proof.
  induction 1 as [|c cs Hc _ IH]; [done|].
  rewrite fmap_cons. simpl. rewrite length_app. lia.
Qed.

Lemma shape_size n : ∀ tr,
  shape n (minDegree - 1) tr → minDegree ^ S n ≤ S (length (inorder tr)).
Proof.
  induction n as [|n IH]; intros [p ks cs] Hsh.
  - apply shape_0_inv in Hsh as [Hk ->]. simpl. lia.
  - pose proof (shape_kids _ _ _ _ _ Hsh) as Hkids.
    apply shape_S_inv in Hsh as (Hk & Hlen & Hcs).
    change (inorder (Node p ks cs)) with (join (inorder <$> cs) ks).
    rewrite join_length by (right; by rewrite length_fmap).
    assert (length cs * minDegree ^ S n ≤
            length cs + length (mjoin (inorder <$> cs))) as Hsum.
    { apply kids_size. eapply Forall_impl; [exact Hcs|]. intros c Hc. by apply IH. }
    change (minDegree ^ S (S n)) with (minDegree * minDegree ^ S n).
    assert (minDegree * minDegree ^ S n ≤ length cs * minDegree ^ S n)
      by (apply Nat.mul_le_mono_r; lia).
    lia.
Qed.

Lemma root_size n tr :
  shape (S n) 1 tr → 2 * minDegree ^ S n ≤ S (length (inorder tr)).
Proof.
  destruct tr as [p ks cs]. intros Hsh.
  apply shape_S_inv in Hsh as (Hk & Hlen & Hcs).
  change (inorder (Node p ks cs)) with (join (inorder <$> cs) ks).
  rewrite join_length by (right; by rewrite length_fmap).
  assert (length cs * minDegree ^ S n ≤
          length cs + length (mjoin (inorder <$> cs))) as Hsum.
  { apply kids_size. eapply Forall_impl; [exact Hcs|]. intros c Hc.
    by apply shape_size. }
  assert (2 * minDegree ^ S n ≤ length cs * minDegree ^ S n)
    by (apply Nat.mul_le_mono_r; lia).
  lia.
Qed.

(** *** The tree behind a pointer, teardown and printing *)

Lemma rep_in_heap n : ∀ h tr q, rep n h tr → q ∈ addrs tr → is_Some (h !! q).
Proof.
  induction n as [|n IH]; intros h [p ks cs] q Hrep Hq.
  - apply rep_0_inv in Hrep as (nd & Hp & _ & _ & _ & ->).
    simpl in Hq. apply list_elem_of_singleton in Hq as ->. by rewrite Hp.
  - apply rep_S_inv in Hrep as (nd & Hp & _ & _ & _ & _ & Hcs).
    simpl in Hq. apply elem_of_cons in Hq as [->|Hq]; [by rewrite Hp|].
    apply list_elem_of_bind in Hq as (c & Hq & Hc).
    eapply IH; [|done]. by eapply Forall_forall in Hcs.
Qed.

Lemma keys_are_take nd ks : keys_are nd ks → take (size nd) (key nd) = Some <$> ks.
Proof.
  intros [Hsz Hks]. apply list_eq. intros i.
  rewrite lookup_take, list_lookup_fmap, Hsz.
  destruct (ks !! i) as [v|] eqn:Hv; simpl.
  - rewrite decide_True by (by eapply lookup_lt_Some). by apply Hks.
  - apply lookup_ge_None in Hv. by rewrite decide_False by lia.
Qed.

Lemma kids_are_take_eq nd ps : kids_are nd ps → take (S (size nd)) (child nd) = ps.
Proof.
  intros [Hlen Hps]. apply list_eq. intros i.
  rewrite lookup_take, <-Hlen.
  destruct (ps !! i) as [c|] eqn:Hc.
  - rewrite decide_True by (by eapply lookup_lt_Some). by apply Hps.
  - apply lookup_ge_None in Hc. by rewrite decide_False by lia.
Qed.

(** A tree held by the heap is the tree that its top pointer denotes. *)
Lemma rep_tree_of n : ∀ fuel h tr,
  n < fuel → rep n h tr → tree_of fuel h (addr_of tr) = Some tr.
Proof.
  induction n as [|n IH]; intros fuel h [p ks cs] Hfuel Hrep;
    (destruct fuel as [|fuel]; [lia|]); simpl.
  - apply rep_0_inv in Hrep as (nd & Hp & Hks & _ & Hlf & ->).
    rewrite Hp. simpl. rewrite (keys_are_take _ _ Hks).
    rewrite (mapM_fmap_Some id Some) by done. simpl.
    destruct Hks as [Hsz _]. rewrite decide_True by done. by rewrite Hlf.
  - apply rep_S_inv in Hrep as (nd & Hp & Hks & _ & Hlf & Hps & Hcs).
    rewrite Hp. simpl. rewrite (keys_are_take _ _ Hks).
    rewrite (mapM_fmap_Some id Some) by done. simpl.
    pose proof Hps as [Hlen _]. rewrite length_fmap in Hlen.
    destruct Hks as [Hsz _]. rewrite decide_True by done. rewrite Hlf.
    rewrite (kids_are_take_eq _ _ Hps).
    assert (mapM (tree_of fuel h) (addr_of <$> cs) = Some cs) as ->.
    { apply mapM_fmap_Forall_Some.
      eapply Forall_impl; [exact Hcs|]. intros c Hc. apply IH; [lia|done]. }
    simpl. by rewrite decide_True by done.
Qed.

Local Arguments for_range : simpl never.

(** [freeNode] on a tree held by the heap frees the nodes of the tree and
    touches nothing else. *)
Lemma freeNode_spec n : ∀ fuel s tr E,
  n ≤ fuel → rep n (heap s) tr → NoDup (addrs tr) →
  wp (freeNode fuel (addr_of tr)) s (λ _ s',
    root s' = root s ∧ brk s' = brk s ∧
    ∀ q, heap s' !! q = if decide (q ∈ addrs tr) then None else heap s !! q) E.
Proof.
  induction n as [|n IH]; intros fuel s [p ks cs] E Hfuel Hrep Hnd.
  - apply rep_0_inv in Hrep as (nd & Hp & _ & _ & Hlf & ->).
    destruct fuel; simpl; (apply wp_bind; eapply wp_get_leaf; [done|]);
      rewrite Hlf; simpl; apply wp_bind, wp_ret; (eapply wp_free; [done|]);
      (split; [done|]); (split; [done|]); intros q; simpl;
      (destruct (decide (q = p)) as [->|Hne];
        [rewrite lookup_delete_eq, decide_True by (by left); done
        |rewrite lookup_delete_ne, decide_False
           by (done || (rewrite list_elem_of_singleton; done)); done]).
  - destruct fuel as [|fuel]; [lia|].
    apply rep_S_inv in Hrep as (nd & Hp & [Hsz _] & _ & Hlf & Hps & Hcs).
    pose proof Hps as [Hlen Hkids]. rewrite length_fmap in Hlen.
    simpl in Hnd. apply NoDup_cons in Hnd as [Hpn Hnd].
    simpl freeNode. cbn [addr_of].
    apply wp_bind. eapply wp_get_leaf; [done|]. rewrite Hlf. cbn [negb].
    apply wp_bind. apply wp_bind. eapply wp_get_size; [done|].
    eapply wp_post.
    { apply (wp_for_range (λ j s1,
        root s1 = root s ∧ brk s1 = brk s ∧
        ∀ q, heap s1 !! q =
             if decide (q ∈ take j cs ≫= addrs) then None else heap s !! q)).
      - split; [done|]. split; [done|]. intros q. by rewrite take_0.
      - intros j s1 Hj (Hroot1 & Hbrk1 & Hheap1).
        destruct (lookup_lt_is_Some_2 cs j) as [c Hc]; [lia|].
        pose proof Hc as Hc'.
        apply list_elem_of_split_length in Hc' as (cs1 & cs2 & Hcs' & Hl1).
        rewrite Hcs' in Hnd. rewrite bind_app, bind_cons in Hnd.
        apply NoDup_app in Hnd as (_ & Hd1 & Hnd).
        apply NoDup_app in Hnd as (Hndc & _ & _).
        assert (take j cs = cs1) as Htake.
        { rewrite Hcs', Hl1. by rewrite take_app_length. }
        assert (heap s1 !! p = Some nd) as Hp1.
        { rewrite Hheap1, decide_False; [done|]. intros Hin. apply Hpn.
          apply list_elem_of_bind in Hin as (c' & Hq & Hc'in).
          apply list_elem_of_bind. exists c'. split; [done|].
          apply elem_of_take in Hc'in as (i' & Hi' & _). by eapply list_elem_of_lookup_2. }
        apply wp_bind. eapply wp_get_child; [done| |].
        { apply Hkids. by rewrite list_lookup_fmap, Hc. }
        eapply wp_post.
        { apply (IH fuel s1 c E); [lia| |done].
          eapply rep_frame; [|by eapply Forall_lookup in Hcs].
          intros q Hq. rewrite Hheap1, decide_False; [done|].
          rewrite Htake. intros Hin. apply (Hd1 q Hin). apply elem_of_app. by left. }
        intros _ s2 (Hroot2 & Hbrk2 & Hheap2).
        split; [congruence|]. split; [congruence|]. intros q.
        rewrite Hheap2, Hheap1, (take_S_r _ _ _ Hc), bind_app. simpl.
        rewrite app_nil_r.
        destruct (decide (q ∈ addrs c)) as [Hq1|Hq1],
                 (decide (q ∈ take j cs ≫= addrs)) as [Hq2|Hq2];
          first [by rewrite decide_True by (rewrite elem_of_app; tauto)
                |by rewrite decide_False by (rewrite elem_of_app; tauto)]. }
    intros _ s1 (Hroot1 & Hbrk1 & Hheap1). simpl in Hheap1.
    rewrite <-Hlen, firstn_all in Hheap1.
    eapply wp_free.
    { rewrite Hheap1, decide_False; done. }
    split; [done|]. split; [done|]. intros q. simpl.
    destruct (decide (q = p)) as [->|Hne].
    + rewrite lookup_delete_eq, decide_True by (by left). done.
    + rewrite lookup_delete_ne, Hheap1 by done.
      destruct (decide (q ∈ cs ≫= addrs)) as [Hq1|Hq1];
        first [by rewrite decide_True by (rewrite elem_of_cons; tauto)
              |by rewrite decide_False by (rewrite elem_of_cons; tauto)].
Qed.

Lemma bind_seq_lookup {A B} (l : list A) (g : A → list B) :
  seq 0 (length l) ≫= (λ j, from_option g [] (l !! j)) = l ≫= g.
Proof.
  induction l as [|a l IH]; [done|].
  cbn [length seq]. rewrite !bind_cons. cbn [lookup list_lookup from_option].
  f_equal. rewrite <-IH, <-fmap_S_seq.
  generalize (seq 0 (length l)). intros js.
  induction js as [|j js IHjs]; [done|].
  rewrite fmap_cons, !bind_cons. by rewrite IHjs.
Qed.

Lemma wp_for_out (f : nat → list out) count (body : nat → M (list out)) s E :
  ∀ from,
  (∀ j, from ≤ j < from + count →
     wp (body j) s (λ o s', s' = s ∧ o = f j) E) →
  wp (for_out from count body) s (λ o s', s' = s ∧ o = seq from count ≫= f) E.
Proof.
  induction count as [|c IH]; intros from Hbody; simpl.
  - by apply wp_ret.
  - apply wp_bind. eapply wp_post; [apply Hbody; lia|].
    intros o s' [-> ->]. apply wp_bind. eapply wp_post.
    + apply (IH (S from)). intros j Hj. apply Hbody. lia.
    + intros os s' [-> ->]. by apply wp_ret.
Qed.

Local Arguments for_out : simpl never.

(** [printNode] on a tree held by the heap changes nothing and prints the
    lines of [layout]. *)
Lemma printNode_spec n : ∀ fuel s tr tab E,
  n ≤ fuel → rep n (heap s) tr →
  wp (printNode fuel (addr_of tr) tab) s (λ o s', s' = s ∧ o = layout tab tr) E.
Proof.
  induction n as [|n IH]; intros fuel s [p ks cs] tab E Hfuel Hrep.
  - apply rep_0_inv in Hrep as (nd & Hp & [Hsz Hks] & _ & Hlf & ->).
    assert (wp (for_out 0 (size nd) (λ i,
              let! kv := get_key p i in ret [PrintKey kv; Printf SPACE])) s
              (λ o s', s' = s ∧ o = ks ≫= λ k, [PrintKey k; Printf SPACE]) E)
      as Hline.
    { eapply wp_post.
      - apply (wp_for_out (λ j, from_option (λ k, [PrintKey k; Printf SPACE]) []
                                  (ks !! j))).
        intros j Hj. destruct (lookup_lt_is_Some_2 ks j) as [v Hv]; [lia|].
        apply wp_bind. eapply wp_get_key; [done|by apply Hks|].
        apply wp_ret. by rewrite Hv.
      - intros o s' [-> ->]. split; [done|]. rewrite Hsz. apply bind_seq_lookup. }
    destruct fuel; simpl; cbv zeta;
      (apply wp_bind; eapply wp_get_size; [done|]);
      (apply wp_bind; eapply wp_post; [exact Hline|]); intros o s' [-> ->];
      (apply wp_bind; eapply wp_get_leaf; [done|]); rewrite Hlf; simpl;
      by apply wp_bind, wp_ret, wp_ret.
  - destruct fuel as [|fuel]; [lia|].
    apply rep_S_inv in Hrep as (nd & Hp & [Hsz Hks] & _ & Hlf & [Hlen Hkids] & Hcs).
    rewrite length_fmap in Hlen.
    simpl printNode. cbn [addr_of]. cbv zeta.
    apply wp_bind. eapply wp_get_size; [done|].
    apply wp_bind. eapply wp_post.
    { apply (wp_for_out (λ j, from_option (λ k, [PrintKey k; Printf SPACE]) []
                                (ks !! j))).
      intros j Hj. destruct (lookup_lt_is_Some_2 ks j) as [v Hv]; [lia|].
      apply wp_bind. eapply wp_get_key; [done|by apply Hks|].
      apply wp_ret. by rewrite Hv. }
    intros o s' [-> ->]. rewrite Hsz, bind_seq_lookup.
    apply wp_bind. eapply wp_get_leaf; [done|]. rewrite Hlf. cbn [negb].
    apply wp_bind. apply wp_bind. eapply wp_get_size; [done|].
    eapply wp_post.
    { apply (wp_for_out (λ j, from_option (layout (S tab)) [] (cs !! j))).
      intros j Hj. destruct (lookup_lt_is_Some_2 cs j) as [c Hc]; [lia|].
      apply wp_bind. eapply wp_get_child; [done| |].
      { apply Hkids. by rewrite list_lookup_fmap, Hc. }
      eapply wp_post.
      - apply (IH fuel s c (S tab) E); [lia|]. by eapply Forall_lookup in Hcs.
      - intros o s' [-> ->]. by rewrite Hc. }
    intros o s' [-> ->]. apply wp_ret. split; [done|].
    rewrite <-Hlen, bind_seq_lookup. done.
Qed.

(** The keys among the printed lines are the keys of the tree. *)
Lemma out_keys_app (o1 o2 : list (@out T)) :
  out_keys (o1 ++ o2) = out_keys o1 ++ out_keys o2.
Proof. apply omap_app. Qed.

Lemma out_keys_node tab p ks cs :
  out_keys (layout tab (Node p ks cs)) = ks ++ out_keys (cs ≫= layout (S tab)).
Proof.
  change (layout tab (Node p ks cs)) with
    (replicate tab (Printf TAB) ++ (ks ≫= λ k, [PrintKey k; Printf SPACE]) ++
     [Printf NEWLINE] ++ (cs ≫= layout (S tab))).
  rewrite !out_keys_app.
  assert (out_keys (replicate tab (Printf TAB)) = @nil T) as ->
    by (induction tab; [done|by simpl]).
  assert (out_keys (ks ≫= λ k, [PrintKey k; Printf SPACE]) = ks) as ->.
  { induction ks as [|k ks IHks]; [done|].
    rewrite bind_cons, out_keys_app, IHks. done. }
  done.
Qed.

Lemma out_keys_layout n : ∀ h tr tab,
  rep n h tr → out_keys (layout tab tr) ≡ₚ inorder tr.
Proof.
  induction n as [|n IH]; intros h [p ks cs] tab Hrep;
    pose proof (rep_kids _ _ _ _ _ Hrep) as Hkids; rewrite out_keys_node.
  - apply rep_0_inv in Hrep as (_ & _ & _ & _ & _ & ->). simpl.
    by rewrite app_nil_r.
  - apply rep_S_inv in Hrep as (_ & _ & _ & _ & _ & _ & Hcs).
    change (inorder (Node p ks cs)) with (join (inorder <$> cs) ks).
    rewrite join_perm by (destruct Hkids as [->|?]; [by left|right; by rewrite length_fmap]).
    apply Permutation_app_head.
    clear Hkids. induction Hcs as [|c cs Hc _ IHcs]; [done|].
    rewrite bind_cons, out_keys_app, fmap_cons. simpl.
    by rewrite IHcs, (IH _ _ _ Hc).
Qed.

End TreeFacts.

(** ** The tests for [shape] and [rep] are sound *)

Section Checks.

Context {T : Type} `{EqDecision T} (minDegree : nat).

Lemma shape_check_sound n lo (tr : @tree T) :
  shape_check minDegree n lo tr = true → shape minDegree n lo tr.
Proof.
  revert lo tr. induction n as [|n IH]; intros lo [p ks cs]; simpl;
    rewrite ?andb_true_iff, ?bool_decide_eq_true.
  - intros [Hk Hcs]. split; [done|]. by destruct cs.
  - intros (Hk & Hlen & Hall). split; [done|]. split; [done|].
    apply Forall_forall. intros c Hc. apply IH.
    rewrite forallb_forall in Hall. by apply Hall, list_elem_of_In.
Qed.

Lemma rep_check_sound n h (tr : @tree T) :
  rep_check minDegree n h tr = true → rep minDegree n h tr.
Proof.
  revert tr. induction n as [|n IH]; intros [p ks cs]; simpl;
    destruct (h !! p) as [nd|]; try done;
    rewrite ?andb_true_iff, ?bool_decide_eq_true, ?negb_true_iff.
  - intros ((((Hsz & Hks) & Hcapk) & Hcapc) & Hlf & Hcs).
    exists nd. split; [done|]. split; [|split; [done|]].
    + split; [done|]. intros i v Hv.
      rewrite <-(lookup_take_lt (key nd) (length ks)), Hks, list_lookup_fmap, Hv;
        [done|by eapply lookup_lt_Some].
    + split; [done|]. by destruct cs.
  - intros ((((Hsz & Hks) & Hcapk) & Hcapc) & ((Hlf & Hlen) & Hps) & Hall).
    exists nd. split; [done|]. split; [|split; [done|]].
    + split; [done|]. intros i v Hv.
      rewrite <-(lookup_take_lt (key nd) (length ks)), Hks, list_lookup_fmap, Hv;
        [done|by eapply lookup_lt_Some].
    + split; [done|]. split.
      * split; [rewrite length_fmap; lia|]. intros i c Hc.
        rewrite <-(lookup_take_lt (child nd) (length cs)), Hps; [done|].
        apply lookup_lt_Some in Hc. by rewrite length_fmap in Hc.
      * apply Forall_forall. intros c Hc. apply IH.
        rewrite forallb_forall in Hall. by apply Hall, list_elem_of_In.
Qed.

Lemma keys_are_intro (nd : @BNode T) ks :
  size nd = length ks → take (length ks) (key nd) = Some <$> ks → keys_are nd ks.
Proof.
  intros Hsz Hks. split; [done|]. intros i v Hv.
  rewrite <-(lookup_take_lt (key nd) (length ks)), Hks, list_lookup_fmap, Hv;
    [done|by eapply lookup_lt_Some].
Qed.

Lemma kids_are_intro (nd : @BNode T) ps :
  length ps = S (size nd) → take (length ps) (child nd) = ps → kids_are nd ps.
Proof.
  intros Hlen Hps. split; [done|]. intros i c Hc.
  rewrite <-(lookup_take_lt (child nd) (length ps)), Hps; [done|].
  by eapply lookup_lt_Some.
Qed.

End Checks.

(** ** Which exceptions the operations throw *)

Section Exceptions.

Context {T : Type} (lessThan : T → T → bool) (minDegree : nat).
Local Abbreviation M := (@M T).

Lemma throws_only_bind {A B} e (m : M A) (f : A → M B) :
  throws_only e m → (∀ a, throws_only e (f a)) → throws_only e (bind m f).
Proof.
  intros Hm Hf s e' s'. unfold bind. destruct (m s) as [a s1|e1 s1| |] eqn:Hms;
    try done.
  - apply Hf.
  - intros [= <- <-]. by eapply Hm.
Qed.

(** A computation whose exceptions are all equal to any given one throws
    none. *)
Lemma throws_nothing {A} (m : M A) s e s' :
  (∀ e0, throws_only e0 m) → m s ≠ Throw e s'.
Proof.
  intros Hm Hthrow.
  pose proof (Hm SEARCH_KEY_NOT_FOUND s e s' Hthrow) as H1.
  pose proof (Hm REMOVE_KEY_NOT_FOUND s e s' Hthrow) as H2.
  by rewrite H1 in H2.
Qed.

Lemma throws_only_ret {A} e (a : A) : throws_only e (ret a : M A).
Proof. by intros s e' s'. Qed.
Lemma throws_only_throw {A} e : throws_only e (throw e : M A).
Proof. by intros s e' s' [= <- _]. Qed.
Lemma throws_only_crash {A} e f : throws_only e (crash f : M A).
Proof. by intros s e' s'. Qed.
Lemma throws_only_out_of_fuel {A} e : throws_only e (out_of_fuel : M A).
Proof. by intros s e' s'. Qed.
Lemma throws_only_load e p : throws_only e (load p : M _).
Proof. intros s e' s'. unfold load. by destruct (heap s !! p). Qed.
Lemma throws_only_store e p nd : throws_only e (store p nd : M _).
Proof. by intros s e' s'. Qed.
Lemma throws_only_get_root e : throws_only e (get_root : M _).
Proof. by intros s e' s'. Qed.
Lemma throws_only_set_root e p : throws_only e (set_root p : M _).
Proof. by intros s e' s'. Qed.
Lemma throws_only_malloc e : throws_only e (malloc : M _).
Proof. by intros s e' s'. Qed.
Lemma throws_only_free e p : throws_only e (free p : M _).
Proof. intros s e' s'. unfold free. by destruct (heap s !! p). Qed.

Create HintDb throws discriminated.
Local Hint Resolve throws_only_ret throws_only_throw throws_only_crash
  throws_only_out_of_fuel throws_only_load throws_only_store
  throws_only_get_root throws_only_set_root throws_only_malloc
  throws_only_free : throws.

(** Goes through a computation bind by bind and case by case, closing the
    leaves with the lemmas collected so far. *)
Local Ltac throws_step :=
  match goal with
  | |- throws_only _ (bind _ _) => apply throws_only_bind; [|intros ?]
  | |- throws_only _ (if ?b then _ else _) => destruct b
  | |- throws_only _ (match ?x with _ => _ end) => destruct x
  | |- throws_only _ (let _ := _ in _) => cbv zeta
  | |- _ => solve [auto with throws]
  end.
Local Ltac throws := repeat throws_step.

Lemma throws_only_get_size e p : throws_only e (get_size p : M _).
Proof. unfold get_size. throws. Qed.
Lemma throws_only_set_size e p n : throws_only e (set_size p n : M _).
Proof. unfold set_size. throws. Qed.
Lemma throws_only_get_leaf e p : throws_only e (get_leaf p : M _).
Proof. unfold get_leaf. throws. Qed.
Lemma throws_only_set_leaf e p b : throws_only e (set_leaf p b : M _).
Proof. unfold set_leaf. throws. Qed.
Lemma throws_only_get_key e p i : throws_only e (get_key p i : M _).
Proof. unfold get_key. throws. Qed.
Lemma throws_only_set_key e p i v : throws_only e (set_key p i v : M _).
Proof. unfold set_key. throws. Qed.
Lemma throws_only_get_child e p i : throws_only e (get_child p i : M _).
Proof. unfold get_child. throws. Qed.
Lemma throws_only_set_child e p i c : throws_only e (set_child p i c : M _).
Proof. unfold set_child. throws. Qed.

Local Hint Resolve throws_only_get_size throws_only_set_size throws_only_get_leaf
  throws_only_set_leaf throws_only_get_key throws_only_set_key
  throws_only_get_child throws_only_set_child : throws.

Lemma throws_only_for_range e from count (body : nat → M unit) :
  (∀ j, throws_only e (body j)) → throws_only e (for_range from count body).
Proof.
  intros Hbody. revert from. induction count as [|c IH]; intros from; simpl; throws.
Qed.

Lemma throws_only_initializeNode e x :
  throws_only e (initializeNode minDegree x : M _).
Proof. unfold initializeNode. throws. Qed.

Lemma throws_only_findIndex e x k : throws_only e (findIndex lessThan x k).
Proof.
  unfold findIndex. apply throws_only_bind; [auto with throws|]. intros sz.
  generalize 0. induction sz as [|r IH]; intros i; simpl; throws.
Qed.

Lemma throws_only_key_matches e x i k : throws_only e (key_matches lessThan x i k).
Proof. unfold key_matches. throws. Qed.

Lemma throws_only_nodeInsert e x k : throws_only e (nodeInsert lessThan x k).
Proof.
  assert (∀ index, throws_only e (nodeInsert_shift lessThan index x k)) as Hshift.
  { induction index as [|i IH]; simpl; throws. }
  unfold nodeInsert. throws.
Qed.

Lemma throws_only_nodeDelete e x index : throws_only e (nodeDelete x index : M _).
Proof.
  assert (∀ r i, throws_only e (nodeDelete_shift r x i : M _)) as Hshift.
  { induction r as [|r IH]; intros i; simpl; throws. }
  unfold nodeDelete. throws.
Qed.

Lemma throws_only_shift_children e i kid : throws_only e (shift_children i kid : M _).
Proof. induction i as [|i IH]; simpl; throws. Qed.

Local Hint Resolve throws_only_initializeNode throws_only_findIndex
  throws_only_key_matches throws_only_nodeInsert throws_only_nodeDelete
  throws_only_shift_children : throws.

Lemma throws_only_splitChild e x i :
  throws_only e (splitChild lessThan minDegree x i).
Proof.
  unfold splitChild. throws; apply throws_only_for_range; intros j; throws.
Qed.

Lemma throws_only_mergeChildren e parent i :
  throws_only e (mergeChildren parent i : M _).
Proof.
  unfold mergeChildren. throws; apply throws_only_for_range; intros j; throws.
Qed.

Local Hint Resolve throws_only_splitChild throws_only_mergeChildren : throws.

Lemma throws_only_fixChildSize e parent index :
  throws_only e (fixChildSize lessThan minDegree parent index).
Proof. unfold fixChildSize. throws. Qed.

Local Hint Resolve throws_only_fixChildSize : throws.

Lemma throws_only_descend_rightmost e fuel x :
  throws_only e (descend_rightmost lessThan minDegree fuel x).
Proof. revert x. induction fuel as [|fuel IH]; intros x; simpl; throws. Qed.

Lemma throws_only_descend_leftmost e fuel x :
  throws_only e (descend_leftmost lessThan minDegree fuel x).
Proof. revert x. induction fuel as [|fuel IH]; intros x; simpl; throws. Qed.

Local Hint Resolve throws_only_descend_rightmost throws_only_descend_leftmost : throws.

(** [remove] throws nothing but ['r']. *)
Lemma throws_only_remove fuel k :
  throws_only REMOVE_KEY_NOT_FOUND (remove lessThan minDegree fuel k).
Proof.
  assert (∀ x, throws_only REMOVE_KEY_NOT_FOUND
                 (remove_loop lessThan minDegree fuel x k)) as Hloop.
  { induction fuel as [|fuel IH]; intros x; simpl; throws. }
  unfold remove. throws.
Qed.

(** [insert] throws nothing at all. *)
Lemma throws_only_insert e fuel k : throws_only e (insert lessThan minDegree fuel k).
Proof.
  assert (∀ j x, throws_only e (insert_scan lessThan j x k)) as Hscan.
  { induction j as [|j IH]; intros x; simpl; throws. }
  assert (∀ x, throws_only e (insert_pick_child lessThan minDegree x k)) as Hpick.
  { intros x. unfold insert_pick_child. throws. }
  assert (∀ x, throws_only e (insert_descend lessThan minDegree fuel x k)) as Hdescend.
  { induction fuel as [|fuel IH]; intros x; simpl; throws. }
  unfold insert. throws.
Qed.

(** [search] throws nothing at all, [searchKey] nothing but ['s']. *)
Lemma throws_only_search e fuel k : throws_only e (search lessThan fuel k).
Proof.
  assert (∀ x, throws_only e (search_loop lessThan fuel x k)) as Hloop.
  { induction fuel as [|fuel IH]; intros x; simpl; throws. }
  unfold search. throws.
Qed.

Lemma throws_only_searchKey fuel k :
  throws_only SEARCH_KEY_NOT_FOUND (searchKey lessThan fuel k).
Proof.
  unfold searchKey. apply throws_only_bind; [apply throws_only_search|].
  intros [x i]. throws.
Qed.

End Exceptions.

(** ** What the operations leave as it is *)

Section Frames.

Context {T : Type} (lessThan : T → T → bool) (minDegree : nat).
Local Abbreviation M := (@M T).
Local Abbreviation BTree := (@BTree T).

(** A relation between states that the memory primitives respect; each
    lemma below depends on the primitives its function uses. *)
Variable R : BTree → BTree → Prop.
Hypothesis R_refl : ∀ s, R s s.
Hypothesis R_trans : ∀ s1 s2 s3, R s1 s2 → R s2 s3 → R s1 s3.
Hypothesis R_upd : ∀ s p nd nd', heap s !! p = Some nd → R s (upd p nd' s).
Hypothesis R_reroot : ∀ s p, R s (reroot p s).
Hypothesis R_malloc : ∀ s,
  R s (mkBTree (root s) (<[brk s := mkBNode [] [] 0 false]> (heap s)) (S (brk s))).
Hypothesis R_free : ∀ s p nd, heap s !! p = Some nd → R s (del p s).

Lemma keeps_bind {A B} (m : M A) (f : A → M B) :
  keeps R m → (∀ a, keeps R (f a)) → keeps R (bind m f).
Proof.
  intros Hm Hf s. unfold bind. specialize (Hm s).
  destruct (m s) as [a s1|e s1| |]; try done.
  specialize (Hf a s1). destruct (f a s1); eauto.
Qed.

Lemma keeps_ret {A} (a : A) : keeps R (ret a : M A).
Proof. intros s. apply R_refl. Qed.
Lemma keeps_throw {A} e : keeps R (throw e : M A).
Proof. intros s. apply R_refl. Qed.
Lemma keeps_crash {A} f : keeps R (crash f : M A).
Proof. by intros s. Qed.
Lemma keeps_out_of_fuel {A} : keeps R (out_of_fuel : M A).
Proof. by intros s. Qed.
Lemma keeps_load p : keeps R (load p : M _).
Proof. intros s. unfold load. destruct (heap s !! p); [apply R_refl|done]. Qed.
Lemma keeps_get_root : keeps R (get_root : M _).
Proof. intros s. apply R_refl. Qed.
Lemma keeps_set_root p : keeps R (set_root p : M _).
Proof. intros s. apply R_reroot. Qed.
Lemma keeps_malloc : keeps R (malloc : M _).
Proof. intros s. apply R_malloc. Qed.
Lemma keeps_free p : keeps R (free p : M _).
Proof. intros s. unfold free. destruct (heap s !! p) eqn:Hp; [by eapply R_free|done]. Qed.

Lemma keeps_set_size p n : keeps R (set_size p n : M _).
Proof.
  intros s. unfold set_size, bind, load, store.
  destruct (heap s !! p) eqn:Hp; [by eapply R_upd|done].
Qed.
Lemma keeps_set_leaf p b : keeps R (set_leaf p b : M _).
Proof.
  intros s. unfold set_leaf, bind, load, store.
  destruct (heap s !! p) eqn:Hp; [by eapply R_upd|done].
Qed.
Lemma keeps_set_key p i v : keeps R (set_key p i v : M _).
Proof.
  intros s. unfold set_key, bind, load, store, crash.
  destruct (heap s !! p) eqn:Hp; [|done]. case_decide; [by eapply R_upd|done].
Qed.
Lemma keeps_set_child p i c : keeps R (set_child p i c : M _).
Proof.
  intros s. unfold set_child, bind, load, store, crash.
  destruct (heap s !! p) eqn:Hp; [|done]. case_decide; [by eapply R_upd|done].
Qed.
Lemma keeps_initializeNode x : keeps R (initializeNode minDegree x : M _).
Proof.
  intros s. unfold initializeNode, bind, load, store.
  destruct (heap s !! x) eqn:Hp; [by eapply R_upd|done].
Qed.

Create HintDb frames discriminated.
Local Hint Resolve keeps_ret keeps_throw keeps_crash keeps_out_of_fuel keeps_load
  keeps_get_root keeps_set_root keeps_malloc keeps_free keeps_set_size
  keeps_set_leaf keeps_set_key keeps_set_child keeps_initializeNode : frames.

Local Ltac keeps_step :=
  match goal with
  | |- keeps _ (bind _ _) => apply keeps_bind; [|intros ?]
  | |- keeps _ (if ?b then _ else _) => destruct b
  | |- keeps _ (match ?x with _ => _ end) => destruct x
  | |- keeps _ (let _ := _ in _) => cbv zeta
  | |- _ => solve [auto with frames]
  end.
Local Ltac keeps_all := repeat keeps_step.

Lemma keeps_get_size p : keeps R (get_size p : M _).
Proof. unfold get_size. keeps_all. Qed.
Lemma keeps_get_leaf p : keeps R (get_leaf p : M _).
Proof. unfold get_leaf. keeps_all. Qed.
Lemma keeps_get_key p i : keeps R (get_key p i : M _).
Proof. unfold get_key. keeps_all. Qed.
Lemma keeps_get_child p i : keeps R (get_child p i : M _).
Proof. unfold get_child. keeps_all. Qed.

Local Hint Resolve keeps_get_size keeps_get_leaf keeps_get_key keeps_get_child : frames.

Lemma keeps_for_range from count (body : nat → M unit) :
  (∀ j, keeps R (body j)) → keeps R (for_range from count body).
Proof.
  intros Hbody. revert from. induction count as [|c IH]; intros from; simpl; keeps_all.
Qed.

Lemma keeps_for_out from count (body : nat → M (list out)) :
  (∀ j, keeps R (body j)) → keeps R (for_out from count body).
Proof.
  intros Hbody. revert from. induction count as [|c IH]; intros from; simpl; keeps_all.
Qed.

Lemma keeps_BTree_new : keeps R (BTree_new minDegree : M _).
Proof. unfold BTree_new. keeps_all. Qed.

Lemma keeps_findIndex x k : keeps R (findIndex lessThan x k).
Proof.
  unfold findIndex. apply keeps_bind; [auto with frames|]. intros sz.
  generalize 0. induction sz as [|r IH]; intros i; simpl; keeps_all.
Qed.

Lemma keeps_key_matches x i k : keeps R (key_matches lessThan x i k).
Proof. unfold key_matches. keeps_all. Qed.

Lemma keeps_nodeInsert x k : keeps R (nodeInsert lessThan x k).
Proof.
  assert (∀ index, keeps R (nodeInsert_shift lessThan index x k)) as Hshift.
  { induction index as [|i IH]; simpl; keeps_all. }
  unfold nodeInsert. keeps_all.
Qed.

Lemma keeps_nodeDelete x index : keeps R (nodeDelete x index : M _).
Proof.
  assert (∀ r i, keeps R (nodeDelete_shift r x i : M _)) as Hshift.
  { induction r as [|r IH]; intros i; simpl; keeps_all. }
  unfold nodeDelete. keeps_all.
Qed.

Lemma keeps_shift_children i kid : keeps R (shift_children i kid : M _).
Proof. induction i as [|i IH]; simpl; keeps_all. Qed.

Local Hint Resolve keeps_findIndex keeps_key_matches keeps_nodeInsert
  keeps_nodeDelete keeps_shift_children keeps_BTree_new : frames.

Lemma keeps_splitChild x i : keeps R (splitChild lessThan minDegree x i).
Proof. unfold splitChild. keeps_all; apply keeps_for_range; intros j; keeps_all. Qed.

Lemma keeps_mergeChildren parent i : keeps R (mergeChildren parent i : M _).
Proof. unfold mergeChildren. keeps_all; apply keeps_for_range; intros j; keeps_all. Qed.

Local Hint Resolve keeps_splitChild keeps_mergeChildren : frames.

Lemma keeps_fixChildSize parent index :
  keeps R (fixChildSize lessThan minDegree parent index).
Proof. unfold fixChildSize. keeps_all. Qed.

Local Hint Resolve keeps_fixChildSize : frames.

Lemma keeps_insert fuel k : keeps R (insert lessThan minDegree fuel k).
Proof.
  assert (∀ j x, keeps R (insert_scan lessThan j x k)) as Hscan.
  { induction j as [|j IH]; intros x; simpl; keeps_all. }
  assert (∀ x, keeps R (insert_pick_child lessThan minDegree x k)) as Hpick.
  { intros x. unfold insert_pick_child. keeps_all. }
  assert (∀ x, keeps R (insert_descend lessThan minDegree fuel x k)) as Hdescend.
  { induction fuel as [|fuel IH]; intros x; simpl; keeps_all. }
  unfold insert. keeps_all.
Qed.

Lemma keeps_remove fuel k : keeps R (remove lessThan minDegree fuel k).
Proof.
  assert (∀ f x, keeps R (descend_rightmost lessThan minDegree f x)) as Hright.
  { induction f as [|f IH]; intros x; simpl; keeps_all. }
  assert (∀ f x, keeps R (descend_leftmost lessThan minDegree f x)) as Hleft.
  { induction f as [|f IH]; intros x; simpl; keeps_all. }
  assert (∀ x, keeps R (remove_loop lessThan minDegree fuel x k)) as Hloop.
  { induction fuel as [|fuel IH]; intros x; simpl; keeps_all. }
  unfold remove. keeps_all.
Qed.

Lemma keeps_search fuel k : keeps R (search lessThan fuel k).
Proof.
  assert (∀ x, keeps R (search_loop lessThan fuel x k)) as Hloop.
  { induction fuel as [|fuel IH]; intros x; simpl; keeps_all. }
  unfold search. keeps_all.
Qed.

Lemma keeps_searchKey fuel k : keeps R (searchKey lessThan fuel k).
Proof.
  unfold searchKey. apply keeps_bind; [apply keeps_search|]. intros [x i]. keeps_all.
Qed.

Lemma keeps_freeNode fuel x : keeps R (freeNode fuel x : M _).
Proof.
  revert x. induction fuel as [|fuel IH]; intros x; simpl; keeps_all;
    apply keeps_for_range; intros j; keeps_all.
Qed.

Lemma keeps_BTree_delete fuel : keeps R (BTree_delete fuel : M _).
Proof. unfold BTree_delete. apply keeps_bind; [auto with frames|]. intros r. apply keeps_freeNode. Qed.

Lemma keeps_printNode fuel : ∀ x tab, keeps R (printNode fuel x tab : M _).
Proof.
  induction fuel as [|fuel IH]; intros x tab; simpl; keeps_all;
    apply keeps_for_out; intros j; keeps_all.
Qed.

Lemma keeps_print b fuel : keeps R (print b fuel : M _).
Proof.
  unfold print. apply keeps_bind; [auto with frames|]. intros r.
  destruct (b && negb (bool_decide (r = NULL))); [|auto with frames].
  apply keeps_bind; [apply keeps_printNode|]. intros o. auto with frames.
Qed.

Lemma keeps_do_call fuel c : keeps R (do_call lessThan minDegree fuel c).
Proof.
  destruct c as [k|k]; simpl; [apply keeps_insert|].
  apply keeps_bind; [apply keeps_remove|]. intros v. apply keeps_ret.
Qed.

Lemma keeps_run_calls fuel calls : ∀ s s',
  run_calls lessThan minDegree fuel calls s = Ok tt s' → R s s'.
Proof.
  induction calls as [|c calls IH]; intros s s' Hrun; simpl in Hrun.
  - injection Hrun as <-. apply R_refl.
  - pose proof (keeps_do_call fuel c s) as Hc.
    destruct (do_call lessThan minDegree fuel c s) as [u s1|e s1| |]; try done;
      eapply R_trans; eauto.
Qed.

End Frames.

(** The three relations are respected by the primitives they allow. *)
Section FrameInstances.

Context {T : Type}.
Local Abbreviation BTree := (@BTree T).
Implicit Types s : BTree.

Lemma no_malloc_refl s : no_malloc s s.
Proof. by split. Qed.
Lemma no_malloc_trans s1 s2 s3 : no_malloc s1 s2 → no_malloc s2 s3 → no_malloc s1 s3.
Proof. intros [Hb1 H1] [Hb2 H2]. split; [congruence|]. intros q Hq. by apply H2, H1. Qed.
Lemma no_malloc_upd s p (nd nd' : @BNode T) :
  heap s !! p = Some nd → no_malloc s (upd p nd' s).
Proof.
  intros Hp. split; [done|]. intros q Hq. simpl.
  rewrite lookup_insert_ne; [done|]. congruence.
Qed.
Lemma no_malloc_reroot s p : no_malloc s (reroot p s).
Proof. by split. Qed.
Lemma no_malloc_free s p (nd : @BNode T) : heap s !! p = Some nd → no_malloc s (del p s).
Proof.
  intros Hp. split; [done|]. intros q Hq. simpl.
  rewrite lookup_delete_ne; [done|]. congruence.
Qed.

Lemma no_free_refl s : no_free s s.
Proof. by split. Qed.
Lemma no_free_trans s1 s2 s3 : no_free s1 s2 → no_free s2 s3 → no_free s1 s3.
Proof. intros [Hb1 H1] [Hb2 H2]. split; [lia|]. intros q Hq. by apply H2, H1. Qed.
Lemma no_free_upd s p (nd nd' : @BNode T) :
  heap s !! p = Some nd → no_free s (upd p nd' s).
Proof.
  intros Hp. split; [done|]. intros q Hq. simpl.
  destruct (decide (p = q)) as [->|Hne];
    [by rewrite lookup_insert_eq|by rewrite lookup_insert_ne].
Qed.
Lemma no_free_reroot s p : no_free s (reroot p s).
Proof. by split. Qed.
Lemma no_free_malloc s :
  no_free s (mkBTree (root s) (<[brk s := mkBNode [] [] 0 false]> (heap s)) (S (brk s))).
Proof.
  split; [simpl; lia|]. intros q Hq. simpl.
  destruct (decide (brk s = q)) as [->|Hne];
    [by rewrite lookup_insert_eq|by rewrite lookup_insert_ne].
Qed.

Lemma fresh_only_refl s : fresh_only s s.
Proof. split; [done|]. intros q Hq. by left. Qed.
Lemma fresh_only_trans s1 s2 s3 : fresh_only s1 s2 → fresh_only s2 s3 → fresh_only s1 s3.
Proof.
  intros [Hb1 H1] [Hb2 H2]. split; [lia|]. intros q Hq.
  destruct (H2 q Hq) as [Hq2|Hq2]; [|right; lia].
  destruct (H1 q Hq2) as [Hq1|Hq1]; [by left|right; lia].
Qed.
Lemma fresh_only_upd s p (nd nd' : @BNode T) :
  heap s !! p = Some nd → fresh_only s (upd p nd' s).
Proof.
  intros Hp. split; [done|]. intros q Hq. left. simpl in Hq.
  destruct (decide (p = q)) as [->|Hne]; [by rewrite Hp|].
  by rewrite lookup_insert_ne in Hq.
Qed.
Lemma fresh_only_reroot s p : fresh_only s (reroot p s).
Proof. split; [done|]. intros q Hq. by left. Qed.
Lemma fresh_only_malloc s :
  fresh_only s (mkBTree (root s) (<[brk s := mkBNode [] [] 0 false]> (heap s)) (S (brk s))).
Proof.
  split; [simpl; lia|]. intros q Hq. simpl in *.
  destruct (decide (brk s = q)) as [<-|Hne]; [right; lia|].
  left. by rewrite lookup_insert_ne in Hq.
Qed.
Lemma fresh_only_free s p (nd : @BNode T) : heap s !! p = Some nd → fresh_only s (del p s).
Proof.
  intros Hp. split; [done|]. intros q Hq. left. simpl in Hq.
  destruct (decide (p = q)) as [->|Hne]; [by rewrite lookup_delete_eq in Hq; destruct Hq|].
  by rewrite lookup_delete_ne in Hq.
Qed.

Lemma null_free_fresh_only s s' : null_free s → fresh_only s s' → null_free s'.
Proof.
  intros [Hb Hn] [Hb' Hin]. split; [lia|].
  destruct (heap s' !! NULL) eqn:Hq; [|done].
  destruct (Hin NULL) as [Hq'|Hq']; [by rewrite Hq| |unfold NULL in *; lia].
  rewrite Hn in Hq'. by destruct Hq'.
Qed.

End FrameInstances.

(** ** What the operations answer, whatever the state *)

Section Answers.

Context {T : Type} (lessThan : T → T → bool) (minDegree : nat).
Local Abbreviation M := (@M T).
Local Abbreviation BTree := (@BTree T).
Implicit Types (s : BTree) (k : T).

Lemma bind_Ok {A B} (m : M A) (f : A → M B) s b s' :
  bind m f s = Ok b s' → ∃ a s1, m s = Ok a s1 ∧ f a s1 = Ok b s'.
Proof. unfold bind. destruct (m s) as [a s1| | |]; [eauto|done..]. Qed.

Lemma returns_only_bind {A B} (P : B → Prop) (m : M A) (f : A → M B) :
  (∀ a, returns_only P (f a)) → returns_only P (bind m f).
Proof. intros Hf s b s' (a & s1 & _ & Hb)%bind_Ok. by eapply Hf. Qed.

Lemma returns_only_ret {A} (P : A → Prop) (a : A) : P a → returns_only P (ret a : M A).
Proof. by intros Ha s b s' [= <- _]. Qed.
Lemma returns_only_throw {A} (P : A → Prop) e : returns_only P (throw e : M A).
Proof. by intros s b s'. Qed.
Lemma returns_only_out_of_fuel {A} (P : A → Prop) : returns_only P (out_of_fuel : M A).
Proof. by intros s b s'. Qed.

(** A read that succeeds leaves the state as it is. *)
Lemma search_keeps fuel k s res s' :
  search lessThan fuel k s = Ok res s' → s' = s.
Proof.
  intros Hs. pose proof (keeps_search lessThan eq
    ltac:(done) ltac:(by intros ??? -> ->) fuel k s) as Hk.
  by rewrite Hs in Hk.
Qed.

Lemma findIndex_keeps x k s i s' : findIndex lessThan x k s = Ok i s' → s' = s.
Proof.
  intros Hs. pose proof (keeps_findIndex lessThan eq
    ltac:(done) ltac:(by intros ??? -> ->) x k s) as Hk.
  by rewrite Hs in Hk.
Qed.

Lemma get_key_keeps x i s (v : T) s' : get_key x i s = Ok v s' → s' = s.
Proof.
  intros Hs. pose proof (keeps_get_key eq
    ltac:(done) ltac:(by intros ??? -> ->) x i s) as Hk.
  by rewrite Hs in Hk.
Qed.

Lemma get_size_keeps x s n s' : (get_size x : M _) s = Ok n s' → s' = s.
Proof.
  intros Hs. pose proof (keeps_get_size (T:=T) eq
    ltac:(done) ltac:(by intros ??? -> ->) x s) as Hk.
  by rewrite Hs in Hk.
Qed.

(** When the test of [remove] succeeds, the key at the index matches. *)
Lemma key_matches_true x i k s s' :
  key_matches lessThan x i k s = Ok true s' →
  s' = s ∧ ∃ kv, get_key x i s = Ok kv s ∧ matches lessThan k kv = true.
Proof.
  unfold key_matches. intros (sz & s1 & Hsz & Ht)%bind_Ok.
  apply get_size_keeps in Hsz as ->.
  case_decide; [|done].
  apply bind_Ok in Ht as (kv & s2 & Hkv & Hret).
  pose proof (get_key_keeps _ _ _ _ _ Hkv) as ->.
  injection Hret as Hm <-. split; [done|]. exists kv. by split.
Qed.

(** [remove] returns nothing but a key that matches the one asked for. *)
Lemma remove_loop_returns fuel k : ∀ x,
  returns_only (λ v, matches lessThan k v = true)
    (remove_loop lessThan minDegree fuel x k).
Proof.
  induction fuel as [|fuel IH]; intros x; [done|].
  intros s v s' Hrun. simpl in Hrun.
  apply bind_Ok in Hrun as (i & s1 & Hi & Hrun).
  apply bind_Ok in Hrun as ([] & s2 & Hfound & Hrun).
  - apply key_matches_true in Hfound as (-> & kv & Hkv & Hm).
    apply bind_Ok in Hrun as (kv' & s3 & Hkv' & Hrun).
    rewrite Hkv in Hkv'. injection Hkv' as <- <-.
    clear Hi Hkv. revert s1 v s' Hrun.
    change (returns_only (λ v, matches lessThan k v = true)
      (let! lf := get_leaf x in
       if lf then nodeDelete x i;;; ret kv
       else
         let! leftKid := get_child x i in
         let! rightKid := get_child x (i + 1) in
         let! lsz := get_size leftKid in
         if decide (minDegree ≤ lsz) then
           let! leftKid := descend_rightmost lessThan minDegree fuel leftKid in
           (let! lsz := get_size leftKid in
            let! kv := nodeDelete leftKid (lsz - 1) in
            set_key x i kv);;;
           ret kv
         else
           let! rsz := get_size rightKid in
           if decide (minDegree ≤ rsz) then
             let! rightKid := descend_leftmost lessThan minDegree fuel rightKid in
             (let! kv := nodeDelete rightKid 0 in set_key x i kv);;;
             ret kv
           else
             mergeChildren x i;;;
             remove_loop lessThan minDegree fuel leftKid k)).
    repeat first
      [ apply returns_only_bind; intros ?
      | match goal with
        | |- returns_only _ (if ?b then _ else _) => destruct b
        end
      | by apply returns_only_ret
      | apply IH ].
  - clear Hi Hfound. revert s2 v s' Hrun.
    change (returns_only (λ v, matches lessThan k v = true)
      (let! lf := get_leaf x in
       if lf then throw REMOVE_KEY_NOT_FOUND
       else
         let! res := fixChildSize lessThan minDegree x i in
         if decide (res = NEW_ROOT) then
           let! r := get_root in remove_loop lessThan minDegree fuel r k
         else
           let! j := findIndex lessThan x k in
           let! c := get_child x j in
           remove_loop lessThan minDegree fuel c k)).
    repeat first
      [ apply returns_only_bind; intros ?
      | match goal with
        | |- returns_only _ (if ?b then _ else _) => destruct b
        end
      | apply returns_only_throw
      | apply IH ].
Qed.

(** Whatever place [search] returns other than the null one holds a key
    that matches. *)
Lemma search_loop_returns fuel k : ∀ x s res s',
  search_loop lessThan fuel x k s = Ok res s' →
  s' = s ∧
  (res = (NULL, 0) ∨
   ∃ kv, get_key res.1 res.2 s = Ok kv s ∧ matches lessThan k kv = true).
Proof.
  induction fuel as [|fuel IH]; intros x s res s' Hrun; [done|].
  simpl in Hrun.
  apply bind_Ok in Hrun as (i & s1 & Hi & Hrun).
  apply findIndex_keeps in Hi as ->.
  apply bind_Ok in Hrun as (sz & s1 & Hsz & Hrun).
  apply get_size_keeps in Hsz as ->.
  apply bind_Ok in Hrun as (found & s1 & Hfound & Hrun).
  assert (s1 = s ∧ (found = true →
            ∃ kv, get_key x i s = Ok kv s ∧ matches lessThan k kv = true))
    as [-> Hkv].
  { case_decide.
    - apply bind_Ok in Hfound as (kv & s2 & Hkv & Hret).
      pose proof (get_key_keeps _ _ _ _ _ Hkv) as ->.
      injection Hret as <- <-. split; [done|]. intros Hm. exists kv.
      split; [done|]. unfold matches. by rewrite orb_comm.
    - injection Hfound as <- <-. done. }
  destruct found.
  - injection Hrun as <- <-. split; [done|]. right. by apply Hkv.
  - apply bind_Ok in Hrun as (lf & s1 & Hlf & Hrun).
    assert (s1 = s) as ->.
    { pose proof (keeps_get_leaf (T:=T) eq ltac:(done) ltac:(by intros ??? -> ->) x s) as Hk.
      by rewrite Hlf in Hk. }
    destruct lf.
    + injection Hrun as <- <-. split; [done|]. by left.
    + apply bind_Ok in Hrun as (c & s1 & Hc & Hrun).
      assert (s1 = s) as ->.
      { pose proof (keeps_get_child (T:=T) eq ltac:(done) ltac:(by intros ??? -> ->) x i s) as Hk.
        by rewrite Hc in Hk. }
      by eapply IH.
Qed.

Lemma remove_returns fuel k :
  returns_only (λ v, matches lessThan k v = true) (remove lessThan minDegree fuel k).
Proof. unfold remove. apply returns_only_bind. intros r. apply remove_loop_returns. Qed.

Lemma searchKey_returns fuel k :
  returns_only (λ v, matches lessThan k v = true) (searchKey lessThan fuel k).
Proof.
  intros s v s'. unfold searchKey. intros ([x i] & s1 & Hs & Hget)%bind_Ok.
  pose proof (search_keeps _ _ _ _ _ Hs) as ->.
  unfold search in Hs. apply bind_Ok in Hs as (r & s1 & [= <- <-] & Hloop).
  apply search_loop_returns in Hloop as [_ Hres]. simpl in Hget.
  case_decide as Hx; [done|].
  destruct Hres as [[= -> ->]|(kv & Hkv & Hm)]; [done|].
  simpl in Hkv. rewrite Hkv in Hget. by injection Hget as <- _.
Qed.

End Answers.

(** ** The public operations on well-formed trees, in terms of results *)

Section Public.

Context {T : Type} (lessThan : T → T → bool) (minDegree : nat).
Local Abbreviation BTree := (@BTree T).
Implicit Types (s : BTree) (k w : T) (tr : @tree T).

Hypothesis Ht : 2 ≤ minDegree.
Hypothesis lessThan_irrefl : ∀ a, lessThan a a = false.
Hypothesis lessThan_trans :
  ∀ a b c, lessThan a b = true → lessThan b c = true → lessThan a c = true.

Lemma search_spec n tr s k fuel :
  wf_state lessThan minDegree n tr s → n < fuel → heap s !! NULL = None →
  ∃ res, search lessThan fuel k s = Ok res s ∧
    ((res = (NULL, 0) ∧ Forall (λ w, matches lessThan k w = false) (inorder tr)) ∨
     (res.1 ≠ NULL ∧ ∃ nd w, res.1 ∈ addrs tr ∧ heap s !! res.1 = Some nd ∧
        res.2 < size nd ∧ key nd !! res.2 = Some (Some w) ∧ w ∈ inorder tr ∧
        matches lessThan k w = true)).
Proof.
  intros [Hroot Hrep _ _ Hsorted] Hfuel Hnull.
  pose proof (search_loop_spec lessThan minDegree Ht lessThan_trans fuel n s tr k
                (λ _ _, False) Hfuel Hrep Hsorted) as Hloop.
  unfold search, bind, get_root. rewrite <-Hroot. unfold wp in Hloop.
  destruct (search_loop lessThan fuel (addr_of tr) k s) as [res s'| | |]; try done.
  destruct Hloop as [-> Hres]. exists res. split; [done|].
  destruct Hres as [?|(nd & w & Hin & Hnd & ?)]; [by left|right].
  split; [|by exists nd, w]. intros Heq. rewrite Heq, Hnull in Hnd. done.
Qed.

Lemma searchKey_spec n tr s k fuel :
  wf_state lessThan minDegree n tr s → n < fuel → heap s !! NULL = None →
  (∃ w, searchKey lessThan fuel k s = Ok w s ∧ w ∈ inorder tr ∧
        matches lessThan k w = true) ∨
  (searchKey lessThan fuel k s = Throw SEARCH_KEY_NOT_FOUND s ∧
   Forall (λ w, matches lessThan k w = false) (inorder tr)).
Proof.
  intros Hwf Hfuel Hnull.
  destruct (search_spec n tr s k fuel Hwf Hfuel Hnull) as ([x i] & Hs & Hres).
  unfold searchKey, bind. rewrite Hs.
  destruct Hres as [[[= -> ->] Hnone]|(Hx & nd & w & _ & Hnd & _ & Hw & Hin & Hm)].
  - right. by rewrite decide_True by done.
  - left. exists w. simpl in *. rewrite decide_False by done.
    unfold get_key, bind, load. rewrite Hnd, Hw. done.
Qed.

Lemma matches_refl k : matches lessThan k k = true.
Proof. unfold matches. by rewrite lessThan_irrefl. Qed.

Lemma matches_eq k w :
  w = k ∨ klt lessThan w k ∨ klt lessThan k w → matches lessThan k w = true → w = k.
Proof.
  unfold matches, klt. intros [->|[Hlt|Hlt]]; [done|rewrite Hlt..]; [done|].
  by rewrite orb_true_r.
Qed.

Lemma keys_after_elem (calls : list (@call T)) : ∀ (model : list T) e,
  e ∈ foldl (keys_after lessThan) model calls →
  e ∈ model ∨ ∃ c, c ∈ calls ∧ e = call_key c.
Proof.
  induction calls as [|c calls IH]; intros model e He; [by left|].
  simpl in He. apply IH in He as [He|(c' & Hc' & ->)].
  - destruct c as [k|k]; simpl in He.
    + apply elem_of_cons in He as [->|He]; [|by left].
      right. exists (Insert k). split; [left|done].
    + left. apply list_elem_of_In, List.filter_In in He as [He _].
      by apply list_elem_of_In.
  - right. exists c'. split; [by right|done].
Qed.

Lemma new_tree_null_free : null_free (new_tree (T:=T) minDegree).
Proof. split; [vm_compute; lia|reflexivity]. Qed.

Lemma run_calls_null_free fuel calls s s' :
  null_free s → run_calls lessThan minDegree fuel calls s = Ok tt s' → null_free s'.
Proof.
  intros Hnull Hrun. eapply null_free_fresh_only; [done|].
  eapply (keeps_run_calls lessThan minDegree fresh_only); [..|done].
  - apply fresh_only_refl.
  - apply fresh_only_trans.
  - apply fresh_only_upd.
  - apply fresh_only_reroot.
  - apply fresh_only_malloc.
  - apply fresh_only_free.
Qed.

(** Calls on an empty tree that never insert a key already there. *)
Lemma run_from_empty (U : list T) fuel calls :
  (∀ a b, a ∈ U → b ∈ U → a = b ∨ klt lessThan a b ∨ klt lessThan b a) →
  Forall (λ c, call_key c ∈ U) calls →
  fresh_inserts lessThan [] calls → length calls < fuel →
  ∃ s' n' tr',
    run_calls lessThan minDegree fuel calls (new_tree minDegree) = Ok tt s' ∧
    wf_state lessThan minDegree n' tr' s' ∧
    inorder tr' ≡ₚ foldl (keys_after lessThan) [] calls ∧
    n' ≤ length calls ∧ null_free s' ∧ (∀ e, e ∈ inorder tr' → e ∈ U).
Proof.
  intros Hcmp Hkeys Hfresh Hfuel.
  destruct (run_calls_ok lessThan minDegree Ht lessThan_irrefl lessThan_trans
              U fuel Hcmp calls [] (new_tree minDegree) 0 (Node 1 [] []))
    as (s' & n' & tr' & Hrun & Hwf & Hin & Hn'); try done.
  - by apply new_tree_wf.
  - intros e He. by apply elem_of_nil in He.
  - exists s', n', tr'. split_and!; try done.
    + eapply run_calls_null_free; [apply new_tree_null_free|done].
    + intros e He. rewrite Hin in He.
      apply keys_after_elem in He as [He|(c & Hc & ->)];
        [by apply elem_of_nil in He|].
      by eapply Forall_forall in Hkeys.
Qed.

(** Inserting keys that are new and pairwise comparable: every call
    returns, and the tree holds the old keys and the new ones. *)
Lemma insert_all_ok (U : list T) fuel (l : list T) : ∀ s n tr,
  (∀ a b, a ∈ U → b ∈ U → a = b ∨ klt lessThan a b ∨ klt lessThan b a) →
  wf_state lessThan minDegree n tr s →
  (∀ e, e ∈ inorder tr → e ∈ U) → (∀ e, e ∈ l → e ∈ U) →
  NoDup l → (∀ e, e ∈ l → e ∉ inorder tr) →
  n + length l < fuel →
  ∃ s' n' tr',
    insert_all lessThan minDegree fuel l s = Ok tt s' ∧
    wf_state lessThan minDegree n' tr' s' ∧
    inorder tr' ≡ₚ l ++ inorder tr ∧ n' ≤ n + length l.
Proof.
  induction l as [|a l IH]; intros s n tr Hcmp Hwf HU Hl Hnd Hnew Hfuel.
  { exists s, n, tr. split_and!; try done. lia. }
  apply NoDup_cons in Hnd as [Ha Hnd]. simpl in Hfuel.
  assert (Forall (λ e, klt lessThan e a ∨ klt lessThan a e) (inorder tr)) as Hdiff.
  { apply Forall_forall. intros e He.
    destruct (Hcmp e a) as [->|?]; [by apply HU|apply Hl; left| |done].
    exfalso. by apply (Hnew a); [left|]. }
  pose proof (insert_spec lessThan minDegree Ht lessThan_irrefl lessThan_trans
                n s tr a fuel (λ _ _, False) Hwf ltac:(lia) Hdiff) as Hins.
  unfold wp in Hins. simpl. unfold bind at 1.
  destruct (insert lessThan minDegree fuel a s) as [[] s1|ex s1|f|] eqn:Hrun;
    [|done|done|done].
  destruct Hins as (n1 & tr1 & Hwf1 & Hn1 & l1 & l2 & Heq & Heq' & _).
  assert (∀ e, e ∈ inorder tr1 ↔ e = a ∨ e ∈ inorder tr) as Hin1.
  { intros e. rewrite Heq', Heq, !elem_of_app, elem_of_cons. tauto. }
  destruct (IH s1 n1 tr1) as (s' & n' & tr' & Hrun' & Hwf' & Hperm' & Hn'); try done.
  - intros e [->|He]%Hin1; [apply Hl; left|by apply HU].
  - intros e He. apply Hl. by right.
  - intros e He [->|Hin]%Hin1; [done|]. by apply (Hnew e); [right|].
  - lia.
  - exists s', n', tr'. split_and!; [done|done| |lia].
    rewrite Hperm', Heq', Heq. by rewrite <-!Permutation_middle.
Qed.

(** Removing all the keys of a tree, in any order: every call returns its
    key, and no key is left. *)
Lemma remove_all_ok fuel (l : list T) : ∀ s n tr,
  wf_state lessThan minDegree n tr s → inorder tr ≡ₚ l → n < fuel →
  ∃ s' n' tr',
    remove_all lessThan minDegree fuel l s = Ok l s' ∧
    wf_state lessThan minDegree n' tr' s' ∧ inorder tr' = [] ∧ n' ≤ n.
Proof.
  induction l as [|k l IH]; intros s n tr Hwf Hperm Hfuel.
  { exists s, n, tr. split_and!; try done. by apply Permutation_nil_r. }
  assert (k ∈ inorder tr) as Hin by (rewrite Hperm; left).
  destruct (sorted_elem_split lessThan (inorder tr) k (wf_sorted _ _ _ _ _ Hwf) Hin)
    as (l1 & l2 & Heq & H1 & H2).
  assert (Forall (λ e, e = k ∨ klt lessThan e k ∨ klt lessThan k e) (inorder tr))
    as Hcmp.
  { rewrite Heq. apply Forall_app. split; [|apply Forall_cons; split].
    - eapply Forall_impl; [exact H1|]. intros e He. right. by left.
    - by left.
    - eapply Forall_impl; [exact H2|]. intros e He. right. by right. }
  pose proof (remove_spec lessThan minDegree Ht lessThan_irrefl lessThan_trans
                n s tr k fuel Hwf ltac:(lia) Hcmp) as Hrm.
  unfold wp in Hrm. simpl. unfold bind at 1.
  destruct (remove lessThan minDegree fuel k s) as [v s1|e s1| |] eqn:Hrun; try done.
  - destruct Hrm as (-> & _ & n1 & tr1 & Hwf1 & Hn1 & Hin1).
    rewrite Heq, (without_present lessThan lessThan_irrefl) in Hin1 by done.
    destruct (IH s1 n1 tr1) as (s' & n' & tr' & Hrun' & Hwf' & Hnil & Hn');
      [done| |lia|].
    + rewrite Hin1. apply (Permutation_cons_inv (a := k)).
      by rewrite Permutation_middle, <-Heq.
    + exists s', n', tr'. unfold bind. rewrite Hrun'. split_and!; try done. lia.
  - by destruct Hrm as (_ & Hnot & _).
Qed.

(** A well-formed tree without keys is a root that is an empty leaf. *)
Lemma empty_tree_root n tr s :
  wf_state lessThan minDegree n tr s → inorder tr = [] →
  ∃ nd, heap s !! root s = Some nd ∧ leaf nd = true ∧ size nd = 0.
Proof.
  intros [Hroot Hrep _ Hsh _] Hin. destruct n as [|n].
  - destruct tr as [p ks cs]. simpl in Hroot. subst p.
    destruct Hrep as (nd & Hnd' & [Hsz _] & _ & Hlf & ->).
    simpl in Hin. subst ks. by exists nd.
  - exfalso. eapply inorder_nonempty; [exact Ht|exact Hsh| |exact Hin].
    destruct tr as [p ks cs]. destruct Hsh as [[Hlo _] _]. exact Hlo.
Qed.

End Public.

(** ** The claims that hold in general *)

(** C2, amended: on a well-formed tree, removing a key that the comparator
    tells apart from every stored key throws ['r'] and leaves a well-formed
    tree, no higher than before, with the same keys in the same order. *)
Theorem C2_failed_remove_keeps_the_keys {T} (lessThan : T → T → bool) t n tr s k fuel :
  2 ≤ t →
  (∀ a, lessThan a a = false) →
  (∀ a b c, lessThan a b = true → lessThan b c = true → lessThan a c = true) →
  wf_state lessThan t n tr s → S n ≤ fuel →
  Forall (λ e, lessThan e k = true ∨ lessThan k e = true) (inorder tr) →
  ∃ s', remove lessThan t fuel k s = Throw REMOVE_KEY_NOT_FOUND s' ∧
    ∃ n' tr', wf_state lessThan t n' tr' s' ∧ n' ≤ n ∧ inorder tr' = inorder tr.
Proof.
  intros Ht Hirr Htrans Hwf Hfuel Hcmp.
  assert (Forall (λ e, e = k ∨ klt lessThan e k ∨ klt lessThan k e) (inorder tr))
    as Hcmp'.
  { eapply Forall_impl; [exact Hcmp|]. intros e He. by right. }
  pose proof (remove_spec lessThan t Ht Hirr Htrans n s tr k fuel Hwf Hfuel Hcmp')
    as Hrm.
  unfold wp in Hrm.
  destruct (remove lessThan t fuel k s) as [v s'|e s'| |]; try done.
  - destruct Hrm as (_ & Hin & _).
    rewrite Forall_forall in Hcmp. destruct (Hcmp k Hin) as [Hk|Hk];
      by rewrite Hirr in Hk.
  - destruct Hrm as (-> & _ & n' & tr' & Hwf' & Hn' & Hin').
    exists s'. split; [done|]. exists n', tr'. split; [done|]. split; [done|].
    rewrite Hin'. by apply without_keep.
Qed.

(** C5, amended: on a node of a tree whose in-order keys are in
    non-decreasing order, [fixChildSize] returns and turns the subtree into
    [fix_child i tr]: nothing when child [i] has at least [t] keys; else a
    borrow from the left sibling when that has at least [t] keys, the
    separating key going where [nodeInsert] puts it in the child; else a
    borrow from the right sibling when that has at least [t] keys; else a
    merge, with the left sibling when there is one.  The result is
    [NEW_ROOT] exactly when the merge took the node's only key, and then
    the merged node, one level lower, is the root.  When the keys are
    strictly increasing, the left borrow puts the separating key at the
    front of the child. *)
Theorem C5_fixChildSize_restructures {T} (lessThan : T → T → bool) t n s p ks cs i lo :
  2 ≤ t →
  rep t (S n) (heap s) (Node p ks cs) → NoDup (addrs (Node p ks cs)) →
  shape t (S n) lo (Node p ks cs) → i ≤ length ks → 1 ≤ length ks →
  StronglySorted (kle lessThan) (inorder (Node p ks cs)) →
  (∃ res s', fixChildSize lessThan t p i s = Ok res s' ∧
     if decide (res = NEW_ROOT) then
       length ks = 1 ∧ root s' = addr_of (fix_child lessThan t i (Node p ks cs)) ∧
       rep t n (heap s') (fix_child lessThan t i (Node p ks cs))
     else
       root s' = root s ∧
       rep t (S n) (heap s') (fix_child lessThan t i (Node p ks cs))) ∧
  (StronglySorted (klt lessThan) (inorder (Node p ks cs)) →
   fix_child lessThan t i (Node p ks cs) = fix_child_spec t i (Node p ks cs)).
Proof.
  intros Ht Hrep Hnd Hsh Hi H1 Hsorted. split.
  - pose proof (fix_tree lessThan t Ht n s p ks cs i lo (λ _ _, False)
                  Hrep Hnd Hsh Hi H1 Hsorted) as Hfix.
    unfold wp in Hfix.
    destruct (fixChildSize lessThan t p i s) as [res s'| | |]; try done.
    exists res, s'. split; [done|]. cbv zeta in Hfix.
    destruct Hfix as (_ & _ & Hfix). destruct (decide (res = NEW_ROOT)).
    + by destruct Hfix as (? & _ & ? & ?).
    + by destruct Hfix as (? & _ & ?).
  - intros Hstrict. by eapply fix_child_front.
Qed.

(** C6, amended: one turn of [insert]'s descent on a node that is not full,
    in a strictly ordered tree, returns the index [pick_index k tr]: the
    child [k] belongs under is split first when it is full, and the index
    moves right by one exactly when the key the split brought up is less
    than [k]; the node then holds the tree [pick_split k z tr]. *)
Theorem C6_split_then_shift {T} (lessThan : T → T → bool) t n s p ks cs k lo :
  2 ≤ t →
  (∀ a, lessThan a a = false) →
  (∀ a b c, lessThan a b = true → lessThan b c = true → lessThan a c = true) →
  rep t (S n) (heap s) (Node p ks cs) → owns s (Node p ks cs) →
  shape t (S n) lo (Node p ks cs) → length ks < 2 * t - 1 →
  StronglySorted (klt lessThan) (inorder (Node p ks cs)) →
  ∃ s', insert_pick_child lessThan t p k s =
          Ok (pick_index lessThan t k (Node p ks cs)) s' ∧
    root s' = root s ∧
    rep t (S n) (heap s') (pick_split lessThan t k (brk s) (Node p ks cs)).
Proof.
  intros Ht Hirr Htrans Hrep Hown Hsh Hlen Hsorted.
  pose proof (pick_child_index lessThan t Ht Hirr Htrans n s p ks cs k lo
                (λ _ _, False) Hrep Hown Hsh Hlen Hsorted) as Hpick.
  unfold wp in Hpick.
  destruct (insert_pick_child lessThan t p k s) as [j s'| | |]; try done.
  destruct Hpick as (-> & Hroot & Hrep'). by exists s'.
Qed.

(** C8: for a strict order and a minimum degree whose node capacity fits
    an [unsigned], inserting distinct keys into an empty tree stores them
    all, every call returning; removing them all afterwards, in any order,
    returns each of them from its call of [remove], and the root is then a
    leaf with no keys. *)
Theorem C8_insert_then_remove_all {T} (lessThan : T → T → bool) t (l l' : list T) fuel :
  2 ≤ t → 2 * t < 2 ^ 32 →
  (∀ a, lessThan a a = false) →
  (∀ a b c, lessThan a b = true → lessThan b c = true → lessThan a c = true) →
  NoDup l →
  (∀ a b, a ∈ l → b ∈ l → a = b ∨ lessThan a b = true ∨ lessThan b a = true) →
  l' ≡ₚ l →
  length l < fuel →
  ∃ s1 n tr s' nd,
    insert_all lessThan t fuel l (new_tree t) = Ok tt s1 ∧
    wf_state lessThan t n tr s1 ∧ inorder tr ≡ₚ l ∧
    remove_all lessThan t fuel l' s1 = Ok l' s' ∧
    heap s' !! root s' = Some nd ∧ leaf nd = true ∧ size nd = 0.
Proof.
  intros Ht _ Hirr Htrans Hnd Hcmp Hperm Hfuel.
  destruct (insert_all_ok lessThan t Ht Hirr Htrans l fuel l
              (new_tree t) 0 (Node 1 [] []))
    as (s1 & n & tr & Hrun & Hwf & Hin & Hn); try done.
  - by apply new_tree_wf.
  - intros e He. by apply elem_of_nil in He.
  - intros e _ He. by apply elem_of_nil in He.
  - simpl in Hin, Hn. rewrite app_nil_r in Hin.
    destruct (remove_all_ok lessThan t Ht Hirr Htrans fuel l' s1 n tr)
      as (s' & n' & tr' & Hrun' & Hwf' & Hnil & _); [done|by rewrite Hperm|lia|].
    destruct (empty_tree_root lessThan t Ht n' tr' s' Hwf' Hnil)
      as (nd & Hroot & Hlf & Hsz).
    by exists s1, n, tr, s', nd.
Qed.

(** C9: [searchKey] runs [search]; it throws ['s'] exactly when [search]
    returned the null location, and otherwise is the read of the key at
    the location that [search] returned. *)
Theorem C9_searchKey_wraps_search {T} (lessThan : T → T → bool) fuel k (s : @BTree T) :
  searchKey lessThan fuel k s =
    match search lessThan fuel k s with
    | Ok (x, i) s' =>
        if decide (x = NULL) then Throw SEARCH_KEY_NOT_FOUND s' else get_key x i s'
    | Throw e s' => Throw e s'
    | Fault f => Fault f
    | OutOfFuel => OutOfFuel
    end ∧
  ∀ e s', searchKey lessThan fuel k s = Throw e s' ↔
          e = SEARCH_KEY_NOT_FOUND ∧ ∃ i, search lessThan fuel k s = Ok (NULL, i) s'.
Proof.
  assert (searchKey lessThan fuel k s =
    match search lessThan fuel k s with
    | Ok (x, i) s' =>
        if decide (x = NULL) then Throw SEARCH_KEY_NOT_FOUND s' else get_key x i s'
    | Throw e s' => Throw e s'
    | Fault f => Fault f
    | OutOfFuel => OutOfFuel
    end) as Heq.
  { unfold searchKey, bind. destruct (search lessThan fuel k s) as [[x i] s'| | |];
      try done. simpl. by destruct (decide (x = NULL)). }
  split; [exact Heq|]. intros e s'. rewrite Heq.
  destruct (search lessThan fuel k s) as [[x i] s1|e1 s1| |] eqn:Hs.
  - destruct (decide (x = NULL)) as [->|Hx].
    + split.
      * intros [= <- <-]. eauto.
      * by intros (-> & j & [= <- <-]).
    + split.
      * intros Hthrow. exfalso. revert Hthrow. apply throws_nothing.
        intros e0. apply throws_only_get_key.
      * by intros (_ & j & [= -> _]).
  - exfalso. revert Hs. apply throws_nothing.
    intros e0. apply throws_only_search.
  - split; [done|]. by intros (_ & j & [=]).
  - split; [done|]. by intros (_ & j & [=]).
Qed.

(** C10: [searchKey] throws nothing but ['s'] and [remove] nothing but
    ['r'], the two characters differ, and on the empty tree each of the two
    does throw its character. *)
Theorem C10_exceptions_tell_the_operation {T} (lessThan : T → T → bool) t fuel k :
  throws_only SEARCH_KEY_NOT_FOUND (searchKey lessThan fuel k) ∧
  throws_only REMOVE_KEY_NOT_FOUND (remove lessThan t fuel k) ∧
  SEARCH_KEY_NOT_FOUND ≠ REMOVE_KEY_NOT_FOUND ∧
  searchKey lessThan (S fuel) k (new_tree t) = Throw SEARCH_KEY_NOT_FOUND (new_tree t) ∧
  remove lessThan t (S fuel) k (new_tree t) = Throw REMOVE_KEY_NOT_FOUND (new_tree t).
Proof.
  split; [apply throws_only_searchKey|]. split; [apply throws_only_remove|].
  split; [done|]. split; reflexivity.
Qed.

(** ** Scenarios with minimum degree 2 and integer keys *)

Local Open Scope Z_scope.

(** C7 as stated fails: after inserting 1..7 the root holds two keys. *)
Lemma C7_root_has_two_keys :
  ¬ ∃ tr, root_tree (run_int 2 (int_calls [1; 2; 3; 4; 5; 6; 7])) = Some tr ∧
          height tr = 2%nat ∧ length (keys_of tr) = 1%nat.
Proof. intros (tr & Htr & _ & Hlen). vm_compute in Htr. by simplify_eq. Qed.

(** C7, amended: inserting 1..7 in increasing order into an empty tree of
    minimum degree 2 gives a tree of two levels whose root holds the two
    keys 2 and 4, above the leaves [1], [3] and [5, 6, 7]. *)
Theorem C7_insert_1_to_7 :
  ∃ tr, root_tree (run_int 2 (int_calls [1; 2; 3; 4; 5; 6; 7])) = Some tr ∧
        height tr = 2%nat ∧ keys_of tr = [2; 4] ∧
        (keys_of <$> kids_of tr) = [[1]; [3]; [5; 6; 7]].
Proof. eexists. split; [vm_compute; reflexivity|]. done. Qed.

(** ** The claims about trees with equal keys *)

(** C1 (the code departs from it): with minimum degree 2 the calls
    insert 1, insert 2 (eight times), remove 2, remove 0, insert 0,
    remove 2, remove 2 all return, and leave a root with two keys whose
    third child pointer refers to a node that [mergeChildren] has freed:
    the root does not denote a tree any more, so the shape invariant fails. *)
Theorem C1_equal_keys_break_the_shape :
  ∃ s nd, run_int 2 (dup_calls ++ [Remove 2; Remove 2]) = Ok tt s ∧
    heap s !! root s = Some nd ∧ leaf nd = false ∧ size nd = 2%nat ∧
    child nd !! 2%nat = Some 5%nat ∧ heap s !! 5%nat = None ∧
    ¬ btree_shape 2 s.
Proof.
  eexists. eexists. split; [vm_compute; reflexivity|].
  split; [vm_compute; reflexivity|]. do 4 (split; [reflexivity|]).
  intros (fuel & tr & n & Htr & _).
  destruct fuel as [|[|fuel]]; vm_compute in Htr; discriminate.
Qed.

(** C3 (the code departs from it): after insert 1, insert 2 (eight times),
    remove 2, remove 0, insert 0, insert 3, remove 2 (three times) the key
    3 has been inserted once and never removed, yet [search] and
    [searchKey] for 3 go from the root to its third child pointer, which
    refers to a freed node; the node that holds 3 is the second child. *)
Theorem C3_search_reads_a_freed_node :
  ∃ s nd kid,
    run_int 2 (dup_calls ++ [Insert 3; Remove 2; Remove 2; Remove 2]) = Ok tt s ∧
    heap s !! root s = Some nd ∧ take (size nd) (key nd) = [Some 1; Some 2] ∧
    take (S (size nd)) (child nd) = [1%nat; 6%nat; 5%nat] ∧
    heap s !! 5%nat = None ∧
    heap s !! 6%nat = Some kid ∧ take (size kid) (key kid) = [Some 2; Some 3] ∧
    ∀ fuel, search Z.ltb (S (S fuel)) 3 s = Fault BadPointer ∧
            searchKey Z.ltb (S (S fuel)) 3 s = Fault BadPointer.
Proof.
  eexists. eexists. eexists. split; [vm_compute; reflexivity|].
  split; [vm_compute; reflexivity|]. do 3 (split; [reflexivity|]).
  split; [vm_compute; reflexivity|]. split; [reflexivity|].
  intros fuel. split; vm_compute; reflexivity.
Qed.

(** C4 (the code departs from it): after insert 1, insert 2 (eight times),
    remove 2, remove 0, insert 0, insert 3 the in-order traversal reads
    0 1 2 2 2 2 3 2 2 3, with a 3 before a 2. *)
Theorem C4_inorder_not_sorted :
  ∃ tr, root_tree (run_int 2 (dup_calls ++ [Insert 3])) = Some tr ∧
    inorder tr = [0; 1; 2; 2; 2; 2; 3; 2; 2; 3] ∧
    ¬ Sorted (kle Z.ltb) (inorder tr).
Proof.
  eexists. split; [vm_compute; reflexivity|]. split; [reflexivity|].
  intros H. vm_compute in H.
  do 6 (apply Sorted_inv in H as [H _]).
  apply Sorted_inv in H as [_ H]. by apply HdRel_inv in H.
Qed.

(** ** The claims about single steps *)

(** C2 as stated fails: in the tree that inserting 1, 2, 3, 4 builds
    (root [2] above the leaves [1] and [3, 4]), removing the absent key 0
    throws ['r'] but first brings the leftmost leaf up to two keys, leaving
    the root [3] above the leaves [1, 2] and [4]. *)
Lemma C2_failed_remove_reshapes :
  ¬ ∀ (s : @BTree Z) (k : Z) tr,
      tree_of 64 (heap s) (root s) = Some tr →
      Forall (λ e, differs Z.ltb k e = true) (inorder tr) →
      ∃ s', remove Z.ltb 2 64 k s = Throw REMOVE_KEY_NOT_FOUND s' ∧
            tree_of 64 (heap s') (root s') = Some tr.
Proof.
  intros H. destruct (H st_1234 0 tr_1234) as (s' & Hthrow & Htr).
  - vm_compute; reflexivity.
  - vm_compute. repeat constructor.
  - vm_compute in Hthrow. injection Hthrow as <-. vm_compute in Htr. discriminate.
Qed.

(** The amended C2 on the tree of 1, 2, 3, 4 and the absent key 0. *)
Lemma C2_failed_remove_keeps_the_keys_witness :
  ∃ s', remove Z.ltb 2 64 0 st_1234 = Throw REMOVE_KEY_NOT_FOUND s' ∧
    ∃ n' tr', wf_state Z.ltb 2 n' tr' s' ∧ (n' ≤ 1)%nat ∧ inorder tr' = inorder tr_1234.
Proof.
  apply (C2_failed_remove_keeps_the_keys Z.ltb 2 1 tr_1234 st_1234 0 64).
  - lia.
  - apply Z.ltb_irrefl.
  - intros a b c Hab%Z.ltb_lt Hbc%Z.ltb_lt. apply Z.ltb_lt. lia.
  - split.
    + vm_compute; reflexivity.
    + apply rep_check_sound. vm_compute; reflexivity.
    + split; [vm_compute; repeat constructor; set_solver|].
      vm_compute. repeat constructor.
    + apply shape_check_sound. vm_compute; reflexivity.
    + vm_compute. repeat constructor.
  - lia.
  - vm_compute. repeat constructor; by right.
Defined.

(** C5 as stated fails: with records ordered by their first component and
    minimum degree 2, in the tree with root [(2,1)] above the leaves
    [(0,0), (2,0)] and [(2,2)], fixing up the right leaf borrows from the
    left and puts the separating key (2,1) behind (2,2), not in front. *)
Lemma C5_separator_not_at_front :
  tree_of 64 (heap st_pairs) (root st_pairs) = Some tr_pairs ∧
  ∃ res s', fixChildSize by_fst 2 (root st_pairs) 1 st_pairs = Ok res s' ∧
    tree_of 64 (heap s') (root s') =
      Some (Node 2 [(2, 0)] [Node 1 [(0, 0)] []; Node 3 [(2, 2); (2, 1)] []]) ∧
    fix_child_spec 2 1 tr_pairs =
      Node 2 [(2, 0)] [Node 1 [(0, 0)] []; Node 3 [(2, 1); (2, 2)] []] ∧
    tree_of 64 (heap s') (root s') ≠ Some (fix_child_spec 2 1 tr_pairs).
Proof.
  split; [vm_compute; reflexivity|].
  eexists. eexists. split; [vm_compute; reflexivity|].
  split; [vm_compute; reflexivity|]. split; [vm_compute; reflexivity|].
  vm_compute. discriminate.
Qed.

(** The amended C5 on the tree of records above, for the root's right child. *)
Lemma C5_fixChildSize_restructures_witness :
  (∃ res s', fixChildSize by_fst 2 2 1 st_pairs = Ok res s' ∧
     if decide (res = NEW_ROOT) then
       length [(2, 1)] = 1%nat ∧ root s' = addr_of (fix_child by_fst 2 1 tr_pairs) ∧
       rep 2 0 (heap s') (fix_child by_fst 2 1 tr_pairs)
     else
       root s' = root st_pairs ∧ rep 2 1 (heap s') (fix_child by_fst 2 1 tr_pairs)) ∧
  (StronglySorted (klt by_fst) (inorder tr_pairs) →
   fix_child by_fst 2 1 tr_pairs = fix_child_spec 2 1 tr_pairs).
Proof.
  apply (C5_fixChildSize_restructures by_fst 2 0 st_pairs 2 [(2, 1)]
           [Node 1 [(0, 0); (2, 0)] []; Node 3 [(2, 2)] []] 1 1).
  - lia.
  - apply rep_check_sound. vm_compute; reflexivity.
  - vm_compute. repeat constructor; set_solver.
  - apply shape_check_sound. vm_compute; reflexivity.
  - simpl; lia.
  - simpl; lia.
  - vm_compute. repeat constructor.
Defined.

(** C6 as stated fails: in the tree that inserting 1 to 5 builds (root [2]
    above the leaves [1] and [3, 4, 5]), the turn of [insert]'s descent
    for the key 4 splits the full leaf, which brings up 4, and stays at
    child 1, left of the new key, although 4 is not less than 4; the whole
    [insert] then puts the second 4 into the leaf [3]. *)
Lemma C6_no_shift_on_equal_key :
  tree_of 64 (heap st_12345) (root st_12345) = Some tr_12345 ∧
  ∃ s', insert_pick_child Z.ltb 2 (root st_12345) 4 st_12345 = Ok 1%nat s' ∧
    tree_of 64 (heap s') (root s') =
      Some (Node 2 [2; 4] [Node 1 [1] []; Node 3 [3] []; Node 4 [5] []]) ∧
    pick_index_spec Z.ltb 2 4 tr_12345 = 2%nat ∧
    root_tree (run_int 2 (int_calls [1; 2; 3; 4; 5; 4])) =
      Some (Node 2 [2; 4] [Node 1 [1] []; Node 3 [3; 4] []; Node 4 [5] []]).
Proof.
  split; [vm_compute; reflexivity|].
  eexists. split; [vm_compute; reflexivity|].
  split; [vm_compute; reflexivity|]. split; vm_compute; reflexivity.
Qed.

(** The amended C6 on the tree of 1 to 5 and the key 5, which goes right
    of the key 4 that the split brings up. *)
Lemma C6_split_then_shift_witness :
  ∃ s', insert_pick_child Z.ltb 2 2 5 st_12345 =
          Ok (pick_index Z.ltb 2 5 tr_12345) s' ∧
    root s' = root st_12345 ∧
    rep 2 1 (heap s') (pick_split Z.ltb 2 5 (brk st_12345) tr_12345).
Proof.
  apply (C6_split_then_shift Z.ltb 2 0 st_12345 2 [2]
           [Node 1 [1] []; Node 3 [3; 4; 5] []] 5 1).
  - lia.
  - apply Z.ltb_irrefl.
  - intros a b c Hab%Z.ltb_lt Hbc%Z.ltb_lt. apply Z.ltb_lt. lia.
  - apply rep_check_sound. vm_compute; reflexivity.
  - split; [vm_compute; repeat constructor; set_solver|].
    vm_compute. repeat constructor.
  - apply shape_check_sound. vm_compute; reflexivity.
  - simpl; lia.
  - vm_compute. repeat constructor.
Defined.

(** C8 for the keys 3, 1, 2, 5, 4 removed in the order 2, 4, 1, 5, 3. *)
Lemma C8_insert_then_remove_all_witness :
  ∃ s1 n tr s' nd,
    insert_all Z.ltb 2 6 [3; 1; 2; 5; 4] (new_tree 2) = Ok tt s1 ∧
    wf_state Z.ltb 2 n tr s1 ∧ inorder tr ≡ₚ [3; 1; 2; 5; 4] ∧
    remove_all Z.ltb 2 6 [2; 4; 1; 5; 3] s1 = Ok [2; 4; 1; 5; 3] s' ∧
    heap s' !! root s' = Some nd ∧ leaf nd = true ∧ size nd = 0%nat.
Proof.
  apply (C8_insert_then_remove_all Z.ltb 2 [3; 1; 2; 5; 4] [2; 4; 1; 5; 3] 6).
  - lia.
  - apply Nat.lt_le_trans with (2 ^ 3)%nat; [simpl; lia|].
    apply Nat.pow_le_mono_r; lia.
  - apply Z.ltb_irrefl.
  - intros a b c Hab%Z.ltb_lt Hbc%Z.ltb_lt. apply Z.ltb_lt. lia.
  - repeat constructor; set_solver.
  - intros a b _ _. rewrite !Z.ltb_lt. lia.
  - apply (bool_decide_unpack _). vm_compute. reflexivity.
  - simpl; lia.
Defined.

Local Close Scope Z_scope.

(** ** Further properties of the operations *)

(** The natural order on integers and the trees of the scenarios, for the
    instances below. *)
Lemma Zltb_trans (a b c : Z) :
  (a <? b)%Z = true → (b <? c)%Z = true → (a <? c)%Z = true.
Proof. rewrite !Z.ltb_lt. lia. Qed.

Lemma st_1234_wf : wf_state Z.ltb 2 1 tr_1234 st_1234.
Proof.
  split.
  - vm_compute; reflexivity.
  - apply rep_check_sound. vm_compute; reflexivity.
  - split; [vm_compute; repeat constructor; set_solver|].
    vm_compute. repeat constructor.
  - apply shape_check_sound. vm_compute; reflexivity.
  - vm_compute. repeat constructor.
Qed.

Lemma st_12345_wf : wf_state Z.ltb 2 1 tr_12345 st_12345.
Proof.
  split.
  - vm_compute; reflexivity.
  - apply rep_check_sound. vm_compute; reflexivity.
  - split; [vm_compute; repeat constructor; set_solver|].
    vm_compute. repeat constructor.
  - apply shape_check_sound. vm_compute; reflexivity.
  - vm_compute. repeat constructor.
Qed.

Lemma st_small_wf : wf_state Z.ltb 2 1 tr_small st_small.
Proof.
  split.
  - vm_compute; reflexivity.
  - apply rep_check_sound. vm_compute; reflexivity.
  - split; [vm_compute; repeat constructor; set_solver|].
    vm_compute. repeat constructor.
  - apply shape_check_sound. vm_compute; reflexivity.
  - vm_compute. repeat constructor.
Qed.

(** X1: [insert] of a key that the comparator tells apart from every key
    of a well-formed tree returns and leaves a well-formed tree, at most
    one level higher, whose in-order keys are the old ones with the new key
    in its place. *)
Theorem X1_insert_new_key {T} (lessThan : T → T → bool) t n tr s k fuel :
  2 ≤ t →
  (∀ a, lessThan a a = false) →
  (∀ a b c, lessThan a b = true → lessThan b c = true → lessThan a c = true) →
  wf_state lessThan t n tr s → S n ≤ fuel →
  Forall (λ e, lessThan e k = true ∨ lessThan k e = true) (inorder tr) →
  ∃ s' n' tr' l1 l2,
    insert lessThan t fuel k s = Ok tt s' ∧ wf_state lessThan t n' tr' s' ∧
    (n' = n ∨ n' = S n) ∧ inorder tr = l1 ++ l2 ∧ inorder tr' = l1 ++ k :: l2.
Proof.
  intros Ht Hirr Htrans Hwf Hfuel Hcmp.
  pose proof (insert_spec lessThan t Ht Hirr Htrans n s tr k fuel (λ _ _, False)
                Hwf Hfuel Hcmp) as Hins.
  unfold wp in Hins.
  destruct (insert lessThan t fuel k s) as [[] s'| | |]; try done.
  destruct Hins as (n' & tr' & Hwf' & Hn' & l1 & l2 & H1 & H2 & _).
  by exists s', n', tr', l1, l2.
Qed.

Lemma X1_insert_new_key_witness :
  ∃ s' n' tr' l1 l2,
    insert Z.ltb 2 5 0%Z st_1234 = Ok tt s' ∧ wf_state Z.ltb 2 n' tr' s' ∧
    (n' = 1 ∨ n' = 2) ∧ inorder tr_1234 = l1 ++ l2 ∧ inorder tr' = l1 ++ 0%Z :: l2.
Proof.
  apply (X1_insert_new_key Z.ltb 2 1 tr_1234 st_1234 0%Z 5);
    [lia|apply Z.ltb_irrefl|apply Zltb_trans|apply st_1234_wf|lia|].
  vm_compute. repeat constructor; by right.
Defined.

(** X2: [remove] of a key of a well-formed tree returns that key and
    leaves a well-formed tree, no higher than before, whose in-order keys
    are the old ones without the key. *)
Theorem X2_remove_present_key {T} (lessThan : T → T → bool) t n tr s k fuel :
  2 ≤ t →
  (∀ a, lessThan a a = false) →
  (∀ a b c, lessThan a b = true → lessThan b c = true → lessThan a c = true) →
  wf_state lessThan t n tr s → S n ≤ fuel → k ∈ inorder tr →
  ∃ s' n' tr' l1 l2,
    remove lessThan t fuel k s = Ok k s' ∧ wf_state lessThan t n' tr' s' ∧
    n' ≤ n ∧ inorder tr = l1 ++ k :: l2 ∧ inorder tr' = l1 ++ l2.
Proof.
  intros Ht Hirr Htrans Hwf Hfuel Hin.
  destruct (sorted_elem_split lessThan (inorder tr) k (wf_sorted _ _ _ _ _ Hwf) Hin)
    as (l1 & l2 & Heq & H1 & H2).
  assert (Forall (λ e, e = k ∨ klt lessThan e k ∨ klt lessThan k e) (inorder tr))
    as Hcmp.
  { rewrite Heq. apply Forall_app. split; [|apply Forall_cons; split].
    - eapply Forall_impl; [exact H1|]. intros e He. right. by left.
    - by left.
    - eapply Forall_impl; [exact H2|]. intros e He. right. by right. }
  pose proof (remove_spec lessThan t Ht Hirr Htrans n s tr k fuel Hwf Hfuel Hcmp)
    as Hrm.
  unfold wp in Hrm.
  destruct (remove lessThan t fuel k s) as [v s'|e s'| |]; try done.
  - destruct Hrm as (-> & _ & n' & tr' & Hwf' & Hn' & Hin').
    exists s', n', tr', l1, l2. split_and!; try done.
    rewrite Hin', Heq. by apply without_present.
  - by destruct Hrm as (_ & Hnot & _).
Qed.

Lemma X2_remove_present_key_witness :
  ∃ s' n' tr' l1 l2,
    remove Z.ltb 2 5 2%Z st_1234 = Ok 2%Z s' ∧ wf_state Z.ltb 2 n' tr' s' ∧
    n' ≤ 1 ∧ inorder tr_1234 = l1 ++ 2%Z :: l2 ∧ inorder tr' = l1 ++ l2.
Proof.
  apply (X2_remove_present_key Z.ltb 2 1 tr_1234 st_1234 2%Z 5);
    [lia|apply Z.ltb_irrefl|apply Zltb_trans|apply st_1234_wf|lia|].
  vm_compute. right. left.
Defined.

(** X3: [search] on a well-formed tree changes nothing and returns either
    the null location, and then no key of the tree matches, or the node
    and index of a key of the tree that matches. *)
Theorem X3_search_finds_a_match {T} (lessThan : T → T → bool) t n tr s k fuel :
  2 ≤ t →
  (∀ a b c, lessThan a b = true → lessThan b c = true → lessThan a c = true) →
  wf_state lessThan t n tr s → n < fuel → heap s !! NULL = None →
  ∃ x i, search lessThan fuel k s = Ok (x, i) s ∧
    ((x = NULL ∧ i = 0 ∧ Forall (λ w, matches lessThan k w = false) (inorder tr)) ∨
     (x ≠ NULL ∧ ∃ nd w, x ∈ addrs tr ∧ heap s !! x = Some nd ∧ i < size nd ∧
        key nd !! i = Some (Some w) ∧ w ∈ inorder tr ∧
        matches lessThan k w = true)).
Proof.
  intros Ht Htrans Hwf Hfuel Hnull.
  destruct (search_spec lessThan t Ht Htrans n tr s k fuel Hwf Hfuel Hnull)
    as ([x i] & Hs & Hres).
  exists x, i. split; [done|].
  destruct Hres as [[[= -> ->] ?]|[? ?]]; [by left|by right].
Qed.

Lemma X3_search_finds_a_match_witness :
  ∃ x i, search Z.ltb 5 4%Z st_1234 = Ok (x, i) st_1234 ∧
    ((x = NULL ∧ i = 0 ∧ Forall (λ w, matches Z.ltb 4%Z w = false) (inorder tr_1234)) ∨
     (x ≠ NULL ∧ ∃ nd w, x ∈ addrs tr_1234 ∧ heap st_1234 !! x = Some nd ∧
        i < size nd ∧ key nd !! i = Some (Some w) ∧ w ∈ inorder tr_1234 ∧
        matches Z.ltb 4%Z w = true)).
Proof.
  apply (X3_search_finds_a_match Z.ltb 2 1 tr_1234 st_1234 4%Z 5);
    [lia|apply Zltb_trans|apply st_1234_wf|lia|].
  vm_compute; reflexivity.
Defined.

(** X4: [searchKey] on a well-formed tree changes nothing; it returns a
    key of the tree that matches when there is one and throws ['s'] when
    there is none. *)
Theorem X4_searchKey_returns_the_stored_key {T} (lessThan : T → T → bool)
    t n tr s k fuel :
  2 ≤ t →
  (∀ a b c, lessThan a b = true → lessThan b c = true → lessThan a c = true) →
  wf_state lessThan t n tr s → n < fuel → heap s !! NULL = None →
  (∃ w, searchKey lessThan fuel k s = Ok w s ∧ w ∈ inorder tr ∧
        matches lessThan k w = true) ∨
  (searchKey lessThan fuel k s = Throw SEARCH_KEY_NOT_FOUND s ∧
   Forall (λ w, matches lessThan k w = false) (inorder tr)).
Proof.
  intros Ht Htrans Hwf Hfuel Hnull.
  by apply (searchKey_spec lessThan t Ht Htrans n tr s k fuel).
Qed.

Lemma X4_searchKey_returns_the_stored_key_witness :
  (∃ w, searchKey Z.ltb 5 7%Z st_1234 = Ok w st_1234 ∧ w ∈ inorder tr_1234 ∧
        matches Z.ltb 7%Z w = true) ∨
  (searchKey Z.ltb 5 7%Z st_1234 = Throw SEARCH_KEY_NOT_FOUND st_1234 ∧
   Forall (λ w, matches Z.ltb 7%Z w = false) (inorder tr_1234)).
Proof.
  apply (X4_searchKey_returns_the_stored_key Z.ltb 2 1 tr_1234 st_1234 7%Z 5);
    [lia|apply Zltb_trans|apply st_1234_wf|lia|].
  vm_compute; reflexivity.
Defined.

(** X5: after calls on an empty tree that never insert a key already
    there, on keys that the comparator orders, [searchKey] returns every
    key that was inserted and not removed since, and throws ['s'] for every
    other key. *)
Theorem X5_searchKey_after_calls {T} (lessThan : T → T → bool) t (U : list T)
    calls k fuel :
  2 ≤ t →
  (∀ a, lessThan a a = false) →
  (∀ a b c, lessThan a b = true → lessThan b c = true → lessThan a c = true) →
  (∀ a b, a ∈ U → b ∈ U → a = b ∨ lessThan a b = true ∨ lessThan b a = true) →
  Forall (λ c, call_key c ∈ U) calls → fresh_inserts lessThan [] calls →
  k ∈ U → length calls < fuel →
  ∃ s', run_calls lessThan t fuel calls (new_tree t) = Ok tt s' ∧
    (k ∈ foldl (keys_after lessThan) [] calls →
     searchKey lessThan fuel k s' = Ok k s') ∧
    (k ∉ foldl (keys_after lessThan) [] calls →
     searchKey lessThan fuel k s' = Throw SEARCH_KEY_NOT_FOUND s').
Proof.
  intros Ht Hirr Htrans Hcmp Hkeys Hfresh Hk Hfuel.
  destruct (run_from_empty lessThan t Ht Hirr Htrans U fuel calls Hcmp Hkeys
              Hfresh Hfuel) as (s' & n' & tr' & Hrun & Hwf & Hperm & Hn' & Hnull & HU).
  exists s'. split; [done|].
  destruct (searchKey_spec lessThan t Ht Htrans n' tr' s' k fuel Hwf
              ltac:(lia) (proj2 Hnull)) as [(w & Hs & Hw & Hm)|[Hs Hnone]].
  - assert (w = k) as ->.
    { apply (matches_eq lessThan); [|done]. by apply Hcmp; [apply HU|]. }
    split; [done|]. intros Hnot. destruct Hnot. by rewrite <-Hperm.
  - split; [|done]. intros Hin. rewrite <-Hperm in Hin.
    eapply Forall_forall in Hnone; [|done].
    by rewrite (matches_refl lessThan Hirr) in Hnone.
Qed.

Lemma X5_searchKey_after_calls_witness :
  ∃ s', run_calls Z.ltb 2 9 [Insert 3%Z; Insert 1%Z; Remove 3%Z; Insert 2%Z]
          (new_tree 2) = Ok tt s' ∧
    (2%Z ∈ foldl (keys_after Z.ltb) []
             [Insert 3%Z; Insert 1%Z; Remove 3%Z; Insert 2%Z] →
     searchKey Z.ltb 9 2%Z s' = Ok 2%Z s') ∧
    (2%Z ∉ foldl (keys_after Z.ltb) []
             [Insert 3%Z; Insert 1%Z; Remove 3%Z; Insert 2%Z] →
     searchKey Z.ltb 9 2%Z s' = Throw SEARCH_KEY_NOT_FOUND s').
Proof.
  apply (X5_searchKey_after_calls Z.ltb 2 [1%Z; 2%Z; 3%Z]);
    [lia|apply Z.ltb_irrefl|apply Zltb_trans| | | | |simpl; lia].
  - intros a b _ _. rewrite !Z.ltb_lt. lia.
  - repeat constructor; simpl; set_solver.
  - vm_compute. repeat split; set_solver.
  - set_solver.
Defined.

(** X6: after calls on an empty tree that never insert a key already
    there, on keys that the comparator orders, the root denotes a tree
    without shared nodes, of the shape of a B-tree, whose in-order keys are
    strictly increasing and are the keys inserted and not removed since. *)
Theorem X6_calls_keep_the_tree_well_formed {T} (lessThan : T → T → bool) t
    (U : list T) calls fuel :
  2 ≤ t →
  (∀ a, lessThan a a = false) →
  (∀ a b c, lessThan a b = true → lessThan b c = true → lessThan a c = true) →
  (∀ a b, a ∈ U → b ∈ U → a = b ∨ lessThan a b = true ∨ lessThan b a = true) →
  Forall (λ c, call_key c ∈ U) calls → fresh_inserts lessThan [] calls →
  length calls < fuel →
  ∃ s' n tr, run_calls lessThan t fuel calls (new_tree t) = Ok tt s' ∧
    tree_of (S n) (heap s') (root s') = Some tr ∧ shape t n 0 tr ∧
    NoDup (addrs tr) ∧ StronglySorted (klt lessThan) (inorder tr) ∧
    inorder tr ≡ₚ foldl (keys_after lessThan) [] calls.
Proof.
  intros Ht Hirr Htrans Hcmp Hkeys Hfresh Hfuel.
  destruct (run_from_empty lessThan t Ht Hirr Htrans U fuel calls Hcmp Hkeys
              Hfresh Hfuel) as (s' & n' & tr' & Hrun & Hwf & Hperm & _).
  destruct Hwf as [Hroot Hrep [Hnd _] Hsh Hsorted].
  exists s', n', tr'. split_and!; try done.
  - rewrite <-Hroot. apply (rep_tree_of t Ht n'); [lia|done].
  - eapply shape_weaken; [|done]. lia.
Qed.

Lemma X6_calls_keep_the_tree_well_formed_witness :
  ∃ s' n tr,
    run_calls Z.ltb 2 9 [Insert 3%Z; Insert 1%Z; Remove 3%Z; Insert 2%Z]
      (new_tree 2) = Ok tt s' ∧
    tree_of (S n) (heap s') (root s') = Some tr ∧ shape 2 n 0 tr ∧
    NoDup (addrs tr) ∧ StronglySorted (klt Z.ltb) (inorder tr) ∧
    inorder tr ≡ₚ foldl (keys_after Z.ltb) []
                    [Insert 3%Z; Insert 1%Z; Remove 3%Z; Insert 2%Z].
Proof.
  apply (X6_calls_keep_the_tree_well_formed Z.ltb 2 [1%Z; 2%Z; 3%Z]);
    [lia|apply Z.ltb_irrefl|apply Zltb_trans| | | |simpl; lia].
  - intros a b _ _. rewrite !Z.ltb_lt. lia.
  - repeat constructor; simpl; set_solver.
  - vm_compute. repeat split; set_solver.
Defined.

(** X7: whatever the state, a key that [remove] or [searchKey] returns
    matches the key asked for: neither is less than the other. *)
Theorem X7_returned_keys_match {T} (lessThan : T → T → bool) t fuel k :
  returns_only (λ v, matches lessThan k v = true) (remove lessThan t fuel k) ∧
  returns_only (λ v, matches lessThan k v = true) (searchKey lessThan fuel k).
Proof. split; [apply remove_returns|apply searchKey_returns]. Qed.

(** X8: whatever the state, [search] and [searchKey] leave it as it is,
    whether they return or throw. *)
Theorem X8_search_changes_nothing {T} (lessThan : T → T → bool) fuel k :
  keeps eq (search lessThan fuel k) ∧ keeps eq (searchKey lessThan fuel k).
Proof.
  split; [apply keeps_search|apply keeps_searchKey]; try done;
    by intros ??? -> ->.
Qed.

(** X9: whatever the state, [remove] allocates nothing: when it returns or
    throws, [malloc] has handed out no address and every node of the heap
    was there before. *)
Theorem X9_remove_allocates_nothing {T} (lessThan : T → T → bool) t fuel k :
  keeps no_malloc (remove lessThan t fuel k).
Proof.
  apply keeps_remove.
  - apply no_malloc_refl.
  - apply no_malloc_trans.
  - apply no_malloc_upd.
  - apply no_malloc_reroot.
  - apply no_malloc_free.
Qed.

(** X10: whatever the state, [insert] frees nothing and throws nothing:
    when it returns, every node of the heap before is still there. *)
Theorem X10_insert_frees_nothing {T} (lessThan : T → T → bool) t fuel k :
  keeps no_free (insert lessThan t fuel k) ∧
  ∀ e, throws_only e (insert lessThan t fuel k).
Proof.
  split; [|intros e; apply throws_only_insert].
  apply keeps_insert.
  - apply no_free_refl.
  - apply no_free_trans.
  - apply no_free_upd.
  - apply no_free_reroot.
  - apply no_free_malloc.
Qed.

(** X11: [findIndex] on a node changes nothing and returns the first index
    whose key is not less than [k] (the number of keys when there is none):
    every key before it is less than [k]. *)
Theorem X11_findIndex_first_not_less {T} (lessThan : T → T → bool) x k
    (s : @BTree T) nd ks :
  heap s !! x = Some nd → keys_are nd ks →
  ∃ i, findIndex lessThan x k s = Ok i s ∧ i ≤ length ks ∧
    Forall (λ v, lessThan v k = true) (take i ks) ∧
    (∀ w, ks !! i = Some w → lessThan w k = false).
Proof.
  intros Hx Hks.
  pose proof (wp_findIndex lessThan x k s nd ks
                (λ i s', s' = s ∧ i = find_pos lessThan k ks) (λ _ _, False)
                Hx Hks ltac:(done)) as Hfind.
  unfold wp in Hfind.
  destruct (findIndex lessThan x k s) as [i s'| | |]; try done.
  destruct Hfind as [-> ->].
  destruct (find_pos_spec lessThan k ks) as (ks1 & ks2 & -> & <- & H1 & H2).
  exists (length ks1). split; [done|]. split; [rewrite length_app; lia|].
  split; [by rewrite take_app_length|].
  intros w Hw. rewrite lookup_app_r, Nat.sub_diag in Hw by lia.
  destruct H2 as [->|(w' & Hw' & Hlt)]; [done|].
  destruct ks2; simplify_eq/=. done.
Qed.

Lemma X11_findIndex_first_not_less_witness :
  ∃ i, findIndex Z.ltb 3 4%Z st_1234 = Ok i st_1234 ∧ i ≤ length [3%Z; 4%Z] ∧
    Forall (λ v, (v <? 4)%Z = true) (take i [3%Z; 4%Z]) ∧
    (∀ w, [3%Z; 4%Z] !! i = Some w → (w <? 4)%Z = false).
Proof.
  apply (X11_findIndex_first_not_less Z.ltb 3 4%Z st_1234
           (mkBNode [0; 0; 0; 0] [Some 3%Z; Some 4%Z; None] 2 true)).
  - vm_compute; reflexivity.
  - apply keys_are_intro; reflexivity.
Defined.

(** X12: [nodeInsert] on a node that is not full puts the key behind the
    last key that is not greater than it, moves the keys and child pointers
    behind it one slot to the right (the child pointer at the index stays
    in both slots), adds one to the size, returns the index and touches no
    other node. *)
Theorem X12_nodeInsert_places_the_key {T} (lessThan : T → T → bool) t x k
    (s : @BTree T) nd ks ps :
  heap s !! x = Some nd → keys_are nd ks → kids_are nd ps → caps_ok t nd →
  length ks < 2 * t - 1 →
  ∃ idx nd', nodeInsert lessThan x k s = Ok idx (upd x nd' s) ∧ idx ≤ length ks ∧
    keys_are nd' (take idx ks ++ k :: drop idx ks) ∧
    kids_are nd' (take (S idx) ps ++ drop idx ps) ∧ leaf nd' = leaf nd ∧
    Forall (λ v, lessThan k v = true) (drop idx ks) ∧
    (∀ w, last (take idx ks) = Some w → lessThan k w = false).
Proof.
  intros Hx Hks Hps Hc Hlen.
  pose proof (wp_nodeInsert lessThan t x k s nd ks ps (λ _ _, False)
                Hx Hks Hps Hc Hlen) as Hins.
  unfold wp in Hins.
  destruct (nodeInsert lessThan x k s) as [idx s'| | |]; try done.
  destruct Hins as (-> & Hidx & nd' & -> & Hlf & Hks' & Hps' & _).
  exists (ins_pos lessThan k ks (length ks)), nd'. split_and!; try done.
  - destruct (ins_pos_spec lessThan k ks) as (ks1 & ks2 & -> & <- & H2 & _).
    by rewrite drop_app_length.
  - destruct (ins_pos_spec lessThan k ks) as (ks1 & ks2 & -> & <- & _ & H1).
    rewrite take_app_length. intros w Hw.
    destruct H1 as [->|(w' & Hw' & Hlt)]; [done|]. congruence.
Qed.

Lemma X12_nodeInsert_places_the_key_witness :
  ∃ idx nd',
    nodeInsert Z.ltb 3 3%Z st_1234 = Ok idx (upd 3 nd' st_1234) ∧
    idx ≤ length [3%Z; 4%Z] ∧
    keys_are nd' (take idx [3%Z; 4%Z] ++ 3%Z :: drop idx [3%Z; 4%Z]) ∧
    kids_are nd' (take (S idx) [0; 0; 0] ++ drop idx [0; 0; 0]) ∧
    leaf nd' = leaf (mkBNode [0; 0; 0; 0] [Some 3%Z; Some 4%Z; None] 2 true) ∧
    Forall (λ v, (3 <? v)%Z = true) (drop idx [3%Z; 4%Z]) ∧
    (∀ w, last (take idx [3%Z; 4%Z]) = Some w → (3 <? w)%Z = false).
Proof.
  apply (X12_nodeInsert_places_the_key Z.ltb 2 3 3%Z st_1234
           (mkBNode [0; 0; 0; 0] [Some 3%Z; Some 4%Z; None] 2 true)).
  - vm_compute; reflexivity.
  - apply keys_are_intro; reflexivity.
  - apply kids_are_intro; reflexivity.
  - split; reflexivity.
  - simpl; lia.
Defined.

(** X13: [nodeDelete] at an index below the size returns the key there,
    moves the keys behind it one slot to the left and the child pointers
    from the second one behind it likewise, takes one from the size and
    touches no other node. *)
Theorem X13_nodeDelete_takes_the_key {T} t x i (s : @BTree T) nd ks ps v :
  heap s !! x = Some nd → keys_are nd ks → kids_are nd ps → caps_ok t nd →
  ks !! i = Some v →
  ∃ nd', nodeDelete x i s = Ok v (upd x nd' s) ∧
    keys_are nd' (delete i ks) ∧ kids_are nd' (delete (S i) ps) ∧
    leaf nd' = leaf nd.
Proof.
  intros Hx Hks Hps Hc Hv.
  pose proof (wp_nodeDelete t x i s nd ks ps v (λ _ _, False)
                Hx Hks Hps Hc Hv) as Hdel.
  unfold wp in Hdel.
  destruct (nodeDelete x i s) as [r s'| | |]; try done.
  destruct Hdel as (-> & nd' & -> & Hlf & Hks' & Hps' & _).
  by exists nd'.
Qed.

Lemma X13_nodeDelete_takes_the_key_witness :
  ∃ nd', nodeDelete 3 0 st_1234 = Ok 3%Z (upd 3 nd' st_1234) ∧
    keys_are nd' (delete 0 [3%Z; 4%Z]) ∧ kids_are nd' (delete 1 [0; 0; 0]) ∧
    leaf nd' = leaf (mkBNode [0; 0; 0; 0] [Some 3%Z; Some 4%Z; None] 2 true).
Proof.
  apply (X13_nodeDelete_takes_the_key 2 3 0 st_1234
           (mkBNode [0; 0; 0; 0] [Some 3%Z; Some 4%Z; None] 2 true)).
  - vm_compute; reflexivity.
  - apply keys_are_intro; reflexivity.
  - apply kids_are_intro; reflexivity.
  - split; reflexivity.
  - reflexivity.
Defined.

(** X14: [splitChild] on a node that is not full, for a full child whose
    median belongs at the child's index among the node's keys by the rule
    of [nodeInsert], leaves the child with its first [t-1] keys and [t]
    subtrees, puts the rest but the median into a new node next to it,
    puts the median between the two, and touches no other node. *)
Theorem X14_splitChild_splits {T} (lessThan : T → T → bool) t n (s : @BTree T)
    x ks1 ks2 cs1 cs2 y ksy csy m :
  2 ≤ t →
  rep t (S n) (heap s) (Node x (ks1 ++ ks2) (cs1 ++ Node y ksy csy :: cs2)) →
  length cs1 = length ks1 →
  owns s (Node x (ks1 ++ ks2) (cs1 ++ Node y ksy csy :: cs2)) →
  length (ks1 ++ ks2) < 2 * t - 1 →
  length ksy = 2 * t - 1 → ksy !! (t - 1) = Some m →
  ins_pos lessThan m (ks1 ++ ks2) (length (ks1 ++ ks2)) = length ks1 →
  ∃ s', splitChild lessThan t x (length ks1) s = Ok tt s' ∧
    root s' = root s ∧ brk s' = S (brk s) ∧
    rep t (S n) (heap s')
      (Node x (ks1 ++ m :: ks2)
         (cs1 ++ Node y (take (t - 1) ksy) (take t csy) ::
                 Node (brk s) (drop t ksy) (drop t csy) :: cs2)) ∧
    (∀ q, q ≠ x → q ≠ y → q ≠ brk s → heap s' !! q = heap s !! q).
Proof.
  intros Ht Hrep Hlen [Hnd Hbrk] Hsz Hfull Hm Hpos.
  pose proof (split_tree lessThan t Ht n s x ks1 ks2 cs1 cs2 y ksy csy m
                (λ _ _, False) Hrep Hlen Hnd Hbrk Hsz Hfull Hm Hpos) as Hsplit.
  unfold wp in Hsplit.
  destruct (splitChild lessThan t x (length ks1) s) as [[] s'| | |]; try done.
  by exists s'.
Qed.

Lemma X14_splitChild_splits_witness :
  ∃ s', splitChild Z.ltb 2 2 (length [2%Z]) st_12345 = Ok tt s' ∧
    root s' = root st_12345 ∧ brk s' = S (brk st_12345) ∧
    rep 2 1 (heap s')
      (Node 2 ([2%Z] ++ 4%Z :: [])
         ([Node 1 [1%Z] []] ++
            Node 3 (take (2 - 1) [3%Z; 4%Z; 5%Z]) (take 2 []) ::
            Node (brk st_12345) (drop 2 [3%Z; 4%Z; 5%Z]) (drop 2 []) :: [])) ∧
    (∀ q, q ≠ 2 → q ≠ 3 → q ≠ brk st_12345 →
          heap s' !! q = heap st_12345 !! q).
Proof.
  apply (X14_splitChild_splits Z.ltb 2 0 st_12345 2 [2%Z] [] [Node 1 [1%Z] []] []
           3 [3%Z; 4%Z; 5%Z] [] 4%Z).
  - lia.
  - apply st_12345_wf.
  - reflexivity.
  - apply st_12345_wf.
  - simpl; lia.
  - reflexivity.
  - reflexivity.
  - reflexivity.
Defined.

(** X15: [mergeChildren] on two neighbouring children that fit into one
    node moves the key between them and the keys and subtrees of the right
    one into the left one and frees the right one; when that key was the
    node's only one, the node is freed too, the merged node becomes the
    root and the result is [NEW_ROOT]; no other node is touched. *)
Theorem X15_mergeChildren_merges {T} t n (s : @BTree T)
    p ks1 sep ks2 cs1 l ksl csl r ksr csr cs2 :
  2 ≤ t →
  rep t (S n) (heap s)
    (Node p (ks1 ++ sep :: ks2) (cs1 ++ Node l ksl csl :: Node r ksr csr :: cs2)) →
  length cs1 = length ks1 →
  NoDup (addrs (Node p (ks1 ++ sep :: ks2)
                  (cs1 ++ Node l ksl csl :: Node r ksr csr :: cs2))) →
  length ksl + length ksr + 1 ≤ 2 * t - 1 →
  ∃ res s', mergeChildren p (length ks1) s = Ok res s' ∧ brk s' = brk s ∧
    heap s' !! r = None ∧
    (∀ q, q ≠ p → q ≠ l → q ≠ r → heap s' !! q = heap s !! q) ∧
    if decide (length (ks1 ++ sep :: ks2) = 1) then
      res = NEW_ROOT ∧ root s' = l ∧ heap s' !! p = None ∧
      rep t n (heap s') (Node l (ksl ++ sep :: ksr) (csl ++ csr))
    else
      res = MODIFIED_NOT_ROOT ∧ root s' = root s ∧
      rep t (S n) (heap s')
        (Node p (ks1 ++ ks2) (cs1 ++ Node l (ksl ++ sep :: ksr) (csl ++ csr) :: cs2)).
Proof.
  intros Ht Hrep Hlen Hnd Hfit.
  pose proof (merge_tree t Ht n s p ks1 sep ks2 cs1 l ksl csl r ksr csr cs2
                (λ _ _, False) Hrep Hlen Hnd Hfit) as Hmerge.
  pose proof (merge_frees t Ht n s p ks1 sep ks2 cs1 l ksl csl r ksr csr cs2
                (λ _ _, False) Hrep Hlen Hnd Hfit) as Hfree.
  unfold wp in Hmerge, Hfree.
  destruct (mergeChildren p (length ks1) s) as [res s'| | |]; try done.
  destruct Hmerge as (Hbrk & Hframe & Hcases). destruct Hfree as [Hr Hp].
  exists res, s'. split_and!; try done.
  case_decide.
  - destruct Hcases as (-> & _ & Hroot & Hrep'). split_and!; try done. by apply Hp.
  - done.
Qed.

Lemma X15_mergeChildren_merges_witness :
  ∃ res s', mergeChildren 2 (length (@nil Z)) st_small = Ok res s' ∧
    brk s' = brk st_small ∧ heap s' !! 3 = None ∧
    (∀ q, q ≠ 2 → q ≠ 1 → q ≠ 3 → heap s' !! q = heap st_small !! q) ∧
    if decide (length ([] ++ 2%Z :: []) = 1) then
      res = NEW_ROOT ∧ root s' = 1 ∧ heap s' !! 2 = None ∧
      rep 2 0 (heap s') (Node 1 ([1%Z] ++ 2%Z :: [3%Z]) ([] ++ []))
    else
      res = MODIFIED_NOT_ROOT ∧ root s' = root st_small ∧
      rep 2 1 (heap s')
        (Node 2 ([] ++ []) ([] ++ Node 1 ([1%Z] ++ 2%Z :: [3%Z]) ([] ++ []) :: [])).
Proof.
  apply (X15_mergeChildren_merges 2 0 st_small 2 [] 2%Z [] [] 1 [1%Z] [] 3 [3%Z] [] []).
  - lia.
  - apply st_small_wf.
  - reflexivity.
  - apply st_small_wf.
  - simpl; lia.
Defined.

(** X16: in a strictly ordered tree, for a key [k] that is not in the node
    and belongs under child [i = findIndex(k)], [fixChildSize] returns,
    keeps the in-order keys, and afterwards either the merged node is the
    new root and has at least [t] keys, or the child that [findIndex] now
    selects for [k] has at least [t] keys. *)
Theorem X16_fixChildSize_fills_the_child {T} (lessThan : T → T → bool) t n
    (s : @BTree T) p ks cs lo k :
  2 ≤ t →
  (∀ a, lessThan a a = false) →
  (∀ a b c, lessThan a b = true → lessThan b c = true → lessThan a c = true) →
  rep t (S n) (heap s) (Node p ks cs) → owns s (Node p ks cs) →
  shape t (S n) lo (Node p ks cs) → 1 ≤ length ks →
  StronglySorted (klt lessThan) (inorder (Node p ks cs)) →
  (∀ w, ks !! find_pos lessThan k ks = Some w → lessThan k w = true) →
  ∃ res s' tr',
    fixChildSize lessThan t p (find_pos lessThan k ks) s = Ok res s' ∧
    inorder tr' = inorder (Node p ks cs) ∧
    if decide (res = NEW_ROOT) then
      length ks = 1 ∧ root s' = addr_of tr' ∧ rep t n (heap s') tr' ∧ t ≤ nkeys tr'
    else
      root s' = root s ∧ addr_of tr' = p ∧ rep t (S n) (heap s') tr' ∧
      ∃ c, kids_of tr' !! find_pos lessThan k (keys_of tr') = Some c ∧ t ≤ nkeys c.
Proof.
  intros Ht Hirr Htrans Hrep Hown Hsh H1 Hsorted Hnext.
  destruct (find_pos_spec lessThan k ks) as (ka & kb & Hks & Hlen & Hbefore & _).
  assert (find_pos lessThan k ks ≤ length ks) as Hi.
  { rewrite <-Hlen, Hks, length_app. lia. }
  pose proof (fix_step lessThan t Ht Hirr Htrans n s p ks cs
                (find_pos lessThan k ks) lo (λ _ _, False)
                Hrep Hown Hsh Hi H1 Hsorted) as Hfix.
  unfold wp in Hfix.
  destruct (fixChildSize lessThan t p (find_pos lessThan k ks) s)
    as [res s'| | |]; try done.
  destruct Hfix as (tr' & _ & Hin & Hcases). exists res, s', tr'.
  split; [done|]. split; [done|].
  destruct Hcases as [(-> & Hone & Hroot & Hrep' & Hsh')|
    (Hres & Hroot & Hrep' & ks1 & ks2 & cs1 & a & cs2 & -> & Hl1 & Hrich & _ &
     _ & _ & _ & Hpos)].
  - rewrite decide_True by done. split_and!; try done.
    by apply (shape_nkeys t) in Hsh' as [? _].
  - rewrite decide_False by done. split_and!; try done.
    exists a. split; [|done]. simpl.
    destruct (Hpos k) as [Hb1 Hb2].
    { rewrite <-Hlen, Hks, take_app_length. exact Hbefore. }
    { rewrite <-Hlen in Hnext |- *. rewrite Hks in Hnext |- *.
      rewrite drop_app_length.
      destruct kb as [|w kb]; [by left|right]. exists w. split; [done|].
      apply Hnext. by apply list_lookup_middle. }
    rewrite (find_pos_app lessThan k ks1 ks2); [by apply list_lookup_middle|done|].
    destruct Hb2 as [->|(w & Hw & Hkw)]; [by left|right].
    exists w. split; [done|]. by apply (klt_asym lessThan Hirr Htrans).
Qed.

Lemma X16_fixChildSize_fills_the_child_witness :
  ∃ res s' tr',
    fixChildSize Z.ltb 2 2 (find_pos Z.ltb 0%Z [2%Z]) st_1234 = Ok res s' ∧
    inorder tr' = inorder tr_1234 ∧
    if decide (res = NEW_ROOT) then
      length [2%Z] = 1 ∧ root s' = addr_of tr' ∧ rep 2 0 (heap s') tr' ∧
      2 ≤ nkeys tr'
    else
      root s' = root st_1234 ∧ addr_of tr' = 2 ∧ rep 2 1 (heap s') tr' ∧
      ∃ c, kids_of tr' !! find_pos Z.ltb 0%Z (keys_of tr') = Some c ∧ 2 ≤ nkeys c.
Proof.
  apply (X16_fixChildSize_fills_the_child Z.ltb 2 0 st_1234 2 [2%Z]
           [Node 1 [1%Z] []; Node 3 [3%Z; 4%Z] []] 1 0%Z).
  - lia.
  - apply Z.ltb_irrefl.
  - apply Zltb_trans.
  - apply st_1234_wf.
  - apply st_1234_wf.
  - apply st_1234_wf.
  - simpl; lia.
  - apply st_1234_wf.
  - intros w [= <-]. reflexivity.
Defined.

(** X17: the destructor on a well-formed tree frees the nodes of the tree
    and nothing else. *)
Theorem X17_destructor_frees_the_tree {T} (lessThan : T → T → bool) t n tr
    (s : @BTree T) fuel :
  2 ≤ t → wf_state lessThan t n tr s → n ≤ fuel →
  ∃ s', BTree_delete fuel s = Ok tt s' ∧ brk s' = brk s ∧
    ∀ q, heap s' !! q = if decide (q ∈ addrs tr) then None else heap s !! q.
Proof.
  intros Ht [Hroot Hrep [Hnd _] _ _] Hfuel.
  pose proof (freeNode_spec t Ht n fuel s tr (λ _ _, False) Hfuel Hrep Hnd) as Hfree.
  unfold wp in Hfree. rewrite Hroot in Hfree.
  change (BTree_delete fuel s) with (freeNode fuel (root s) s).
  destruct (freeNode fuel (root s) s) as [[] s'| | |]; try done.
  exists s'. by destruct Hfree as (_ & ? & ?).
Qed.

Lemma X17_destructor_frees_the_tree_witness :
  ∃ s', BTree_delete 1 st_1234 = Ok tt s' ∧ brk s' = brk st_1234 ∧
    ∀ q, heap s' !! q =
         if decide (q ∈ addrs tr_1234) then None else heap st_1234 !! q.
Proof.
  apply (X17_destructor_frees_the_tree Z.ltb 2 1 tr_1234 st_1234 1);
    [lia|apply st_1234_wf|lia].
Defined.

(** X18: [print] on a well-formed tree changes nothing.  With a [printKey]
    it prints an empty line, one line per node, parents before children,
    each node indented by its depth and each key followed by a space, and
    an empty line; every key of the tree is printed once.  Without a
    [printKey] it prints nothing. *)
Theorem X18_print_lists_the_keys {T} (lessThan : T → T → bool) t n tr
    (s : @BTree T) fuel :
  2 ≤ t → wf_state lessThan t n tr s → n ≤ fuel → root s ≠ NULL →
  print true fuel s = Ok (Printf NEWLINE :: layout 0 tr ++ [Printf NEWLINE]) s ∧
  out_keys (layout 0 tr) ≡ₚ inorder tr ∧
  print false fuel s = Ok [] s.
Proof.
  intros Ht [Hroot Hrep _ _ _] Hfuel Hnull. split; [|split; [|done]].
  - pose proof (printNode_spec t Ht n fuel s tr 0 (λ _ _, False) Hfuel Hrep)
      as Hprint.
    unfold wp in Hprint. rewrite Hroot in Hprint.
    unfold print, bind, get_root.
    rewrite bool_decide_eq_false_2 by done. simpl.
    destruct (printNode fuel (root s) 0 s) as [o s'| | |]; try done.
    by destruct Hprint as [-> ->].
  - by eapply (out_keys_layout t Ht).
Qed.

Lemma X18_print_lists_the_keys_witness :
  print true 1 st_1234 =
    Ok (Printf NEWLINE :: layout 0 tr_1234 ++ [Printf NEWLINE]) st_1234 ∧
  out_keys (layout 0 tr_1234) ≡ₚ inorder tr_1234 ∧
  print false 1 st_1234 = Ok [] st_1234.
Proof.
  apply (X18_print_lists_the_keys Z.ltb 2 1 tr_1234 st_1234 1);
    [lia|apply st_1234_wf|lia|].
  vm_compute. lia.
Defined.

(** X19: on a well-formed tree, inserting a key that the comparator tells
    apart from every key of the tree and then removing it returns the key
    and leaves a well-formed tree with the in-order keys from before. *)
Theorem X19_insert_then_remove {T} (lessThan : T → T → bool) t n tr s k fuel :
  2 ≤ t →
  (∀ a, lessThan a a = false) →
  (∀ a b c, lessThan a b = true → lessThan b c = true → lessThan a c = true) →
  wf_state lessThan t n tr s → S (S n) ≤ fuel →
  Forall (λ e, lessThan e k = true ∨ lessThan k e = true) (inorder tr) →
  ∃ s1 s2 n2 tr2,
    insert lessThan t fuel k s = Ok tt s1 ∧ remove lessThan t fuel k s1 = Ok k s2 ∧
    wf_state lessThan t n2 tr2 s2 ∧ inorder tr2 = inorder tr.
Proof.
  intros Ht Hirr Htrans Hwf Hfuel Hcmp.
  pose proof (insert_spec lessThan t Ht Hirr Htrans n s tr k fuel (λ _ _, False)
                Hwf ltac:(lia) Hcmp) as Hins.
  unfold wp in Hins.
  destruct (insert lessThan t fuel k s) as [[] s1| | |]; try done.
  destruct Hins as (n1 & tr1 & Hwf1 & Hn1 & l1 & l2 & H1 & H2 & Hb1 & Hb2).
  assert (Forall (λ e, e = k ∨ klt lessThan e k ∨ klt lessThan k e) (inorder tr1))
    as Hcmp1.
  { rewrite H2. apply Forall_app. split; [|apply Forall_cons; split].
    - eapply Forall_impl; [exact Hb1|]. intros e He. right. by left.
    - by left.
    - eapply Forall_impl; [exact Hb2|]. intros e He. right. by right. }
  pose proof (remove_spec lessThan t Ht Hirr Htrans n1 s1 tr1 k fuel Hwf1
                ltac:(lia) Hcmp1) as Hrm.
  unfold wp in Hrm.
  destruct (remove lessThan t fuel k s1) as [v s2|e s2| |] eqn:Hrun; try done.
  - destruct Hrm as (-> & _ & n2 & tr2 & Hwf2 & _ & Hin2).
    exists s1, s2, n2, tr2. split_and!; try done.
    rewrite Hin2, H2, H1. by apply without_present.
  - destruct Hrm as (_ & Hnot & _). destruct Hnot. rewrite H2.
    apply elem_of_app. right. left.
Qed.

Lemma X19_insert_then_remove_witness :
  ∃ s1 s2 n2 tr2,
    insert Z.ltb 2 5 7%Z st_1234 = Ok tt s1 ∧ remove Z.ltb 2 5 7%Z s1 = Ok 7%Z s2 ∧
    wf_state Z.ltb 2 n2 tr2 s2 ∧ inorder tr2 = inorder tr_1234.
Proof.
  apply (X19_insert_then_remove Z.ltb 2 1 tr_1234 st_1234 7%Z 5);
    [lia|apply Z.ltb_irrefl|apply Zltb_trans|apply st_1234_wf|lia|].
  vm_compute. repeat constructor; by left.
Defined.

(** X20: a well-formed tree of height [n] above its leaves, if not a
    single leaf, holds at least [2 t^n - 1] keys, and [search] is done
    after at most [n + 1] turns of its loop. *)
Theorem X20_height_is_logarithmic {T} (lessThan : T → T → bool) t n tr s k :
  2 ≤ t →
  (∀ a b c, lessThan a b = true → lessThan b c = true → lessThan a c = true) →
  wf_state lessThan t n tr s →
  (n = 0 ∨ 2 * t ^ n ≤ S (length (inorder tr))) ∧
  ∃ res, search lessThan (S n) k s = Ok res s.
Proof.
  intros Ht Htrans Hwf. split.
  - destruct Hwf as [_ _ _ Hsh _]. destruct n as [|n]; [by left|right].
    by apply (root_size t Ht).
  - destruct Hwf as [Hroot Hrep _ _ Hsorted].
    pose proof (search_loop_spec lessThan t Ht Htrans (S n) n s tr k
                  (λ _ _, False) ltac:(lia) Hrep Hsorted) as Hloop.
    unfold search, bind, get_root. rewrite <-Hroot. unfold wp in Hloop.
    destruct (search_loop lessThan (S n) (addr_of tr) k s) as [res s'| | |];
      try done.
    destruct Hloop as [-> _]. by exists res.
Qed.

Lemma X20_height_is_logarithmic_witness :
  (1 = 0 ∨ 2 * 2 ^ 1 ≤ S (length (inorder tr_1234))) ∧
  ∃ res, search Z.ltb 2 4%Z st_1234 = Ok res st_1234.
Proof.
  apply (X20_height_is_logarithmic Z.ltb 2 1 tr_1234 st_1234 4%Z);
    [lia|apply Zltb_trans|apply st_1234_wf].
Defined.

(** X21: whatever the state, the constructor returns with a new root that
    is a leaf without keys, with room for [2t - 1] keys and [2t] child
    pointers, which is a well-formed tree; the nodes of the state before
    are as they were. *)
Theorem X21_constructor_makes_an_empty_tree {T} (lessThan : T → T → bool) t
    (s : @BTree T) :
  ∃ s' nd, BTree_new t s = Ok tt s' ∧ root s' = brk s ∧
    heap s' !! brk s = Some nd ∧ leaf nd = true ∧ size nd = 0 ∧
    length (key nd) = 2 * t - 1 ∧ length (child nd) = 2 * t ∧
    wf_state lessThan t 0 (Node (brk s) [] []) s' ∧
    (∀ q, q ≠ brk s → heap s' !! q = heap s !! q).
Proof.
  unfold BTree_new, bind, malloc, set_root, initializeNode, set_leaf, bind,
    load, store, reroot, upd. simpl.
  rewrite !lookup_insert_eq. simpl. rewrite !lookup_insert_eq. simpl.
  eexists. eexists. split; [reflexivity|]. simpl.
  split; [done|]. split; [apply lookup_insert_eq|]. simpl.
  split; [done|]. split; [done|].
  split; [by rewrite length_replicate|]. split; [by rewrite length_replicate|].
  split.
  - split; simpl.
    + done.
    + eexists. split; [apply lookup_insert_eq|]. simpl.
      split; [by split|]. split; [|done].
      split; simpl; by rewrite length_replicate.
    + split; simpl; [apply NoDup_singleton|]. apply Forall_singleton. lia.
    + split; [simpl; lia|done].
    + constructor.
  - intros q Hq. by rewrite !lookup_insert_ne by done.
Qed.

(** X22: [splitChild] for a child whose median [nodeInsert] puts two or
    more slots behind the child's index (the node has two keys from that
    index on that are not greater than the median) leaves the node with the
    same child pointer in two neighbouring slots and without the pointer it
    had behind the split child. *)
Theorem X22_splitChild_shares_a_child {T} (lessThan : T → T → bool) t x i y
    (s : @BTree T) ndx ksx psx ndy ksy psy m :
  1 ≤ t →
  heap s !! x = Some ndx → keys_are ndx ksx → kids_are ndx psx →
  caps_ok t ndx → length ksx < 2 * t - 1 → psx !! i = Some y →
  heap s !! y = Some ndy → keys_are ndy ksy → kids_are ndy psy →
  caps_ok t ndy → length ksy = 2 * t - 1 → ksy !! (t - 1) = Some m →
  x ≠ y → x < brk s → y < brk s →
  NoDup psx → Forall (λ c, c < brk s) psx →
  i + 2 ≤ ins_pos lessThan m ksx (length ksx) →
  ∃ s' ndx', splitChild lessThan t x i s = Ok tt s' ∧
    heap s' !! x = Some ndx' ∧ size ndx' = S (length ksx) ∧
    (∃ c, child ndx' !! ins_pos lessThan m ksx (length ksx) = Some c ∧
          child ndx' !! S (ins_pos lessThan m ksx (length ksx)) = Some c ∧
          S (ins_pos lessThan m ksx (length ksx)) ≤ size ndx') ∧
    (∀ c j, psx !! S i = Some c → j ≤ size ndx' → child ndx' !! j ≠ Some c).
Proof.
  intros Ht Hx Hksx Hpsx Hcx Hltx Hi Hy Hksy Hpsy Hcy Hfull Hm Hxy Hxb Hyb
    Hnd Hold Hpos.
  pose proof (wp_splitChild lessThan t x i y s ndx ksx psx ndy ksy psy m
                (λ _ _, False) Ht Hx Hksx Hpsx Hcx Hltx Hi Hy Hksy Hpsy Hcy
                Hfull Hm Hxy Hxb Hyb) as Hsplit.
  unfold wp in Hsplit.
  destruct (splitChild lessThan t x i s) as [[] s'| | |]; try done.
  cbv zeta in Hsplit.
  destruct Hsplit as (ndx' & ndy' & ndz & -> & _ & _ & _ & _ & _ & _ & _ & _ & _ &
    [Hsz' _] & [Hlen' Hps'] & _).
  pose proof (ins_pos_le lessThan m ksx (length ksx)) as Hle.
  set (idx := ins_pos lessThan m ksx (length ksx)) in *.
  destruct Hpsx as [Hlenx _]. destruct Hksx as [Hszx _].
  assert (idx < length psx) as Hidx by lia.
  assert (∀ j, (<[S i := brk s]> (take (S idx) psx ++ drop idx psx)) !! j =
               if decide (j = S i) then Some (brk s)
               else if decide (j ≤ idx) then psx !! j else psx !! (j - 1)) as Hlook.
  { intros j. rewrite list_lookup_insert, length_dup_at by done.
    destruct (decide (j = S i)) as [->|Hne].
    - rewrite decide_True; [done|]. split; [done|lia].
    - rewrite decide_False by (intros [? _]; congruence).
      by apply lookup_dup_at. }
  eexists _, ndx'. split; [done|]. split; [apply heap_upd_eq|].
  rewrite length_insert_at in Hsz'. split; [done|]. split.
  - destruct (lookup_lt_is_Some_2 psx idx Hidx) as [c Hc]. exists c.
    split; [|split; [|lia]]; apply Hps'; rewrite Hlook.
    + rewrite decide_False, decide_True by lia. done.
    + rewrite decide_False, decide_False by lia.
      by replace (S idx - 1) with idx by lia.
  - intros c j Hc Hj Hcj.
    assert (j < length (<[S i := brk s]> (take (S idx) psx ++ drop idx psx)))
      as Hjlen by lia.
    destruct (lookup_lt_is_Some_2 _ _ Hjlen) as [c' Hc'].
    pose proof (Hps' j c' Hc') as Hcj'. rewrite Hcj in Hcj'.
    injection Hcj' as <-. rewrite Hlook in Hc'.
    destruct (decide (j = S i)) as [->|Hne].
    + injection Hc' as <-. eapply Forall_lookup in Hold; [|done]. lia.
    + destruct (decide (j ≤ idx)).
      * pose proof (NoDup_lookup _ _ _ _ Hnd Hc Hc'). lia.
      * pose proof (NoDup_lookup _ _ _ _ Hnd Hc Hc'). lia.
Qed.

Lemma X22_splitChild_shares_a_child_witness :
  ∃ s' ndx', splitChild Z.ltb 2 2 0 st_equal_keys = Ok tt s' ∧
    heap s' !! 2 = Some ndx' ∧ size ndx' = S (length [2%Z; 2%Z]) ∧
    (∃ c, child ndx' !! ins_pos Z.ltb 2%Z [2%Z; 2%Z] (length [2%Z; 2%Z]) = Some c ∧
          child ndx' !! S (ins_pos Z.ltb 2%Z [2%Z; 2%Z] (length [2%Z; 2%Z])) = Some c ∧
          S (ins_pos Z.ltb 2%Z [2%Z; 2%Z] (length [2%Z; 2%Z])) ≤ size ndx') ∧
    (∀ c j, [1; 4; 5] !! S 0 = Some c → j ≤ size ndx' → child ndx' !! j ≠ Some c).
Proof.
  apply (X22_splitChild_shares_a_child Z.ltb 2 2 0 1 st_equal_keys
           (mkBNode [1; 4; 5; 5] [Some 2%Z; Some 2%Z; Some 2%Z] 2 false)
           [2%Z; 2%Z] [1; 4; 5]
           (mkBNode [0; 0; 0; 0] [Some 1%Z; Some 2%Z; Some 2%Z] 3 true)
           [1%Z; 2%Z; 2%Z] [0; 0; 0; 0] 2%Z).
  - lia.
  - vm_compute; reflexivity.
  - apply keys_are_intro; reflexivity.
  - apply kids_are_intro; reflexivity.
  - split; reflexivity.
  - simpl; lia.
  - reflexivity.
  - vm_compute; reflexivity.
  - apply keys_are_intro; reflexivity.
  - apply kids_are_intro; reflexivity.
  - split; reflexivity.
  - reflexivity.
  - reflexivity.
  - lia.
  - vm_compute; lia.
  - vm_compute; lia.
  - repeat constructor; set_solver.
  - vm_compute. repeat constructor.
  - vm_compute; lia.
Defined.
